(** * PacmanIST server (OS_Pacman, Project_2): a shallow embedding

  The development follows the C sources:
  - [include/protocol.h]   wire messages                  ([Protocol])
  - [src/server/main.c]    dispatch queue, acceptor,
                           worker pool, score report      ([Dispatch],
                                                           [Acceptor],
                                                           [Scores],
                                                           [Levels])
  - [src/board.c]          movement rule engine           ([Board])
  - [src/server/game.c]    per-stage threads, the runner  ([Game],
                                                           [Runner])

  C [int] values are integers in [Z]; where the code computes with
  them the two's-complement wrap-around is written out ([wrap32]).
  Characters are [ascii]; fixed [char] arrays are [list ascii]. *)

From Stdlib Require Import ZArith Lia List Ascii String Bool.
From stdpp Require Import base tactics option list sorting.

(** ** C integers *)

Module CInt.
Local Open Scope Z_scope.

Definition INT_MAX : Z := 2147483647.
Definition INT_MIN : Z := -2147483648.

Definition in_int (z : Z) : Prop := INT_MIN <= z <= INT_MAX.

(** Two's-complement reduction of a mathematical integer to [int]. *)
Definition wrap32 (z : Z) : Z := (z + 2147483648) mod 4294967296 - 2147483648.

Definition iadd (a b : Z) : Z := wrap32 (a + b).
Definition isub (a b : Z) : Z := wrap32 (a - b).
Definition imul (a b : Z) : Z := wrap32 (a * b).
End CInt.

(** ** C arrays: reads and writes are defined inside the array only *)

Module CArray.
Local Open Scope Z_scope.

(** [arr[i]] as an rvalue; [None] outside the array. *)
Definition slot {A} (arr : list A) (i : Z) : option A :=
  if 0 <=? i then arr !! Z.to_nat i else None.

(** [arr[i] = v]; [None] outside the array. *)
Definition store {A} (arr : list A) (i : Z) (v : A) : option (list A) :=
  match slot arr i with
  | Some _ => Some (<[Z.to_nat i := v]> arr)
  | None => None
  end.
End CArray.

(** ** Wire protocol ([protocol.h]) *)

Module Protocol.
Local Open Scope Z_scope.

Definition OP_CONNECT : Z := 1.
Definition OP_DISCONNECT : Z := 2.
Definition OP_MOVE : Z := 3.
Definition OP_UPDATE : Z := 4.

Definition PIPE_NAME_SIZE : nat := 40.

(** [connect_req_t]: 1 + 40 + 40 bytes. *)
Record connect_req_t := {
  creq_op_code : Z;
  creq_req_pipe : list ascii;
  creq_notif_pipe : list ascii
}.

(** [connect_resp_t]: 1 + 1 bytes. *)
Record connect_resp_t := {
  cresp_op_code : Z;
  cresp_result : Z
}.

(** [move_req_t]: 1 + 1 bytes. *)
Record move_req_t := {
  op_code : Z;
  key : ascii
}.

Definition sizeof_connect_req_t : Z := 81.
Definition sizeof_connect_resp_t : Z := 2.
Definition sizeof_disconnect_req_t : Z := 1.
Definition sizeof_move_req_t : Z := 2.

Definition NUL : ascii := Ascii.zero.

(** [strncpy(dst, src, n)]: the bytes of [src] up to its first NUL,
    then NUL padding, [n] bytes in all. *)
Fixpoint strncpy (src : list ascii) (n : nat) : list ascii :=
  match n with
  | O => []
  | S n' =>
      match src with
      | [] => replicate n NUL
      | c :: src' =>
          if Ascii.eqb c NUL then replicate n NUL
          else c :: strncpy src' n'
      end
  end.
End Protocol.

(** ** Dispatch queue ([main.c]: [session_buffer], [sem_empty], [sem_full]) *)

Module Dispatch.
Import CInt CArray Protocol.
Local Open Scope Z_scope.

Record game_session_t := {
  req_pipe : list ascii;
  notif_pipe : list ascii
}.

Definition zero_session : game_session_t :=
  {| req_pipe := replicate PIPE_NAME_SIZE NUL;
     notif_pipe := replicate PIPE_NAME_SIZE NUL |}.

(** The globals of [main.c] that make up the producer-consumer buffer.
    [buffer_mutex] is not a field: each critical section below is one
    atomic transition, which is what the mutex provides. *)
Record queue := {
  session_buffer : list game_session_t;
  buffer_size : Z;
  buffer_in : Z;
  buffer_out : Z;
  sem_empty : Z;
  sem_full : Z
}.

(** What the two [strncpy] calls of lines 1515-1517 leave in a slot. *)
Definition session_of_req (req : connect_req_t) : game_session_t :=
  {| req_pipe := strncpy (creq_req_pipe req) PIPE_NAME_SIZE;
     notif_pipe := strncpy (creq_notif_pipe req) PIPE_NAME_SIZE |}.

(** [sem_wait]: takes a permit when one is there; [None] is a caller
    that stays blocked. *)
Definition sem_wait (v : Z) : option Z :=
  if 0 <? v then Some (v - 1) else None.

Definition sem_post (v : Z) : Z := v + 1.

(** Acceptor, [main] lines 1514-1519: under [buffer_mutex], copy both
    pipe names into [session_buffer[buffer_in]] and advance [buffer_in].
    [None] is undefined behaviour (index outside the array, [% 0]). *)
Definition enqueue_critical (req : connect_req_t) (q : queue) : option queue :=
  match slot (session_buffer q) (buffer_in q) with
  | None => None
  | Some _ =>
      if buffer_size q =? 0 then None
      else
        Some {| session_buffer :=
                  <[Z.to_nat (buffer_in q) := session_of_req req]> (session_buffer q);
                buffer_size := buffer_size q;
                buffer_in := Z.rem (iadd (buffer_in q) 1) (buffer_size q);
                buffer_out := buffer_out q;
                sem_empty := sem_empty q;
                sem_full := sem_full q |}
  end.

(** Worker, [worker_task] lines 1300-1303: under [buffer_mutex], copy
    [session_buffer[buffer_out]] out and advance [buffer_out]. *)
Definition dequeue_critical (q : queue) : option (game_session_t * queue) :=
  match slot (session_buffer q) (buffer_out q) with
  | None => None
  | Some session =>
      if buffer_size q =? 0 then None
      else
        Some (session,
              {| session_buffer := session_buffer q;
                 buffer_size := buffer_size q;
                 buffer_in := buffer_in q;
                 buffer_out := Z.rem (iadd (buffer_out q) 1) (buffer_size q);
                 sem_empty := sem_empty q;
                 sem_full := sem_full q |})
  end.

Definition set_sem_empty (v : Z) (q : queue) : queue :=
  {| session_buffer := session_buffer q; buffer_size := buffer_size q;
     buffer_in := buffer_in q; buffer_out := buffer_out q;
     sem_empty := v; sem_full := sem_full q |}.

Definition set_sem_full (v : Z) (q : queue) : queue :=
  {| session_buffer := session_buffer q; buffer_size := buffer_size q;
     buffer_in := buffer_in q; buffer_out := buffer_out q;
     sem_empty := sem_empty q; sem_full := v |}.

(** Where the acceptor stands in its enqueue (lines 1513-1520). *)
Inductive acceptor_pc :=
| AIdle                          (* not enqueueing *)
| AHolding (req : connect_req_t) (* past [sem_wait(&sem_empty)] *)
| AWritten.                      (* past the critical section, before [sem_post(&sem_full)] *)

(** Where a worker stands in its dequeue (lines 1299-1304). *)
Inductive worker_pc :=
| WIdle                              (* before [sem_wait(&sem_full)], or serving its session *)
| WHolding                           (* past [sem_wait(&sem_full)] *)
| WTaken (session : game_session_t). (* past the critical section, before [sem_post(&sem_empty)] *)

(** History variables; no transition reads them to decide anything.
    [slot_ticket] remembers, per slot, the number of the enqueue that
    last wrote it; [dequeued] logs what each worker's critical section
    found in the slot it read. *)
Record history := {
  slot_ticket : list nat;
  enqueued : list game_session_t;
  dequeued : list (nat * nat * game_session_t)
}.

Record server := {
  q : queue;
  acc : acceptor_pc;
  workers : list worker_pc;
  hist : history
}.

(** [main] lines 1450-1464 and [create_threads(max_games)]: the buffer,
    the semaphores and the pool are all sized by [max_games].  A
    negative size makes [calloc]/[sem_init] fail and the process exit. *)
Definition main_init (max_games : Z) : option server :=
  if (0 <=? max_games) && (max_games <=? INT_MAX) then
    Some {| q := {| session_buffer := replicate (Z.to_nat max_games) zero_session;
                    buffer_size := max_games;
                    buffer_in := 0;
                    buffer_out := 0;
                    sem_empty := max_games;
                    sem_full := 0 |};
            acc := AIdle;
            workers := replicate (Z.to_nat max_games) WIdle;
            hist := {| slot_ticket := replicate (Z.to_nat max_games) O;
                       enqueued := [];
                       dequeued := [] |} |}
  else None.

Inductive label :=
| acc_sem_wait (req : connect_req_t)
| acc_critical
| acc_sem_post
| wrk_sem_wait (i : nat)
| wrk_critical (i : nat)
| wrk_sem_post (i : nat).

Definition step (l : label) (s : server) : option server :=
  match l with
  | acc_sem_wait req =>
      match acc s with
      | AIdle =>
          v ← sem_wait (sem_empty (q s));
          Some {| q := set_sem_empty v (q s); acc := AHolding req;
                  workers := workers s; hist := hist s |}
      | _ => None
      end
  | acc_critical =>
      match acc s with
      | AHolding req =>
          q' ← enqueue_critical req (q s);
          let r := session_of_req req in
          Some {| q := q'; acc := AWritten; workers := workers s;
                  hist := {| slot_ticket :=
                               <[Z.to_nat (buffer_in (q s)) := length (enqueued (hist s))]>
                                 (slot_ticket (hist s));
                             enqueued := enqueued (hist s) ++ [r];
                             dequeued := dequeued (hist s) |} |}
      | _ => None
      end
  | acc_sem_post =>
      match acc s with
      | AWritten =>
          Some {| q := set_sem_full (sem_post (sem_full (q s))) (q s);
                  acc := AIdle; workers := workers s; hist := hist s |}
      | _ => None
      end
  | wrk_sem_wait i =>
      match workers s !! i with
      | Some WIdle =>
          v ← sem_wait (sem_full (q s));
          Some {| q := set_sem_full v (q s); acc := acc s;
                  workers := <[i := WHolding]> (workers s); hist := hist s |}
      | _ => None
      end
  | wrk_critical i =>
      match workers s !! i with
      | Some WHolding =>
          '(session, q') ← dequeue_critical (q s);
          t ← slot (slot_ticket (hist s)) (buffer_out (q s));
          Some {| q := q'; acc := acc s;
                  workers := <[i := WTaken session]> (workers s);
                  hist := {| slot_ticket := slot_ticket (hist s);
                             enqueued := enqueued (hist s);
                             dequeued := dequeued (hist s) ++ [(i, t, session)] |} |}
      | _ => None
      end
  | wrk_sem_post i =>
      match workers s !! i with
      | Some (WTaken _) =>
          Some {| q := set_sem_empty (sem_post (sem_empty (q s))) (q s);
                  acc := acc s;
                  workers := <[i := WIdle]> (workers s); hist := hist s |}
      | _ => None
      end
  end.

(** States the server can be in after [main] initialised the queue for
    a pool of [max_games] workers. *)
Inductive reachable (max_games : Z) : server -> Prop :=
| reach_init s : main_init max_games = Some s -> reachable max_games s
| reach_step s l s' :
    reachable max_games s -> step l s = Some s' -> reachable max_games s'.

(** Executable form: run a schedule from the initial state. *)
Fixpoint run (sched : list label) (s : server) : option server :=
  match sched with
  | [] => Some s
  | l :: sched' => s' ← step l s; run sched' s'
  end.

Fixpoint sumZ {A} (f : A -> Z) (l : list A) : Z :=
  match l with
  | [] => 0
  | a :: l' => f a + sumZ f l'
  end.

Definition holding (w : worker_pc) : Z :=
  match w with WHolding => 1 | _ => 0 end.
Definition taken (w : worker_pc) : Z :=
  match w with WTaken _ => 1 | _ => 0 end.

(** Permits taken from a semaphore and not yet handed to the other one. *)
Definition pending_full (s : server) : Z :=
  (match acc s with AWritten => 1 | _ => 0 end) + sumZ holding (workers s).
Definition pending_empty (s : server) : Z :=
  (match acc s with AHolding _ => 1 | _ => 0 end) + sumZ taken (workers s).

(** A slot is occupied from the acceptor's write until a worker's read:
    the permits in [sem_full], the record written but not yet posted,
    and the permits workers hold but have not read with.  The other
    slots are free. *)
Definition occupied_slots (s : server) : Z := sem_full (q s) + pending_full s.
Definition free_slots (s : server) : Z := sem_empty (q s) + pending_empty s.

Definition capacity (s : server) : Z := buffer_size (q s).

(** No enqueue or dequeue is under way. *)
Definition quiescent (s : server) : Prop :=
  acc s = AIdle /\ Forall (fun w => w = WIdle) (workers s).

Definition ticket_of (d : nat * nat * game_session_t) : nat := d.1.2.
Definition record_of (d : nat * nat * game_session_t) : game_session_t := d.2.
Definition worker_of (d : nat * nat * game_session_t) : nat := d.1.1.

(** Enqueues whose [sem_post(&sem_full)] has returned. *)
Definition completed_enqueues (s : server) : nat :=
  (length (enqueued (hist s)) - match acc s with AWritten => 1 | _ => 0 end)%nat.

(** A small run: a pool of two, one session accepted and handed to
    worker 0, a second one written but not yet posted. *)
Definition demo_req (n : string) : connect_req_t :=
  {| creq_op_code := OP_CONNECT;
     creq_req_pipe := list_ascii_of_string ("/tmp/req" ++ n);
     creq_notif_pipe := list_ascii_of_string ("/tmp/notif" ++ n) |}.

Definition demo_sched : list label :=
  [acc_sem_wait (demo_req "1"); acc_critical; acc_sem_post;
   wrk_sem_wait 0; acc_sem_wait (demo_req "2"); wrk_critical 0;
   acc_critical; wrk_sem_post 0].

Definition demo_state : option server :=
  Eval vm_compute in (s ← main_init 2; run demo_sched s).

(** The same run cut after its fifth step: the acceptor holds the
    mutex to write the second session, worker 0 holds it to read the
    first. *)
Definition demo_holding : option server :=
  Eval vm_compute in (s ← main_init 2; run (take 5 demo_sched) s).
End Dispatch.

(** ** Movement rule engine ([board.h], [board.c]) *)

Module Board.
Import CInt CArray.
Local Open Scope Z_scope.

Definition MAX_MOVES : Z := 20.

(** Game control codes. *)
Definition CONTINUE_PLAY : Z := 0.
Definition NEXT_LEVEL : Z := 1.
Definition QUIT_GAME : Z := 2.
Definition LOAD_BACKUP : Z := 3.
Definition CREATE_BACKUP : Z := 4.

(** [move_t]. *)
Definition REACHED_PORTAL : Z := 1.
Definition VALID_MOVE : Z := 0.
Definition INVALID_MOVE : Z := -1.
Definition DEAD_PACMAN : Z := -2.

Record command_t := {
  command : ascii;
  turns : Z;
  turns_left : Z
}.

Record pacman_t := {
  pos_x : Z;
  pos_y : Z;
  alive : Z;
  points : Z;
  passo : Z;
  moves : list command_t;
  current_move : Z;
  n_moves : Z;
  waiting : Z;
  next_user_move : ascii
}.

Record board_pos_t := {
  content : ascii;
  has_dot : Z;
  has_portal : Z
}.

(** [board_t].  The ghost array, the file names and [state_lock] are
    left out: none of the functions embedded below reads them.  Every
    function that takes [state_lock] is one atomic transition. *)
Record board_t := {
  width : Z;
  height : Z;
  board : list board_pos_t;
  n_pacmans : Z;
  pacmans : list pacman_t;
  n_ghosts : Z;
  tempo : Z;
  level_finished : Z;
  shutdown : Z
}.

(** Field assignments. *)
Definition set_turns_left (v : Z) (c : command_t) : command_t :=
  {| command := command c; turns := turns c; turns_left := v |}.

Definition set_pos (x y : Z) (p : pacman_t) : pacman_t :=
  {| pos_x := x; pos_y := y; alive := alive p; points := points p;
     passo := passo p; moves := moves p; current_move := current_move p;
     n_moves := n_moves p; waiting := waiting p;
     next_user_move := next_user_move p |}.

Definition set_alive (v : Z) (p : pacman_t) : pacman_t :=
  {| pos_x := pos_x p; pos_y := pos_y p; alive := v; points := points p;
     passo := passo p; moves := moves p; current_move := current_move p;
     n_moves := n_moves p; waiting := waiting p;
     next_user_move := next_user_move p |}.

Definition set_points (v : Z) (p : pacman_t) : pacman_t :=
  {| pos_x := pos_x p; pos_y := pos_y p; alive := alive p; points := v;
     passo := passo p; moves := moves p; current_move := current_move p;
     n_moves := n_moves p; waiting := waiting p;
     next_user_move := next_user_move p |}.

Definition set_moves (v : list command_t) (p : pacman_t) : pacman_t :=
  {| pos_x := pos_x p; pos_y := pos_y p; alive := alive p; points := points p;
     passo := passo p; moves := v; current_move := current_move p;
     n_moves := n_moves p; waiting := waiting p;
     next_user_move := next_user_move p |}.

Definition set_current_move (v : Z) (p : pacman_t) : pacman_t :=
  {| pos_x := pos_x p; pos_y := pos_y p; alive := alive p; points := points p;
     passo := passo p; moves := moves p; current_move := v;
     n_moves := n_moves p; waiting := waiting p;
     next_user_move := next_user_move p |}.

Definition set_n_moves (v : Z) (p : pacman_t) : pacman_t :=
  {| pos_x := pos_x p; pos_y := pos_y p; alive := alive p; points := points p;
     passo := passo p; moves := moves p; current_move := current_move p;
     n_moves := v; waiting := waiting p;
     next_user_move := next_user_move p |}.

Definition set_waiting (v : Z) (p : pacman_t) : pacman_t :=
  {| pos_x := pos_x p; pos_y := pos_y p; alive := alive p; points := points p;
     passo := passo p; moves := moves p; current_move := current_move p;
     n_moves := n_moves p; waiting := v;
     next_user_move := next_user_move p |}.

Definition set_next_user_move (v : ascii) (p : pacman_t) : pacman_t :=
  {| pos_x := pos_x p; pos_y := pos_y p; alive := alive p; points := points p;
     passo := passo p; moves := moves p; current_move := current_move p;
     n_moves := n_moves p; waiting := waiting p;
     next_user_move := v |}.

Definition set_content (v : ascii) (c : board_pos_t) : board_pos_t :=
  {| content := v; has_dot := has_dot c; has_portal := has_portal c |}.

Definition set_has_dot (v : Z) (c : board_pos_t) : board_pos_t :=
  {| content := content c; has_dot := v; has_portal := has_portal c |}.

Definition set_board (v : list board_pos_t) (b : board_t) : board_t :=
  {| width := width b; height := height b; board := v;
     n_pacmans := n_pacmans b; pacmans := pacmans b; n_ghosts := n_ghosts b;
     tempo := tempo b; level_finished := level_finished b;
     shutdown := shutdown b |}.

Definition set_pacmans (v : list pacman_t) (b : board_t) : board_t :=
  {| width := width b; height := height b; board := board b;
     n_pacmans := n_pacmans b; pacmans := v; n_ghosts := n_ghosts b;
     tempo := tempo b; level_finished := level_finished b;
     shutdown := shutdown b |}.

Definition set_level_finished (v : Z) (b : board_t) : board_t :=
  {| width := width b; height := height b; board := board b;
     n_pacmans := n_pacmans b; pacmans := pacmans b; n_ghosts := n_ghosts b;
     tempo := tempo b; level_finished := v; shutdown := shutdown b |}.

Definition set_shutdown (v : Z) (b : board_t) : board_t :=
  {| width := width b; height := height b; board := board b;
     n_pacmans := n_pacmans b; pacmans := pacmans b; n_ghosts := n_ghosts b;
     tempo := tempo b; level_finished := level_finished b; shutdown := v |}.

(** [board->pacmans[i] = p] and [board->board[i].content = ch]. *)
Definition put_pacman (b : board_t) (i : Z) (p : pacman_t) : option board_t :=
  ps ← store (pacmans b) i p; Some (set_pacmans ps b).

Definition put_content (b : board_t) (i : Z) (ch : ascii) : option board_t :=
  cell ← slot (board b) i;
  cells ← store (board b) i (set_content ch cell);
  Some (set_board cells b).

(** [get_board_index]: [y * board->width + x] in [int] arithmetic. *)
Definition get_board_index (b : board_t) (x y : Z) : Z :=
  iadd (imul y (width b)) x.

Definition is_valid_position (b : board_t) (x y : Z) : bool :=
  ((0 <=? x) && (x <? width b)) && ((0 <=? y) && (y <? height b)).

(** [kill_pacman]: blank the pacman's cell, mark it dead. *)
Definition kill_pacman (b : board_t) (pacman_index : Z) : option board_t :=
  pac ← slot (pacmans b) pacman_index;
  let index := iadd (imul (pos_y pac) (width b)) (pos_x pac) in
  b1 ← put_content b index " "%char;
  put_pacman b1 pacman_index (set_alive 0 pac).

(** [toupper] in the C locale. *)
Definition toupper (c : ascii) : ascii :=
  let n := N_of_ascii c in
  if ((97 <=? n) && (n <=? 122))%N then ascii_of_N (n - 32) else c.

(** [char directions[] = {'W', 'S', 'A', 'D'}]. *)
Definition directions : list ascii := ["W"%char; "S"%char; "A"%char; "D"%char].

(** The [command_t *] handed to [move_pacman]: the caller's local [c],
    or an entry of the pacman's own [moves] array. *)
Inductive command_ptr :=
| PtrLocal
| PtrMove (k : Z).

Definition load_command (pac : pacman_t) (c : command_t) (p : command_ptr)
  : option command_t :=
  match p with
  | PtrLocal => Some c
  | PtrMove k => slot (moves pac) k
  end.

(** [command->turns_left = v], through the pointer. *)
Definition store_turns_left (pac : pacman_t) (c : command_t) (p : command_ptr) (v : Z)
  : option (pacman_t * command_t) :=
  match p with
  | PtrLocal => Some (pac, set_turns_left v c)
  | PtrMove k =>
      cmd ← slot (moves pac) k;
      ms ← store (moves pac) k (set_turns_left v cmd);
      Some (set_moves ms pac, c)
  end.

(** The [switch (direction)] of [move_pacman]. *)
Inductive direction_case :=
| DirStep (new_x new_y : Z)
| DirWait
| DirInvalid.

Definition switch_direction (direction : ascii) (new_x new_y : Z) : direction_case :=
  if Ascii.eqb direction "W" then DirStep new_x (isub new_y 1)
  else if Ascii.eqb direction "S" then DirStep new_x (iadd new_y 1)
  else if Ascii.eqb direction "A" then DirStep (isub new_x 1) new_y
  else if Ascii.eqb direction "D" then DirStep (iadd new_x 1) new_y
  else if Ascii.eqb direction "T" then DirWait
  else DirInvalid.

(** [move_pacman(board, pacman_index, command)], one atomic transition
    under the write lock.  [c] is the caller's local command, [rnd] the
    value [rand()] returns if it is called.  The result is the return
    value, the board and the caller's local; [None] is an access outside
    an array.  [pac] is written back to the board wherever the C code
    returns after having assigned through the pointer. *)
Definition move_pacman (b : board_t) (pacman_index : Z) (c : command_t)
    (cmd_ptr : command_ptr) (rnd : Z) : option (Z * board_t * command_t) :=
  if pacman_index <? 0 then Some (DEAD_PACMAN, b, c)
  else
    pac ← slot (pacmans b) pacman_index;
    if alive pac =? 0 then Some (DEAD_PACMAN, b, c)
    else
      let new_x := pos_x pac in
      let new_y := pos_y pac in
      if 0 <? waiting pac then
        b' ← put_pacman b pacman_index (set_waiting (isub (waiting pac) 1) pac);
        Some (VALID_MOVE, b', c)
      else
        let pac := set_waiting (passo pac) pac in
        cmd ← load_command pac c cmd_ptr;
        let direction := toupper (command cmd) in
        direction ←
          (if Ascii.eqb direction "R" then slot directions (Z.rem rnd 4)
           else Some direction);
        match switch_direction direction new_x new_y with
        | DirWait =>
            '(pac, c) ←
              (if turns_left cmd =? 1 then
                 store_turns_left (set_current_move (iadd (current_move pac) 1) pac)
                   c cmd_ptr (turns cmd)
               else store_turns_left pac c cmd_ptr (isub (turns_left cmd) 1));
            b' ← put_pacman b pacman_index pac;
            Some (VALID_MOVE, b', c)
        | DirInvalid =>
            b' ← put_pacman b pacman_index pac;
            Some (INVALID_MOVE, b', c)
        | DirStep new_x new_y =>
            let pac := set_current_move (iadd (current_move pac) 1) pac in
            if negb (is_valid_position b new_x new_y) then
              b' ← put_pacman b pacman_index pac;
              Some (INVALID_MOVE, b', c)
            else
              let new_index := get_board_index b new_x new_y in
              let old_index := get_board_index b (pos_x pac) (pos_y pac) in
              new_cell ← slot (board b) new_index;
              let target_content := content new_cell in
              if negb (has_portal new_cell =? 0) then
                b1 ← put_content b old_index " ";
                b2 ← put_content b1 new_index "C";
                b3 ← put_pacman b2 pacman_index (set_pos new_x new_y pac);
                Some (REACHED_PORTAL, set_level_finished 1 b3, c)
              else if Ascii.eqb target_content "W" || Ascii.eqb target_content "X" then
                b' ← put_pacman b pacman_index pac;
                Some (INVALID_MOVE, b', c)
              else if Ascii.eqb target_content "M" then
                b1 ← put_pacman b pacman_index pac;
                b2 ← kill_pacman b1 pacman_index;
                Some (DEAD_PACMAN, b2, c)
              else
                '(pac, b1) ←
                  (if negb (has_dot new_cell =? 0) then
                     cells ← store (board b) new_index (set_has_dot 0 new_cell);
                     Some (set_points (iadd (points pac) new_index) pac,
                           set_board cells b)
                   else Some (pac, b));
                b2 ← put_content b1 old_index " ";
                b3 ← put_content b2 new_index "C";
                b4 ← put_pacman b3 pacman_index (set_pos new_x new_y pac);
                Some (VALID_MOVE, b4, c)
        end.

(** The dot flags of the grid, cell by cell. *)
Definition dots (b : board_t) : list Z := has_dot <$> board b.

(** A small stage, 4 wide and 3 high: the pacman at (1,1), a dot to
    its right at (2,1), the portal at (3,1), a ghost below at (1,2). *)
Definition cell (ch : ascii) (dot portal : Z) : board_pos_t :=
  {| content := ch; has_dot := dot; has_portal := portal |}.

Definition demo_pacman (next : ascii) : pacman_t :=
  {| pos_x := 1; pos_y := 1; alive := 1; points := 0; passo := 0;
     moves := [{| command := "A"; turns := 1; turns_left := 1 |}];
     current_move := 0; n_moves := 1; waiting := 0;
     next_user_move := next |}.

Definition demo_board (next : ascii) : board_t :=
  {| width := 4; height := 3;
     board :=
       [cell "W" 0 0; cell "W" 0 0; cell "W" 0 0; cell "W" 0 0;
        cell " " 0 0; cell "C" 0 0; cell " " 1 0; cell " " 0 1;
        cell "W" 0 0; cell "M" 0 0; cell "W" 0 0; cell "W" 0 0];
     n_pacmans := 1; pacmans := [demo_pacman next];
     n_ghosts := 1; tempo := 100; level_finished := 0; shutdown := 0 |}.

Definition demo_right : command_t :=
  {| command := "d"; turns := 0; turns_left := 0 |}.

(** The stage after the pacman stepped right, onto the dot at index 6. *)
Definition demo_after_right : option (Z * board_t * command_t) :=
  Eval vm_compute in move_pacman (demo_board " ") 0 demo_right PtrLocal 0.
End Board.

(** ** Per-stage threads ([game.c]) *)

Module Game.
Import CInt CArray Protocol Board.
Local Open Scope Z_scope.

(** The empty value of the [next_user_move] mailbox. *)
Definition NO_MOVE : ascii := " "%char.

Inductive loop_ctl :=
| LoopContinue  (* back to the top of the [while (true)] *)
| LoopExit.     (* [break] or [return NULL] *)

Inductive log_line :=
| WarnPartial (n : Z)        (* "Partial message received (%zd bytes)" *)
| WarnUnknownOpcode (op : Z). (* "Unknown opcode %d ignored" *)

(** *** [input_listener_thread] *)

(** Lines 47-52: the loop ends at its top once [shutdown] is set. *)
Definition listener_top (b : board_t) : loop_ctl :=
  if shutdown b =? 0 then LoopContinue else LoopExit.

(** [board->pacmans[0].next_user_move = key], under the write lock. *)
Definition write_mailbox (k : ascii) (b : board_t) : option board_t :=
  pac ← slot (pacmans b) 0;
  put_pacman b 0 (set_next_user_move k pac).

(** Lines 54-96: what the listener does with one [read]: [n] is the
    value [read] returned, [move] the buffer after it.  The result is
    the board, what was logged, and whether the loop goes on. *)
Definition listener_handle (n : Z) (move : move_req_t) (b : board_t)
  : option (board_t * list log_line * loop_ctl) :=
  if n <=? 0 then
    if n =? 0 then Some (set_shutdown 1 b, [], LoopExit)
    else Some (b, [], LoopContinue)
  else if n <? sizeof_move_req_t then
    Some (b, [WarnPartial n], LoopContinue)
  else if op_code move =? OP_MOVE then
    b' ← write_mailbox (key move) b;
    Some (b', [], LoopContinue)
  else if op_code move =? OP_DISCONNECT then
    Some (set_shutdown 1 b, [], LoopExit)
  else
    Some (b, [WarnUnknownOpcode (op_code move)], LoopContinue).

(** *** [pacman_thread] *)

(** [command_t c = {' ', 0, 0}]. *)
Definition blank_command : command_t :=
  {| command := " "%char; turns := 0; turns_left := 0 |}.

(** Lines 233-244: under the write lock, pick the command to play.
    Returns the local [c], the pointer [play] and the board. *)
Definition choose_command (b : board_t) : option (command_t * command_ptr * board_t) :=
  pacman ← slot (pacmans b) 0;
  if negb (Ascii.eqb (next_user_move pacman) " ") then
    b' ← put_pacman b 0 (set_next_user_move " " pacman);
    Some ({| command := next_user_move pacman; turns := 0; turns_left := 0 |},
          PtrLocal, b')
  else if 0 <? n_moves pacman then
    Some (blank_command,
          PtrMove (Z.rem (current_move pacman) (n_moves pacman)), b)
  else Some (blank_command, PtrLocal, b).

(** Why the thread left its loop (a history variable). *)
Inductive exit_cause :=
| DeadAtTop                 (* line 223 *)
| AfterMove (result : Z)    (* lines 249-256 *)
| FlagAfterMove (result : Z). (* lines 258-262 *)

Inductive pacman_pc :=
| PcTop                                      (* line 223 *)
| PcChoose                                   (* after the sleep, line 236 *)
| PcMove (c : command_t) (play : command_ptr) (* line 246 *)
| PcCheck (result : Z)                       (* line 258 *)
| PcDone (retval : Z) (why : exit_cause).    (* the thread returned [retval] *)

(** One atomic section of [pacman_thread]. *)
Definition pacman_step (rnd : Z) (pc : pacman_pc) (b : board_t)
  : option (pacman_pc * board_t) :=
  match pc with
  | PcTop =>
      pacman ← slot (pacmans b) 0;
      if alive pacman =? 0 then Some (PcDone LOAD_BACKUP DeadAtTop, b)
      else Some (PcChoose, b)
  | PcChoose =>
      '(c, play, b') ← choose_command b;
      Some (PcMove c play, b')
  | PcMove c play =>
      '(result, b', _) ← move_pacman b 0 c play rnd;
      if result =? REACHED_PORTAL then Some (PcDone NEXT_LEVEL (AfterMove result), b')
      else if result =? DEAD_PACMAN then Some (PcDone LOAD_BACKUP (AfterMove result), b')
      else Some (PcCheck result, b')
  | PcCheck result =>
      if shutdown b =? 0 then Some (PcTop, b)
      else Some (PcDone QUIT_GAME (FlagAfterMove result), b)
  | PcDone _ _ => Some (pc, b)
  end.

(** The value the thread returns for each way of leaving the loop;
    [None] for a cause that cannot arise. *)
Definition exit_value (why : exit_cause) : option Z :=
  match why with
  | DeadAtTop => Some LOAD_BACKUP
  | AfterMove result =>
      if result =? REACHED_PORTAL then Some NEXT_LEVEL
      else if result =? DEAD_PACMAN then Some LOAD_BACKUP
      else None
  | FlagAfterMove result =>
      if (result =? REACHED_PORTAL) || (result =? DEAD_PACMAN) then None
      else Some QUIT_GAME
  end.

(** What a schedule interleaves with the pacman thread: an atomic
    section of any other thread of the stage (listener, ghosts,
    broadcaster), as the change it makes to the board. *)
Inductive action :=
| Other (f : board_t -> board_t)
| Pacman (rnd : Z).

Fixpoint pacman_thread (sched : list action) (pc : pacman_pc) (b : board_t)
  : option (pacman_pc * board_t) :=
  match sched with
  | [] => Some (pc, b)
  | Other f :: sched' => pacman_thread sched' pc (f b)
  | Pacman rnd :: sched' =>
      '(pc', b') ← pacman_step rnd pc b;
      pacman_thread sched' pc' b'
  end.

(** The messages a client writes to the request pipe ([client_input_thread]):
    a [move_req_t] of two bytes, a [disconnect_req_t] of one. *)
Definition move_msg (k : ascii) : move_req_t :=
  {| op_code := OP_MOVE; key := k |}.

(** The listener's buffer after a [read] that returned the one byte of
    a [disconnect_req_t]: the opcode, and whatever [key] held before. *)
Definition disconnect_in_buffer (stale : ascii) : move_req_t :=
  {| op_code := OP_DISCONNECT; key := stale |}.

(** The same pacman with another scripted sequence. *)
Definition with_script (ms : list command_t) (n cur : Z) (p : pacman_t) : pacman_t :=
  set_moves ms (set_n_moves n (set_current_move cur p)).
End Game.

(** ** Acceptor: the registration loop of [main] (lines 1489-1522) *)

Module Acceptor.
Import Protocol.
Local Open Scope Z_scope.

Inductive io :=
| OpenWronly (path : list ascii)             (* [open(req.notif_pipe, O_WRONLY)] *)
| Perror
| WriteResp (fd : Z) (resp : connect_resp_t) (* [write(client_fd, &resp, sizeof resp)] *)
| Close (fd : Z)
| Enqueue (req : connect_req_t).             (* lines 1513-1520 *)

Inductive loop_ctl :=
| Break
| Continue.

(** One turn of the [while (1)]: [bytes_read] is what [read] returned,
    [req] the buffer after it, [client_fd] what [open] returns if it is
    called.  The result lists the calls made, in order. *)
Definition acceptor_iteration (bytes_read : Z) (req : connect_req_t) (client_fd : Z)
  : list io * loop_ctl :=
  if bytes_read =? 0 then ([], Break)
  else if bytes_read =? -1 then ([Perror], Break)
  else if negb (bytes_read =? sizeof_connect_req_t) then ([], Continue)
  else if creq_op_code req =? OP_CONNECT then
    if client_fd =? -1 then
      ([OpenWronly (creq_notif_pipe req); Perror], Continue)
    else
      ([OpenWronly (creq_notif_pipe req);
        WriteResp client_fd {| cresp_op_code := OP_CONNECT; cresp_result := 0 |};
        Close client_fd;
        Enqueue req], Continue)
  else ([], Continue).

(** The enqueue of lines 1513-1520 as transitions of the dispatch queue. *)
Definition enqueue_steps (req : connect_req_t) : list Dispatch.label :=
  [Dispatch.acc_sem_wait req; Dispatch.acc_critical; Dispatch.acc_sem_post].

Definition responses (calls : list io) : list connect_resp_t :=
  omap (fun c => match c with WriteResp _ resp => Some resp | _ => None end) calls.

Definition enqueues (calls : list io) : list connect_req_t :=
  omap (fun c => match c with Enqueue req => Some req | _ => None end) calls.

(** The claim under test: every connect request processed gets a
    connect-response, with result 0 when the session is enqueued and a
    nonzero result when it is not. *)
Definition answers_every_request : Prop :=
  forall req client_fd,
    creq_op_code req = OP_CONNECT ->
    let calls := (acceptor_iteration sizeof_connect_req_t req client_fd).1 in
    exists resp,
      responses calls = [resp] /\
      (enqueues calls <> [] -> cresp_result resp = 0) /\
      (enqueues calls = [] -> cresp_result resp <> 0).

Definition accept_response : connect_resp_t :=
  {| cresp_op_code := OP_CONNECT; cresp_result := 0 |}.
End Acceptor.

(** ** Score board and the SIGUSR1 report ([main.c]) *)

Module Scores.
Import CInt.
Local Open Scope Z_scope.

Definition MAX_SCOREBOARD : Z := 100.

Record score_entry_t := {
  client_id : Z;
  score : Z;
  active : Z
}.

(** [compare_scores]: [eb->score - ea->score] in [int] arithmetic. *)
Definition compare_scores (ea eb : score_entry_t) : Z :=
  isub (score eb) (score ea).

(** What [fprintf] puts into [score_log.txt]. *)
Inductive file_line :=
| Header                                            (* "=== TOP 5 SCORES ===" *)
| ScoreLine (rank : Z) (e : score_entry_t) (playing : bool)
| NoScores.                                         (* "No scores recorded yet." *)

(** Lines 1260-1267: the [for] over [sorted], from index [i] with
    [count] lines already written; returns the lines and the final
    [count]. *)
Fixpoint report_loop (sorted : list score_entry_t) (i count : Z)
  : list file_line * Z :=
  match sorted with
  | [] => ([], count)
  | e :: rest =>
      if (i <? MAX_SCOREBOARD) && (count <? 5) then
        if (0 <? score e) || negb (active e =? 0) then
          let '(ls, n) := report_loop rest (i + 1) (count + 1) in
          (ScoreLine (count + 1) e (negb (active e =? 0)) :: ls, n)
        else report_loop rest (i + 1) count
      else ([], count)
  end.

Inductive event :=
| Lock                      (* [pthread_mutex_lock(&scoreboard_mutex)] *)
| ReadScoreboard            (* [memcpy(sorted, scoreboard, ...)] *)
| Qsort
| Fopen
| Fprintf (l : file_line)
| Fclose
| Unlock.

Section Handler.
(** [qsort] of the C library, applied to an array given as a list. *)
Variable qsort :
  (score_entry_t -> score_entry_t -> Z) -> list score_entry_t -> list score_entry_t.

(** What the handler writes when [fopen] succeeds. *)
Definition report (scoreboard : list score_entry_t) : list file_line :=
  let sorted := qsort compare_scores scoreboard in
  let '(ls, count) := report_loop sorted 0 0 in
  Header :: ls ++ (if count =? 0 then [NoScores] else []).

(** [handle_sigusr1], as the calls it makes in order. *)
Definition handle_sigusr1 (scoreboard : list score_entry_t) (fopen_ok : bool)
  : list event :=
  [Lock; ReadScoreboard; Qsort; Fopen]
  ++ (if fopen_ok then (Fprintf <$> report scoreboard) ++ [Fclose] else [])
  ++ [Unlock].
End Handler.

(** The entries the report lists, in file order. *)
Definition listed (ls : list file_line) : list score_entry_t :=
  omap (fun l => match l with ScoreLine _ e _ => Some e | _ => None end) ls.

(** The test of line 1261. *)
Definition qualifies (e : score_entry_t) : bool :=
  (0 <? score e) || negb (active e =? 0).

(** Descending order of score. *)
Definition score_ge (a b : score_entry_t) : Prop := score b <= score a.

(** The contract of [qsort] (C11 7.22.5.2): a permutation of the array,
    in ascending order of the comparator, given that the comparator is
    consistent on the array's elements. *)
Definition consistent (cmp : score_entry_t -> score_entry_t -> Z)
    (l : list score_entry_t) : Prop :=
  (forall a b, a ∈ l -> b ∈ l -> (cmp a b <= 0 <-> 0 <= cmp b a)) /\
  (forall a b c, a ∈ l -> b ∈ l -> c ∈ l ->
     cmp a b <= 0 -> cmp b c <= 0 -> cmp a c <= 0).

Definition qsort_contract
    (qsort : (score_entry_t -> score_entry_t -> Z) ->
             list score_entry_t -> list score_entry_t) : Prop :=
  forall cmp l,
    qsort cmp l ≡ₚ l /\
    (consistent cmp l -> Sorted (fun a b => cmp a b <= 0) (qsort cmp l)).

(** An instance of the contract, to run the handler on examples. *)
Fixpoint insert_by (cmp : score_entry_t -> score_entry_t -> Z)
    (x : score_entry_t) (l : list score_entry_t) : list score_entry_t :=
  match l with
  | [] => [x]
  | y :: l' => if cmp x y <=? 0 then x :: l else y :: insert_by cmp x l'
  end.

Definition insertion_sort (cmp : score_entry_t -> score_entry_t -> Z)
    (l : list score_entry_t) : list score_entry_t :=
  foldr (insert_by cmp) [] l.

(** The comparator does not overflow on these entries. *)
Definition comparable (l : list score_entry_t) : Prop :=
  forall a b, a ∈ l -> b ∈ l -> in_int (score b - score a).

(** A score board with seven entries in use. *)
Definition entry (id sc act : Z) : score_entry_t :=
  {| client_id := id; score := sc; active := act |}.

Definition demo_scoreboard : list score_entry_t :=
  [entry 1 30 0; entry 2 0 1; entry 3 50 1; entry 4 0 0;
   entry 5 10 0; entry 6 20 0; entry 7 40 0].

(** The entries whose score is that far above [lo]'s. *)
Definition far_above (lo : score_entry_t) (h : score_entry_t) : Prop :=
  in_int (score h) /\ INT_MAX + 1 < score h - score lo.

(** A score board with all of its hundred entries in use: client 1 is
    still playing and its points have wrapped around past [INT_MAX];
    clients 2 to 100 have finished with scores that differ. *)
Definition overflow_scoreboard : list score_entry_t :=
  ((fun k : nat => entry (Z.of_nat k + 2) (2000000000 - Z.of_nat k) 0) <$> seq 0 99)
  ++ [entry 1 (-2000000000) 1].
End Scores.

(** ** Stage files of a session ([worker_task], [sort_level_files]) *)

Module Levels.
Import Board.
Local Open Scope Z_scope.

(** C strings are [string]s: the characters before the terminating NUL. *)
Definition code (c : ascii) : Z := Z.of_N (N_of_ascii c).

(** [strcmp]: the difference of the first two differing bytes, read as
    [unsigned char]; the end of a string reads as 0, and the comparison
    stops at a NUL. *)
Fixpoint strcmp (s1 s2 : string) : Z :=
  match s1, s2 with
  | EmptyString, EmptyString => 0
  | EmptyString, String c2 _ => 0 - code c2
  | String c1 _, EmptyString => code c1
  | String c1 r1, String c2 r2 =>
      if Ascii.eqb c1 c2 then
        if Ascii.eqb c1 Ascii.zero then 0 else strcmp r1 r2
      else code c1 - code c2
  end.

(** [strstr(haystack, needle) != NULL]. *)
Fixpoint strstr (haystack needle : string) : bool :=
  String.prefix needle haystack ||
  match haystack with
  | EmptyString => false
  | String _ rest => strstr rest needle
  end.

(** The first [n] characters of [s]. *)
Fixpoint str_take (n : nat) (s : string) : string :=
  match n, s with
  | S n', String c rest => String c (str_take n' rest)
  | _, _ => EmptyString
  end.

(** [snprintf(buf, 512, "%s/%s", global_levels_dir, d_name)]: the path,
    cut to the 511 characters that fit before the NUL. *)
Definition level_path (levels_dir d_name : string) : string :=
  str_take 511 (levels_dir ++ "/" ++ d_name).

(** [strncpy(dst, src, 512)] into a 512-byte row, read back as a string. *)
Definition strncpy512 (src : string) : string := str_take 512 src.

Definition is_level_name (d_name : string) : bool :=
  strstr d_name ".lvl" || strstr d_name ".txt".

(** Lines 1317-1323: the [readdir] loop over the entries in directory
    order; [level_files] holds the [level_count] paths found so far. *)
Fixpoint read_levels (levels_dir : string) (entries : list string)
    (level_files : list string) : list string :=
  match entries with
  | [] => level_files
  | d_name :: rest =>
      if (length level_files <? 32)%nat then
        if is_level_name d_name then
          read_levels levels_dir rest (level_files ++ [level_path levels_dir d_name])
        else read_levels levels_dir rest level_files
      else level_files
  end.

(** Lines 1210-1215: exchange rows [i] and [j] when they are out of order. *)
Definition swap_if_greater (files : list string) (i j : nat) : list string :=
  match files !! i, files !! j with
  | Some fi, Some fj =>
      if 0 <? strcmp fi fj then
        let temp := strncpy512 fi in
        let files1 := <[i := strncpy512 fj]> files in
        <[j := strncpy512 temp]> files1
      else files
  | _, _ => files
  end.

(** [for (j = ...; j < count; j++)] with [n] turns left. *)
Fixpoint inner_loop (n i j : nat) (files : list string) : list string :=
  match n with
  | O => files
  | S n' => inner_loop n' i (S j) (swap_if_greater files i j)
  end.

(** [for (i = ...; i < count - 1; i++)] with [n] turns left. *)
Fixpoint outer_loop (n i count : nat) (files : list string) : list string :=
  match n with
  | O => files
  | S n' => outer_loop n' (S i) count (inner_loop (count - S i) i (S i) files)
  end.

(** [sort_level_files(files, count)]. *)
Definition sort_level_files (files : list string) (count : nat) : list string :=
  outer_loop (count - 1) 0 count files.

(** Lines 1306-1332: the levels of one session, or [None] when the
    worker gives the session up ([entries = None]: [opendir] failed). *)
Definition resolve_levels (levels_dir : string) (entries : option (list string))
  : option (list string) :=
  match entries with
  | None => None
  | Some es =>
      let level_files := read_levels levels_dir es [] in
      let level_count := length level_files in
      if (level_count =? 0)%nat then None
      else Some (sort_level_files level_files level_count)
  end.

(** Lines 1366-1393: the stages handed to [run_game_logic], in order.
    [stage k f] gives, for the [k]-th turn on file [f], what
    [load_level] returns and the result of [run_game_logic]. *)
Fixpoint run_levels (stage : nat -> string -> Z * Z) (current_level : nat)
    (level_files : list string) (game_result : Z) : list string :=
  match level_files with
  | [] => []
  | f :: rest =>
      if game_result =? NEXT_LEVEL then
        let '(load_status, result) := stage current_level f in
        if load_status =? 0 then f :: run_levels stage (S current_level) rest result
        else []
      else []
  end.

Definition stages_run (levels_dir : string) (entries : option (list string))
    (stage : nat -> string -> Z * Z) : list string :=
  match resolve_levels levels_dir entries with
  | None => []
  | Some level_files => run_levels stage 0 level_files NEXT_LEVEL
  end.

(** A C string holds no NUL. *)
Fixpoint c_string (s : string) : Prop :=
  match s with
  | EmptyString => True
  | String c rest => c <> Ascii.zero /\ c_string rest
  end.

(** Ascending [strcmp] order. *)
Definition str_le (s1 s2 : string) : Prop := strcmp s1 s2 <= 0.

(** What fits a 512-byte row with its NUL. *)
Definition fits_row (s : string) : Prop := (String.length s <= 511)%nat.

(** Thirty-three level names, ["A.lvl"], ["B.lvl"], ... *)
Definition demo_name (k : nat) : string :=
  String (ascii_of_nat (65 + k)) ".lvl".

Definition demo_listing : list string := demo_name <$> seq 0 33.

(** The claim under test: the stage list does not depend on the order
    in which the directory lists its entries. *)
Definition order_independent : Prop :=
  forall dir entries entries',
    entries ≡ₚ entries' ->
    resolve_levels dir (Some entries') = resolve_levels dir (Some entries).

Definition demo_entries : list string := ["b.lvl"; "readme.md"; "a.txt"]%string.
End Levels.

(** ** Shape of a stage ([load_level] allocates [width * height] cells) *)

Module BoardShape.
Import CInt CArray Board.
Local Open Scope Z_scope.

(** The grid has [width * height] cells, a number that fits an [int]. *)
Definition well_formed (b : board_t) : Prop :=
  width b * height b <= INT_MAX /\
  Z.of_nat (length (board b)) = width b * height b.

(** Pacman [idx] exists and stands on a cell of the grid. *)
Definition inside (b : board_t) (idx : Z) : Prop :=
  exists pac, slot (pacmans b) idx = Some pac /\
    is_valid_position b (pos_x pac) (pos_y pac) = true.

(** The command pointer refers to the caller's local or to an entry
    of pacman [idx]'s [moves]. *)
Definition valid_ptr (b : board_t) (idx : Z) (p : command_ptr) : Prop :=
  match p with
  | PtrLocal => True
  | PtrMove k =>
      exists pac cmd, slot (pacmans b) idx = Some pac /\ slot (moves pac) k = Some cmd
  end.

(** What no move changes about a stage. *)
Definition same_frame (b b' : board_t) : Prop :=
  width b' = width b /\ height b' = height b /\
  length (board b') = length (board b) /\
  length (pacmans b') = length (pacmans b) /\
  shutdown b' = shutdown b /\ tempo b' = tempo b /\ n_ghosts b' = n_ghosts b /\
  (has_portal <$> board b') = (has_portal <$> board b).

Definition move_results : list Z :=
  [VALID_MOVE; INVALID_MOVE; DEAD_PACMAN; REACHED_PORTAL].

(** Fields of a pacman that only a completed step, a kill or a
    collected dot can change. *)
Definition same_body (p p' : pacman_t) : Prop :=
  pos_x p' = pos_x p /\ pos_y p' = pos_y p /\ alive p' = alive p /\
  points p' = points p /\ passo p' = passo p /\ n_moves p' = n_moves p /\
  next_user_move p' = next_user_move p /\ length (moves p') = length (moves p).

(** The script counter stays or advances by one. *)
Definition counter_step (p p' : pacman_t) : Prop :=
  current_move p' = current_move p \/ current_move p' = iadd (current_move p) 1.

(** Everything one call [move_pacman(board, idx, command)] can do to a
    stage: [b], [pac] before the call, [r] the value returned, [b'],
    [pac'] after it. *)
Record move_effects (b : board_t) (idx : Z) (pac : pacman_t) (r : Z)
    (b' : board_t) (pac' : pacman_t) : Prop := {
  eff_frame : same_frame b b';
  eff_pac : slot (pacmans b') idx = Some pac';
  eff_others :
    forall j : nat, j <> Z.to_nat idx -> pacmans b' !! j = pacmans b !! j;
  eff_config :
    passo pac' = passo pac /\ n_moves pac' = n_moves pac /\
    next_user_move pac' = next_user_move pac /\
    length (moves pac') = length (moves pac);
  eff_result : r ∈ move_results;
  eff_dead : r = DEAD_PACMAN -> alive pac' = 0;
  eff_alive : r <> DEAD_PACMAN -> alive pac' = alive pac;
  eff_invalid :
    r = INVALID_MOVE ->
    board b' = board b /\ pos_x pac' = pos_x pac /\ pos_y pac' = pos_y pac /\
    points pac' = points pac;
  eff_finished :
    level_finished b' = if r =? REACHED_PORTAL then 1 else level_finished b;
  eff_moved :
    (pos_x pac', pos_y pac') <> (pos_x pac, pos_y pac) ->
    is_valid_position b (pos_x pac') (pos_y pac') = true /\
    exists dest,
      slot (board b) (get_board_index b (pos_x pac') (pos_y pac')) = Some dest /\
      (has_portal dest <> 0 /\ r = REACHED_PORTAL \/
       has_portal dest = 0 /\ r = VALID_MOVE /\
       content dest <> "W"%char /\ content dest <> "X"%char /\
       content dest <> "M"%char);
  eff_points :
    points pac' = points pac \/
    r = VALID_MOVE /\
    (pos_x pac', pos_y pac') <> (pos_x pac, pos_y pac) /\
    points pac' = iadd (points pac) (get_board_index b (pos_x pac') (pos_y pac'));
  eff_cells :
    forall j : nat,
      board b' !! j <> board b !! j ->
      j = Z.to_nat (get_board_index b (pos_x pac) (pos_y pac)) \/
      j = Z.to_nat (get_board_index b (pos_x pac') (pos_y pac'));
  eff_was_alive : r <> DEAD_PACMAN -> alive pac <> 0;
  eff_portal :
    r = REACHED_PORTAL -> (pos_x pac', pos_y pac') <> (pos_x pac, pos_y pac);
  eff_counter : counter_step pac pac'
}.
End BoardShape.

(** ** The pacman thread among the other threads of a stage *)

Module GameShape.
Import CInt CArray Protocol Board Game BoardShape.
Local Open Scope Z_scope.

(** What only the pacman thread writes of pacman 0: the script counter,
    and the size of the script. *)
Definition script (b : board_t) : option (Z * Z * nat) :=
  pac ← slot (pacmans b) 0;
  Some (current_move pac, n_moves pac, length (moves pac)).

(** [moves[current_move % n_moves]] is an element of [moves]. *)
Definition script_ok (b : board_t) : Prop :=
  exists pac, slot (pacmans b) 0 = Some pac /\
    0 <= current_move pac /\ n_moves pac <= Z.of_nat (length (moves pac)).

(** An atomic section of another thread of the stage: it keeps the
    grid and the pacman's cell in place, leaves the script alone and
    never clears [shutdown]. *)
Definition bystander (f : board_t -> board_t) : Prop :=
  forall b, well_formed b -> inside b 0 ->
    well_formed (f b) /\ inside (f b) 0 /\ script (f b) = script b /\
    (shutdown b <> 0 -> shutdown (f b) <> 0).

Definition fair (a : action) : Prop :=
  match a with
  | Other f => bystander f
  | Pacman rnd => 0 <= rnd
  end.

(** The atomic sections of the pacman thread in a schedule. *)
Fixpoint pacman_turns (sched : list action) : nat :=
  match sched with
  | [] => 0
  | Other _ :: sched' => pacman_turns sched'
  | Pacman _ :: sched' => S (pacman_turns sched')
  end.

(** One [read] of the listener and what it does with it, as an action
    of a schedule. *)
Definition listener_section (n : Z) (move : move_req_t) (b : board_t) : board_t :=
  match listener_handle n move b with
  | Some (b', _, _) => b'
  | None => b
  end.

(** Atomic sections the pacman thread still has to run before it has
    looked at [shutdown] again. *)
Definition sections_left (pc : pacman_pc) : nat :=
  match pc with
  | PcTop => 4
  | PcChoose => 3
  | PcMove _ _ => 2
  | PcCheck _ => 1
  | PcDone _ _ => 0
  end.

(** The thread's control point and the stage fit together. *)
Definition pc_shape (pc : pacman_pc) (b : board_t) : Prop :=
  well_formed b /\ inside b 0 /\
  match pc with
  | PcTop | PcChoose => script_ok b
  | PcMove _ play => valid_ptr b 0 play
  | _ => True
  end.

(** How one section of the thread moves the script: only a call of
    [move_pacman] advances the counter, by one at most. *)
Definition script_step (pc : pacman_pc) (b b' : board_t) : Prop :=
  exists pac pac',
    slot (pacmans b) 0 = Some pac /\ slot (pacmans b') 0 = Some pac' /\
    n_moves pac' = n_moves pac /\ length (moves pac') = length (moves pac) /\
    match pc with
    | PcMove _ _ => counter_step pac pac'
    | _ => current_move pac' = current_move pac
    end.

(** Where one section leaves the control point. *)
Definition pc_next (pc : pacman_pc) (b : board_t) (pc' : pacman_pc) : Prop :=
  match pc with
  | PcTop => pc' = PcChoose \/ exists v why, pc' = PcDone v why
  | PcChoose => exists c play, pc' = PcMove c play
  | PcMove _ _ => (exists r, pc' = PcCheck r) \/ exists v why, pc' = PcDone v why
  | PcCheck _ =>
      if shutdown b =? 0 then pc' = PcTop else exists v why, pc' = PcDone v why
  | PcDone _ _ => pc' = pc
  end.

(** The script can be followed for [n] more calls of [move_pacman]. *)
Definition script_room (n : Z) (b : board_t) : Prop :=
  exists pac, slot (pacmans b) 0 = Some pac /\
    0 <= current_move pac /\ current_move pac + n <= INT_MAX /\
    n_moves pac <= Z.of_nat (length (moves pac)).

(** A stage with the pacman's [passo] wait pending. *)
Definition demo_waiting (next : ascii) : board_t :=
  set_pacmans
    [{| pos_x := 1; pos_y := 1; alive := 1; points := 0; passo := 2;
        moves := []; current_move := 0; n_moves := 0; waiting := 2;
        next_user_move := next |}]
    (demo_board next).
End GameShape.

(** ** State updates: [server_send_update] ([game.c]) and the client's
    decoding and drawing ([client/main.c], [display.c]) *)

Module Update.
Import CInt CArray Protocol Board.
Local Open Scope Z_scope.

Definition MAX_BOARD_SIZE : Z := 2400.

Definition GAME_STATE_PLAYING : Z := 0.
Definition GAME_STATE_WIN : Z := 1.
Definition GAME_STATE_GAME_OVER : Z := 2.

Definition DRAW_MENU : Z := 0.
Definition DRAW_WIN : Z := 2.
Definition DRAW_GAME_OVER : Z := 3.

(** Assignment of an [int] to an [int16_t] field: reduction modulo
    2^16, as GCC and Clang define the conversion. *)
Definition wrap16 (z : Z) : Z := (z + 32768) mod 65536 - 32768.

Definition in_int16 (z : Z) : Prop := -32768 <= z <= 32767.

(** [game_state_msg_t], without [level_name].  [board_data] holds the
    bytes the server has assigned, [board_data[0 .. size-1]]; the rest
    of the 2400-byte array is never written by [server_send_update]. *)
Record game_state_msg_t := {
  msg_op_code : Z;
  game_state : Z;
  msg_width : Z;
  msg_height : Z;
  msg_points : Z;
  msg_lives : Z;
  board_data : list ascii
}.

(** Lines 150-163 of [game.c]: the character sent for a cell. *)
Definition visual (c : board_pos_t) : ascii :=
  let v := content c in
  if Ascii.eqb v "X" || Ascii.eqb v "W" then "#"%char
  else if Ascii.eqb v " " || Ascii.eqb v Ascii.zero then
    if negb (has_portal c =? 0) then "@"%char
    else if negb (has_dot c =? 0) then "."%char
    else " "%char
  else v.

(** [for (i = ...; i < size; i++) msg.board_data[i] = visual], with
    [n] turns left. *)
Fixpoint send_cells (cells : list board_pos_t) (i : Z) (n : nat)
  : option (list ascii) :=
  match n with
  | O => Some []
  | S n' =>
      c ← slot cells i;
      rest ← send_cells cells (i + 1) n';
      Some (visual c :: rest)
  end.

(** [server_send_update(board, notif_fd)] for [notif_fd != -1]: the
    message written to the pipe. *)
Definition server_send_update (b : board_t) : option game_state_msg_t :=
  pac ← slot (pacmans b) 0;
  let size := imul (width b) (height b) in
  let size := if MAX_BOARD_SIZE <? size then MAX_BOARD_SIZE else size in
  data ← send_cells (board b) 0 (Z.to_nat size);
  Some {| msg_op_code := OP_UPDATE;
          game_state :=
            if negb (level_finished b =? 0) then GAME_STATE_WIN
            else if alive pac =? 0 then GAME_STATE_GAME_OVER
            else GAME_STATE_PLAYING;
          msg_width := wrap16 (width b);
          msg_height := wrap16 (height b);
          msg_points := wrap16 (points pac);
          msg_lives := if alive pac =? 0 then 0 else 1;
          board_data := data |}.

(** Lines 389-398 of the client: one cell of [temp_board] from the
    byte received ([calloc] has zeroed the flags). *)
Definition decode_cell (ch : ascii) : board_pos_t :=
  if Ascii.eqb ch "." then {| content := " "; has_dot := 1; has_portal := 0 |}
  else if Ascii.eqb ch "@" then {| content := " "; has_dot := 0; has_portal := 1 |}
  else {| content := ch; has_dot := 0; has_portal := 0 |}.

(** The client's loop over [msg.board_data[i]], with [n] turns left;
    [None]: a byte is read that the server has not written. *)
Fixpoint recv_cells (data : list ascii) (i : Z) (n : nat)
  : option (list board_pos_t) :=
  match n with
  | O => Some []
  | S n' =>
      ch ← slot data i;
      rest ← recv_cells data (i + 1) n';
      Some (decode_cell ch :: rest)
  end.

(** What the client hands to [draw_board] for one update. *)
Record client_view := {
  view_width : Z;
  view_height : Z;
  view_cells : list board_pos_t;
  view_points : Z;
  view_alive : Z;
  view_mode : Z
}.

(** Lines 382-409 of the client, for a message with [OP_UPDATE]. *)
Definition client_update (msg : game_state_msg_t) : option client_view :=
  let size := imul (msg_width msg) (msg_height msg) in
  cells ← recv_cells (board_data msg) 0 (Z.to_nat size);
  Some {| view_width := msg_width msg;
          view_height := msg_height msg;
          view_cells := cells;
          view_points := msg_points msg;
          view_alive := if 0 <? msg_lives msg then 1 else 0;
          view_mode :=
            if game_state msg =? GAME_STATE_WIN then DRAW_WIN
            else if game_state msg =? GAME_STATE_GAME_OVER then DRAW_GAME_OVER
            else DRAW_MENU |}.

(** Lines 100-136 of [draw_board]: the character put on the screen for
    a cell. *)
Definition draw_cell (cell : board_pos_t) : ascii :=
  let ch := content cell in
  if negb (Ascii.eqb ch " ") then
    if Ascii.eqb ch "#" || Ascii.eqb ch "W" || Ascii.eqb ch "X" then "#"%char
    else if Ascii.eqb ch "C" || Ascii.eqb ch "P" then "C"%char
    else if Ascii.eqb ch "M" then "M"%char
    else ch
  else if negb (has_portal cell =? 0) then "@"%char
  else if negb (has_dot cell =? 0) then "."%char
  else " "%char.

(** The status line of [draw_board]: ["Score: %d  |  Lives: %d"]. *)
Definition status_line (v : client_view) : Z * Z :=
  (view_points v, if view_alive v =? 0 then 0 else 1).

(** A stage of 50 by 50: more cells than a message holds. *)
Definition demo_large : board_t :=
  {| width := 50; height := 50;
     board := replicate 2500 (cell " " 1 0);
     n_pacmans := 1; pacmans := [demo_pacman " "];
     n_ghosts := 0; tempo := 100; level_finished := 0; shutdown := 0 |}.
End Update.

(** ** The score board over a server's life ([worker_task], lines 1349-1404) *)

Module Registry.
Import CInt CArray Scores.
Local Open Scope Z_scope.

(** The globals [scoreboard] and [next_client_id]. *)
Record registry := {
  scoreboard : list score_entry_t;
  next_client_id : Z
}.

(** A zero-initialised entry of the global array. *)
Definition zero_entry : score_entry_t := entry 0 0 0.

Definition registry_init : registry :=
  {| scoreboard := replicate (Z.to_nat MAX_SCOREBOARD) zero_entry;
     next_client_id := 1 |}.

(** Lines 1354-1362: the [for] that takes the first entry that is not
    active, from index [i] with [n] turns left; returns the array and
    [my_scoreboard_idx]. *)
Fixpoint claim (n : nat) (i : Z) (id : Z) (sb : list score_entry_t)
  : option (list score_entry_t * Z) :=
  match n with
  | O => Some (sb, -1)
  | S n' =>
      e ← slot sb i;
      if active e =? 0 then
        sb' ← store sb i {| client_id := id; score := 0; active := 1 |};
        Some (sb', i)
      else claim n' (i + 1) id sb
  end.

(** Lines 1352-1363, under [scoreboard_mutex]: the registry,
    [my_client_id] and [my_scoreboard_idx].  [next_client_id++] on
    [INT_MAX] is undefined. *)
Definition register (r : registry) : option (registry * Z * Z) :=
  if next_client_id r <? INT_MAX then
    '(sb, idx) ← claim (Z.to_nat MAX_SCOREBOARD) 0 (next_client_id r) (scoreboard r);
    Some ({| scoreboard := sb; next_client_id := next_client_id r + 1 |},
          next_client_id r, idx)
  else None.

(** Lines 1382-1386: [scoreboard[my_scoreboard_idx].score = accumulated_points]
    when the index is not negative. *)
Definition set_score (idx pts : Z) (r : registry) : option registry :=
  if 0 <=? idx then
    e ← slot (scoreboard r) idx;
    sb ← store (scoreboard r) idx
           {| client_id := client_id e; score := pts; active := active e |};
    Some {| scoreboard := sb; next_client_id := next_client_id r |}
  else Some r.

(** Lines 1398-1403: the last score, and the entry is given up. *)
Definition finalize (idx pts : Z) (r : registry) : option registry :=
  if 0 <=? idx then
    e ← slot (scoreboard r) idx;
    sb ← store (scoreboard r) idx
           {| client_id := client_id e; score := pts; active := 0 |};
    Some {| scoreboard := sb; next_client_id := next_client_id r |}
  else Some r.

(** A worker between sessions, or in a session with its locals
    [my_client_id], [my_scoreboard_idx] and the [accumulated_points] it
    stored last (0 at registration). *)
Inductive worker :=
| Idle
| Playing (my_client_id my_scoreboard_idx stored : Z).

Record pool := {
  reg : registry;
  workers : list worker
}.

(** The sections under [scoreboard_mutex], by worker. *)
Inductive label :=
| Register (w : nat)
| Update (w : nat) (pts : Z)
| Finalize (w : nat) (pts : Z).

Definition step (l : label) (s : pool) : option pool :=
  match l with
  | Register w =>
      match workers s !! w with
      | Some Idle =>
          '(r, id, idx) ← register (reg s);
          Some {| reg := r; workers := <[w := Playing id idx 0]> (workers s) |}
      | _ => None
      end
  | Update w pts =>
      match workers s !! w with
      | Some (Playing id idx _) =>
          r ← set_score idx pts (reg s);
          Some {| reg := r; workers := <[w := Playing id idx pts]> (workers s) |}
      | _ => None
      end
  | Finalize w pts =>
      match workers s !! w with
      | Some (Playing id idx _) =>
          r ← finalize idx pts (reg s);
          Some {| reg := r; workers := <[w := Idle]> (workers s) |}
      | _ => None
      end
  end.

Fixpoint run (ls : list label) (s : pool) : option pool :=
  match ls with
  | [] => Some s
  | l :: ls' => s' ← step l s; run ls' s'
  end.

(** [create_threads(max_games)]: the pool at start. *)
Definition pool_init (max_games : nat) : pool :=
  {| reg := registry_init; workers := replicate max_games Idle |}.

Definition reachable (max_games : nat) (s : pool) : Prop :=
  exists ls, run ls (pool_init max_games) = Some s.

(** Worker [w] is in a session and holds entry [i]. *)
Definition owns (s : pool) (w i : nat) : Prop :=
  exists id st, workers s !! w = Some (Playing id (Z.of_nat i) st).

(** What holds of the pool all along. *)
Record pool_inv (s : pool) : Prop := {
  pinv_len : length (scoreboard (reg s)) = Z.to_nat MAX_SCOREBOARD;
  pinv_next : 1 <= next_client_id (reg s);
  pinv_own :
    forall w id idx st, workers s !! w = Some (Playing id idx st) ->
      1 <= id < next_client_id (reg s) /\
      (idx = -1 \/
       0 <= idx < Z.of_nat (length (workers s)) /\
       exists e, scoreboard (reg s) !! Z.to_nat idx = Some e /\
         client_id e = id /\ active e <> 0 /\ score e = st);
  pinv_ids :
    forall w w' id id' idx idx' st st',
      w <> w' -> workers s !! w = Some (Playing id idx st) ->
      workers s !! w' = Some (Playing id' idx' st') -> id <> id';
  pinv_active :
    forall i e, scoreboard (reg s) !! i = Some e -> active e <> 0 ->
      exists w, owns s w i;
  pinv_rest :
    forall i, (length (workers s) <= i < Z.to_nat MAX_SCOREBOARD)%nat ->
      scoreboard (reg s) !! i = Some zero_entry;
  pinv_found :
    (length (workers s) <= Z.to_nat MAX_SCOREBOARD)%nat ->
    forall w id idx st, workers s !! w = Some (Playing id idx st) -> idx <> -1
}.

(** Two workers; the first plays a game to 50 points and finishes,
    then the second takes a session. *)
Definition demo_labels : list label :=
  [Register 0; Update 0 50; Finalize 0 50; Register 1].

Definition demo_pool : option pool :=
  Eval vm_compute in run demo_labels (pool_init 2).
End Registry.

(** ** Reading stage and motion files, line by line ([board.c]) *)

Module Parse.
Import CInt.
Local Open Scope Z_scope.

Definition NL : ascii := "010"%char.
Definition CR : ascii := "013"%char.
Definition TAB : ascii := "009"%char.

(** [read_line_raw(fd, buffer, max_len)]: [input] is what is left to
    read behind [fd], [buffer] the characters stored so far ([i] is its
    length).  Returns the line and what is left to read; the value
    returned by the C function is the length of the line. *)
Fixpoint read_line_raw (input : list ascii) (max_len : Z) (buffer : list ascii)
  : list ascii * list ascii :=
  match input with
  | [] => (buffer, [])
  | c :: rest =>
      if Z.of_nat (length buffer) <? max_len - 1 then
        if Ascii.eqb c NL then (buffer, rest)
        else if Ascii.eqb c CR then read_line_raw rest max_len buffer
        else read_line_raw rest max_len (buffer ++ [c])
      else (buffer, input)
  end.

(** The loop that steps over leading blanks and tabs. *)
Fixpoint skip_blanks (line : list ascii) : list ascii :=
  match line with
  | c :: rest =>
      if Ascii.eqb c " " || Ascii.eqb c TAB then skip_blanks rest else line
  | [] => []
  end.

(** [is_comment_or_empty(line)]; the end of the list is the NUL that
    [read_line_raw] has stored. *)
Definition is_comment_or_empty (line : list ascii) : bool :=
  match skip_blanks line with
  | [] => true
  | c :: _ => Ascii.eqb c Ascii.zero || Ascii.eqb c "#"
  end.

(** [read_effective_line(fd, buffer, max_len)], with [fuel] turns of
    its loop: the value returned, the buffer, and what is left to read. *)
Fixpoint read_effective_loop (fuel : nat) (input : list ascii) (max_len : Z)
  : option (Z * list ascii * list ascii) :=
  match fuel with
  | O => None
  | S fuel' =>
      let '(buffer, rest) := read_line_raw input max_len [] in
      let len := Z.of_nat (length buffer) in
      if 0 <? len then
        if negb (is_comment_or_empty buffer) then Some (len, buffer, rest)
        else read_effective_loop fuel' rest max_len
      else Some (len, buffer, rest)
  end.

(** Every turn but the last consumes a byte, so one turn more than
    there are bytes is enough fuel. *)
Definition read_effective_line (input : list ascii) (max_len : Z)
  : option (Z * list ascii * list ascii) :=
  read_effective_loop (S (length input)) input max_len.

(** Lines as they lie in a file, each closed by a newline. *)
Definition file_text (lines : list (list ascii)) : list ascii :=
  concat ((fun l => l ++ [NL]) <$> lines).

(** A line that fits the buffer and holds no line break. *)
Definition plain_line (max_len : Z) (l : list ascii) : Prop :=
  Z.of_nat (length l) < max_len - 1 /\ (NL ∉ l) /\ (CR ∉ l).

(** A comment, an empty line, a stage header after an empty line. *)
Definition demo_file : list ascii :=
  list_ascii_of_string "# stage one" ++ [NL] ++ [NL] ++
  list_ascii_of_string "DIM 3 4" ++ [NL].
End Parse.

(** ** Placing the pacman on a loaded stage ([load_level], lines 957-968) *)

Module Placement.
Import CInt CArray Board.
Local Open Scope Z_scope.

(** [is_playable_cell(board, x, y)]. *)
Definition is_playable_cell (b : board_t) (x y : Z) : option bool :=
  if negb (is_valid_position b x y) then Some false
  else
    let idx := get_board_index b x y in
    c ← slot (board b) idx;
    let cell := content c in
    if Ascii.eqb cell "X" || Ascii.eqb cell "W" || Ascii.eqb cell "M"
       || Ascii.eqb cell "C" then Some false
    else if negb (has_portal c =? 0) then Some false
    else Some true.

(** The inner [for] of [find_first_playable_cell]: columns from [col]
    on, with [n] turns left. *)
Fixpoint find_in_row (b : board_t) (row col : Z) (n : nat) : option (option (Z * Z)) :=
  match n with
  | O => Some None
  | S n' =>
      is_playable_cell b col row ≫= fun p : bool =>
      if p then Some (Some (col, row))
      else find_in_row b row (col + 1) n'
  end.

(** The outer [for]: rows from [row] on, with [m] turns left. *)
Fixpoint find_in_rows (b : board_t) (row : Z) (m : nat) : option (option (Z * Z)) :=
  match m with
  | O => Some None
  | S m' =>
      found ← find_in_row b row 0 (Z.to_nat (width b));
      match found with
      | Some xy => Some (Some xy)
      | None => find_in_rows b (row + 1) m'
      end
  end.

(** [find_first_playable_cell(board, &x, &y)]: the cell found, if any. *)
Definition find_first_playable_cell (b : board_t) : option (option (Z * Z)) :=
  find_in_rows b 0 (Z.to_nat (height b)).

(** Lines 957-968: move the pacman to the first playable cell when its
    own is not playable, then mark its cell. *)
Definition place_pacman (b : board_t) : option board_t :=
  main_pac ← slot (pacmans b) 0;
  is_playable_cell b (pos_x main_pac) (pos_y main_pac) ≫= fun p : bool =>
  '(b1, pac1) ←
    (if negb p then
       found ← find_first_playable_cell b;
       match found with
       | Some (fx, fy) =>
           b' ← put_pacman b 0 (set_pos fx fy main_pac);
           Some (b', set_pos fx fy main_pac)
       | None => Some (b, main_pac)
       end
     else Some (b, main_pac));
  is_playable_cell b1 (pos_x pac1) (pos_y pac1) ≫= fun p1 : bool =>
  if p1 then
    put_content b1 (iadd (imul (pos_y pac1) (width b1)) (pos_x pac1)) "C"
  else Some b1.

(** The cell [(x', y')] comes before [(x, y)] in the order in which
    [find_first_playable_cell] visits the grid: row by row, each row
    from the left. *)
Definition before (x' y' x y : Z) : Prop := y' < y \/ (y' = y /\ x' < x).

(** No cell of the grid can take an agent. *)
Definition no_playable_cell (b : board_t) : Prop :=
  forall x y, is_valid_position b x y = true -> is_playable_cell b x y = Some false.

(** The small stage with its pacman still unplaced, at (-1, -1). *)
Definition demo_unplaced : board_t :=
  {| width := 4; height := 3;
     board :=
       [cell "X" 0 0; cell "X" 0 0; cell "X" 0 0; cell "X" 0 0;
        cell "X" 0 0; cell " " 0 0; cell " " 1 0; cell " " 0 1;
        cell "X" 0 0; cell " " 0 0; cell "X" 0 0; cell "X" 0 0];
     n_pacmans := 1;
     pacmans := [set_pos (-1) (-1) (demo_pacman " ")];
     n_ghosts := 0; tempo := 100; level_finished := 0; shutdown := 0 |}.

(** The small stage after the placement. *)
Definition demo_placed : board_t :=
  Eval vm_compute in default demo_unplaced (place_pacman demo_unplaced).
End Placement.

(** ** The pacman of a freshly loaded stage ([load_level]) *)

Module Load.
Import CInt CArray Protocol Board Game.
Local Open Scope Z_scope.

Definition set_passo (v : Z) (p : pacman_t) : pacman_t :=
  {| pos_x := pos_x p; pos_y := pos_y p; alive := alive p; points := points p;
     passo := v; moves := moves p; current_move := current_move p;
     n_moves := n_moves p; waiting := waiting p;
     next_user_move := next_user_move p |}.

(** [memset(&board->pacmans[0], 0, sizeof(pacman_t))] (line 797), and
    the [calloc] of line 892. *)
Definition zero_command : command_t :=
  {| command := NUL; turns := 0; turns_left := 0 |}.

Definition zero_pacman : pacman_t :=
  {| pos_x := 0; pos_y := 0; alive := 0; points := 0; passo := 0;
     moves := replicate (Z.to_nat MAX_MOVES) zero_command;
     current_move := 0; n_moves := 0; waiting := 0; next_user_move := NUL |}.

(** Lines 797-801 (and 892-901 for a level without a [PAC] line). *)
Definition new_pacman (accumulated_points : Z) : pacman_t :=
  set_pos (-1) (-1) (set_points accumulated_points (set_alive 1 zero_pacman)).

(** The pacman at the end of [load_level].  [load_pacman_behavior]
    hands [parse_motion_file] the pacman's [moves], [&n_moves],
    [&passo], [&pos_x] and [&pos_y]; lines 940-968 assign [pos_x] and
    [pos_y].  Whatever these write, [ms], [n], [p], [x] and [y] stand
    for it; no line of [load_level] assigns another field. *)
Definition loaded_pacman (accumulated_points : Z) (ms : list command_t)
    (n p x y : Z) : pacman_t :=
  set_pos x y
    (set_passo p (set_n_moves n (set_moves ms (new_pacman accumulated_points)))).

(** The small stage as [load_level] leaves it, with the script of one
    step to the left. *)
Definition demo_loaded : board_t :=
  set_pacmans
    [loaded_pacman 0 [{| command := "A"; turns := 1; turns_left := 1 |}] 1 0 1 1]
    (demo_board NO_MOVE).
End Load.

(** ** Ghosts ([board.c]: [find_and_kill_pacman], [move_ghost_charged],
    [move_ghost]) *)

Module Ghost.
Import CInt CArray Board.
Local Open Scope Z_scope.

(** [ghost_t]; the fields carry a [g_] where [pacman_t] has the name. *)
Record ghost_t := {
  g_pos_x : Z;
  g_pos_y : Z;
  g_passo : Z;
  g_moves : list command_t;
  g_n_moves : Z;
  g_current_move : Z;
  g_waiting : Z;
  charged : Z
}.

Definition set_g_pos (x y : Z) (g : ghost_t) : ghost_t :=
  {| g_pos_x := x; g_pos_y := y; g_passo := g_passo g; g_moves := g_moves g;
     g_n_moves := g_n_moves g; g_current_move := g_current_move g;
     g_waiting := g_waiting g; charged := charged g |}.

Definition set_g_moves (v : list command_t) (g : ghost_t) : ghost_t :=
  {| g_pos_x := g_pos_x g; g_pos_y := g_pos_y g; g_passo := g_passo g;
     g_moves := v; g_n_moves := g_n_moves g;
     g_current_move := g_current_move g; g_waiting := g_waiting g;
     charged := charged g |}.

Definition set_g_current_move (v : Z) (g : ghost_t) : ghost_t :=
  {| g_pos_x := g_pos_x g; g_pos_y := g_pos_y g; g_passo := g_passo g;
     g_moves := g_moves g; g_n_moves := g_n_moves g; g_current_move := v;
     g_waiting := g_waiting g; charged := charged g |}.

Definition set_g_waiting (v : Z) (g : ghost_t) : ghost_t :=
  {| g_pos_x := g_pos_x g; g_pos_y := g_pos_y g; g_passo := g_passo g;
     g_moves := g_moves g; g_n_moves := g_n_moves g;
     g_current_move := g_current_move g; g_waiting := v;
     charged := charged g |}.

Definition set_charged (v : Z) (g : ghost_t) : ghost_t :=
  {| g_pos_x := g_pos_x g; g_pos_y := g_pos_y g; g_passo := g_passo g;
     g_moves := g_moves g; g_n_moves := g_n_moves g;
     g_current_move := g_current_move g; g_waiting := g_waiting g;
     charged := v |}.

(** [find_and_kill_pacman]: the [for] over the pacmans from [p] on, with
    [n] turns left. *)
Fixpoint find_and_kill_loop (b : board_t) (new_x new_y p : Z) (n : nat)
  : option (Z * board_t) :=
  match n with
  | O => Some (VALID_MOVE, b)
  | S n' =>
      pac ← slot (pacmans b) p;
      if (pos_x pac =? new_x) && (pos_y pac =? new_y) && negb (alive pac =? 0) then
        b1 ← put_pacman b p (set_alive 0 pac);
        b2 ← kill_pacman b1 p;
        Some (DEAD_PACMAN, b2)
      else find_and_kill_loop b new_x new_y (p + 1) n'
  end.

Definition find_and_kill_pacman (b : board_t) (new_x new_y : Z)
  : option (Z * board_t) :=
  find_and_kill_loop b new_x new_y 0 (Z.to_nat (n_pacmans b)).

(** How a charge along a row or a column ends. *)
Inductive scan_end :=
| Hit (i : Z)   (* wall or ghost at [i] *)
| Prey (i : Z)  (* the mark of a pacman at [i] *)
| Free.         (* nothing up to the edge *)

(** The four scanning loops of [move_ghost_charged_direction]: from
    [i], in steps of [step], with [n] turns left; along the column
    [fixed] when [vertical], along the row [fixed] otherwise. *)
Fixpoint scan (b : board_t) (vertical : bool) (fixed i step : Z) (n : nat)
  : option scan_end :=
  match n with
  | O => Some Free
  | S n' =>
      c ← slot (board b)
            (if vertical then get_board_index b fixed i
             else get_board_index b i fixed);
      let target_content := content c in
      if Ascii.eqb target_content "W" || Ascii.eqb target_content "X"
         || Ascii.eqb target_content "M" then Some (Hit i)
      else if Ascii.eqb target_content "C" then Some (Prey i)
      else scan b vertical fixed (iadd i step) step n'
  end.

(** [move_ghost_charged_direction]: the result, [*new_x], [*new_y]
    and the board. *)
Definition move_ghost_charged_direction (b : board_t) (ghost : ghost_t)
    (direction : ascii) : option (Z * Z * Z * board_t) :=
  let x := g_pos_x ghost in
  let y := g_pos_y ghost in
  if Ascii.eqb direction "W" then
    if y =? 0 then Some (INVALID_MOVE, x, y, b)
    else
      r ← scan b true x (isub y 1) (-1) (Z.to_nat y);
      match r with
      | Hit i => Some (VALID_MOVE, x, iadd i 1, b)
      | Prey i => '(res, b') ← find_and_kill_pacman b x i; Some (res, x, i, b')
      | Free => Some (VALID_MOVE, x, 0, b)
      end
  else if Ascii.eqb direction "S" then
    if y =? isub (height b) 1 then Some (INVALID_MOVE, x, y, b)
    else
      r ← scan b true x (iadd y 1) 1 (Z.to_nat (height b - (y + 1)));
      match r with
      | Hit i => Some (VALID_MOVE, x, isub i 1, b)
      | Prey i => '(res, b') ← find_and_kill_pacman b x i; Some (res, x, i, b')
      | Free => Some (VALID_MOVE, x, isub (height b) 1, b)
      end
  else if Ascii.eqb direction "A" then
    if x =? 0 then Some (INVALID_MOVE, x, y, b)
    else
      r ← scan b false y (isub x 1) (-1) (Z.to_nat x);
      match r with
      | Hit j => Some (VALID_MOVE, iadd j 1, y, b)
      | Prey j => '(res, b') ← find_and_kill_pacman b j y; Some (res, j, y, b')
      | Free => Some (VALID_MOVE, 0, y, b)
      end
  else if Ascii.eqb direction "D" then
    if x =? isub (width b) 1 then Some (INVALID_MOVE, x, y, b)
    else
      r ← scan b false y (iadd x 1) 1 (Z.to_nat (width b - (x + 1)));
      match r with
      | Hit j => Some (VALID_MOVE, isub j 1, y, b)
      | Prey j => '(res, b') ← find_and_kill_pacman b j y; Some (res, j, y, b')
      | Free => Some (VALID_MOVE, isub (width b) 1, y, b)
      end
  else Some (INVALID_MOVE, x, y, b).

(** [move_ghost_charged(board, ghost_index, direction)]. *)
Definition move_ghost_charged (b : board_t) (ghosts : list ghost_t)
    (ghost_index : Z) (direction : ascii)
  : option (Z * board_t * list ghost_t) :=
  ghost ← slot ghosts ghost_index;
  let ghost := set_charged 0 ghost in
  ghosts ← store ghosts ghost_index ghost;
  '(result, new_x, new_y, b) ← move_ghost_charged_direction b ghost direction;
  if result =? INVALID_MOVE then Some (INVALID_MOVE, b, ghosts)
  else
    let old_index := get_board_index b (g_pos_x ghost) (g_pos_y ghost) in
    let new_index := get_board_index b new_x new_y in
    b ← put_content b old_index " ";
    ghosts ← store ghosts ghost_index (set_g_pos new_x new_y ghost);
    b ← put_content b new_index "M";
    Some (result, b, ghosts).

(** The [command_t *] handed to [move_ghost]: the caller's local, or an
    entry of the ghost's own [moves]. *)
Definition load_g_command (g : ghost_t) (c : command_t) (p : command_ptr)
  : option command_t :=
  match p with
  | PtrLocal => Some c
  | PtrMove k => slot (g_moves g) k
  end.

Definition store_g_turns_left (g : ghost_t) (c : command_t) (p : command_ptr) (v : Z)
  : option (ghost_t * command_t) :=
  match p with
  | PtrLocal => Some (g, set_turns_left v c)
  | PtrMove k =>
      cmd ← slot (g_moves g) k;
      ms ← store (g_moves g) k (set_turns_left v cmd);
      Some (set_g_moves ms g, c)
  end.

(** The [switch (direction)] of [move_ghost]. *)
Inductive ghost_case :=
| GStep (new_x new_y : Z)
| GCharge
| GWait
| GInvalid.

Definition ghost_switch (direction : ascii) (new_x new_y : Z) : ghost_case :=
  if Ascii.eqb direction "W" then GStep new_x (isub new_y 1)
  else if Ascii.eqb direction "S" then GStep new_x (iadd new_y 1)
  else if Ascii.eqb direction "A" then GStep (isub new_x 1) new_y
  else if Ascii.eqb direction "D" then GStep (iadd new_x 1) new_y
  else if Ascii.eqb direction "C" then GCharge
  else if Ascii.eqb direction "T" then GWait
  else GInvalid.

(** [move_ghost(board, ghost_index, command)], one atomic transition
    under the write lock: the result, the board, the ghosts and the
    caller's local command.  [rnd] is what [rand()] returns if called. *)
Definition move_ghost (b : board_t) (ghosts : list ghost_t) (ghost_index : Z)
    (c : command_t) (cmd_ptr : command_ptr) (rnd : Z)
  : option (Z * board_t * list ghost_t * command_t) :=
  ghost ← slot ghosts ghost_index;
  let new_x := g_pos_x ghost in
  let new_y := g_pos_y ghost in
  if 0 <? g_waiting ghost then
    ghosts ← store ghosts ghost_index
               (set_g_waiting (isub (g_waiting ghost) 1) ghost);
    Some (VALID_MOVE, b, ghosts, c)
  else
    let ghost := set_g_waiting (g_passo ghost) ghost in
    cmd ← load_g_command ghost c cmd_ptr;
    let direction := command cmd in
    direction ←
      (if Ascii.eqb direction "R" then slot directions (Z.rem rnd 4)
       else Some direction);
    match ghost_switch direction new_x new_y with
    | GCharge =>
        let ghost :=
          set_charged 1 (set_g_current_move (iadd (g_current_move ghost) 1) ghost) in
        ghosts ← store ghosts ghost_index ghost;
        Some (VALID_MOVE, b, ghosts, c)
    | GWait =>
        '(ghost, c) ←
          (if turns_left cmd =? 1 then
             store_g_turns_left
               (set_g_current_move (iadd (g_current_move ghost) 1) ghost)
               c cmd_ptr (turns cmd)
           else store_g_turns_left ghost c cmd_ptr (isub (turns_left cmd) 1));
        ghosts ← store ghosts ghost_index ghost;
        Some (VALID_MOVE, b, ghosts, c)
    | GInvalid =>
        ghosts ← store ghosts ghost_index ghost;
        Some (INVALID_MOVE, b, ghosts, c)
    | GStep new_x new_y =>
        let ghost := set_g_current_move (iadd (g_current_move ghost) 1) ghost in
        ghosts ← store ghosts ghost_index ghost;
        if negb (charged ghost =? 0) then
          '(res, b, ghosts) ← move_ghost_charged b ghosts ghost_index direction;
          Some (res, b, ghosts, c)
        else if negb (is_valid_position b new_x new_y) then
          Some (INVALID_MOVE, b, ghosts, c)
        else
          let new_index := get_board_index b new_x new_y in
          let old_index := get_board_index b (g_pos_x ghost) (g_pos_y ghost) in
          new_cell ← slot (board b) new_index;
          let target_content := content new_cell in
          if Ascii.eqb target_content "W" || Ascii.eqb target_content "X"
             || Ascii.eqb target_content "M" then
            Some (INVALID_MOVE, b, ghosts, c)
          else
            '(result, b) ←
              (if Ascii.eqb target_content "C" then find_and_kill_pacman b new_x new_y
               else Some (VALID_MOVE, b));
            b ← put_content b old_index " ";
            ghosts ← store ghosts ghost_index (set_g_pos new_x new_y ghost);
            b ← put_content b new_index "M";
            Some (result, b, ghosts, c)
    end.

(** [command_t random_move = {'R', 1, 1}] of [ghost_thread]. *)
Definition random_move : command_t :=
  {| command := "R"; turns := 1; turns_left := 1 |}.

(** Lines 296-302 of [ghost_thread]: the call it makes each turn. *)
Definition ghost_turn (b : board_t) (ghosts : list ghost_t) (ghost_ind : Z) (rnd : Z)
  : option (Z * board_t * list ghost_t * command_t) :=
  ghost ← slot ghosts ghost_ind;
  if 0 <? g_n_moves ghost then
    move_ghost b ghosts ghost_ind random_move
      (PtrMove (Z.rem (g_current_move ghost) (g_n_moves ghost))) rnd
  else move_ghost b ghosts ghost_ind random_move PtrLocal rnd.

(** One turn of a ghost as it changes the board. *)
Definition ghost_section (ghosts : list ghost_t) (ghost_ind rnd : Z) (b : board_t)
  : board_t :=
  match ghost_turn b ghosts ghost_ind rnd with
  | Some (_, b', _, _) => b'
  | None => b
  end.

(** A ghost at (1,2) of the small stage, below the pacman. *)
Definition demo_ghost : ghost_t :=
  {| g_pos_x := 1; g_pos_y := 2; g_passo := 0;
     g_moves := [{| command := "W"; turns := 1; turns_left := 1 |}];
     g_n_moves := 1; g_current_move := 0; g_waiting := 0; charged := 0 |}.
End Ghost.

(** ** Shape of a stage with its ghosts *)

Module GhostShape.
Import CInt CArray Board Ghost BoardShape.
Local Open Scope Z_scope.

(** Ghost [idx] exists and stands on a cell of the grid. *)
Definition ghost_inside (b : board_t) (ghosts : list ghost_t) (idx : Z) : Prop :=
  exists g, slot ghosts idx = Some g /\
    is_valid_position b (g_pos_x g) (g_pos_y g) = true.

(** The command pointer refers to the caller's local or to an entry of
    ghost [idx]'s [moves]. *)
Definition ghost_ptr (ghosts : list ghost_t) (idx : Z) (p : command_ptr) : Prop :=
  match p with
  | PtrLocal => True
  | PtrMove k =>
      exists g cmd, slot ghosts idx = Some g /\ slot (g_moves g) k = Some cmd
  end.

(** [n_pacmans] counts the array [pacmans]. *)
Definition pacmans_counted (b : board_t) : Prop :=
  n_pacmans b <= Z.of_nat (length (pacmans b)).

(** A pacman as a ghost's move leaves it: untouched, or killed where
    it stood. *)
Definition spared_or_killed (pac pac' : pacman_t) : Prop :=
  pac' = pac \/ (alive pac <> 0 /\ pac' = set_alive 0 pac).

(** What became of the pacmans when a ghost went for the cell
    [(x, y)] with result [r]: nothing, or one live pacman standing
    there was killed. *)
Definition kill_outcome (b : board_t) (x y r : Z) (b' : board_t) : Prop :=
  (r <> DEAD_PACMAN /\ pacmans b' = pacmans b) \/
  (r = DEAD_PACMAN /\
   exists q pac,
     slot (pacmans b) q = Some pac /\ pos_x pac = x /\ pos_y pac = y /\
     alive pac <> 0 /\
     pacmans b' = <[Z.to_nat q := set_alive 0 pac]> (pacmans b)).

Definition ghost_results : list Z := [VALID_MOVE; INVALID_MOVE; DEAD_PACMAN].

(** What a ghost's move can do to the board. *)
Record ghost_effects (b b' : board_t) : Prop := {
  ge_frame : same_frame b b';
  ge_count : n_pacmans b' = n_pacmans b;
  ge_finished : level_finished b' = level_finished b;
  ge_dots : dots b' = dots b;
  ge_pacmans : Forall2 spared_or_killed (pacmans b) (pacmans b')
}.

(** Everything one call [move_ghost(board, ghost_index, command)] can
    do: [b], [gs] before the call, [r] the value returned, [b'], [gs']
    after it. *)
Record ghost_move (b : board_t) (gs : list ghost_t) (idx r : Z)
    (b' : board_t) (gs' : list ghost_t) : Prop := {
  gm_effects : ghost_effects b b';
  gm_result : r ∈ ghost_results;
  gm_ghosts : length gs' = length gs;
  gm_invalid : r = INVALID_MOVE -> b' = b;
  gm_spared : r <> DEAD_PACMAN -> pacmans b' = pacmans b;
  gm_killed :
    r = DEAD_PACMAN ->
    exists q pac g',
      slot (pacmans b) q = Some pac /\ alive pac <> 0 /\
      pacmans b' = <[Z.to_nat q := set_alive 0 pac]> (pacmans b) /\
      slot gs' idx = Some g' /\
      g_pos_x g' = pos_x pac /\ g_pos_y g' = pos_y pac /\
      content <$> slot (board b') (get_board_index b' (pos_x pac) (pos_y pac))
      = Some "M"%char
}.
End GhostShape.

(** ** [run_game_logic] and the threads of a stage ([game.c]) *)

Module Runner.
Import CInt CArray Protocol Board Game Update Ghost.
Local Open Scope Z_scope.

Inductive thread_id :=
| UpdateThread
| PacmanThread
| ListenerThread
| GhostThread (i : Z).

(** The calls of [run_game_logic] that the stage's threads can
    observe, as a history. *)
Inductive runner_event :=
| ClearShutdown           (* line 322 *)
| Create (t : thread_id)  (* a [pthread_create] *)
| Join (t : thread_id)    (* a [pthread_join] that has returned *)
| SetShutdown.            (* lines 358-360 *)

(** Where [run_game_logic] stands. *)
Inductive runner_pc :=
| RClear                   (* line 322 *)
| RCreateUpdate            (* line 329 *)
| RCreatePacman            (* line 336 *)
| RCreateListener          (* line 342 *)
| RCreateGhost (i : Z)     (* the [for] of lines 345-351, at its test *)
| RJoinPacman              (* line 355 *)
| RSetShutdown             (* lines 358-360 *)
| RJoinListener            (* line 362 *)
| RJoinUpdate              (* line 363 *)
| RJoinGhost (i : Z)       (* the [for] of lines 365-367, at its test *)
| RReturned (result : Z).  (* line 372 *)

(** Where [input_listener_thread] stands. *)
Inductive listener_pc :=
| LStart   (* line 42 *)
| LTop     (* line 47 *)
| LRead    (* in the [read] of line 54 *)
| LDone.   (* returned *)

(** Where [update_thread] stands. *)
Inductive update_pc :=
| UFirst   (* line 184 *)
| ULoop    (* in the [sleep_ms] of line 189 *)
| UDone.   (* returned *)

(** Where [ghost_thread] stands. *)
Inductive ghost_pc :=
| GTop     (* in the [sleep_ms] of line 287 *)
| GMove    (* line 296 *)
| GDone.   (* [pthread_exit] *)

(** A stage while [run_game_logic] is running: the shared board with
    its ghosts, the two descriptors, the control point of the runner
    and of each thread ([None]: not created yet), the runner's calls
    so far and the messages written to [notif_fd]. *)
Record stage := {
  s_board : board_t;
  s_ghosts : list ghost_t;
  s_notif_fd : Z;
  s_req_fd : Z;
  s_runner : runner_pc;
  s_update : option update_pc;
  s_pacman : option pacman_pc;
  s_listener : option listener_pc;
  s_ghost_threads : list ghost_pc;  (* [ghost_tids], as far as created *)
  s_calls : list runner_event;
  s_sent : list game_state_msg_t
}.

Definition set_s_board (v : board_t) (s : stage) : stage :=
  {| s_board := v; s_ghosts := s_ghosts s; s_notif_fd := s_notif_fd s;
     s_req_fd := s_req_fd s; s_runner := s_runner s; s_update := s_update s;
     s_pacman := s_pacman s; s_listener := s_listener s;
     s_ghost_threads := s_ghost_threads s; s_calls := s_calls s;
     s_sent := s_sent s |}.

Definition set_s_ghosts (v : list ghost_t) (s : stage) : stage :=
  {| s_board := s_board s; s_ghosts := v; s_notif_fd := s_notif_fd s;
     s_req_fd := s_req_fd s; s_runner := s_runner s; s_update := s_update s;
     s_pacman := s_pacman s; s_listener := s_listener s;
     s_ghost_threads := s_ghost_threads s; s_calls := s_calls s;
     s_sent := s_sent s |}.

Definition set_s_update (v : option update_pc) (s : stage) : stage :=
  {| s_board := s_board s; s_ghosts := s_ghosts s; s_notif_fd := s_notif_fd s;
     s_req_fd := s_req_fd s; s_runner := s_runner s; s_update := v;
     s_pacman := s_pacman s; s_listener := s_listener s;
     s_ghost_threads := s_ghost_threads s; s_calls := s_calls s;
     s_sent := s_sent s |}.

Definition set_s_pacman (v : option pacman_pc) (s : stage) : stage :=
  {| s_board := s_board s; s_ghosts := s_ghosts s; s_notif_fd := s_notif_fd s;
     s_req_fd := s_req_fd s; s_runner := s_runner s; s_update := s_update s;
     s_pacman := v; s_listener := s_listener s;
     s_ghost_threads := s_ghost_threads s; s_calls := s_calls s;
     s_sent := s_sent s |}.

Definition set_s_listener (v : option listener_pc) (s : stage) : stage :=
  {| s_board := s_board s; s_ghosts := s_ghosts s; s_notif_fd := s_notif_fd s;
     s_req_fd := s_req_fd s; s_runner := s_runner s; s_update := s_update s;
     s_pacman := s_pacman s; s_listener := v;
     s_ghost_threads := s_ghost_threads s; s_calls := s_calls s;
     s_sent := s_sent s |}.

Definition set_s_ghost_threads (v : list ghost_pc) (s : stage) : stage :=
  {| s_board := s_board s; s_ghosts := s_ghosts s; s_notif_fd := s_notif_fd s;
     s_req_fd := s_req_fd s; s_runner := s_runner s; s_update := s_update s;
     s_pacman := s_pacman s; s_listener := s_listener s;
     s_ghost_threads := v; s_calls := s_calls s; s_sent := s_sent s |}.

Definition set_s_sent (v : list game_state_msg_t) (s : stage) : stage :=
  {| s_board := s_board s; s_ghosts := s_ghosts s; s_notif_fd := s_notif_fd s;
     s_req_fd := s_req_fd s; s_runner := s_runner s; s_update := s_update s;
     s_pacman := s_pacman s; s_listener := s_listener s;
     s_ghost_threads := s_ghost_threads s; s_calls := s_calls s;
     s_sent := v |}.

(** The runner has made the call [e] and goes on at [pc]. *)
Definition called (e : runner_event) (pc : runner_pc) (s : stage) : stage :=
  {| s_board := s_board s; s_ghosts := s_ghosts s; s_notif_fd := s_notif_fd s;
     s_req_fd := s_req_fd s; s_runner := pc; s_update := s_update s;
     s_pacman := s_pacman s; s_listener := s_listener s;
     s_ghost_threads := s_ghost_threads s; s_calls := s_calls s ++ [e];
     s_sent := s_sent s |}.

(** The runner goes on at [pc] without a call of its own. *)
Definition goes_on (pc : runner_pc) (s : stage) : stage :=
  {| s_board := s_board s; s_ghosts := s_ghosts s; s_notif_fd := s_notif_fd s;
     s_req_fd := s_req_fd s; s_runner := pc; s_update := s_update s;
     s_pacman := s_pacman s; s_listener := s_listener s;
     s_ghost_threads := s_ghost_threads s; s_calls := s_calls s;
     s_sent := s_sent s |}.

(** One step of [run_game_logic] (lines 318-373).  A [pthread_join]
    whose thread has not finished leaves the stage as it is: the
    runner stays in the call. *)
Definition step_runner (s : stage) : option stage :=
  let game_board := s_board s in
  match s_runner s with
  | RClear =>
      Some (called ClearShutdown RCreateUpdate
              (set_s_board (set_shutdown 0 game_board) s))
  | RCreateUpdate =>
      Some (called (Create UpdateThread) RCreatePacman
              (set_s_update (Some UFirst) s))
  | RCreatePacman =>
      Some (called (Create PacmanThread) RCreateListener
              (set_s_pacman (Some PcTop) s))
  | RCreateListener =>
      Some (called (Create ListenerThread) (RCreateGhost 0)
              (set_s_listener (Some LStart) s))
  | RCreateGhost i =>
      if i <? n_ghosts game_board then
        Some (called (Create (GhostThread i)) (RCreateGhost (i + 1))
                (set_s_ghost_threads (s_ghost_threads s ++ [GTop]) s))
      else Some (goes_on RJoinPacman s)
  | RJoinPacman =>
      match s_pacman s with
      | Some (PcDone _ _) => Some (called (Join PacmanThread) RSetShutdown s)
      | _ => Some s
      end
  | RSetShutdown =>
      Some (called SetShutdown RJoinListener
              (set_s_board (set_shutdown 1 game_board) s))
  | RJoinListener =>
      match s_listener s with
      | Some LDone => Some (called (Join ListenerThread) RJoinUpdate s)
      | _ => Some s
      end
  | RJoinUpdate =>
      match s_update s with
      | Some UDone => Some (called (Join UpdateThread) (RJoinGhost 0) s)
      | _ => Some s
      end
  | RJoinGhost i =>
      if i <? n_ghosts game_board then
        t ← slot (s_ghost_threads s) i;
        match t with
        | GDone => Some (called (Join (GhostThread i)) (RJoinGhost (i + 1)) s)
        | _ => Some s
        end
      else
        (* [int result = *retval]: the cell the pacman thread filled *)
        match s_pacman s with
        | Some (PcDone retval _) => Some (goes_on (RReturned retval) s)
        | _ => None
        end
  | RReturned _ => Some s
  end.

(** One atomic section of [pacman_thread]; [rnd] is what [rand()]
    returns if [move_pacman] calls it. *)
Definition step_pacman (rnd : Z) (s : stage) : option stage :=
  match s_pacman s with
  | None => Some s
  | Some pc =>
      '(pc', b') ← pacman_step rnd pc (s_board s);
      Some (set_s_pacman (Some pc') (set_s_board b' s))
  end.

(** One section of [input_listener_thread]: the test of [fd], the
    test of [shutdown] at the top of the loop, or the return of the
    [read] with the value [n] and the buffer [move], and what the
    thread does with it. *)
Definition step_listener (n : Z) (move : move_req_t) (s : stage) : option stage :=
  match s_listener s with
  | None | Some LDone => Some s
  | Some LStart =>
      Some (set_s_listener (Some (if s_req_fd s =? -1 then LDone else LTop)) s)
  | Some LTop =>
      Some (set_s_listener
              (Some (match listener_top (s_board s) with
                     | LoopContinue => LRead
                     | LoopExit => LDone
                     end)) s)
  | Some LRead =>
      '(b', _, ctl) ← listener_handle n move (s_board s);
      Some (set_s_listener
              (Some (match ctl with
                     | LoopContinue => LTop
                     | LoopExit => LDone
                     end)) (set_s_board b' s))
  end.

(** [server_send_update(board, notif_fd)] with its first test. *)
Definition send_update (s : stage) : option stage :=
  if s_notif_fd s =? -1 then Some s
  else
    msg ← server_send_update (s_board s);
    Some (set_s_sent (s_sent s ++ [msg]) s).

(** One section of [update_thread]: the first update, or one turn of
    its loop after the sleep. *)
Definition step_update (s : stage) : option stage :=
  match s_update s with
  | None | Some UDone => Some s
  | Some UFirst =>
      s' ← send_update s; Some (set_s_update (Some ULoop) s')
  | Some ULoop =>
      if negb (shutdown (s_board s) =? 0) then Some (set_s_update (Some UDone) s)
      else send_update s
  end.

(** One section of the [ghost_thread] with index [i]: the test of
    [shutdown] after the sleep, or its call of [move_ghost]. *)
Definition step_ghost (i rnd : Z) (s : stage) : option stage :=
  match slot (s_ghost_threads s) i with
  | None | Some GDone => Some s
  | Some GTop =>
      ts ← store (s_ghost_threads s) i
             (if negb (shutdown (s_board s) =? 0) then GDone else GMove);
      Some (set_s_ghost_threads ts s)
  | Some GMove =>
      '(_, b', ghosts', _) ← ghost_turn (s_board s) (s_ghosts s) i rnd;
      ts ← store (s_ghost_threads s) i GTop;
      Some (set_s_ghost_threads ts (set_s_ghosts ghosts' (set_s_board b' s)))
  end.

(** Whose turn it is, with what the environment supplies to it. *)
Inductive turn :=
| OfRunner
| OfPacman (rnd : Z)
| OfListener (n : Z) (move : move_req_t)
| OfUpdate
| OfGhost (i : Z) (rnd : Z).

Definition stage_step (t : turn) (s : stage) : option stage :=
  match t with
  | OfRunner => step_runner s
  | OfPacman rnd => step_pacman rnd s
  | OfListener n move => step_listener n move s
  | OfUpdate => step_update s
  | OfGhost i rnd => step_ghost i rnd s
  end.

(** The stage under the interleaving [sched]; [None] is an access
    outside an array. *)
Fixpoint run_stage (sched : list turn) (s : stage) : option stage :=
  match sched with
  | [] => Some s
  | t :: sched' => s' ← stage_step t s; run_stage sched' s'
  end.

(** The stage when [run_game_logic(game_board, notif_fd, req_fd)] is
    entered. *)
Definition stage_init (game_board : board_t) (ghosts : list ghost_t)
    (notif_fd req_fd : Z) : stage :=
  {| s_board := game_board; s_ghosts := ghosts; s_notif_fd := notif_fd;
     s_req_fd := req_fd; s_runner := RClear; s_update := None;
     s_pacman := None; s_listener := None; s_ghost_threads := [];
     s_calls := []; s_sent := [] |}.

(** What the call has returned, if it has. *)
Definition returned (s : stage) : option Z :=
  match s_runner s with
  | RReturned result => Some result
  | _ => None
  end.

(** [run_game_logic(game_board, notif_fd, req_fd)] under the
    interleaving [sched].  [Some (Some result, s)]: the call has
    returned [result], leaving the stage [s].  [Some (None, s)]: it
    has not returned; the runner is still creating threads, or it is
    inside a [pthread_join] whose thread has not finished.  [None]: an
    access outside an array. *)
Definition run_game_logic (sched : list turn) (game_board : board_t)
    (ghosts : list ghost_t) (notif_fd req_fd : Z) : option (option Z * stage) :=
  s ← run_stage sched (stage_init game_board ghosts notif_fd req_fd);
  Some (returned s, s).

(** In the run of [sched] from [s0] the pacman thread ran a section
    from the control point [pc], on the board [b] and with [rnd]. *)
Definition pacman_ran (sched : list turn) (s0 : stage)
    (pc : pacman_pc) (b : board_t) (rnd : Z) : Prop :=
  exists before after s1,
    sched = before ++ OfPacman rnd :: after /\
    run_stage before s0 = Some s1 /\
    s_pacman s1 = Some pc /\ s_board s1 = b.

(** A call of [move_pacman] of line 246 returned [r] in the run. *)
Definition move_returned (sched : list turn) (s0 : stage) (r : Z) : Prop :=
  exists c play b rnd b' c',
    pacman_ran sched s0 (PcMove c play) b rnd /\
    move_pacman b 0 c play rnd = Some (r, b', c').

(** The test of line 223 found the pacman dead. *)
Definition found_dead (sched : list turn) (s0 : stage) : Prop :=
  exists b rnd pacman,
    pacman_ran sched s0 PcTop b rnd /\
    slot (pacmans b) 0 = Some pacman /\ alive pacman = 0.

(** The test of line 259, after a move that returned [r], found
    [shutdown] set. *)
Definition found_flag (sched : list turn) (s0 : stage) (r : Z) : Prop :=
  exists b rnd, pacman_ran sched s0 (PcCheck r) b rnd /\ shutdown b <> 0.

(** The small stage with its ghost, and an interleaving in which the
    player steers right twice, onto the dot and into the portal: the
    runner creates its threads and waits for the pacman thread; the
    listener reads the two keys and is inside its third [read] when
    the pacman reaches the portal; the runner sets [shutdown] and
    waits for the listener, until the client closes the pipe. *)
Definition no_data : move_req_t := {| op_code := 0; key := NUL |}.

Definition demo_stage_sched : list turn :=
  [OfRunner; OfRunner; OfRunner; OfRunner; OfRunner; OfRunner;
   OfUpdate; OfListener 0 no_data; OfListener 0 no_data;
   OfPacman 0; OfListener 2 (move_msg "D"); OfGhost 0 0;
   OfPacman 0; OfPacman 0; OfPacman 0; OfListener 0 no_data;
   OfPacman 0; OfGhost 0 0; OfRunner; OfListener 2 (move_msg "D");
   OfUpdate; OfPacman 0; OfPacman 0; OfListener 0 no_data;
   OfRunner; OfRunner; OfRunner; OfUpdate; OfGhost 0 0; OfRunner;
   OfListener 0 no_data;
   OfRunner; OfRunner; OfRunner; OfRunner].

Definition demo_returned : stage :=
  Eval vm_compute in
    default (stage_init (demo_board NO_MOVE) [demo_ghost] 3 4)
      (run_stage demo_stage_sched
         (stage_init (demo_board NO_MOVE) [demo_ghost] 3 4)).
End Runner.

(** ** What holds of a stage while [run_game_logic] runs *)

Module RunnerShape.
Import CInt CArray Protocol Board Game Update Ghost Runner.
Local Open Scope Z_scope.

(** A thread has been created and has finished. *)
Definition finished (t : thread_id) (s : stage) : Prop :=
  match t with
  | UpdateThread => s_update s = Some UDone
  | PacmanThread => exists retval why, s_pacman s = Some (PcDone retval why)
  | ListenerThread => s_listener s = Some LDone
  | GhostThread i => slot (s_ghost_threads s) i = Some GDone
  end.

(** The call [f] for each of the ghost threads 0 to [n - 1], in this
    order. *)
Definition ghost_calls (f : thread_id -> runner_event) (n : nat) : list runner_event :=
  (fun k : nat => f (GhostThread (Z.of_nat k))) <$> seq 0 n.

(** How far the runner has come. *)
Definition phase (pc : runner_pc) : nat :=
  match pc with
  | RClear => 0
  | RCreateUpdate => 1
  | RCreatePacman => 2
  | RCreateListener => 3
  | RCreateGhost _ => 4
  | RJoinPacman => 5
  | RSetShutdown => 6
  | RJoinListener => 7
  | RJoinUpdate => 8
  | RJoinGhost _ => 9
  | RReturned _ => 10
  end%nat.

Definition first_calls : list runner_event :=
  [ClearShutdown; Create UpdateThread; Create PacmanThread; Create ListenerThread].

(** The calls the runner has made when it stands at [pc], on a stage
    with [n] ghosts. *)
Definition calls_at (n : nat) (pc : runner_pc) : list runner_event :=
  match pc with
  | RClear => []
  | RCreateUpdate => [ClearShutdown]
  | RCreatePacman => [ClearShutdown; Create UpdateThread]
  | RCreateListener => [ClearShutdown; Create UpdateThread; Create PacmanThread]
  | RCreateGhost i => first_calls ++ ghost_calls Create (Z.to_nat i)
  | RJoinPacman => first_calls ++ ghost_calls Create n
  | RSetShutdown => first_calls ++ ghost_calls Create n ++ [Join PacmanThread]
  | RJoinListener =>
      first_calls ++ ghost_calls Create n ++ [Join PacmanThread; SetShutdown]
  | RJoinUpdate =>
      first_calls ++ ghost_calls Create n
      ++ [Join PacmanThread; SetShutdown; Join ListenerThread]
  | RJoinGhost i =>
      first_calls ++ ghost_calls Create n
      ++ [Join PacmanThread; SetShutdown; Join ListenerThread; Join UpdateThread]
      ++ ghost_calls Join (Z.to_nat i)
  | RReturned _ =>
      first_calls ++ ghost_calls Create n
      ++ [Join PacmanThread; SetShutdown; Join ListenerThread; Join UpdateThread]
      ++ ghost_calls Join n
  end.

(** What a section of a thread other than the runner leaves in place. *)
Record stage_le (s s' : stage) : Prop := {
  le_runner : s_runner s' = s_runner s;
  le_calls : s_calls s' = s_calls s;
  le_fds : s_notif_fd s' = s_notif_fd s /\ s_req_fd s' = s_req_fd s;
  le_n_ghosts : n_ghosts (s_board s') = n_ghosts (s_board s);
  le_flag : shutdown (s_board s) = 1 -> shutdown (s_board s') = 1;
  le_pacman_none : s_pacman s = None -> s_pacman s' = None;
  le_pacman_done :
    forall retval why,
      s_pacman s = Some (PcDone retval why) -> s_pacman s' = Some (PcDone retval why);
  le_listener : s_listener s = Some LDone -> s_listener s' = Some LDone;
  le_update : s_update s = Some UDone -> s_update s' = Some UDone;
  le_threads : length (s_ghost_threads s') = length (s_ghost_threads s);
  le_ghost_done :
    forall j, slot (s_ghost_threads s) j = Some GDone ->
              slot (s_ghost_threads s') j = Some GDone
}.

(** What holds of the runner and its threads all along, on a stage
    entered with the board [game_board]. *)
Record runner_inv (game_board : board_t) (s : stage) : Prop := {
  ri_n_ghosts : n_ghosts (s_board s) = n_ghosts game_board;
  ri_calls : s_calls s = calls_at (Z.to_nat (n_ghosts game_board)) (s_runner s);
  ri_pacman_none : (phase (s_runner s) <= 2)%nat -> s_pacman s = None;
  ri_created :
    match s_runner s with
    | RCreateGhost i =>
        0 <= i /\ (Z.to_nat i <= Z.to_nat (n_ghosts game_board))%nat /\
        length (s_ghost_threads s) = Z.to_nat i
    | pc =>
        if (phase pc <? 4)%nat then s_ghost_threads s = []
        else length (s_ghost_threads s) = Z.to_nat (n_ghosts game_board)
    end;
  ri_pacman_done : (6 <= phase (s_runner s))%nat -> finished PacmanThread s;
  ri_flag : (7 <= phase (s_runner s))%nat -> shutdown (s_board s) = 1;
  ri_listener_done : (8 <= phase (s_runner s))%nat -> finished ListenerThread s;
  ri_update_done : (9 <= phase (s_runner s))%nat -> finished UpdateThread s;
  ri_joined :
    match s_runner s with
    | RJoinGhost i =>
        0 <= i /\ (Z.to_nat i <= Z.to_nat (n_ghosts game_board))%nat /\
        forall j, 0 <= j < i -> finished (GhostThread j) s
    | RReturned result =>
        (forall j, 0 <= j < n_ghosts game_board -> finished (GhostThread j) s) /\
        exists why, s_pacman s = Some (PcDone result why)
    | _ => True
    end
}.

(** Why the pacman thread has left its loop with [retval]. *)
Definition exit_story (sched : list turn) (s0 : stage) (retval : Z) : Prop :=
  (retval = NEXT_LEVEL /\ move_returned sched s0 REACHED_PORTAL) \/
  (retval = LOAD_BACKUP /\
   (move_returned sched s0 DEAD_PACMAN \/ found_dead sched s0)) \/
  (retval = QUIT_GAME /\
   exists r, r <> REACHED_PORTAL /\ r <> DEAD_PACMAN /\
             move_returned sched s0 r /\ found_flag sched s0 r).

(** What the pacman thread's control point says about the run. *)
Definition pacman_story (sched : list turn) (s0 s : stage) : Prop :=
  match s_pacman s with
  | Some (PcCheck r) =>
      r <> REACHED_PORTAL /\ r <> DEAD_PACMAN /\ move_returned sched s0 r
  | Some (PcDone retval _) => exit_story sched s0 retval
  | _ => True
  end.
End RunnerShape.

(** * Properties *)

Module CIntFacts.
Import CInt.
Local Open Scope Z_scope.

Lemma wrap32_id z : in_int z -> wrap32 z = z.
Proof.
  unfold in_int, INT_MIN, INT_MAX, wrap32. intros H.
  rewrite Z.mod_small; lia.
Qed.

Lemma wrap32_range z : in_int (wrap32 z).
Proof.
  unfold in_int, INT_MIN, INT_MAX, wrap32.
  pose proof (Z.mod_pos_bound (z + 2147483648) 4294967296). lia.
Qed.

Lemma length_strncpy src n : length (Protocol.strncpy src n) = n.
Proof.
  revert src. induction n as [|n IH]; intros [|c src]; simpl; auto.
  - by rewrite length_replicate.
  - destruct (Ascii.eqb c Protocol.NUL); simpl;
      [by rewrite length_replicate | by rewrite IH].
Qed.

Lemma slot_Some {A} (arr : list A) i x :
  CArray.slot arr i = Some x <-> 0 <= i /\ arr !! Z.to_nat i = Some x.
Proof.
  unfold CArray.slot. destruct (Z.leb_spec 0 i); split; intros; try done.
  - tauto.
  - lia.
Qed.

Lemma slot_lt {A} (arr : list A) i x :
  CArray.slot arr i = Some x -> 0 <= i < Z.of_nat (length arr).
Proof.
  intros [? H]%slot_Some. apply lookup_lt_Some in H. lia.
Qed.

Lemma slot_is_Some {A} (arr : list A) i :
  0 <= i < Z.of_nat (length arr) -> is_Some (CArray.slot arr i).
Proof.
  intros H. unfold CArray.slot. destruct (Z.leb_spec 0 i); [|lia].
  apply lookup_lt_is_Some. lia.
Qed.

Lemma store_Some {A} (arr arr' : list A) i v :
  CArray.store arr i v = Some arr' ->
  0 <= i < Z.of_nat (length arr) /\ arr' = <[Z.to_nat i := v]> arr.
Proof.
  unfold CArray.store. destruct (CArray.slot arr i) eqn:E; [|done].
  intros [= <-]. split; [by eapply slot_lt | done].
Qed.
End CIntFacts.

Module DispatchFacts.
Import CInt CArray Protocol Dispatch CIntFacts.
Local Open Scope Z_scope.

Lemma sumZ_insert {A} (f : A -> Z) (l : list A) i a b :
  l !! i = Some a -> sumZ f (<[i := b]> l) = sumZ f l - f a + f b.
Proof.
  revert i. induction l as [|x l IH]; intros [|i] H; simplify_eq/=; [lia|].
  rewrite (IH _ H). lia.
Qed.

Lemma sumZ_replicate {A} (f : A -> Z) n x :
  sumZ f (replicate n x) = Z.of_nat n * f x.
Proof. induction n as [|n IH]; [done|]. simpl sumZ. rewrite IH. lia. Qed.

Lemma sumZ_nonneg {A} (f : A -> Z) (l : list A) :
  (forall x, 0 <= f x) -> 0 <= sumZ f l.
Proof.
  intros Hf. induction l as [|x l IH]; simpl; [lia|]. specialize (Hf x). lia.
Qed.

Lemma sumZ_lookup_le {A} (f : A -> Z) (l : list A) i a :
  (forall x, 0 <= f x) -> l !! i = Some a -> f a <= sumZ f l.
Proof.
  intros Hf. revert i. induction l as [|x l IH]; intros [|i] H; simplify_eq/=.
  - pose proof (sumZ_nonneg f l Hf). lia.
  - specialize (IH _ H). specialize (Hf x). lia.
Qed.

Lemma sumZ_all_zero {A} (f : A -> Z) (l : list A) :
  Forall (fun a => f a = 0) l -> sumZ f l = 0.
Proof. induction 1 as [|a l Ha _ IH]; simpl; lia. Qed.

Lemma holding_nonneg w : 0 <= holding w.
Proof. destruct w; simpl; lia. Qed.

Lemma taken_nonneg w : 0 <= taken w.
Proof. destruct w; simpl; lia. Qed.

Lemma mod_neq_of_gap a b n :
  0 < n -> 0 < a - b < n -> a mod n <> b mod n.
Proof.
  intros Hn Hgap Heq.
  assert (H : (a - b) mod n = 0).
  { rewrite Zminus_mod, Heq, Z.sub_diag. apply Z.mod_0_l. lia. }
  apply Z.mod_divide in H; [|lia].
  destruct H as [k Hk].
  destruct (Z_le_gt_dec k 0) as [Hk0|Hk0].
  - assert (k * n <= 0) by (apply Z.mul_nonpos_nonneg; lia). lia.
  - assert (1 * n <= k * n) by (apply Z.mul_le_mono_nonneg_r; lia). lia.
Qed.

Lemma advance_index a n :
  0 < n -> n <= INT_MAX -> 0 <= a ->
  Z.rem (iadd (a mod n) 1) n = (a + 1) mod n.
Proof.
  intros Hn Hmax Ha. pose proof (Z.mod_pos_bound a n Hn).
  unfold iadd. rewrite wrap32_id by (unfold in_int, INT_MIN, INT_MAX in *; lia).
  rewrite Z.rem_mod_nonneg by lia.
  rewrite <- (Zplus_mod_idemp_l a 1 n). done.
Qed.

(** The invariant carried through every transition. *)
Record inv (max_games : Z) (s : server) : Prop := {
  inv_cap : buffer_size (q s) = max_games;
  inv_range : 0 <= max_games <= INT_MAX;
  inv_buf : length (session_buffer (q s)) = Z.to_nat max_games;
  inv_tick : length (slot_ticket (hist s)) = Z.to_nat max_games;
  inv_pool : length (workers s) = Z.to_nat max_games;
  inv_full : 0 <= sem_full (q s);
  inv_empty : 0 <= sem_empty (q s);
  inv_occ :
    occupied_slots s =
    Z.of_nat (length (enqueued (hist s))) - Z.of_nat (length (dequeued (hist s)));
  inv_free : free_slots s = max_games - occupied_slots s;
  inv_in :
    0 <= buffer_in (q s) /\
    (0 < max_games ->
     buffer_in (q s) = Z.of_nat (length (enqueued (hist s))) mod max_games);
  inv_out :
    0 <= buffer_out (q s) /\
    (0 < max_games ->
     buffer_out (q s) = Z.of_nat (length (dequeued (hist s))) mod max_games);
  inv_slots :
    forall k : nat,
      (length (dequeued (hist s)) <= k < length (enqueued (hist s)))%nat ->
      session_buffer (q s) !! Z.to_nat (Z.of_nat k mod max_games)
        = enqueued (hist s) !! k /\
      slot_ticket (hist s) !! Z.to_nat (Z.of_nat k mod max_games) = Some k;
  inv_deq :
    forall (k : nat) d,
      dequeued (hist s) !! k = Some d ->
      ticket_of d = k /\ enqueued (hist s) !! k = Some (record_of d)
}.

Lemma inv_init max_games s : main_init max_games = Some s -> inv max_games s.
Proof.
  unfold main_init. destruct (_ && _) eqn:E; [|done]. intros [= <-].
  apply andb_true_iff in E as [?%Z.leb_le ?%Z.leb_le].
  split; simpl; rewrite ?length_replicate; try done; try lia.
  all: unfold free_slots, occupied_slots, pending_full, pending_empty; simpl;
    rewrite ?sumZ_replicate; simpl; try lia.
  all: try (split; [lia|]; intros; by rewrite Z.mod_0_l by lia).
Qed.

Lemma inv_gap_room max_games s :
  inv max_games s ->
  0 <= Z.of_nat (length (enqueued (hist s))) - Z.of_nat (length (dequeued (hist s)))
    <= max_games.
Proof.
  intros I. rewrite <- (inv_occ _ _ I).
  pose proof (inv_free _ _ I) as Hf. pose proof (inv_full _ _ I).
  pose proof (inv_empty _ _ I).
  pose proof (sumZ_nonneg holding (workers s) holding_nonneg).
  pose proof (sumZ_nonneg taken (workers s) taken_nonneg).
  unfold free_slots, occupied_slots, pending_full, pending_empty in *.
  destruct (acc s); lia.
Qed.

Lemma inv_acc_sem_wait max_games s req s' :
  inv max_games s -> step (acc_sem_wait req) s = Some s' -> inv max_games s'.
Proof.
  intros I. unfold step, sem_wait. destruct (acc s) eqn:Ea; try done.
  destruct (Z.ltb_spec 0 (sem_empty (q s))); [|done]. intros [= <-].
  destruct I. split; simpl; try done; try lia.
  - unfold occupied_slots, pending_full in *. simpl. by rewrite Ea in *.
  - unfold free_slots, occupied_slots, pending_full, pending_empty in *. simpl.
    rewrite Ea in *. lia.
Qed.

Lemma inv_acc_sem_post max_games s s' :
  inv max_games s -> step acc_sem_post s = Some s' -> inv max_games s'.
Proof.
  intros I. unfold step, sem_post. destruct (acc s) eqn:Ea; try done.
  intros [= <-].
  destruct I. split; simpl; try done; try lia.
  - unfold occupied_slots, pending_full in *. simpl. rewrite Ea in *. lia.
  - unfold free_slots, occupied_slots, pending_full, pending_empty in *. simpl.
    rewrite Ea in *. lia.
Qed.

Lemma inv_wrk_sem_wait max_games s i s' :
  inv max_games s -> step (wrk_sem_wait i) s = Some s' -> inv max_games s'.
Proof.
  intros I. unfold step, sem_wait.
  destruct (workers s !! i) as [[| |]|] eqn:Ew; try done.
  destruct (Z.ltb_spec 0 (sem_full (q s))); [|done]. intros [= <-].
  destruct I. split; simpl; rewrite ?length_insert; try done; try lia.
  - unfold occupied_slots, pending_full in *. simpl.
    rewrite (sumZ_insert _ _ _ _ _ Ew). simpl. lia.
  - unfold free_slots, occupied_slots, pending_full, pending_empty in *. simpl.
    rewrite !(sumZ_insert _ _ _ _ _ Ew). simpl. lia.
Qed.

Lemma inv_wrk_sem_post max_games s i s' :
  inv max_games s -> step (wrk_sem_post i) s = Some s' -> inv max_games s'.
Proof.
  intros I. unfold step, sem_post.
  destruct (workers s !! i) as [[| |]|] eqn:Ew; try done.
  intros [= <-].
  destruct I. split; simpl; rewrite ?length_insert; try done; try lia.
  - unfold occupied_slots, pending_full in *. simpl.
    rewrite (sumZ_insert _ _ _ _ _ Ew). simpl. lia.
  - unfold free_slots, occupied_slots, pending_full, pending_empty in *. simpl.
    rewrite !(sumZ_insert _ _ _ _ _ Ew). simpl. lia.
Qed.

Lemma inv_acc_critical max_games s s' :
  inv max_games s -> step acc_critical s = Some s' -> inv max_games s'.
Proof.
  intros I. pose proof (inv_gap_room _ _ I) as Hroom.
  unfold step, enqueue_critical. destruct (acc s) eqn:Ea; try done.
  destruct (slot (session_buffer (q s)) (buffer_in (q s))) eqn:Es; [|done].
  destruct (Z.eqb_spec (buffer_size (q s)) 0) as [|Hsz]; [done|].
  simpl. intros [= <-].
  apply slot_lt in Es.
  destruct I as [Hcap Hr Hbuf Htick Hpool Hfull Hempty Hocc Hfree [Hin0 Hin] Hout Hslots Hdeq].
  assert (Hpos : 0 < max_games) by lia.
  specialize (Hin Hpos).
  assert (Hlt : Z.of_nat (length (enqueued (hist s))) - Z.of_nat (length (dequeued (hist s)))
                < max_games).
  { rewrite <- Hocc.
    pose proof (sumZ_nonneg taken (workers s) taken_nonneg).
    unfold free_slots, occupied_slots, pending_full, pending_empty in *.
    rewrite Ea in *. lia. }
  split; simpl; rewrite ?length_insert, ?length_app; simpl; try done; try lia.
  - unfold occupied_slots, pending_full in *. simpl. rewrite Ea in *. lia.
  - unfold free_slots, occupied_slots, pending_full, pending_empty in *. simpl.
    rewrite Ea in *. lia.
  - split.
    + rewrite Hcap. apply Z.rem_nonneg; [lia|]. unfold iadd.
      rewrite wrap32_id; unfold in_int, INT_MIN, INT_MAX in *; lia.
    + intros _. rewrite Hcap, Hin, advance_index by lia. f_equal. lia.
  - intros k Hk.
    destruct (decide (k = length (enqueued (hist s)))) as [->|Hne].
    + rewrite Hin. rewrite !list_lookup_insert_eq.
      * by rewrite lookup_app_r, Nat.sub_diag by lia.
      * rewrite Htick. pose proof (Z.mod_pos_bound (Z.of_nat (length (enqueued (hist s)))) _ Hpos). lia.
      * rewrite Hbuf. pose proof (Z.mod_pos_bound (Z.of_nat (length (enqueued (hist s)))) _ Hpos). lia.
    + assert (Hidx : Z.to_nat (buffer_in (q s)) <> Z.to_nat (Z.of_nat k mod max_games)).
      { rewrite Hin. intros Heq.
        apply (mod_neq_of_gap (Z.of_nat (length (enqueued (hist s)))) (Z.of_nat k) max_games);
          [lia | lia |].
        pose proof (Z.mod_pos_bound (Z.of_nat (length (enqueued (hist s)))) _ Hpos).
        pose proof (Z.mod_pos_bound (Z.of_nat k) _ Hpos). lia. }
      rewrite !list_lookup_insert_ne by done.
      rewrite lookup_app_l by lia. apply Hslots. lia.
  - intros k d Hd. destruct (Hdeq k d Hd) as [? He]. split; [done|].
    by apply lookup_app_l_Some.
Qed.

Lemma inv_wrk_critical max_games s i s' :
  inv max_games s -> step (wrk_critical i) s = Some s' -> inv max_games s'.
Proof.
  intros I. pose proof (inv_gap_room _ _ I) as Hroom.
  unfold step, dequeue_critical.
  destruct (workers s !! i) as [[| |]|] eqn:Ew; try done.
  destruct (slot (session_buffer (q s)) (buffer_out (q s))) as [session|] eqn:Es; [|done].
  destruct (Z.eqb_spec (buffer_size (q s)) 0) as [|Hsz]; [done|].
  simpl. destruct (slot (slot_ticket (hist s)) (buffer_out (q s))) as [t|] eqn:Et; [|done].
  simpl. intros [= <-].
  destruct I as [Hcap Hr Hbuf Htick Hpool Hfull Hempty Hocc Hfree Hin [Hout0 Hout] Hslots Hdeq].
  assert (Hpos : 0 < max_games) by lia.
  specialize (Hout Hpos).
  assert (Hlt : (length (dequeued (hist s)) < length (enqueued (hist s)))%nat).
  { pose proof (sumZ_lookup_le holding _ _ _ holding_nonneg Ew) as Hh. simpl in Hh.
    unfold occupied_slots, pending_full in *. destruct (acc s); lia. }
  destruct (Hslots (length (dequeued (hist s)))) as [Hrec Hticket]; [lia|].
  assert (Hob : 0 <= buffer_out (q s) < max_games)
    by (rewrite Hout; apply Z.mod_pos_bound; lia).
  apply slot_Some in Es as [_ Es]. apply slot_Some in Et as [_ Et].
  rewrite Hout in Es, Et. rewrite Es in Hrec. rewrite Et in Hticket.
  split; simpl; rewrite ?length_insert, ?length_app; simpl; try done; try lia.
  - unfold occupied_slots, pending_full in *. simpl.
    rewrite (sumZ_insert _ _ _ _ _ Ew). simpl. lia.
  - unfold free_slots, occupied_slots, pending_full, pending_empty in *. simpl.
    rewrite !(sumZ_insert _ _ _ _ _ Ew). simpl. lia.
  - split.
    + rewrite Hcap. apply Z.rem_nonneg; [lia|]. unfold iadd.
      rewrite wrap32_id; unfold in_int, INT_MIN, INT_MAX in *; lia.
    + intros _. rewrite Hcap, Hout, advance_index by lia. f_equal. lia.
  - intros k Hk. apply Hslots. lia.
  - intros k d Hd.
    destruct (decide (k = length (dequeued (hist s)))) as [->|Hne].
    + rewrite lookup_app_r, Nat.sub_diag in Hd by lia. simpl in Hd.
      injection Hd as <-. unfold ticket_of, record_of. simpl.
      split; congruence.
    + apply Hdeq. rewrite lookup_app_l in Hd; [done|].
      apply lookup_lt_Some in Hd. rewrite length_app in Hd. simpl in Hd. lia.
Qed.

Lemma inv_step max_games s l s' :
  inv max_games s -> step l s = Some s' -> inv max_games s'.
Proof.
  destruct l; eauto using inv_acc_sem_wait, inv_acc_critical, inv_acc_sem_post,
    inv_wrk_sem_wait, inv_wrk_critical, inv_wrk_sem_post.
Qed.

Lemma reachable_inv max_games s : reachable max_games s -> inv max_games s.
Proof. induction 1; eauto using inv_init, inv_step. Qed.

Lemma run_reachable max_games sched s s' :
  reachable max_games s -> run sched s = Some s' -> reachable max_games s'.
Proof.
  revert s. induction sched as [|l sched IH]; simpl; intros s Hs Hrun.
  - by injection Hrun as <-.
  - destruct (step l s) as [s1|] eqn:E; [|done]. simpl in Hrun.
    eapply IH; [|done]. by eapply reach_step.
Qed.

(** In a reachable state the critical sections stay inside the array
    and never divide by zero. *)
Lemma acc_critical_defined max_games s req :
  reachable max_games s -> acc s = AHolding req -> is_Some (step acc_critical s).
Proof.
  intros I%reachable_inv Ea. pose proof (inv_gap_room _ _ I).
  destruct I as [Hcap Hr Hbuf Htick Hpool Hfull Hempty Hocc Hfree [Hin0 Hin] Hout Hslots Hdeq].
  assert (Hpos : 0 < max_games).
  { pose proof (sumZ_nonneg taken (workers s) taken_nonneg).
    unfold free_slots, occupied_slots, pending_full, pending_empty in *.
    rewrite Ea in *. lia. }
  unfold step, enqueue_critical. rewrite Ea.
  destruct (slot_is_Some (session_buffer (q s)) (buffer_in (q s))) as [x ->].
  { rewrite Hbuf, Hin by done. pose proof (Z.mod_pos_bound (Z.of_nat (length (enqueued (hist s)))) _ Hpos). lia. }
  destruct (Z.eqb_spec (buffer_size (q s)) 0); [lia|]. by eexists.
Qed.

Lemma wrk_critical_defined max_games s i :
  reachable max_games s -> workers s !! i = Some WHolding ->
  is_Some (step (wrk_critical i) s).
Proof.
  intros I%reachable_inv Ew. pose proof (inv_gap_room _ _ I).
  destruct I as [Hcap Hr Hbuf Htick Hpool Hfull Hempty Hocc Hfree Hin [Hout0 Hout] Hslots Hdeq].
  assert (Hpos : 0 < max_games).
  { apply lookup_lt_Some in Ew. lia. }
  pose proof (Z.mod_pos_bound (Z.of_nat (length (dequeued (hist s)))) _ Hpos).
  unfold step, dequeue_critical. rewrite Ew.
  destruct (slot_is_Some (session_buffer (q s)) (buffer_out (q s))) as [x ->].
  { rewrite Hbuf, Hout by done. lia. }
  destruct (Z.eqb_spec (buffer_size (q s)) 0); [lia|]. simpl.
  destruct (slot_is_Some (slot_ticket (hist s)) (buffer_out (q s))) as [t ->].
  { rewrite Htick, Hout by done. lia. }
  by eexists.
Qed.

(** C1.  In every state the dispatch queue can reach, the capacity is
    the pool size [max_games] given on the command line (buffer, worker
    pool and semaphores are all sized by it), occupied plus free slots
    make up the capacity, and the occupied count lies between 0 and the
    capacity; it is the number of records written and not yet read, and
    between operations the two semaphores hold exactly these counts. *)
Theorem dispatch_capacity_invariant (max_games : Z) (s : server) :
  reachable max_games s ->
  capacity s = max_games /\
  Z.of_nat (length (workers s)) = max_games /\
  Z.of_nat (length (session_buffer (q s))) = max_games /\
  occupied_slots s + free_slots s = capacity s /\
  0 <= occupied_slots s <= capacity s /\
  occupied_slots s =
    Z.of_nat (length (enqueued (hist s))) - Z.of_nat (length (dequeued (hist s))) /\
  (quiescent s ->
   sem_full (q s) = occupied_slots s /\
   sem_empty (q s) = free_slots s /\
   sem_full (q s) + sem_empty (q s) = capacity s).
Proof.
  intros I%reachable_inv. pose proof (inv_gap_room _ _ I) as Hroom.
  destruct I as [Hcap Hr Hbuf Htick Hpool Hfull Hempty Hocc Hfree Hin Hout Hslots Hdeq].
  unfold capacity. repeat split; try lia.
  all: destruct H as [Ha Hw].
  all: unfold free_slots, occupied_slots, pending_full, pending_empty in *.
  all: rewrite Ha in *.
  all: rewrite (sumZ_all_zero holding), (sumZ_all_zero taken) in *;
    try (eapply Forall_impl; [exact Hw | by intros ? ->]).
  all: lia.
Qed.

Lemma dispatch_capacity_invariant_witness :
  exists s,
    demo_state = Some s /\
    reachable 2 s /\
    capacity s = 2 /\ occupied_slots s = 1 /\ free_slots s = 1 /\
    occupied_slots s + free_slots s = capacity s.
Proof.
  eexists. split; [reflexivity|].
  assert (R : reachable 2
    (default {| q := {| session_buffer := []; buffer_size := 0; buffer_in := 0;
                        buffer_out := 0; sem_empty := 0; sem_full := 0 |};
                acc := AIdle; workers := [];
                hist := {| slot_ticket := []; enqueued := []; dequeued := [] |} |}
       demo_state)).
  { eapply (run_reachable 2 demo_sched); [apply reach_init; reflexivity|].
    vm_compute. reflexivity. }
  split; [exact R|].
  pose proof (dispatch_capacity_invariant 2 _ R) as (Hc & _ & _ & Hsum & _).
  split; [exact Hc|]. split; [reflexivity|]. split; [reflexivity|]. exact Hsum.
Defined.

(** C2.  Whatever the interleaving of the acceptor's enqueue steps and
    the workers' dequeue steps: the dequeues done never outnumber the
    enqueues completed; each dequeue call received the record of a
    different enqueue (the tickets found in the slots are pairwise
    distinct); and the k-th dequeue received the k-th record enqueued. *)
Theorem dispatch_fifo_exactly_once (max_games : Z) (s : server) :
  reachable max_games s ->
  (length (dequeued (hist s)) <= completed_enqueues s)%nat /\
  NoDup (ticket_of <$> dequeued (hist s)) /\
  record_of <$> dequeued (hist s)
    = take (length (dequeued (hist s))) (enqueued (hist s)) /\
  (forall (k : nat) d,
     dequeued (hist s) !! k = Some d ->
     ticket_of d = k /\ enqueued (hist s) !! k = Some (record_of d)).
Proof.
  intros I%reachable_inv.
  assert (Hle : (length (dequeued (hist s)) <= completed_enqueues s)%nat).
  { pose proof (inv_occ _ _ I) as Hocc. pose proof (inv_full _ _ I).
    pose proof (sumZ_nonneg holding (workers s) holding_nonneg).
    unfold completed_enqueues, occupied_slots, pending_full in *.
    destruct (acc s); lia. }
  assert (Hlen : (length (dequeued (hist s)) <= length (enqueued (hist s)))%nat)
    by (unfold completed_enqueues in Hle; lia).
  pose proof (inv_deq _ _ I) as Hdeq.
  split; [done|]. split; [|split; [|done]].
  - assert (Hseq : ticket_of <$> dequeued (hist s) = seq 0 (length (dequeued (hist s)))).
    { apply list_eq. intros k. rewrite list_lookup_fmap.
      destruct (dequeued (hist s) !! k) as [d|] eqn:E; simpl.
      - destruct (Hdeq _ _ E) as [-> _]. symmetry. apply lookup_seq.
        split; [done|]. by apply lookup_lt_Some in E.
      - symmetry. apply lookup_seq_ge. by apply lookup_ge_None in E. }
    rewrite Hseq. apply NoDup_seq.
  - apply list_eq. intros k. rewrite list_lookup_fmap.
    destruct (dequeued (hist s) !! k) as [d|] eqn:E; simpl.
    + destruct (Hdeq _ _ E) as [_ He]. apply lookup_lt_Some in E.
      by rewrite lookup_take_lt.
    + apply lookup_ge_None in E. by rewrite lookup_take_ge.
Qed.

Lemma dispatch_fifo_exactly_once_witness :
  exists s,
    demo_state = Some s /\
    reachable 2 s /\
    record_of <$> dequeued (hist s) = [session_of_req (demo_req "1")] /\
    record_of <$> dequeued (hist s)
      = take (length (dequeued (hist s))) (enqueued (hist s)).
Proof.
  eexists. split; [reflexivity|].
  assert (R : reachable 2
    (default {| q := {| session_buffer := []; buffer_size := 0; buffer_in := 0;
                        buffer_out := 0; sem_empty := 0; sem_full := 0 |};
                acc := AIdle; workers := [];
                hist := {| slot_ticket := []; enqueued := []; dequeued := [] |} |}
       demo_state)).
  { eapply (run_reachable 2 demo_sched); [apply reach_init; reflexivity|].
    vm_compute. reflexivity. }
  split; [exact R|].
  pose proof (dispatch_fifo_exactly_once 2 _ R) as (_ & _ & Hfifo & _).
  split; [reflexivity | exact Hfifo].
Defined.
End DispatchFacts.

Module BoardFacts.
Import CInt CArray Board CIntFacts.
Local Open Scope Z_scope.

Lemma put_pacman_Some b i p b' :
  put_pacman b i p = Some b' ->
  0 <= i < Z.of_nat (length (pacmans b)) /\
  b' = set_pacmans (<[Z.to_nat i := p]> (pacmans b)) b.
Proof.
  unfold put_pacman. destruct (store (pacmans b) i p) as [ps|] eqn:E; [|done].
  simpl. intros [= <-]. apply store_Some in E as [? ->]. done.
Qed.

Lemma put_content_Some b i ch b' :
  put_content b i ch = Some b' ->
  exists c, slot (board b) i = Some c /\
    b' = set_board (<[Z.to_nat i := set_content ch c]> (board b)) b.
Proof.
  unfold put_content. destruct (slot (board b) i) as [c|] eqn:Ec; [|done]. simpl.
  destruct (store (board b) i (set_content ch c)) as [cells|] eqn:E; [|done].
  simpl. intros [= <-]. apply store_Some in E as [? ->]. eauto.
Qed.

Lemma put_content_frame b i ch b' :
  put_content b i ch = Some b' ->
  pacmans b' = pacmans b /\ width b' = width b /\ height b' = height b /\
  dots b' = dots b /\ length (board b') = length (board b).
Proof.
  intros (c & Hc & ->)%put_content_Some. unfold dots. simpl.
  rewrite length_insert. repeat split.
  rewrite list_fmap_insert. simpl. apply list_insert_id.
  rewrite list_lookup_fmap. apply slot_Some in Hc as [_ ->]. done.
Qed.

Lemma put_pacman_frame b i p b' :
  put_pacman b i p = Some b' ->
  board b' = board b /\ width b' = width b /\ height b' = height b /\
  slot (pacmans b') i = Some p.
Proof.
  intros [Hi ->]%put_pacman_Some. simpl. repeat split.
  apply slot_Some. split; [lia|]. apply list_lookup_insert_eq. lia.
Qed.

Lemma valid_position_index b x y :
  width b * height b <= INT_MAX ->
  is_valid_position b x y = true ->
  get_board_index b x y = y * width b + x /\
  0 <= y * width b + x < width b * height b.
Proof.
  unfold is_valid_position, get_board_index, iadd, imul. intros Hsz H.
  apply andb_true_iff in H as [[?%Z.leb_le ?%Z.ltb_lt]%andb_true_iff
                                 [?%Z.leb_le ?%Z.ltb_lt]%andb_true_iff].
  assert (y * width b <= (height b - 1) * width b)
    by (apply Z.mul_le_mono_nonneg_r; lia).
  assert (0 <= y * width b) by (apply Z.mul_nonneg_nonneg; lia).
  assert (in_int (y * width b)) by (unfold in_int, INT_MIN, INT_MAX in *; lia).
  rewrite (wrap32_id (y * width b)) by done.
  rewrite wrap32_id by (unfold in_int, INT_MIN, INT_MAX in *; lia).
  lia.
Qed.

Lemma store_turns_left_pos pac c p v pac' c' :
  store_turns_left pac c p v = Some (pac', c') ->
  pos_x pac' = pos_x pac /\ pos_y pac' = pos_y pac /\ points pac' = points pac.
Proof.
  destruct p as [|k]; simpl.
  - by intros [= <- <-].
  - destruct (slot (moves pac) k); [|done]. simpl.
    destruct (store (moves pac) k _); [|done]. simpl. by intros [= <- <-].
Qed.

Lemma move_pacman_step_inv b idx c ptr rnd b' c' pac pac' :
  move_pacman b idx c ptr rnd = Some (VALID_MOVE, b', c') ->
  slot (pacmans b) idx = Some pac ->
  slot (pacmans b') idx = Some pac' ->
  (pos_x pac', pos_y pac') <> (pos_x pac, pos_y pac) ->
  exists new_cell,
    let new_index := get_board_index b (pos_x pac') (pos_y pac') in
    is_valid_position b (pos_x pac') (pos_y pac') = true /\
    slot (board b) new_index = Some new_cell /\
    has_portal new_cell = 0 /\
    Ascii.eqb (content new_cell) "W" = false /\
    Ascii.eqb (content new_cell) "X" = false /\
    Ascii.eqb (content new_cell) "M" = false /\
    points pac' =
      (if has_dot new_cell =? 0 then points pac
       else iadd (points pac) new_index) /\
    dots b' =
      (if has_dot new_cell =? 0 then dots b
       else <[Z.to_nat new_index := 0]> (dots b)).
Proof.
  unfold move_pacman. intros H Hpac Hpac' Hmoved.
  destruct (idx <? 0); [discriminate H|].
  rewrite Hpac in H. simpl in H.
  destruct (alive pac =? 0); [discriminate H|].
  destruct (0 <? waiting pac).
  { destruct (put_pacman _ _ _) as [b1|] eqn:Ep; [|done]. simpl in H.
    injection H as <- <-. apply put_pacman_frame in Ep as (_ & _ & _ & Hs).
    rewrite Hs in Hpac'. injection Hpac' as <-. done. }
  destruct (load_command _ _ _) as [cmd|]; [|done]. simpl in H.
  destruct (if Ascii.eqb (toupper (command cmd)) "R" then _ else _)
    as [direction|]; [|done].
  simpl in H.
  destruct (switch_direction _ _ _) as [new_x new_y| |].
  - (* a step *)
    destruct (is_valid_position b new_x new_y) eqn:Ev; simpl in H.
    2:{ destruct (put_pacman _ _ _); discriminate H. }
    destruct (slot (board b) _) as [new_cell|] eqn:Ecell; [|done]. simpl in H.
    destruct (Z.eqb_spec (has_portal new_cell) 0) as [Hportal|]; simpl in H.
    2:{ destruct (put_content _ _ _); [|done]. simpl in H.
        destruct (put_content _ _ _); [|done]. simpl in H.
        destruct (put_pacman _ _ _); discriminate H. }
    destruct (Ascii.eqb (content new_cell) "W") eqn:EW; simpl in H.
    { destruct (put_pacman _ _ _); discriminate H. }
    destruct (Ascii.eqb (content new_cell) "X") eqn:EX; simpl in H.
    { destruct (put_pacman _ _ _); discriminate H. }
    destruct (Ascii.eqb (content new_cell) "M") eqn:EM; simpl in H.
    { destruct (put_pacman _ _ _); [|done]. simpl in H.
      destruct (kill_pacman _ _); discriminate H. }
    match type of H with
    | (?m ≫= _) = _ => destruct m as [[pac0 b1]|] eqn:Edot; [|done]
    end.
    simpl in H.
    destruct (put_content b1 _ _) as [b2|] eqn:E2; [|done]. simpl in H.
    destruct (put_content b2 _ _) as [b3|] eqn:E3; [|done]. simpl in H.
    destruct (put_pacman b3 _ _) as [b4|] eqn:E4; [|done]. simpl in H.
    injection H as <- <-.
    apply put_content_frame in E2 as (_ & _ & _ & Hd2 & _).
    apply put_content_frame in E3 as (_ & _ & _ & Hd3 & _).
    apply put_pacman_frame in E4 as (Hb4 & _ & _ & Hs4).
    rewrite Hs4 in Hpac'. injection Hpac' as <-.
    assert (Hdots : dots b4 = dots b1) by (unfold dots in *; congruence).
    exists new_cell. cbn zeta.
    destruct (Z.eqb_spec (has_dot new_cell) 0) as [Hdot|Hdot]; simpl in Edot.
    + injection Edot as <- <-. simpl. rewrite Ev, Ecell. done.
    + destruct (store (board b) _ _) as [cells|] eqn:Est; [|done]. simpl in Edot.
      injection Edot as <- <-. simpl. rewrite Ev, Ecell.
      apply store_Some in Est as [_ ->].
      repeat split; try done.
      rewrite Hdots. unfold dots. simpl. by rewrite list_fmap_insert.
  - (* 'T' *)
    match type of H with
    | (?m ≫= _) = _ => destruct m as [[pac0 c0]|] eqn:Et; [|done]
    end.
    simpl in H. destruct (put_pacman _ _ _) as [b1|] eqn:Ep; [|done]. simpl in H.
    injection H as <- <-. apply put_pacman_frame in Ep as (_ & _ & _ & Hs).
    rewrite Hs in Hpac'. injection Hpac' as <-.
    destruct (turns_left cmd =? 1);
      apply store_turns_left_pos in Et as (Hx & Hy & _); simpl in *;
      by rewrite Hx, Hy in Hmoved.
  - destruct (put_pacman _ _ _); discriminate H.
Qed.

Lemma put_pacman_dots b i p b' : put_pacman b i p = Some b' -> dots b' = dots b.
Proof. by intros [_ ->]%put_pacman_Some. Qed.

Lemma put_content_dots b i ch b' : put_content b i ch = Some b' -> dots b' = dots b.
Proof. intros H. by apply put_content_frame in H as (_ & _ & _ & ? & _). Qed.

Lemma kill_pacman_dots b i b' : kill_pacman b i = Some b' -> dots b' = dots b.
Proof.
  unfold kill_pacman. destruct (slot (pacmans b) i) as [pac|]; [|done]. simpl.
  destruct (put_content _ _ _) as [b1|] eqn:E1; [|done]. simpl.
  intros E2%put_pacman_dots. apply put_content_dots in E1. congruence.
Qed.

(** [move_pacman] never raises a dot flag: the flags stay as they are,
    or one of them is cleared. *)
Lemma move_pacman_dots b idx c ptr rnd r b' c' :
  move_pacman b idx c ptr rnd = Some (r, b', c') ->
  dots b' = dots b \/ exists i, dots b' = <[i := 0]> (dots b).
Proof.
  unfold move_pacman. intros H.
  destruct (idx <? 0); [injection H as <- <- <-; by left|].
  destruct (slot (pacmans b) idx) as [pac|]; [|done]. simpl in H.
  destruct (alive pac =? 0); [injection H as <- <- <-; by left|].
  destruct (0 <? waiting pac).
  { destruct (put_pacman _ _ _) as [b1|] eqn:Ep; [|done]. simpl in H.
    injection H as <- <- <-. left. by eapply put_pacman_dots. }
  destruct (load_command _ _ _) as [cmd|]; [|done]. simpl in H.
  destruct (if Ascii.eqb (toupper (command cmd)) "R" then _ else _)
    as [direction|]; [|done].
  simpl in H.
  destruct (switch_direction _ _ _) as [new_x new_y| |].
  - destruct (is_valid_position b new_x new_y); simpl in H.
    2:{ destruct (put_pacman _ _ _) eqn:Ep; [|done]. simpl in H.
        injection H as <- <- <-. left. by eapply put_pacman_dots. }
    destruct (slot (board b) _) as [new_cell|] eqn:Ecell; [|done]. simpl in H.
    destruct (has_portal new_cell =? 0); simpl in H.
    2:{ destruct (put_content b _ _) as [b1|] eqn:E1; [|done]. simpl in H.
        destruct (put_content b1 _ _) as [b2|] eqn:E2; [|done]. simpl in H.
        destruct (put_pacman b2 _ _) as [b3|] eqn:E3; [|done]. simpl in H.
        injection H as <- <- <-. left.
        apply put_content_dots in E1, E2. apply put_pacman_dots in E3.
        unfold dots in *. simpl. congruence. }
    destruct (Ascii.eqb (content new_cell) "W" || Ascii.eqb (content new_cell) "X");
      simpl in H.
    { destruct (put_pacman _ _ _) eqn:Ep; [|done]. simpl in H.
      injection H as <- <- <-. left. by eapply put_pacman_dots. }
    destruct (Ascii.eqb (content new_cell) "M"); simpl in H.
    { destruct (put_pacman _ _ _) eqn:Ep; [|done]. simpl in H.
      destruct (kill_pacman _ _) eqn:Ek; [|done]. simpl in H.
      injection H as <- <- <-. left.
      apply put_pacman_dots in Ep. apply kill_pacman_dots in Ek. congruence. }
    match type of H with
    | (?m ≫= _) = _ => destruct m as [[pac0 b1]|] eqn:Edot; [|done]
    end.
    simpl in H.
    destruct (put_content b1 _ _) as [b2|] eqn:E2; [|done]. simpl in H.
    destruct (put_content b2 _ _) as [b3|] eqn:E3; [|done]. simpl in H.
    destruct (put_pacman b3 _ _) as [b4|] eqn:E4; [|done]. simpl in H.
    injection H as <- <- <-.
    apply put_content_dots in E2, E3. apply put_pacman_dots in E4.
    assert (Hdots : dots b4 = dots b1) by congruence. rewrite Hdots.
    destruct (has_dot new_cell =? 0); simpl in Edot.
    + injection Edot as <- <-. by left.
    + destruct (store (board b) _ _) as [cells|] eqn:Est; [|done]. simpl in Edot.
      injection Edot as <- <-. apply store_Some in Est as [_ ->]. right.
      eexists. unfold dots. simpl. by rewrite list_fmap_insert.
  - match type of H with
    | (?m ≫= _) = _ => destruct m as [[pac0 c0]|] eqn:Et; [|done]
    end.
    simpl in H. destruct (put_pacman _ _ _) as [b1|] eqn:Ep; [|done]. simpl in H.
    injection H as <- <- <-. left. by eapply put_pacman_dots.
  - destruct (put_pacman _ _ _) eqn:Ep; [|done]. simpl in H.
    injection H as <- <- <-. left. by eapply put_pacman_dots.
Qed.

(** A cleared dot flag stays cleared across any later [move_pacman]. *)
Lemma move_pacman_keeps_cleared b idx c ptr rnd r b' c' (j : nat) :
  move_pacman b idx c ptr rnd = Some (r, b', c') ->
  dots b !! j = Some 0 -> dots b' !! j = Some 0.
Proof.
  intros [->|[i ->]]%move_pacman_dots Hj; [done|].
  destruct (decide (i = j)) as [->|Hne].
  - apply list_lookup_insert_eq. by apply lookup_lt_Some in Hj.
  - by rewrite list_lookup_insert_ne.
Qed.

(** C9.  When [move_pacman] completes a step (it returns [VALID_MOVE]
    and the pacman has changed cell) onto a cell whose dot flag is set,
    the score grows by the row-major index [y * width + x] of that cell
    (an amount given by the position), the cell is neither wall, ghost
    nor portal, and its dot flag is cleared while every other dot flag
    stays as it was. *)
Theorem move_pacman_collects_dot
    b idx c ptr rnd b' c' pac pac' dest :
  width b * height b <= INT_MAX ->
  move_pacman b idx c ptr rnd = Some (VALID_MOVE, b', c') ->
  slot (pacmans b) idx = Some pac ->
  slot (pacmans b') idx = Some pac' ->
  (pos_x pac', pos_y pac') <> (pos_x pac, pos_y pac) ->
  slot (board b) (pos_y pac' * width b + pos_x pac') = Some dest ->
  has_dot dest <> 0 ->
  let index := pos_y pac' * width b + pos_x pac' in
  points pac' = iadd (points pac) index /\
  (in_int (points pac + index) -> points pac' = points pac + index) /\
  dots b' = <[Z.to_nat index := 0]> (dots b) /\
  slot (dots b') index = Some 0 /\
  has_portal dest = 0 /\
  content dest <> "W"%char /\ content dest <> "X"%char /\ content dest <> "M"%char.
Proof.
  intros Hsz Hmove Hpac Hpac' Hmoved Hdest Hdot index.
  destruct (move_pacman_step_inv _ _ _ _ _ _ _ _ _ Hmove Hpac Hpac' Hmoved)
    as (new_cell & Hvalid & Hcell & Hportal & HW & HX & HM & Hpts & Hdots).
  destruct (valid_position_index _ _ _ Hsz Hvalid) as [Hidx Hrange].
  rewrite Hidx in *. fold index in Hcell, Hpts, Hdots, Hdest, Hrange.
  assert (new_cell = dest) as -> by congruence.
  destruct (Z.eqb_spec (has_dot dest) 0); [done|].
  repeat split; try done.
  - intros Hfit. rewrite Hpts. by apply wrap32_id.
  - rewrite Hdots. apply slot_Some. split; [lia|].
    apply list_lookup_insert_eq. unfold dots. rewrite length_fmap.
    apply slot_lt in Hdest. lia.
  - intros E. by rewrite E in HW.
  - intros E. by rewrite E in HX.
  - intros E. by rewrite E in HM.
Qed.

Lemma move_pacman_collects_dot_witness :
  exists b' c' pac',
    demo_after_right = Some (VALID_MOVE, b', c') /\
    slot (pacmans b') 0 = Some pac' /\
    (pos_x pac', pos_y pac') = (2, 1) /\
    points pac' = points (demo_pacman " ") + 6 /\
    slot (dots b') 6 = Some 0.
Proof.
  eexists _, _, _. split; [reflexivity|]. split; [reflexivity|].
  split; [reflexivity|].
  assert (Hsz : width (demo_board " ") * height (demo_board " ") <= INT_MAX)
    by (vm_compute; discriminate).
  assert (Hmoved : (2, 1) <> (pos_x (demo_pacman " "), pos_y (demo_pacman " ")))
    by (vm_compute; discriminate).
  assert (Hdot : has_dot (cell " " 1 0) <> 0) by (vm_compute; discriminate).
  pose proof (move_pacman_collects_dot (demo_board " ") 0 demo_right PtrLocal 0
                _ _ (demo_pacman " ") _ (cell " " 1 0)
                Hsz eq_refl eq_refl eq_refl Hmoved eq_refl Hdot)
    as (_ & Hpts & _ & Hclear & _).
  split; [|exact Hclear].
  apply Hpts. vm_compute. split; discriminate.
Defined.
End BoardFacts.

Module GameFacts.
Import CInt CArray Protocol Board Game CIntFacts BoardFacts.
Local Open Scope Z_scope.

Lemma write_mailbox_Some k b b' :
  write_mailbox k b = Some b' ->
  exists pac, slot (pacmans b) 0 = Some pac /\
    b' = set_pacmans (<[0%nat := set_next_user_move k pac]> (pacmans b)) b.
Proof.
  unfold write_mailbox. destruct (slot (pacmans b) 0) as [pac|] eqn:E; [|done].
  simpl. intros [_ ->]%put_pacman_Some. eauto.
Qed.

Lemma write_mailbox_defined k b pac :
  slot (pacmans b) 0 = Some pac -> is_Some (write_mailbox k b).
Proof.
  intros E. unfold write_mailbox, put_pacman, store. rewrite E. simpl.
  by eexists.
Qed.

Lemma write_mailbox_read k b b' :
  write_mailbox k b = Some b' ->
  exists pac', slot (pacmans b') 0 = Some pac' /\ next_user_move pac' = k.
Proof.
  intros (pac & Hs & ->)%write_mailbox_Some. apply slot_lt in Hs.
  exists (set_next_user_move k pac). split; [|reflexivity]. simpl.
  apply slot_Some. split; [lia|]. apply list_lookup_insert_eq. simpl. lia.
Qed.

(** Two writes in a row leave what the second one alone would. *)
Lemma write_mailbox_overwrites c1 c2 b b1 :
  write_mailbox c1 b = Some b1 -> write_mailbox c2 b1 = write_mailbox c2 b.
Proof.
  intros (pac & Hs & ->)%write_mailbox_Some.
  pose proof (slot_lt _ _ _ Hs) as Hlen.
  unfold write_mailbox, put_pacman, store. simpl.
  assert (Hs1 : slot (<[0%nat := set_next_user_move c1 pac]> (pacmans b)) 0
                = Some (set_next_user_move c1 pac)).
  { apply slot_Some. split; [lia|]. apply list_lookup_insert_eq. simpl. lia. }
  rewrite Hs1, Hs. simpl.
  by rewrite list_insert_insert_eq.
Qed.

Lemma choose_command_pending b pacman :
  slot (pacmans b) 0 = Some pacman ->
  next_user_move pacman <> NO_MOVE ->
  choose_command b =
    Some ({| command := next_user_move pacman; turns := 0; turns_left := 0 |},
          PtrLocal,
          set_pacmans (<[0%nat := set_next_user_move NO_MOVE pacman]> (pacmans b)) b).
Proof.
  intros Hs Hne. unfold choose_command. rewrite Hs. simpl.
  destruct (Ascii.eqb_spec (next_user_move pacman) " ") as [E|_]; [done|]. simpl.
  unfold put_pacman, store. rewrite Hs. done.
Qed.

Lemma choose_command_empty b pacman :
  slot (pacmans b) 0 = Some pacman ->
  next_user_move pacman = NO_MOVE ->
  choose_command b =
    Some (blank_command,
          (if 0 <? n_moves pacman
           then PtrMove (Z.rem (current_move pacman) (n_moves pacman))
           else PtrLocal),
          b).
Proof.
  intros Hs He. unfold choose_command. rewrite Hs. simpl. rewrite He. simpl.
  by destruct (0 <? n_moves pacman).
Qed.

Lemma listener_handle_move k b :
  listener_handle sizeof_move_req_t (move_msg k) b
  = (b' ← write_mailbox k b; Some (b', [], LoopContinue)).
Proof. reflexivity. Qed.

(** C4.  [next_user_move] is a one-slot mailbox where the last write
    wins: after the listener has handled a move message carrying [c1],
    handling one carrying [c2] leaves the very board that handling [c2]
    alone would have left, the slot holds [c2], the driver's next
    choice plays [c2] and nothing of [c1], and that choice leaves the
    slot empty. *)
Theorem mailbox_last_write_wins b (c1 c2 : ascii) b1 log1 ctl1 :
  listener_handle sizeof_move_req_t (move_msg c1) b = Some (b1, log1, ctl1) ->
  exists b2,
    listener_handle sizeof_move_req_t (move_msg c2) b1 = Some (b2, [], LoopContinue) /\
    listener_handle sizeof_move_req_t (move_msg c2) b = Some (b2, [], LoopContinue) /\
    (exists pac2, slot (pacmans b2) 0 = Some pac2 /\ next_user_move pac2 = c2) /\
    exists c play b3,
      choose_command b2 = Some (c, play, b3) /\
      (c2 <> NO_MOVE -> command c = c2 /\ play = PtrLocal) /\
      exists pac3, slot (pacmans b3) 0 = Some pac3 /\ next_user_move pac3 = NO_MOVE.
Proof.
  rewrite !listener_handle_move.
  destruct (write_mailbox c1 b) as [b1'|] eqn:E1; [|done]. simpl.
  intros [= <- <- <-].
  pose proof (write_mailbox_overwrites c1 c2 _ _ E1) as Hsame.
  destruct (write_mailbox_Some _ _ _ E1) as (pac & Hs & _).
  destruct (write_mailbox_defined c2 _ _ Hs) as [b2 E2].
  exists b2. rewrite Hsame, E2. simpl. split; [done|]. split; [done|].
  destruct (write_mailbox_read _ _ _ E2) as (pac2 & Hs2 & Hk2).
  split; [by exists pac2|].
  pose proof (slot_lt _ _ _ Hs2) as Hlen.
  destruct (ascii_dec c2 NO_MOVE) as [Hc|Hc].
  - rewrite (choose_command_empty _ _ Hs2) by congruence.
    eexists _, _, _. split; [done|]. split; [done|].
    exists pac2. split; [done | congruence].
  - rewrite (choose_command_pending _ _ Hs2) by congruence.
    eexists _, _, _. split; [done|]. split; [by rewrite Hk2|].
    exists (set_next_user_move NO_MOVE pac2). split; [|done]. simpl.
    apply slot_Some. split; [lia|]. apply list_lookup_insert_eq. simpl. lia.
Qed.

Lemma mailbox_last_write_wins_witness :
  exists b1 b2,
    listener_handle sizeof_move_req_t (move_msg "W") (demo_board " ")
      = Some (b1, [], LoopContinue) /\
    listener_handle sizeof_move_req_t (move_msg "D") b1
      = Some (b2, [], LoopContinue) /\
    listener_handle sizeof_move_req_t (move_msg "D") (demo_board " ")
      = Some (b2, [], LoopContinue).
Proof.
  eexists _, _. split; [reflexivity|].
  destruct (mailbox_last_write_wins (demo_board " ") "W" "D" _ _ _ eq_refl)
    as (b2 & H1 & H2 & _).
  assert (Hb2 : Some (b2, @nil log_line, LoopContinue)
                = listener_handle sizeof_move_req_t (move_msg "D") (demo_board " "))
    by (symmetry; exact H2).
  vm_compute in Hb2. injection Hb2 as ->.
  split; [exact H1 | exact H2].
Defined.

(** In a driver cycle the command picked under the write lock is
    the buffered player command whenever the mailbox is non-empty, and
    then neither the pick nor the pointer depends on the scripted
    sequence; with an empty mailbox and a script, the pick is the
    script's current entry [moves[current_move % n_moves]]; with
    neither, the blank local command.  The mailbox counts as empty
    when it holds [' ']. *)
Theorem choose_command_priority b pacman :
  slot (pacmans b) 0 = Some pacman ->
  exists c play b',
    choose_command b = Some (c, play, b') /\
    (next_user_move pacman <> NO_MOVE ->
     play = PtrLocal /\ command c = next_user_move pacman /\
     forall ms n cur bs,
       put_pacman b 0 (with_script ms n cur pacman) = Some bs ->
       exists bs', choose_command bs = Some (c, play, bs')) /\
    (next_user_move pacman = NO_MOVE -> 0 < n_moves pacman ->
     play = PtrMove (Z.rem (current_move pacman) (n_moves pacman)) /\
     load_command pacman c play
       = slot (moves pacman) (Z.rem (current_move pacman) (n_moves pacman)) /\
     b' = b) /\
    (next_user_move pacman = NO_MOVE -> n_moves pacman <= 0 ->
     play = PtrLocal /\ c = blank_command /\ b' = b).
Proof.
  intros Hs. destruct (ascii_dec (next_user_move pacman) NO_MOVE) as [He|Hne].
  - rewrite (choose_command_empty _ _ Hs He). eexists _, _, _. split; [done|].
    split; [done|]. split; intros _ Hn.
    + destruct (Z.ltb_spec 0 (n_moves pacman)); [done | lia].
    + destruct (Z.ltb_spec 0 (n_moves pacman)); [lia | done].
  - rewrite (choose_command_pending _ _ Hs Hne). eexists _, _, _. split; [done|].
    split; [|done]. intros _. split; [done|]. split; [done|].
    intros ms n cur bs (_ & _ & _ & Hbs)%put_pacman_frame.
    rewrite (choose_command_pending _ _ Hbs) by done. eauto.
Qed.

Lemma choose_command_priority_witness :
  exists c b',
    choose_command (demo_board "D") = Some (c, PtrLocal, b') /\
    command c = "D"%char /\
    choose_command (demo_board " ") = Some (blank_command, PtrMove 0, demo_board " ").
Proof.
  destruct (choose_command_priority (demo_board "D") (demo_pacman "D") eq_refl)
    as (c & play & b' & Hc & Hpending & _).
  destruct Hpending as (Hplay & Hcmd & _); [vm_compute; discriminate|].
  exists c, b'. rewrite Hplay in Hc.
  split; [exact Hc|]. split; [exact Hcmd | reflexivity].
Defined.

(** What the listener does with each kind of read. *)
Lemma listener_handle_cases n move b :
  (n = 0 -> listener_handle n move b = Some (set_shutdown 1 b, [], LoopExit)) /\
  (n < 0 -> listener_handle n move b = Some (b, [], LoopContinue)) /\
  (0 < n < sizeof_move_req_t ->
   listener_handle n move b = Some (b, [WarnPartial n], LoopContinue)) /\
  (sizeof_move_req_t <= n -> op_code move = OP_DISCONNECT ->
   listener_handle n move b = Some (set_shutdown 1 b, [], LoopExit)) /\
  (sizeof_move_req_t <= n -> op_code move <> OP_MOVE ->
   op_code move <> OP_DISCONNECT ->
   listener_handle n move b
     = Some (b, [WarnUnknownOpcode (op_code move)], LoopContinue)).
Proof.
  unfold listener_handle, sizeof_move_req_t, OP_MOVE, OP_DISCONNECT.
  repeat split; intros.
  - subst. done.
  - destruct (Z.leb_spec n 0); [|lia]. destruct (Z.eqb_spec n 0); [lia|done].
  - destruct (Z.leb_spec n 0); [lia|]. destruct (Z.ltb_spec n 2); [done|lia].
  - destruct (Z.leb_spec n 0); [lia|]. destruct (Z.ltb_spec n 2); [lia|].
    destruct (Z.eqb_spec (op_code move) 3); [lia|].
    destruct (Z.eqb_spec (op_code move) 2); [done|lia].
  - destruct (Z.leb_spec n 0); [lia|]. destruct (Z.ltb_spec n 2); [lia|].
    destruct (Z.eqb_spec (op_code move) 3); [lia|].
    destruct (Z.eqb_spec (op_code move) 2); [lia|done].
Qed.

(** No message stops more than the listener's own loop: the handler
    always returns (given the stage has its pacman), and all it can
    change on the board is [shutdown] and the mailbox. *)
Lemma listener_handle_confined n move b pacman :
  slot (pacmans b) 0 = Some pacman ->
  exists b' log ctl,
    listener_handle n move b = Some (b', log, ctl) /\
    board b' = board b /\ width b' = width b /\ height b' = height b /\
    (b' = b \/ b' = set_shutdown 1 b \/ write_mailbox (key move) b = Some b').
Proof.
  intros Hs. unfold listener_handle.
  destruct (n <=? 0); [destruct (n =? 0)|]; [eauto 10 .. |].
  destruct (n <? sizeof_move_req_t); [eauto 10|].
  destruct (op_code move =? OP_MOVE).
  - destruct (write_mailbox_defined (key move) _ _ Hs) as [b' E]. rewrite E. simpl.
    destruct (write_mailbox_Some _ _ _ E) as (? & _ & ->). eauto 10.
  - destruct (op_code move =? OP_DISCONNECT); eauto 10.
Qed.

(** C6, at the input where the code departs from the claim: the one
    byte of a [disconnect_req_t], as the client writes it, is a short
    read for the listener; [shutdown] is left as it was and the loop
    goes on. *)
Theorem listener_drops_disconnect_message b stale :
  listener_handle sizeof_disconnect_req_t (disconnect_in_buffer stale) b
  = Some (b, [WarnPartial 1], LoopContinue).
Proof. reflexivity. Qed.

(** What holds of the thread's control point all along. *)
Definition pc_ok (pc : pacman_pc) : Prop :=
  match pc with
  | PcCheck result => result <> REACHED_PORTAL /\ result <> DEAD_PACMAN
  | PcDone retval why => exit_value why = Some retval
  | _ => True
  end.

Lemma pacman_step_ok rnd pc b pc' b' :
  pc_ok pc -> pacman_step rnd pc b = Some (pc', b') -> pc_ok pc'.
Proof.
  intros Hok H. destruct pc as [| |c play|r|r w]; simpl in H.
  - destruct (slot (pacmans b) 0) as [pacman|]; [|done]. simpl in H.
    destruct (alive pacman =? 0); by simplify_eq.
  - destruct (choose_command b) as [[[? ?] ?]|]; by simplify_eq/=.
  - destruct (move_pacman b 0 c play rnd) as [[[r b1] c1]|]; [|done]. simpl in H.
    destruct (Z.eqb_spec r REACHED_PORTAL) as [->|E1]; [by simplify_eq|].
    destruct (Z.eqb_spec r DEAD_PACMAN) as [->|E2]; [by simplify_eq|].
    by simplify_eq.
  - destruct Hok as [E1 E2].
    destruct (shutdown b =? 0); simplify_eq; [done|]. simpl.
    destruct (Z.eqb_spec r REACHED_PORTAL); [done|].
    destruct (Z.eqb_spec r DEAD_PACMAN); done.
  - by simplify_eq.
Qed.

Lemma pacman_thread_ok sched pc b pc' b' :
  pc_ok pc -> pacman_thread sched pc b = Some (pc', b') -> pc_ok pc'.
Proof.
  revert pc b. induction sched as [|[f|rnd] sched IH]; simpl; intros pc b Hok H.
  - by simplify_eq.
  - eauto.
  - destruct (pacman_step rnd pc b) as [[pc1 b1]|] eqn:E; [|done]. simpl in H.
    eauto using pacman_step_ok.
Qed.

(** How one move decides between leaving and going on (lines 246-256). *)
Lemma pacman_step_move rnd c play b pc1 b1 :
  pacman_step rnd (PcMove c play) b = Some (pc1, b1) ->
  exists result c1,
    move_pacman b 0 c play rnd = Some (result, b1, c1) /\
    pc1 = (if result =? REACHED_PORTAL then PcDone NEXT_LEVEL (AfterMove result)
           else if result =? DEAD_PACMAN then PcDone LOAD_BACKUP (AfterMove result)
           else PcCheck result).
Proof.
  simpl. destruct (move_pacman b 0 c play rnd) as [[[r b'] c1]|]; [|done]. simpl.
  intros H. exists r, c1.
  destruct (r =? REACHED_PORTAL); [by simplify_eq|].
  destruct (r =? DEAD_PACMAN); by simplify_eq.
Qed.
End GameFacts.

Module AcceptorFacts.
Import Protocol Acceptor.
Local Open Scope Z_scope.

(** C7 as stated fails: a request whose response pipe cannot be opened
    ([open] returns -1) is dropped with no response at all, so no
    nonzero result ever reaches the client. *)
Lemma acceptor_failure_unanswered :
  let calls :=
    (acceptor_iteration sizeof_connect_req_t (Dispatch.demo_req "1") (-1)).1 in
  responses calls = [] /\ enqueues calls = [] /\ ~ answers_every_request.
Proof.
  split; [reflexivity|]. split; [reflexivity|].
  intros H. destruct (H (Dispatch.demo_req "1") (-1) eq_refl) as (resp & Hr & _).
  discriminate Hr.
Qed.

(** C7, amended.  A well-formed connect request whose response pipe
    opens is answered with the two bytes (opcode 1, result 0), the pipe
    is closed, and only then is the session enqueued; when the pipe
    does not open, nothing is written and nothing enqueued; and no
    iteration ever writes a response with a nonzero result. *)
Theorem acceptor_response bytes_read req client_fd :
  let calls := (acceptor_iteration bytes_read req client_fd).1 in
  (bytes_read = sizeof_connect_req_t -> creq_op_code req = OP_CONNECT ->
   client_fd <> -1 ->
   calls = [OpenWronly (creq_notif_pipe req); WriteResp client_fd accept_response;
            Close client_fd; Enqueue req]) /\
  (bytes_read = sizeof_connect_req_t -> creq_op_code req = OP_CONNECT ->
   client_fd = -1 ->
   responses calls = [] /\ enqueues calls = []) /\
  (forall resp, resp ∈ responses calls -> resp = accept_response) /\
  (forall r, r ∈ enqueues calls ->
     exists pre post,
       calls = pre ++ WriteResp client_fd accept_response :: post /\
       enqueues pre = [] /\ enqueues post = [r] /\ r = req).
Proof.
  unfold acceptor_iteration, sizeof_connect_req_t, OP_CONNECT. cbn zeta.
  destruct (Z.eqb_spec bytes_read 0) as [->|H0]; simpl.
  { repeat split; try lia; intros ? []%elem_of_nil. }
  destruct (Z.eqb_spec bytes_read (-1)) as [->|H1]; simpl.
  { repeat split; try lia; intros ? []%elem_of_nil. }
  destruct (Z.eqb_spec bytes_read 81) as [->|H81]; simpl.
  2:{ repeat split; try lia; intros ? []%elem_of_nil. }
  destruct (Z.eqb_spec (creq_op_code req) 1) as [Hop|Hop]; simpl.
  2:{ repeat split; try lia; intros ? []%elem_of_nil. }
  destruct (Z.eqb_spec client_fd (-1)) as [->|Hfd]; simpl.
  { repeat split; try lia; intros ? []%elem_of_nil. }
  repeat split; try lia.
  - intros resp ->%list_elem_of_singleton. done.
  - intros r ->%list_elem_of_singleton.
    exists [OpenWronly (creq_notif_pipe req)], [Close client_fd; Enqueue req].
    done.
Qed.

Lemma acceptor_response_witness :
  (acceptor_iteration sizeof_connect_req_t (Dispatch.demo_req "1") 7).1
  = [OpenWronly (creq_notif_pipe (Dispatch.demo_req "1"));
     WriteResp 7 accept_response; Close 7; Enqueue (Dispatch.demo_req "1")].
Proof.
  destruct (acceptor_response sizeof_connect_req_t (Dispatch.demo_req "1") 7)
    as (H & _).
  apply H; [reflexivity | reflexivity | discriminate].
Defined.
End AcceptorFacts.

Module ScoresFacts.
Import CInt Scores CIntFacts.
Local Open Scope Z_scope.

Lemma report_loop_count sorted i count ls n :
  report_loop sorted i count = (ls, n) ->
  n = count + Z.of_nat (length (listed ls)) /\ length (listed ls) = length ls.
Proof.
  revert i count ls n. induction sorted as [|e rest IH]; simpl; intros i count ls n H.
  - injection H as <- <-. simpl. lia.
  - destruct ((i <? MAX_SCOREBOARD) && (count <? 5)).
    + destruct ((0 <? score e) || negb (active e =? 0)).
      * destruct (report_loop rest (i + 1) (count + 1)) as [ls' n'] eqn:E.
        injection H as <- <-. destruct (IH _ _ _ _ E) as [-> Hl]. simpl.
        rewrite Hl. lia.
      * eauto.
    + injection H as <- <-. simpl. lia.
Qed.

Lemma report_loop_at_most sorted i count ls n :
  report_loop sorted i count = (ls, n) -> count <= 5 -> n <= 5.
Proof.
  revert i count ls n. induction sorted as [|e rest IH]; simpl; intros i count ls n H Hc.
  - injection H as <- <-. lia.
  - destruct (i <? MAX_SCOREBOARD); simpl in H; [|injection H as <- <-; lia].
    destruct (Z.ltb_spec count 5); [|injection H as <- <-; lia].
    destruct ((0 <? score e) || negb (active e =? 0)).
    + destruct (report_loop rest (i + 1) (count + 1)) as [ls' n'] eqn:E.
      injection H as <- <-. eapply IH; [exact E | lia].
    + eauto.
Qed.

(** The loop lists exactly the first five qualifying entries among the
    first [MAX_SCOREBOARD] of the sorted array. *)
Lemma report_loop_listed sorted i count :
  0 <= i -> 0 <= count ->
  listed (report_loop sorted i count).1
  = take (Z.to_nat (5 - count))
      (List.filter qualifies (take (Z.to_nat (MAX_SCOREBOARD - i)) sorted)).
Proof.
  revert i count. induction sorted as [|e rest IH]; simpl; intros i count Hi Hc.
  - rewrite take_nil. simpl. by rewrite take_nil.
  - unfold MAX_SCOREBOARD in *.
    destruct (Z.ltb_spec i 100); simpl.
    2:{ replace (Z.to_nat (100 - i)) with O by lia. simpl. by rewrite take_nil. }
    destruct (Z.ltb_spec count 5).
    2:{ by replace (Z.to_nat (5 - count)) with O by lia. }
    replace (Z.to_nat (100 - i)) with (S (Z.to_nat (100 - (i + 1)))) by lia.
    replace (Z.to_nat (5 - count)) with (S (Z.to_nat (5 - (count + 1)))) by lia.
    simpl. fold (qualifies e). destruct (qualifies e) eqn:Eq.
    + destruct (report_loop rest (i + 1) (count + 1)) as [ls' n'] eqn:E. simpl.
      f_equal. specialize (IH (i + 1) (count + 1)). rewrite E in IH. simpl in IH.
      apply IH; lia.
    + rewrite IH by lia.
      by replace (S (Z.to_nat (5 - (count + 1)))) with (Z.to_nat (5 - count)) by lia.
Qed.

Lemma compare_scores_exact a b :
  in_int (score b - score a) -> compare_scores a b = score b - score a.
Proof. intros H. unfold compare_scores, isub. by apply wrap32_id. Qed.

Lemma comparable_consistent l : comparable l -> consistent compare_scores l.
Proof.
  intros Hc. split.
  - intros a b Ha Hb. rewrite !compare_scores_exact by auto. lia.
  - intros a b c Ha Hb Hc'. rewrite !compare_scores_exact by auto. lia.
Qed.

Lemma Sorted_weaken {A} (R1 R2 : A -> A -> Prop) (P : A -> Prop) l :
  (forall a b, P a -> P b -> R1 a b -> R2 a b) ->
  Forall P l -> Sorted R1 l -> Sorted R2 l.
Proof.
  intros HR HP HS. induction HS as [|a l HS IH Hhd]; [constructor|].
  apply Forall_cons in HP as [Pa Pl]. constructor; [auto|].
  destruct Hhd as [|b l' Hab]; constructor.
  apply Forall_cons in Pl as [Pb _]. auto.
Qed.

Lemma StronglySorted_take {A} (R : A -> A -> Prop) n l :
  StronglySorted R l -> StronglySorted R (take n l).
Proof.
  intros HS. revert n. induction HS as [|a l HS IH Hall]; intros [|n]; simpl;
    constructor; [apply IH|].
  by apply Forall_take.
Qed.

Lemma StronglySorted_filter_bool {A} (R : A -> A -> Prop) (f : A -> bool) l :
  StronglySorted R l -> StronglySorted R (List.filter f l).
Proof.
  induction 1 as [|a l HS IH Hall]; simpl; [constructor|].
  destruct (f a); [|done]. constructor; [done|].
  apply Forall_forall. intros x Hx%list_elem_of_In%filter_In.
  destruct Hx as [Hx%list_elem_of_In _]. eapply Forall_forall in Hall; eauto.
Qed.

Lemma elem_of_take_inv {A} (x : A) n l : x ∈ take n l -> x ∈ l.
Proof.
  intros (i & Hi & _)%elem_of_take. apply list_elem_of_lookup. eauto.
Qed.

Lemma score_ge_trans : Transitive score_ge.
Proof. unfold score_ge. intros a b c ??. lia. Qed.

Lemma listed_app l1 l2 : listed (l1 ++ l2) = listed l1 ++ listed l2.
Proof. unfold listed. apply omap_app. Qed.

Lemma listed_report qsort scoreboard :
  listed (report qsort scoreboard)
  = listed (report_loop (qsort compare_scores scoreboard) 0 0).1.
Proof.
  unfold report.
  destruct (report_loop (qsort compare_scores scoreboard) 0 0) as [ls n]. simpl.
  change (Header :: ls ++ (if n =? 0 then [NoScores] else []))
    with ([Header] ++ ls ++ (if n =? 0 then [NoScores] else [])).
  rewrite !listed_app. destruct (n =? 0); simpl; by rewrite app_nil_r.
Qed.

(** Under the C library's contract the sorted copy is in descending
    order of score. *)
Lemma qsort_descending qsort scoreboard :
  qsort_contract qsort -> comparable scoreboard ->
  StronglySorted score_ge (qsort compare_scores scoreboard) /\
  qsort compare_scores scoreboard ≡ₚ scoreboard.
Proof.
  intros Hq Hc. destruct (Hq compare_scores scoreboard) as [Hperm Hsorted].
  split; [|done].
  apply (@Sorted_StronglySorted _ _ score_ge_trans).
  eapply (Sorted_weaken _ _ (fun e => e ∈ scoreboard)); [| |apply Hsorted].
  - intros a b Ha Hb. cbv beta. rewrite compare_scores_exact by auto.
    unfold score_ge. lia.
  - apply Forall_forall. intros e He. by rewrite <- Hperm.
  - by apply comparable_consistent.
Qed.

Lemma insert_by_perm cmp x l : insert_by cmp x l ≡ₚ x :: l.
Proof.
  induction l as [|y l IH]; simpl; [done|].
  destruct (cmp x y <=? 0); [done|]. rewrite IH. apply Permutation_swap.
Qed.

Lemma insertion_sort_perm cmp l : insertion_sort cmp l ≡ₚ l.
Proof.
  induction l as [|x l IH]; simpl; [done|].
  rewrite insert_by_perm. by rewrite IH.
Qed.

Lemma insert_by_sorted cmp x l :
  (forall y, y ∈ l -> cmp x y <= 0 <-> 0 <= cmp y x) ->
  (forall y, y ∈ l -> cmp y x <= 0 <-> 0 <= cmp x y) ->
  Sorted (fun a b => cmp a b <= 0) l ->
  Sorted (fun a b => cmp a b <= 0) (insert_by cmp x l).
Proof.
  intros H1 H2 HS. induction HS as [|y l HS IH Hhd]; simpl.
  - repeat constructor.
  - destruct (Z.leb_spec (cmp x y) 0) as [Hle|Hgt].
    + constructor; [by constructor|]. by constructor.
    + assert (Hyx : cmp y x <= 0).
      { apply H2; [apply elem_of_cons; by left | lia]. }
      constructor.
      * apply IH; intros z Hz; [apply H1 | apply H2]; apply elem_of_cons; by right.
      * destruct Hhd as [|z l' Hyz]; simpl; [by constructor|].
        destruct (cmp x z <=? 0); by constructor.
Qed.

Lemma insertion_sort_contract : qsort_contract insertion_sort.
Proof.
  intros cmp l. split; [apply insertion_sort_perm|].
  intros [Hcons _]. induction l as [|x l IH]; simpl; [constructor|].
  apply insert_by_sorted.
  - intros y Hy. rewrite insertion_sort_perm in Hy.
    apply Hcons; apply elem_of_cons; auto.
  - intros y Hy. rewrite insertion_sort_perm in Hy.
    apply Hcons; apply elem_of_cons; auto.
  - apply IH. intros a b Ha Hb. apply Hcons; apply elem_of_cons; auto.
Qed.

(** Given the C library's contract for [qsort] and scores whose
    differences fit an [int], the entries the handler lists are in
    descending order of score, at most five, each active or with a
    positive score, all taken from the score board (they are the first
    five such entries of the sorted copy); and the handler's calls are
    bracketed by taking and releasing the score-board lock, the read
    of the score board lying in between. *)
Theorem report_top_five qsort scoreboard fopen_ok :
  qsort_contract qsort ->
  comparable scoreboard ->
  let entries := listed (report qsort scoreboard) in
  StronglySorted score_ge entries /\
  (length entries <= 5)%nat /\
  Forall (fun e => 0 < score e \/ active e <> 0) entries /\
  (forall e, e ∈ entries -> e ∈ scoreboard) /\
  entries = take 5 (List.filter qualifies
                      (take (Z.to_nat MAX_SCOREBOARD)
                         (qsort compare_scores scoreboard))) /\
  exists body,
    handle_sigusr1 qsort scoreboard fopen_ok = Lock :: body ++ [Unlock] /\
    (Lock ∉ body) /\ (Unlock ∉ body) /\ ReadScoreboard ∈ body /\
    (fopen_ok = true ->
     forall l, Fprintf l ∈ body <-> l ∈ report qsort scoreboard).
Proof.
  intros Hq Hc entries.
  destruct (qsort_descending _ _ Hq Hc) as [Hsorted Hperm].
  assert (Hentries : entries
    = take 5 (List.filter qualifies
                (take (Z.to_nat MAX_SCOREBOARD) (qsort compare_scores scoreboard)))).
  { unfold entries. rewrite listed_report, report_loop_listed by lia. done. }
  split; [|split; [|split; [|split; [|split; [done|]]]]].
  - rewrite Hentries.
    by apply StronglySorted_take, StronglySorted_filter_bool, StronglySorted_take.
  - rewrite Hentries, length_take. lia.
  - rewrite Hentries. apply Forall_take, Forall_forall.
    intros e [_ He]%list_elem_of_In%filter_In. unfold qualifies in He.
    apply orb_true_iff in He as [He%Z.ltb_lt|He%negb_true_iff%Z.eqb_neq]; auto.
  - rewrite Hentries. intros e He%elem_of_take_inv.
    apply list_elem_of_In, filter_In in He as [He%list_elem_of_In _].
    apply elem_of_take_inv in He. by rewrite <- Hperm.
  - unfold handle_sigusr1.
    exists ([ReadScoreboard; Qsort; Fopen]
            ++ (if fopen_ok then (Fprintf <$> report qsort scoreboard) ++ [Fclose]
                else [])).
    split; [by rewrite <- !app_assoc|].
    assert (Hin : forall ev,
      ev ∈ ([ReadScoreboard; Qsort; Fopen]
            ++ (if fopen_ok then (Fprintf <$> report qsort scoreboard) ++ [Fclose]
                else [])) ->
      ev = ReadScoreboard \/ ev = Qsort \/ ev = Fopen \/ ev = Fclose \/
      exists l, ev = Fprintf l /\ fopen_ok = true /\ l ∈ report qsort scoreboard).
    { intros ev [He|He]%elem_of_app.
      - repeat (apply elem_of_cons in He as [->|He]); auto.
        by apply elem_of_nil in He.
      - destruct fopen_ok; [|by apply elem_of_nil in He].
        apply elem_of_app in He as [He|He].
        + apply list_elem_of_fmap in He as (l & -> & Hl). eauto 10.
        + apply list_elem_of_singleton in He as ->. auto. }
    split; [|split; [|split]].
    + intros H%Hin. destruct H as [?|[?|[?|[?|(? & ? & _)]]]]; discriminate.
    + intros H%Hin. destruct H as [?|[?|[?|[?|(? & ? & _)]]]]; discriminate.
    + apply elem_of_app. left. apply elem_of_cons. by left.
    + intros ->. intros l. split.
      * intros H%Hin. destruct H as [?|[?|[?|[?|(l' & E & _ & Hl)]]]]; try discriminate.
        by injection E as ->.
      * intros Hl. apply elem_of_app. right. apply elem_of_app. left.
        by apply list_elem_of_fmap_2.
Qed.

Lemma report_top_five_witness :
  comparable demo_scoreboard /\
  listed (report insertion_sort demo_scoreboard)
  = [entry 3 50 1; entry 7 40 0; entry 1 30 0; entry 6 20 0; entry 5 10 0] /\
  StronglySorted score_ge (listed (report insertion_sort demo_scoreboard)).
Proof.
  assert (Hc : comparable demo_scoreboard).
  { intros a b Ha Hb. unfold demo_scoreboard in *.
    repeat (apply elem_of_cons in Ha as [->|Ha]); try (by apply elem_of_nil in Ha);
    repeat (apply elem_of_cons in Hb as [->|Hb]); try (by apply elem_of_nil in Hb);
    vm_compute; split; discriminate. }
  split; [exact Hc|]. split; [reflexivity|].
  exact (proj1 (report_top_five insertion_sort demo_scoreboard true
                  insertion_sort_contract Hc)).
Defined.
(** What holds of the report for every score board, sorted or not: at
    most five entries, each active or with a positive score, all taken
    from the score board, written between taking and releasing the
    lock. *)
Lemma report_shape qsort scoreboard fopen_ok :
  qsort_contract qsort ->
  let entries := listed (report qsort scoreboard) in
  (length entries <= 5)%nat /\
  Forall (fun e => 0 < score e \/ active e <> 0) entries /\
  (forall e, e ∈ entries -> e ∈ scoreboard) /\
  exists body,
    handle_sigusr1 qsort scoreboard fopen_ok = Lock :: body ++ [Unlock] /\
    (Lock ∉ body) /\ (Unlock ∉ body) /\ ReadScoreboard ∈ body.
Proof.
  intros Hq entries. destruct (Hq compare_scores scoreboard) as [Hperm _].
  assert (Hentries : entries
    = take 5 (List.filter qualifies
                (take (Z.to_nat MAX_SCOREBOARD) (qsort compare_scores scoreboard)))).
  { unfold entries. rewrite listed_report, report_loop_listed by lia. done. }
  split; [|split; [|split]].
  - rewrite Hentries, length_take. lia.
  - rewrite Hentries. apply Forall_take, Forall_forall.
    intros e [_ He]%list_elem_of_In%filter_In. unfold qualifies in He.
    apply orb_true_iff in He as [He%Z.ltb_lt|He%negb_true_iff%Z.eqb_neq]; auto.
  - rewrite Hentries. intros e He%elem_of_take_inv.
    apply list_elem_of_In, filter_In in He as [He%list_elem_of_In _].
    apply elem_of_take_inv in He. by rewrite <- Hperm.
  - unfold handle_sigusr1.
    exists ([ReadScoreboard; Qsort; Fopen]
            ++ (if fopen_ok then (Fprintf <$> report qsort scoreboard) ++ [Fclose]
                else [])).
    split; [by rewrite <- !app_assoc|].
    assert (Hin : forall ev,
      ev ∈ ([ReadScoreboard; Qsort; Fopen]
            ++ (if fopen_ok then (Fprintf <$> report qsort scoreboard) ++ [Fclose]
                else [])) ->
      ev <> Lock /\ ev <> Unlock).
    { intros ev [He|He]%elem_of_app.
      - repeat (apply elem_of_cons in He as [->|He]); try done.
        by apply elem_of_nil in He.
      - destruct fopen_ok; [|by apply elem_of_nil in He].
        apply elem_of_app in He as [He|He].
        + by apply list_elem_of_fmap in He as (l & -> & Hl).
        + by apply list_elem_of_singleton in He as ->. }
    split; [|split].
    + intros H%Hin. by destruct H.
    + intros H%Hin. by destruct H.
    + apply elem_of_app. left. apply elem_of_cons. by left.
Qed.

Lemma wrap32_above z :
  INT_MAX < z <= 2 * INT_MAX + 1 -> wrap32 z = z - 4294967296.
Proof.
  unfold INT_MAX, wrap32. intros H.
  replace (z + 2147483648) with (z - 2147483648 + 1 * 4294967296) by lia.
  rewrite Z_mod_plus_full, Z.mod_small; lia.
Qed.

Lemma wrap32_below z :
  2 * INT_MIN <= z < INT_MIN -> wrap32 z = z + 4294967296.
Proof.
  unfold INT_MIN, wrap32. intros H.
  replace (z + 2147483648) with (z + 6442450944 + (-1) * 4294967296) by lia.
  rewrite Z_mod_plus_full, Z.mod_small; lia.
Qed.

(** Where the difference of two scores does not fit an [int], the
    comparator has the wrong sign. *)
Lemma compare_scores_overflow lo hi :
  in_int (score lo) -> in_int (score hi) ->
  INT_MAX + 1 < score hi - score lo ->
  compare_scores lo hi < 0 /\ 0 < compare_scores hi lo.
Proof.
  unfold in_int, INT_MIN, INT_MAX, compare_scores, isub. intros Hlo Hhi Hd.
  rewrite wrap32_above by (unfold INT_MAX; lia).
  rewrite wrap32_below by (unfold INT_MIN; lia). lia.
Qed.

Lemma far_above_exact lo a b :
  in_int (score lo) -> far_above lo a -> far_above lo b ->
  compare_scores a b = score b - score a.
Proof.
  unfold far_above, in_int, INT_MIN, INT_MAX. intros Hlo [Ha Ha'] [Hb Hb'].
  apply compare_scores_exact. unfold in_int, INT_MIN, INT_MAX. lia.
Qed.

Lemma low_first_consistent lo his :
  in_int (score lo) -> Forall (far_above lo) his ->
  consistent compare_scores (lo :: his).
Proof.
  intros Hlo Hhis. rewrite Forall_forall in Hhis.
  assert (Hself : compare_scores lo lo = 0).
  { rewrite compare_scores_exact; [lia|]. unfold in_int, INT_MIN, INT_MAX. lia. }
  assert (Hcase : forall a, a ∈ lo :: his -> a = lo \/ far_above lo a).
  { intros a [->|Ha]%elem_of_cons; auto. }
  split.
  - intros a b [->|Ha]%Hcase [->|Hb]%Hcase;
      rewrite ?Hself, ?(far_above_exact lo) by done;
      repeat match goal with
             | H : far_above lo ?x |- _ =>
                 pose proof (compare_scores_overflow lo x Hlo (proj1 H) (proj2 H));
                 clear H
             end; lia.
  - intros a b c [->|Ha]%Hcase [->|Hb]%Hcase [->|Hc]%Hcase;
      rewrite ?Hself, ?(far_above_exact lo) by done;
      repeat match goal with
             | H : far_above lo ?x |- _ =>
                 pose proof (compare_scores_overflow lo x Hlo (proj1 H) (proj2 H));
                 clear H
             end; lia.
Qed.

(** A sorted copy of such a score board begins with [lo]. *)
Lemma sorted_low_first lo his sorted :
  in_int (score lo) -> Forall (far_above lo) his ->
  sorted ≡ₚ lo :: his ->
  Sorted (fun a b => compare_scores a b <= 0) sorted ->
  exists rest, sorted = lo :: rest /\ rest ≡ₚ his.
Proof.
  intros Hlo Hhis Hperm Hsorted.
  pose proof (low_first_consistent lo his Hlo Hhis) as [_ Htrans].
  assert (Hstrong : StronglySorted
            (fun a b => a ∈ lo :: his /\ b ∈ lo :: his /\ compare_scores a b <= 0)
            sorted).
  { apply Sorted_StronglySorted.
    - intros a b c (Ha & Hb & Hab) (_ & Hc & Hbc). split; [done|]. split; [done|].
      by apply (Htrans a b c).
    - eapply (Sorted_weaken _ _ (fun e => e ∈ lo :: his)); [| |exact Hsorted].
      + by intros a b Ha Hb Hab.
      + apply Forall_forall. intros e He. by rewrite <- Hperm. }
  destruct sorted as [|x rest].
  { apply Permutation_nil_l in Hperm. discriminate. }
  apply StronglySorted_inv in Hstrong as [_ Hall]. rewrite Forall_forall in Hall.
  assert (Hx : x ∈ lo :: his) by (rewrite <- Hperm; apply elem_of_cons; by left).
  apply elem_of_cons in Hx as [->|Hx].
  - exists rest. split; [done|]. by apply Permutation_cons_inv in Hperm.
  - exfalso. rewrite Forall_forall in Hhis.
    destruct (Hhis x Hx) as [Hx1 Hx2].
    destruct (compare_scores_overflow lo x Hlo Hx1 Hx2) as [_ Hpos].
    assert (Hin : lo ∈ rest).
    { assert (Hl : lo ∈ x :: rest) by (rewrite Hperm; apply elem_of_cons; by left).
      apply elem_of_cons in Hl as [->|Hl]; [|done]. unfold INT_MAX in Hx2. lia. }
    destruct (Hall lo Hin) as (_ & _ & Hle). lia.
Qed.

Lemma filter_all {A} (f : A -> bool) l :
  Forall (fun x => f x = true) l -> List.filter f l = l.
Proof.
  induction 1 as [|x l Hx _ IH]; simpl; [done|]. by rewrite Hx, IH.
Qed.

(** C8.  [compare_scores] returns [eb->score - ea->score] as an [int];
    where that difference does not fit, its sign is wrong, against the
    function's own description.  Let the score board hold an entry
    [lo] that is still playing, and otherwise entries whose scores are
    more than [INT_MAX + 1] above [lo]'s.  Then for every [qsort] that
    meets the C library's contract the sorted copy begins with [lo],
    the entry with the lowest score, and the report lists [lo] first
    and entries with higher scores after it: it is not in descending
    order of score. *)
Theorem report_lists_lowest_first qsort scoreboard lo his :
  qsort_contract qsort ->
  in_int (score lo) -> active lo <> 0 ->
  his <> [] ->
  Forall (fun h => in_int (score h) /\ INT_MAX + 1 < score h - score lo) his ->
  scoreboard ≡ₚ lo :: his ->
  (forall h, h ∈ his -> score lo < score h /\ compare_scores lo h < 0) /\
  (exists tail, qsort compare_scores scoreboard = lo :: tail /\ tail ≡ₚ his) /\
  exists rest,
    listed (report qsort scoreboard) = lo :: rest /\
    rest <> [] /\
    Forall (fun h => h ∈ his /\ score lo < score h) rest /\
    ~ StronglySorted score_ge (listed (report qsort scoreboard)).
Proof.
  intros Hq Hlo Hact Hne Hhis Hperm. change (Forall (far_above lo) his) in Hhis.
  assert (Hfar : forall h, h ∈ his -> score lo < score h /\ compare_scores lo h < 0).
  { intros h Hh. rewrite Forall_forall in Hhis. destruct (Hhis h Hh) as [Hh1 Hh2].
    destruct (compare_scores_overflow lo h Hlo Hh1 Hh2). unfold INT_MAX in *. lia. }
  split; [exact Hfar|].
  destruct (Hq compare_scores scoreboard) as [Hp Hs].
  assert (Hcons : consistent compare_scores scoreboard).
  { destruct (low_first_consistent lo his Hlo Hhis) as [H1 H2].
    split; [intros a b Ha Hb|intros a b c Ha Hb Hc]; rewrite Hperm in *; auto.
    by apply H2. }
  destruct (sorted_low_first lo his _ Hlo Hhis (transitivity Hp Hperm) (Hs Hcons))
    as (sorted' & Esorted & Hperm').
  assert (Hqual : Forall (fun h => qualifies h = true) (take 99 sorted')).
  { apply Forall_take, Forall_forall. intros h Hh. rewrite Hperm' in Hh.
    rewrite Forall_forall in Hhis. destruct (Hhis h Hh) as [Hh1 Hh2].
    unfold qualifies. apply orb_true_iff. left. apply Z.ltb_lt.
    unfold in_int, INT_MIN, INT_MAX in *. lia. }
  assert (Hlisted : listed (report qsort scoreboard) = lo :: take 4 (take 99 sorted')).
  { rewrite listed_report, report_loop_listed by lia. rewrite Esorted.
    change (Z.to_nat (MAX_SCOREBOARD - 0)) with (S 99).
    change (Z.to_nat (5 - 0)) with (S 4). simpl take at 2. simpl List.filter.
    assert (Hql : qualifies lo = true).
    { unfold qualifies. apply orb_true_iff. right.
      by apply negb_true_iff, Z.eqb_neq. }
    rewrite Hql. simpl. by rewrite (filter_all _ _ Hqual). }
  split; [by exists sorted'|].
  exists (take 4 (take 99 sorted')). split; [exact Hlisted|].
  assert (Hrest : Forall (fun h => h ∈ his /\ score lo < score h)
                    (take 4 (take 99 sorted'))).
  { apply Forall_take, Forall_take, Forall_forall. intros h Hh.
    rewrite Hperm' in Hh. split; [done|]. by apply Hfar. }
  assert (Hnonempty : take 4 (take 99 sorted') <> []).
  { destruct sorted' as [|h tl]; [|done].
    apply Permutation_nil_l in Hperm'. by destruct his. }
  split; [exact Hnonempty|]. split; [exact Hrest|].
  rewrite Hlisted. intros Hss. apply StronglySorted_inv in Hss as [_ Hall].
  destruct (take 4 (take 99 sorted')) as [|h tl]; [done|].
  apply Forall_cons in Hall as [Hge _]. apply Forall_cons in Hrest as [[_ Hlt] _].
  unfold score_ge in Hge. lia.
Qed.

Lemma overflow_scoreboard_far :
  Forall (far_above (entry 1 (-2000000000) 1))
    ((fun k : nat => entry (Z.of_nat k + 2) (2000000000 - Z.of_nat k) 0) <$> seq 0 99).
Proof.
  apply Forall_fmap, Forall_forall. intros k Hk%elem_of_seq.
  unfold far_above, in_int, INT_MIN, INT_MAX. simpl. lia.
Qed.

Lemma report_lists_lowest_first_witness :
  length overflow_scoreboard = 100%nat /\
  listed (report insertion_sort overflow_scoreboard)
  = [entry 1 (-2000000000) 1; entry 2 2000000000 0; entry 3 1999999999 0;
     entry 4 1999999998 0; entry 5 1999999997 0] /\
  ~ StronglySorted score_ge (listed (report insertion_sort overflow_scoreboard)).
Proof.
  split; [reflexivity|]. split; [vm_compute; reflexivity|].
  destruct (report_lists_lowest_first insertion_sort overflow_scoreboard
              (entry 1 (-2000000000) 1)
              ((fun k : nat => entry (Z.of_nat k + 2) (2000000000 - Z.of_nat k) 0)
                 <$> seq 0 99)
              insertion_sort_contract)
    as (_ & _ & rest & _ & _ & _ & Hns).
  - unfold in_int, INT_MIN, INT_MAX. simpl. lia.
  - discriminate.
  - discriminate.
  - exact overflow_scoreboard_far.
  - unfold overflow_scoreboard. symmetry. apply Permutation_cons_append.
  - exact Hns.
Defined.
End ScoresFacts.

Module LevelsFacts.
Import Board Levels.
Local Open Scope Z_scope.

Lemma code_nonneg c : 0 <= code c.
Proof. unfold code. lia. Qed.

Lemma code_inj c1 c2 : code c1 = code c2 -> c1 = c2.
Proof.
  unfold code. intros H%N2Z.inj.
  rewrite <- (ascii_N_embedding c1), <- (ascii_N_embedding c2). by rewrite H.
Qed.

Lemma code_zero c : code c = 0 <-> c = Ascii.zero.
Proof.
  split; [|by intros ->]. intros H. apply code_inj. by rewrite H.
Qed.

Lemma strcmp_flip s1 s2 : strcmp s2 s1 = - strcmp s1 s2.
Proof.
  revert s2. induction s1 as [|c1 r1 IH]; intros [|c2 r2]; simpl; try lia.
  destruct (Ascii.eqb_spec c1 c2) as [->|Hne].
  - rewrite Ascii.eqb_refl. destruct (Ascii.eqb c2 Ascii.zero); [done | apply IH].
  - destruct (Ascii.eqb_spec c2 c1) as [->|_]; [done | lia].
Qed.

Lemma code_neq c1 c2 : c1 <> c2 -> code c1 <> code c2.
Proof. intros H ?%code_inj. done. Qed.

Lemma code_NUL : code Ascii.zero = 0.
Proof. reflexivity. Qed.

Ltac split_chars :=
  repeat match goal with
    | H : context [Ascii.eqb ?a ?b] |- _ =>
        destruct (Ascii.eqb_spec a b) as [?|?%code_neq]; [subst|]
    | |- context [Ascii.eqb ?a ?b] =>
        destruct (Ascii.eqb_spec a b) as [?|?%code_neq]; [subst|]
    end.

Lemma str_le_trans : Transitive str_le.
Proof.
  unfold str_le. intros s1.
  induction s1 as [|c1 r1 IH]; intros s2 s3 H12 H23.
  - destruct s3 as [|c3 r3]; simpl; [lia|]. pose proof (code_nonneg c3). lia.
  - pose proof code_NUL. pose proof (code_nonneg c1).
    destruct s2 as [|c2 r2], s3 as [|c3 r3]; simpl in *.
    + lia.
    + assert (c1 = Ascii.zero) as -> by (apply code_zero; lia).
      pose proof (code_nonneg c3). split_chars; lia.
    + pose proof (code_nonneg c2). split_chars; lia.
    + pose proof (code_nonneg c2). pose proof (code_nonneg c3).
      split_chars; try lia; try congruence.
      eauto.
Qed.

Lemma strcmp_eq s1 s2 :
  c_string s1 -> c_string s2 -> strcmp s1 s2 = 0 -> s1 = s2.
Proof.
  revert s2. induction s1 as [|c1 r1 IH]; intros [|c2 r2]; simpl; try done.
  - intros _ [Hc _] H. exfalso. apply Hc, code_zero. lia.
  - intros [Hc _] _ H. exfalso. by apply Hc, code_zero.
  - intros [Hc1 Hr1] [Hc2 Hr2].
    destruct (Ascii.eqb_spec c1 c2) as [->|Hne].
    + destruct (Ascii.eqb_spec c2 Ascii.zero); [done|]. intros H. f_equal. auto.
    + intros H. exfalso. apply Hne, code_inj. lia.
Qed.

Lemma str_le_antisym s1 s2 :
  c_string s1 -> c_string s2 -> str_le s1 s2 -> str_le s2 s1 -> s1 = s2.
Proof.
  unfold str_le. intros H1 H2 H12 H21. rewrite strcmp_flip in H21.
  apply strcmp_eq; [done | done | lia].
Qed.

Lemma str_take_length n s : (String.length (str_take n s) <= n)%nat.
Proof.
  revert s. induction n as [|n IH]; intros [|c s]; simpl; try lia.
  specialize (IH s). lia.
Qed.

Lemma str_take_all n s : (String.length s <= n)%nat -> str_take n s = s.
Proof.
  revert s. induction n as [|n IH]; intros [|c s]; simpl; try done; try lia.
  intros H. f_equal. apply IH. lia.
Qed.

Lemma str_take_c_string n s : c_string s -> c_string (str_take n s).
Proof.
  revert s. induction n as [|n IH]; intros [|c s]; simpl; try done.
  intros [? ?]. auto.
Qed.

Lemma c_string_app s1 s2 : c_string s1 -> c_string s2 -> c_string (s1 ++ s2).
Proof. induction s1 as [|c s1 IH]; simpl; [done|]. intros [? ?] ?. auto. Qed.

Lemma level_path_fits dir name : fits_row (level_path dir name).
Proof. apply str_take_length. Qed.

Lemma level_path_c_string dir name :
  c_string dir -> c_string name -> c_string (level_path dir name).
Proof.
  intros Hd Hn. apply str_take_c_string, c_string_app; [done|].
  apply (c_string_app "/"); [|done]. simpl. split; [discriminate | done].
Qed.

Lemma strncpy512_fits s : fits_row s -> strncpy512 s = s.
Proof. unfold fits_row, strncpy512. intros H. apply str_take_all. lia. Qed.

(** The [readdir] loop in closed form: the first 32 paths of the
    matching entries, in directory order. *)
Lemma read_levels_closed dir entries acc :
  (length acc <= 32)%nat ->
  read_levels dir entries acc
  = take 32 (acc ++ (level_path dir <$> List.filter is_level_name entries)).
Proof.
  revert acc. induction entries as [|d rest IH]; simpl; intros acc Hacc.
  - rewrite app_nil_r. by rewrite take_ge.
  - destruct (Nat.ltb_spec (length acc) 32) as [Hlt|Hge].
    + destruct (is_level_name d); [|by apply IH].
      rewrite IH by (rewrite length_app; simpl; lia).
      by rewrite <- app_assoc.
    + by rewrite take_app_le, take_ge by lia.
Qed.

Lemma insert_middle {A} (l1 l2 : list A) x y n :
  n = length l1 -> <[n := y]> (l1 ++ x :: l2) = l1 ++ y :: l2.
Proof. intros ->. rewrite insert_app_r_alt by lia. by rewrite Nat.sub_diag. Qed.

Lemma swap_if_greater_spec pre x mid y rest i j :
  i = length pre -> j = (i + 1 + length mid)%nat ->
  fits_row x -> fits_row y ->
  swap_if_greater (pre ++ x :: mid ++ y :: rest) i j
  = if 0 <? strcmp x y then pre ++ y :: mid ++ x :: rest
    else pre ++ x :: mid ++ y :: rest.
Proof.
  intros Hi Hj Hx Hy. unfold swap_if_greater.
  rewrite (list_lookup_middle pre _ x i Hi).
  assert (Hj' : j = length (pre ++ x :: mid))
    by (rewrite length_app; simpl; lia).
  replace (pre ++ x :: mid ++ y :: rest) with ((pre ++ x :: mid) ++ y :: rest)
    by (by rewrite <- app_assoc).
  rewrite (list_lookup_middle _ _ y j Hj').
  destruct (0 <? strcmp x y); [|done].
  rewrite !strncpy512_fits by (rewrite ?strncpy512_fits; done).
  rewrite <- app_assoc. simpl.
  rewrite (insert_middle pre _ x y i Hi).
  replace (pre ++ y :: mid ++ y :: rest) with ((pre ++ y :: mid) ++ y :: rest)
    by (by rewrite <- app_assoc).
  rewrite insert_middle by (rewrite length_app; simpl; lia).
  by rewrite <- app_assoc.
Qed.

(** One pass of the inner loop brings a least element of
    [x :: rest] to position [i] and keeps the others. *)
Lemma inner_loop_spec rest : forall pre x mid i j,
  i = length pre -> j = (i + 1 + length mid)%nat ->
  Forall fits_row (x :: rest) ->
  exists m rest',
    inner_loop (length rest) i j (pre ++ x :: mid ++ rest)
      = pre ++ m :: mid ++ rest' /\
    m :: rest' ≡ₚ x :: rest /\
    str_le m x /\
    Forall (str_le m) rest'.
Proof.
  induction rest as [|y rest IH]; intros pre x mid i j Hi Hj Hfit.
  - exists x, []. simpl. repeat split; try done. unfold str_le.
    rewrite <- (Z.opp_involutive (strcmp x x)), <- strcmp_flip. 
    pose proof (strcmp_flip x x). lia.
  - apply Forall_cons in Hfit as [Hx Hfit]. apply Forall_cons in Hfit as [Hy Hrest].
    cbn [length inner_loop].
    rewrite (swap_if_greater_spec pre x mid y rest i j Hi Hj Hx Hy).
    destruct (Z.ltb_spec 0 (strcmp x y)) as [Hgt|Hle].
    + (* rows exchanged: y now stands at [i] *)
      destruct (IH pre y (mid ++ [x]) i (S j)) as (m & rest' & Hrun & Hperm & Hmy & Hall).
      { done. } { rewrite length_app. simpl. lia. } { by constructor. }
      rewrite <- !app_assoc in Hrun. simpl in Hrun.
      exists m, (x :: rest'). split; [done|].
      assert (Hyx : str_le y x) by (unfold str_le; rewrite strcmp_flip; lia).
      assert (Hmx : str_le m x) by (eapply str_le_trans; eauto).
      split; [|split; [done | by constructor]].
      etrans; [apply Permutation_swap|]. by rewrite Hperm.
    + destruct (IH pre x (mid ++ [y]) i (S j)) as (m & rest' & Hrun & Hperm & Hmx & Hall).
      { done. } { rewrite length_app. simpl. lia. } { by constructor. }
      rewrite <- !app_assoc in Hrun. simpl in Hrun.
      exists m, (y :: rest'). split; [done|].
      assert (Hmy : str_le m y) by (eapply str_le_trans; eauto).
      split; [|split; [done | by constructor]].
      etrans; [apply Permutation_swap|]. rewrite Hperm. apply Permutation_swap.
Qed.

(** The outer loop extends the sorted prefix by one row per turn. *)
Lemma outer_loop_spec n : forall prefix tail,
  length tail = S n ->
  StronglySorted str_le prefix ->
  (forall p t, p ∈ prefix -> t ∈ tail -> str_le p t) ->
  Forall fits_row tail ->
  exists res,
    outer_loop n (length prefix) (length (prefix ++ tail)) (prefix ++ tail)
      = prefix ++ res /\
    res ≡ₚ tail /\
    StronglySorted str_le (prefix ++ res).
Proof.
  induction n as [|n IH]; intros prefix tail Hlen Hsorted Hbelow Hfit.
  - exists tail. simpl. split; [done|]. split; [done|].
    destruct tail as [|t [|]]; try done.
    apply StronglySorted_app_2; [done | done | repeat constructor].
  - destruct tail as [|x rest]; [done|]. simpl in Hlen.
    cbn [outer_loop].
    replace (length (prefix ++ x :: rest) - S (length prefix))%nat
      with (length rest) by (rewrite length_app; simpl; lia).
    destruct (inner_loop_spec rest prefix x [] (length prefix) (S (length prefix)))
      as (m & rest' & Hrun & Hperm & Hmx & Hall); [done | simpl; lia | done |].
    simpl in Hrun. rewrite Hrun.
    assert (Hlen' : length rest' = length rest).
    { apply Permutation_length in Hperm. simpl in Hperm. lia. }
    assert (Hm : m ∈ x :: rest) by (rewrite <- Hperm; apply elem_of_cons; by left).
    assert (Hsub : forall t, t ∈ rest' -> t ∈ x :: rest).
    { intros t Ht. rewrite <- Hperm. apply elem_of_cons. by right. }
    destruct (IH (prefix ++ [m]) rest') as (res & Hout & Hres & Hss).
    + lia.
    + apply StronglySorted_app_2; [|done|repeat constructor].
      intros p t Hp ->%list_elem_of_singleton. auto.
    + intros p t [Hp| ->%list_elem_of_singleton]%elem_of_app Ht; [auto|].
      eapply Forall_forall in Hall; eauto.
    + apply Forall_forall. intros t Ht%Hsub. eapply Forall_forall in Hfit; eauto.
    + rewrite <- !app_assoc in Hout, Hss. simpl in Hout, Hss.
      rewrite length_app in Hout. simpl in Hout.
      replace (length prefix + 1)%nat with (S (length prefix)) in Hout by lia.
      replace (length (prefix ++ m :: rest')) with (length (prefix ++ x :: rest)) in Hout
        by (rewrite !length_app; simpl; lia).
      exists (m :: res). split; [by rewrite Hout, <- app_assoc|]. split; [|done].
      by rewrite Hres.
Qed.

(** [sort_level_files] sorts: the rows come out in ascending [strcmp]
    order and are the rows that went in. *)
Lemma sort_level_files_sorts files :
  Forall fits_row files ->
  StronglySorted str_le (sort_level_files files (length files)) /\
  sort_level_files files (length files) ≡ₚ files.
Proof.
  intros Hfit. unfold sort_level_files.
  destruct files as [|x rest]; [simpl; split; [constructor | done]|].
  destruct (outer_loop_spec (length rest) [] (x :: rest)) as (res & Hrun & Hperm & Hss).
  - done.
  - constructor.
  - intros p t []%elem_of_nil.
  - done.
  - simpl in *. rewrite Nat.sub_0_r. rewrite Hrun. done.
Qed.

Lemma filter_bool_perm {A} (f : A -> bool) (l l' : list A) :
  l ≡ₚ l' -> List.filter f l ≡ₚ List.filter f l'.
Proof.
  induction 1 as [|x l l' _ IH|x y l|l1 l2 l3 _ IH1 _ IH2]; simpl.
  - done.
  - destruct (f x); by rewrite IH.
  - destruct (f x), (f y); try done. apply Permutation_swap.
  - by rewrite IH1.
Qed.

Lemma run_levels_prefix stage k files r :
  run_levels stage k files r `prefix_of` files.
Proof.
  revert k r. induction files as [|f rest IH]; simpl; intros k r; [done|].
  destruct (r =? NEXT_LEVEL); [|apply prefix_nil].
  destruct (stage k f) as [load_status result].
  destruct (load_status =? 0); [|apply prefix_nil].
  by apply prefix_cons.
Qed.

Lemma read_levels_from_empty dir entries :
  read_levels dir entries []
  = take 32 (level_path dir <$> List.filter is_level_name entries).
Proof. rewrite read_levels_closed by (simpl; lia). done. Qed.

(** C10 as stated fails: with 33 level files, listing the directory in
    the opposite order gives the session another stage list. *)
Lemma stage_list_depends_on_listing :
  demo_listing ≡ₚ reverse demo_listing /\
  resolve_levels "levels" (Some (reverse demo_listing)) <>
    resolve_levels "levels" (Some demo_listing) /\
  ~ order_independent.
Proof.
  assert (Hne : resolve_levels "levels" (Some (reverse demo_listing)) <>
                resolve_levels "levels" (Some demo_listing)).
  { vm_compute. discriminate. }
  split; [by rewrite reverse_Permutation|]. split; [exact Hne|].
  intros H. apply Hne, H. by rewrite reverse_Permutation.
Qed.

(** C10, amended.  The worker resolves at most 32 stage files: the
    paths of the first 32 directory entries, in listing order, whose
    names contain ".lvl" or ".txt".  It runs them in ascending [strcmp]
    order of these paths, stopping early at most.  When at most 32
    entries match, the stage list is the same for every order in which
    the directory lists its entries. *)
Theorem resolve_levels_sorted dir entries files :
  resolve_levels dir (Some entries) = Some files ->
  (length files <= 32)%nat /\
  StronglySorted str_le files /\
  files ≡ₚ take 32 (level_path dir <$> List.filter is_level_name entries) /\
  (forall stage, stages_run dir (Some entries) stage `prefix_of` files) /\
  (forall entries',
     c_string dir -> Forall c_string entries ->
     (length (List.filter is_level_name entries) <= 32)%nat ->
     entries ≡ₚ entries' ->
     resolve_levels dir (Some entries') = Some files).
Proof.
  unfold resolve_levels. rewrite read_levels_from_empty.
  set (found := take 32 (level_path dir <$> List.filter is_level_name entries)).
  destruct (Nat.eqb_spec (length found) 0) as [|Hne]; [done|]. intros [= <-].
  assert (Hfit : Forall fits_row found).
  { apply Forall_take, Forall_fmap, Forall_forall. intros d _. apply level_path_fits. }
  destruct (sort_level_files_sorts found Hfit) as [Hsorted Hperm].
  split; [|split; [done|split; [done|split]]].
  - rewrite Hperm. unfold found. rewrite length_take. lia.
  - intros stage. unfold stages_run, resolve_levels.
    rewrite read_levels_from_empty. fold found.
    destruct (Nat.eqb_spec (length found) 0); [lia|]. apply run_levels_prefix.
  - intros entries' Hdir Hnames Hfew Hentries.
    rewrite read_levels_from_empty.
    set (found' := take 32 (level_path dir <$> List.filter is_level_name entries')).
    assert (Hff : found' ≡ₚ found).
    { unfold found, found'.
      pose proof (filter_bool_perm is_level_name _ _ Hentries) as Hf.
      rewrite !take_ge
        by (rewrite length_fmap; rewrite <- ?Hf; lia).
      by rewrite Hf. }
    assert (Hfit' : Forall fits_row found') by (by rewrite Hff).
    destruct (sort_level_files_sorts found' Hfit') as [Hsorted' Hperm'].
    pose proof (Permutation_length Hff) as Hlen.
    destruct (Nat.eqb_spec (length found') 0); [lia|]. f_equal.
    apply (StronglySorted_unique_strong str_le); [|done|done|].
    + assert (Hc : Forall c_string found).
      { apply Forall_take, Forall_fmap, Forall_forall.
        intros d Hd%list_elem_of_In%filter_In. destruct Hd as [Hd%list_elem_of_In _].
        apply level_path_c_string; [done|].
        eapply Forall_forall in Hnames; eauto. }
      intros x1 x2 H1 H2. rewrite Hperm', Hff in H1. rewrite Hperm in H2.
      apply str_le_antisym; eapply Forall_forall in Hc; eauto.
    + by rewrite Hperm', Hperm.
Qed.

Lemma resolve_levels_sorted_witness :
  resolve_levels "levels" (Some demo_entries)
    = Some ["levels/a.txt"; "levels/b.lvl"]%string /\
  StronglySorted str_le ["levels/a.txt"; "levels/b.lvl"]%string /\
  resolve_levels "levels" (Some (reverse demo_entries))
    = Some ["levels/a.txt"; "levels/b.lvl"]%string.
Proof.
  split; [reflexivity|].
  destruct (resolve_levels_sorted "levels" demo_entries
              ["levels/a.txt"; "levels/b.lvl"]%string eq_refl)
    as (_ & Hsorted & _ & _ & Hindep).
  split; [exact Hsorted|].
  apply Hindep.
  - vm_compute. repeat split; discriminate.
  - repeat constructor; discriminate.
  - vm_compute. lia.
  - by rewrite reverse_Permutation.
Defined.
End LevelsFacts.

Module DispatchMore.
Import CInt CArray Protocol Dispatch CIntFacts DispatchFacts.
Local Open Scope Z_scope.

(** X1.  The critical sections never fault.  In every reachable state
    of the hand-off, whoever holds [buffer_mutex] indexes
    [session_buffer] inside its bounds ([buffer_in] for the acceptor,
    [buffer_out] for a worker), [% buffer_size] does not divide by zero,
    and the section is defined. *)
Theorem critical_sections_in_bounds max_games s :
  reachable max_games s ->
  (forall req, acc s = AHolding req ->
     0 <= buffer_in (q s) < Z.of_nat (length (session_buffer (q s))) /\
     buffer_size (q s) <> 0 /\
     is_Some (step acc_critical s)) /\
  (forall i, workers s !! i = Some WHolding ->
     0 <= buffer_out (q s) < Z.of_nat (length (session_buffer (q s))) /\
     buffer_size (q s) <> 0 /\
     is_Some (step (wrk_critical i) s)).
Proof.
  intros R. pose proof (reachable_inv _ _ R) as I.
  pose proof (inv_cap _ _ I) as Hcap. pose proof (inv_buf _ _ I) as Hbuf.
  pose proof (inv_range _ _ I) as Hr.
  split.
  - intros req Ea. pose proof (acc_critical_defined _ _ _ R Ea) as Hdef.
    assert (Hpos : 0 < max_games).
    { pose proof (inv_free _ _ I) as Hf. pose proof (inv_empty _ _ I).
      pose proof (inv_gap_room _ _ I). pose proof (inv_occ _ _ I).
      pose proof (sumZ_nonneg taken (workers s) taken_nonneg).
      unfold free_slots, pending_empty in Hf. rewrite Ea in Hf. lia. }
    destruct (inv_in _ _ I) as [_ Hin]. specialize (Hin Hpos).
    pose proof (Z.mod_pos_bound (Z.of_nat (length (enqueued (hist s)))) _ Hpos).
    split; [|split; [lia | done]]. rewrite Hbuf, Hin. lia.
  - intros i Ew. pose proof (wrk_critical_defined _ _ _ R Ew) as Hdef.
    assert (Hpos : 0 < max_games).
    { pose proof (inv_pool _ _ I). apply lookup_lt_Some in Ew. lia. }
    destruct (inv_out _ _ I) as [_ Hout]. specialize (Hout Hpos).
    pose proof (Z.mod_pos_bound (Z.of_nat (length (dequeued (hist s)))) _ Hpos).
    split; [|split; [lia | done]]. rewrite Hbuf, Hout. lia.
Qed.

Lemma critical_sections_in_bounds_witness :
  exists s,
    demo_holding = Some s /\ reachable 2 s /\
    acc s = AHolding (demo_req "2") /\ workers s !! 0%nat = Some WHolding /\
    (0 <= buffer_in (q s) < Z.of_nat (length (session_buffer (q s))) /\
     buffer_size (q s) <> 0 /\
     is_Some (step acc_critical s)) /\
    (0 <= buffer_out (q s) < Z.of_nat (length (session_buffer (q s))) /\
     buffer_size (q s) <> 0 /\
     is_Some (step (wrk_critical 0) s)).
Proof.
  eexists. split; [reflexivity|].
  assert (R : reachable 2
    (default {| q := {| session_buffer := []; buffer_size := 0; buffer_in := 0;
                        buffer_out := 0; sem_empty := 0; sem_full := 0 |};
                acc := AIdle; workers := [];
                hist := {| slot_ticket := []; enqueued := []; dequeued := [] |} |}
       demo_holding)).
  { eapply (run_reachable 2 (take 5 demo_sched)); [apply reach_init; reflexivity|].
    vm_compute. reflexivity. }
  split; [exact R|]. split; [reflexivity|]. split; [reflexivity|].
  destruct (critical_sections_in_bounds 2 _ R) as [Ha Hw].
  split; [exact (Ha _ eq_refl) | exact (Hw 0%nat eq_refl)].
Defined.

Lemma sumZ_zero_all {A} (f : A -> Z) (l : list A) :
  (forall x, 0 <= f x) -> sumZ f l = 0 -> Forall (fun a => f a = 0) l.
Proof.
  intros Hf. induction l as [|x l IH]; simpl; [constructor|].
  intros H. pose proof (Hf x). pose proof (sumZ_nonneg f l Hf).
  constructor; [lia | apply IH; lia].
Qed.

Lemma sumZ_pos_lookup {A} (f : A -> Z) (l : list A) :
  (forall x, 0 <= f x) -> 0 < sumZ f l -> exists i a, l !! i = Some a /\ 0 < f a.
Proof.
  intros Hf. induction l as [|x l IH]; simpl; [lia|].
  intros H. destruct (Z_lt_le_dec 0 (f x)).
  - exists O, x. done.
  - pose proof (Hf x). destruct IH as (i & a & Hi & Ha); [lia|].
    exists (S i), a. done.
Qed.

(** X2.  The hand-off cannot deadlock.  With a pool of at least one
    worker and a connect request at hand, some thread has an enabled
    step in every reachable state. *)
Theorem dispatch_never_stuck max_games s (req : connect_req_t) :
  reachable max_games s -> 0 < max_games ->
  exists l s', step l s = Some s'.
Proof.
  intros R Hpos. pose proof (reachable_inv _ _ R) as I.
  destruct (acc s) eqn:Ea.
  - (* acceptor idle *)
    destruct (Z_lt_le_dec 0 (sem_empty (q s))) as [He|He].
    { exists (acc_sem_wait req). unfold step, sem_wait. rewrite Ea.
      destruct (Z.ltb_spec 0 (sem_empty (q s))); [|lia]. by eexists. }
    destruct (Z_lt_le_dec 0 (sumZ taken (workers s))) as [Ht|Ht].
    { destruct (sumZ_pos_lookup taken _ taken_nonneg Ht) as (i & w & Hi & Hw).
      destruct w; simpl in Hw; try lia.
      exists (wrk_sem_post i). unfold step. rewrite Hi. by eexists. }
    destruct (Z_lt_le_dec 0 (sumZ holding (workers s))) as [Hh|Hh].
    { destruct (sumZ_pos_lookup holding _ holding_nonneg Hh) as (i & w & Hi & Hw).
      destruct w; simpl in Hw; try lia.
      exists (wrk_critical i). exact (wrk_critical_defined max_games _ _ R Hi). }
    (* nothing in flight: the queue is full and every worker idle *)
    pose proof (inv_free _ _ I) as Hfree. pose proof (inv_empty _ _ I).
    pose proof (inv_pool _ _ I) as Hpool.
    pose proof (sumZ_nonneg taken (workers s) taken_nonneg).
    pose proof (sumZ_nonneg holding (workers s) holding_nonneg).
    unfold free_slots, occupied_slots, pending_full, pending_empty in Hfree.
    rewrite Ea in Hfree.
    destruct (workers s) as [|w ws] eqn:Ew; [simpl in Hpool; lia|].
    assert (Hw : w = WIdle).
    { simpl in *. pose proof (taken_nonneg w). pose proof (holding_nonneg w).
      pose proof (sumZ_nonneg taken ws taken_nonneg).
      pose proof (sumZ_nonneg holding ws holding_nonneg).
      destruct w; simpl in *; try lia. done. }
    subst w. exists (wrk_sem_wait 0). unfold step, sem_wait. rewrite Ew. simpl.
    destruct (Z.ltb_spec 0 (sem_full (q s))); [by eexists|]. simpl in *. lia.
  - exists acc_critical. exact (acc_critical_defined max_games _ _ R Ea).
  - exists acc_sem_post. unfold step. rewrite Ea. by eexists.
Qed.

Lemma dispatch_never_stuck_witness :
  exists s l s', demo_state = Some s /\ step l s = Some s'.
Proof.
  eexists.
  assert (R : reachable 2
    (default {| q := {| session_buffer := []; buffer_size := 0; buffer_in := 0;
                        buffer_out := 0; sem_empty := 0; sem_full := 0 |};
                acc := AIdle; workers := [];
                hist := {| slot_ticket := []; enqueued := []; dequeued := [] |} |}
       demo_state)).
  { eapply (run_reachable 2 demo_sched); [apply reach_init; reflexivity|].
    vm_compute. reflexivity. }
  destruct (dispatch_never_stuck 2 _ (demo_req "3") R) as (l & s' & Hs); [lia|].
  exists l, s'. split; [reflexivity | exact Hs].
Defined.

(** X3.  When the two [sem_wait] calls block.  An idle acceptor blocks
    on [sem_empty] exactly when every slot is occupied or still being
    released by a worker; an idle worker blocks on [sem_full] exactly
    when no posted record waits for it. *)
Theorem blocking_conditions max_games s :
  reachable max_games s ->
  (forall req, acc s = AIdle ->
     (step (acc_sem_wait req) s = None <->
      occupied_slots s + sumZ taken (workers s) = capacity s)) /\
  (forall i, workers s !! i = Some WIdle ->
     (step (wrk_sem_wait i) s = None <->
      occupied_slots s = pending_full s)).
Proof.
  intros R. pose proof (reachable_inv _ _ R) as I.
  pose proof (inv_free _ _ I) as Hfree. pose proof (inv_empty _ _ I).
  pose proof (inv_full _ _ I). pose proof (inv_cap _ _ I).
  unfold capacity. split.
  - intros req Ea. unfold step, sem_wait. rewrite Ea.
    unfold free_slots, pending_empty in Hfree. rewrite Ea in Hfree.
    destruct (Z.ltb_spec 0 (sem_empty (q s))); simpl; split; try done; lia.
  - intros i Ew. unfold step, sem_wait. rewrite Ew.
    unfold occupied_slots.
    destruct (Z.ltb_spec 0 (sem_full (q s))); simpl; split; try done; lia.
Qed.

Lemma blocking_conditions_witness :
  exists s, main_init 1 = Some s /\ reachable 1 s /\
    forall i, workers s !! i = Some WIdle ->
      (step (wrk_sem_wait i) s = None <-> occupied_slots s = pending_full s).
Proof.
  eexists. split; [reflexivity|].
  assert (R : reachable 1 (default
    {| q := {| session_buffer := []; buffer_size := 0; buffer_in := 0;
               buffer_out := 0; sem_empty := 0; sem_full := 0 |};
       acc := AIdle; workers := [];
       hist := {| slot_ticket := []; enqueued := []; dequeued := [] |} |}
    (main_init 1))) by (apply reach_init; reflexivity).
  split; [exact R|].
  exact (proj2 (blocking_conditions 1 _ R)).
Defined.
End DispatchMore.

Module BoardMore.
Import CInt CArray Board CIntFacts BoardFacts BoardShape.
Local Open Scope Z_scope.

Lemma put_pacman_defined b i p pac :
  slot (pacmans b) i = Some pac ->
  put_pacman b i p = Some (set_pacmans (<[Z.to_nat i := p]> (pacmans b)) b).
Proof. intros H. unfold put_pacman, store. by rewrite H. Qed.

Lemma put_content_defined b i ch c :
  slot (board b) i = Some c ->
  put_content b i ch
  = Some (set_board (<[Z.to_nat i := set_content ch c]> (board b)) b).
Proof. intros H. unfold put_content, store. by rewrite H. Qed.

Lemma same_frame_refl b : same_frame b b.
Proof. by repeat split. Qed.

Lemma same_frame_trans b1 b2 b3 :
  same_frame b1 b2 -> same_frame b2 b3 -> same_frame b1 b3.
Proof. unfold same_frame. intros ? ?. intuition congruence. Qed.

Lemma same_frame_pacmans b i p :
  same_frame b (set_pacmans (<[i := p]> (pacmans b)) b).
Proof. repeat split. simpl. by rewrite length_insert. Qed.

Lemma same_frame_content b i ch c :
  board b !! i = Some c ->
  same_frame b (set_board (<[i := set_content ch c]> (board b)) b).
Proof.
  intros H. repeat split; simpl.
  - by rewrite length_insert.
  - rewrite list_fmap_insert. simpl. apply list_insert_id.
    by rewrite list_lookup_fmap, H.
Qed.

Lemma same_frame_dot b i c :
  board b !! i = Some c ->
  same_frame b (set_board (<[i := set_has_dot 0 c]> (board b)) b).
Proof.
  intros H. repeat split; simpl.
  - by rewrite length_insert.
  - rewrite list_fmap_insert. simpl. apply list_insert_id.
    by rewrite list_lookup_fmap, H.
Qed.

Lemma same_frame_level_finished b v : same_frame b (set_level_finished v b).
Proof. by repeat split. Qed.

Lemma put_pacman_same_frame b i p b' :
  put_pacman b i p = Some b' -> same_frame b b'.
Proof. intros [_ ->]%put_pacman_Some. apply same_frame_pacmans. Qed.

Lemma put_content_same_frame b i ch b' :
  put_content b i ch = Some b' -> same_frame b b'.
Proof.
  intros (c & Hc & ->)%put_content_Some. apply same_frame_content.
  by apply slot_Some in Hc as [_ ?].
Qed.

Lemma well_formed_frame b b' : well_formed b -> same_frame b b' -> well_formed b'.
Proof.
  unfold well_formed, same_frame. intros [? ?] (-> & -> & -> & _). done.
Qed.

Lemma is_valid_position_frame b b' x y :
  same_frame b b' -> is_valid_position b' x y = is_valid_position b x y.
Proof. unfold is_valid_position. by intros (-> & -> & _). Qed.

Lemma index_in_grid b x y :
  well_formed b -> is_valid_position b x y = true ->
  is_Some (slot (board b) (get_board_index b x y)).
Proof.
  intros [Hsz Hlen] Hv. destruct (valid_position_index _ _ _ Hsz Hv) as [-> Hr].
  apply slot_is_Some. lia.
Qed.

Ltac in_list :=
  repeat first [apply list_elem_of_here | apply list_elem_of_further].

Lemma insert_changes {A} (l : list A) i x (k : nat) :
  <[i := x]> l !! k <> l !! k -> k = i.
Proof.
  intros H. destruct (decide (k = i)) as [|Hne]; [done|].
  by rewrite list_lookup_insert_ne in H.
Qed.

Lemma put_content_cells b i ch b' :
  put_content b i ch = Some b' ->
  pacmans b' = pacmans b /\ level_finished b' = level_finished b /\
  forall k : nat, board b' !! k <> board b !! k -> k = Z.to_nat i.
Proof.
  intros (c & _ & ->)%put_content_Some. simpl. repeat split.
  intros k. apply insert_changes.
Qed.

Lemma put_pacman_cells b i p b' :
  put_pacman b i p = Some b' ->
  board b' = board b /\ level_finished b' = level_finished b /\
  pacmans b' = <[Z.to_nat i := p]> (pacmans b).
Proof. by intros [_ ->]%put_pacman_Some. Qed.

Lemma same_body_refl p : same_body p p.
Proof. by repeat split. Qed.

Lemma store_turns_left_body pac c p v pac' c' :
  store_turns_left pac c p v = Some (pac', c') -> same_body pac pac'.
Proof.
  destruct p as [|k]; simpl.
  - intros [= <- <-]. apply same_body_refl.
  - destruct (slot (moves pac) k); [|done]. simpl.
    destruct (store (moves pac) k _) as [ms|] eqn:E; [|done]. simpl.
    intros [= <- <-]. apply store_Some in E as [_ ->]. repeat split. simpl.
    by rewrite length_insert.
Qed.

Lemma store_turns_left_counter pac c p v pac' c' :
  store_turns_left pac c p v = Some (pac', c') -> current_move pac' = current_move pac.
Proof.
  destruct p as [|k]; simpl.
  - by intros [= <- <-].
  - destruct (slot (moves pac) k); [|done]. simpl.
    destruct (store (moves pac) k _) as [ms|]; [|done]. simpl.
    by intros [= <- <-].
Qed.

Lemma lookup_put b (idx : Z) (p pac : pacman_t) :
  slot (pacmans b) idx = Some pac ->
  slot (<[Z.to_nat idx := p]> (pacmans b)) idx = Some p.
Proof.
  intros H. pose proof (slot_lt _ _ _ H). apply slot_Some. split; [lia|].
  apply list_lookup_insert_eq. lia.
Qed.

(** A call that only touches the pacman's counters. *)
Lemma stay_effects b idx pac pac1 r b' :
  slot (pacmans b) idx = Some pac ->
  alive pac <> 0 ->
  counter_step pac pac1 ->
  same_body pac pac1 ->
  r = VALID_MOVE \/ r = INVALID_MOVE ->
  put_pacman b idx pac1 = Some b' ->
  move_effects b idx pac r b' pac1.
Proof.
  intros Hs Hlive Hcm (Hx & Hy & Ha & Hp & Hpa & Hn & Hk & Hl) Hr [_ ->]%put_pacman_Some.
  split; simpl.
  - apply same_frame_pacmans.
  - by eapply lookup_put.
  - intros j Hj. by rewrite list_lookup_insert_ne.
  - done.
  - unfold move_results. destruct Hr as [-> | ->]; in_list.
  - destruct Hr as [-> | ->]; discriminate.
  - done.
  - done.
  - destruct Hr as [-> | ->]; reflexivity.
  - rewrite Hx, Hy. done.
  - by left.
  - done.
  - done.
  - destruct Hr as [-> | ->]; discriminate.
  - done.
Qed.

Lemma differs_step {A} (l1 l2 l3 : list A) (k : nat) (P : Prop) :
  (l2 !! k <> l1 !! k -> P) -> (l3 !! k <> l2 !! k -> P) ->
  EqDecision A ->
  l3 !! k <> l1 !! k -> P.
Proof.
  intros H12 H23 Hdec H.
  destruct (decide (l2 !! k = l1 !! k)) as [E|]; [|auto].
  apply H23. by rewrite E.
Qed.

Lemma board_pos_eq_dec : EqDecision board_pos_t.
Proof. intros x y. unfold Decision. decide equality; try apply Z.eq_dec. apply ascii_dec. Qed.

Lemma wrap32_succ_neq x : wrap32 (x + 1) <> x.
Proof.
  unfold wrap32. intros H.
  assert (Hx : 0 <= x + 2147483648 < 4294967296).
  { pose proof (Z.mod_pos_bound (x + 1 + 2147483648) 4294967296). lia. }
  destruct (decide (x + 1 + 2147483648 = 4294967296)) as [E|E].
  - rewrite E, Z.mod_same in H; lia.
  - rewrite Z.mod_small in H; lia.
Qed.

Lemma wrap32_pred_neq x : wrap32 (x - 1) <> x.
Proof.
  unfold wrap32. intros H.
  assert (Hx : 0 <= x + 2147483648 < 4294967296).
  { pose proof (Z.mod_pos_bound (x - 1 + 2147483648) 4294967296). lia. }
  destruct (decide (x + 2147483648 = 0)) as [E|E].
  - replace (x - 1 + 2147483648) with (-1) in H by lia.
    change ((-1) mod 4294967296) with 4294967295 in H. lia.
  - rewrite Z.mod_small in H; lia.
Qed.

(** The four directions always name another cell. *)
Lemma switch_direction_step d x y x' y' :
  switch_direction d x y = DirStep x' y' -> (x', y') <> (x, y).
Proof.
  unfold switch_direction, iadd, isub.
  repeat destruct (Ascii.eqb d _); try discriminate;
    intros [= <- <-] [= E];
    first [exact (wrap32_succ_neq _ E) | exact (wrap32_pred_neq _ E)].
Qed.

(** Everything [move_pacman] does, read off its branches. *)
Lemma move_pacman_effects b idx c ptr rnd r b' c' pac :
  slot (pacmans b) idx = Some pac ->
  move_pacman b idx c ptr rnd = Some (r, b', c') ->
  exists pac', move_effects b idx pac r b' pac'.
Proof.
  unfold move_pacman. intros Hpac H. pose proof (slot_lt _ _ _ Hpac) as Hidx.
  destruct (Z.ltb_spec idx 0); [lia|].
  rewrite Hpac in H. simpl in H.
  destruct (Z.eqb_spec (alive pac) 0) as [Hdead|Halive].
  { injection H as <- <- <-. exists pac. split.
    - apply same_frame_refl.
    - done.
    - done.
    - done.
    - unfold move_results. in_list.
    - done.
    - done.
    - done.
    - done.
    - done.
    - by left.
    - done.
    - done.
    - done.
    - by left. }
  destruct (0 <? waiting pac).
  { destruct (put_pacman _ _ _) as [b1|] eqn:Ep; [|done]. simpl in H.
    injection H as <- <- <-. eexists.
    refine (stay_effects _ _ _ _ _ _ Hpac Halive _ _ _ Ep); [by left|by repeat split|by left]. }
  destruct (load_command _ _ _) as [cmd|]; [|done]. simpl in H.
  destruct (if Ascii.eqb (toupper (command cmd)) "R" then _ else _)
    as [direction|]; [|done].
  simpl in H.
  set (pac0 := set_waiting (passo pac) pac) in *.
  assert (Hb0 : same_body pac pac0) by (by repeat split).
  destruct (switch_direction _ _ _) as [new_x new_y| |] eqn:Esw.
  - apply switch_direction_step in Esw. change (pos_x pac0) with (pos_x pac) in Esw.
    change (pos_y pac0) with (pos_y pac) in Esw.
    set (pac1 := set_current_move (iadd (current_move pac0) 1) pac0) in *.
    assert (Hb1 : same_body pac pac1) by (by repeat split).
    destruct (is_valid_position b new_x new_y) eqn:Ev; simpl in H.
    2:{ destruct (put_pacman _ _ _) as [b1|] eqn:Ep; [|done]. simpl in H.
        injection H as <- <- <-. eexists.
        refine (stay_effects _ _ _ _ _ _ Hpac Halive _ _ _ Ep); [by right|exact Hb1|by right]. }
    destruct (slot (board b) _) as [new_cell|] eqn:Ecell; [|done]. simpl in H.
    destruct (Z.eqb_spec (has_portal new_cell) 0) as [Hportal|Hportal]; simpl in H.
    2:{ (* the portal *)
        destruct (put_content b _ _) as [b1|] eqn:E1; [|done]. simpl in H.
        destruct (put_content b1 _ _) as [b2|] eqn:E2; [|done]. simpl in H.
        destruct (put_pacman b2 _ _) as [b3|] eqn:E3; [|done]. simpl in H.
        injection H as <- <- <-.
        pose proof (put_content_same_frame _ _ _ _ E1) as F1.
        pose proof (put_content_same_frame _ _ _ _ E2) as F2.
        pose proof (put_pacman_same_frame _ _ _ _ E3) as F3.
        apply put_content_cells in E1 as (P1 & L1 & C1).
        apply put_content_cells in E2 as (P2 & L2 & C2).
        pose proof (put_pacman_frame _ _ _ _ E3) as (_ & _ & _ & Hs3).
        apply put_pacman_cells in E3 as (B3 & L3 & P3).
        exists (set_pos new_x new_y pac1). split; simpl.
        - eapply same_frame_trans; [|apply same_frame_level_finished].
          eauto using same_frame_trans.
        - done.
        - intros j Hj. rewrite P3, P2, P1. by rewrite list_lookup_insert_ne.
        - done.
        - unfold move_results. in_list.
        - done.
        - done.
        - done.
        - done.
        - intros _. split; [done|]. exists new_cell. split; [done|]. by left.
        - by left.
        - intros j. rewrite B3.
          apply (differs_step (board b) (board b1) (board b2));
            [intros ?%C1; by left | intros ?%C2; by right | apply board_pos_eq_dec].
        - done.
        - done.
        - by right. }
    destruct (Ascii.eqb_spec (content new_cell) "W") as [|EW]; simpl in H.
    { destruct (put_pacman _ _ _) as [b1|] eqn:Ep; [|done]. simpl in H.
      injection H as <- <- <-. eexists.
      refine (stay_effects _ _ _ _ _ _ Hpac Halive _ _ _ Ep); [by right|exact Hb1|by right]. }
    destruct (Ascii.eqb_spec (content new_cell) "X") as [|EX]; simpl in H.
    { destruct (put_pacman _ _ _) as [b1|] eqn:Ep; [|done]. simpl in H.
      injection H as <- <- <-. eexists.
      refine (stay_effects _ _ _ _ _ _ Hpac Halive _ _ _ Ep); [by right|exact Hb1|by right]. }
    destruct (Ascii.eqb_spec (content new_cell) "M") as [|EM]; simpl in H.
    { (* onto a ghost *)
      destruct (put_pacman b _ _) as [b1|] eqn:Ep; [|done]. simpl in H.
      destruct (kill_pacman b1 _) as [b2|] eqn:Ek; [|done]. simpl in H.
      injection H as <- <- <-.
      pose proof (put_pacman_same_frame _ _ _ _ Ep) as F1.
      pose proof (put_pacman_frame _ _ _ _ Ep) as (_ & Hw1 & _ & Hs1).
      apply put_pacman_cells in Ep as (B1 & L1 & P1).
      unfold kill_pacman in Ek. rewrite Hs1 in Ek. simpl in Ek.
      destruct (put_content b1 _ _) as [b1'|] eqn:Ec; [|done]. simpl in Ek.
      pose proof (put_content_same_frame _ _ _ _ Ec) as F2.
      pose proof (put_pacman_same_frame _ _ _ _ Ek) as F3.
      apply put_content_cells in Ec as (P2 & L2 & C2).
      pose proof (put_pacman_frame _ _ _ _ Ek) as (_ & _ & _ & Hs3).
      apply put_pacman_cells in Ek as (B3 & L3 & P3).
      exists (set_alive 0 pac1). split; simpl.
      - eauto using same_frame_trans.
      - done.
      - intros j Hj. rewrite P3, P2, P1. by rewrite !list_lookup_insert_ne.
      - done.
      - unfold move_results. in_list.
      - done.
      - done.
      - done.
      - congruence.
      - done.
      - by left.
      - intros j. rewrite B3. intros Hj. left.
        rewrite <- B1 in Hj. apply C2 in Hj. rewrite Hj.
        unfold get_board_index. by rewrite Hw1.
      - done.
      - done.
      - by right. }
    (* a completed step *)
    match type of H with
    | (?m ≫= _) = _ => destruct m as [[pac2 b1]|] eqn:Edot; [|done]
    end.
    simpl in H.
    destruct (put_content b1 _ _) as [b2|] eqn:E2; [|done]. simpl in H.
    destruct (put_content b2 _ _) as [b3|] eqn:E3; [|done]. simpl in H.
    destruct (put_pacman b3 _ _) as [b4|] eqn:E4; [|done]. simpl in H.
    injection H as <- <- <-.
    pose proof (put_content_same_frame _ _ _ _ E2) as F2.
    pose proof (put_content_same_frame _ _ _ _ E3) as F3.
    pose proof (put_pacman_same_frame _ _ _ _ E4) as F4.
    apply put_content_cells in E2 as (P2 & L2 & C2).
    apply put_content_cells in E3 as (P3 & L3 & C3).
    pose proof (put_pacman_frame _ _ _ _ E4) as (_ & _ & _ & Hs4).
    apply put_pacman_cells in E4 as (B4 & L4 & P4).
    assert (Hdot :
      same_frame b b1 /\ pacmans b1 = pacmans b /\
      level_finished b1 = level_finished b /\
      (pos_x pac2 = pos_x pac /\ pos_y pac2 = pos_y pac /\ alive pac2 = alive pac /\
       passo pac2 = passo pac /\ n_moves pac2 = n_moves pac /\
       next_user_move pac2 = next_user_move pac /\
       length (moves pac2) = length (moves pac)) /\
      (points pac2 = points pac \/
       points pac2 = iadd (points pac) (get_board_index b new_x new_y)) /\
      forall k : nat, board b1 !! k <> board b !! k ->
                      k = Z.to_nat (get_board_index b new_x new_y)).
    { destruct (has_dot new_cell =? 0); simpl in Edot.
      - injection Edot as <- <-. repeat split; try done. by left.
      - destruct (store (board b) _ _) as [cells|] eqn:Est; [|done]. simpl in Edot.
        injection Edot as <- <-. apply store_Some in Est as [_ ->].
        split; [apply same_frame_dot; by apply slot_Some in Ecell as [_ ?]|].
        split; [done|]. split; [done|]. split; [by repeat split|].
        split; [by right|]. simpl. intros k. apply insert_changes. }
    destruct Hdot as (F1 & P1 & L1 & Hb2 & Hpts & C1).
    destruct Hb2 as (Hx & Hy & Ha & Hpa & Hn & Hk & Hl).
    exists (set_pos new_x new_y pac2). split; simpl.
    + eauto using same_frame_trans.
    + done.
    + intros j Hj. rewrite P4, P3, P2, P1. by rewrite list_lookup_insert_ne.
    + done.
    + unfold move_results. in_list.
    + done.
    + done.
    + done.
    + congruence.
    + intros _. split; [done|]. exists new_cell. split; [done|]. by right.
    + destruct Hpts as [Hpts|Hpts]; [by left|by right].
    + intros j. rewrite B4.
      apply (differs_step (board b) (board b2) (board b3));
        [ | intros ?%C3; by right | apply board_pos_eq_dec].
      apply (differs_step (board b) (board b1) (board b2));
        [intros ?%C1; by right | intros ?%C2; by left | apply board_pos_eq_dec].
    + done.
    + done.
    + right. simpl. (* the counter of the stepped pacman *)
      assert (Hc : current_move pac2 = current_move pac1).
      { destruct (has_dot new_cell =? 0); simpl in Edot.
        - by injection Edot as <- <-.
        - destruct (store (board b) _ _); [|done]. simpl in Edot.
          by injection Edot as <- <-. }
      by rewrite Hc.
  - (* 'T' *)
    match type of H with
    | (?m ≫= _) = _ => destruct m as [[pac1 c0]|] eqn:Et; [|done]
    end.
    simpl in H. destruct (put_pacman _ _ _) as [b1|] eqn:Ep; [|done]. simpl in H.
    injection H as <- <- <-. eexists.
    refine (stay_effects _ _ _ _ _ _ Hpac Halive _ _ _ Ep); [| |by left].
    + destruct (turns_left cmd =? 1); apply store_turns_left_counter in Et;
        simpl in Et; [by right|by left].
    + destruct (turns_left cmd =? 1); apply store_turns_left_body in Et;
        destruct Et as (? & ? & ? & ? & ? & ? & ? & ?); repeat split; simpl in *;
        congruence.
  - destruct (put_pacman _ _ _) as [b1|] eqn:Ep; [|done]. simpl in H.
    injection H as <- <- <-. eexists.
    refine (stay_effects _ _ _ _ _ _ Hpac Halive _ _ _ Ep); [by left|exact Hb0|by right].
Qed.

Lemma slot_bounds {A} (arr : list A) i :
  is_Some (slot arr i) <-> 0 <= i < Z.of_nat (length arr).
Proof.
  split; [intros [x H]; by eapply slot_lt | apply slot_is_Some].
Qed.

Lemma put_pacman_is_Some b i p :
  is_Some (slot (pacmans b) i) -> is_Some (put_pacman b i p).
Proof. intros [pac H]. by erewrite put_pacman_defined. Qed.

Lemma put_content_is_Some b i ch :
  is_Some (slot (board b) i) -> is_Some (put_content b i ch).
Proof. intros [cl H]. by erewrite put_content_defined. Qed.

Lemma frame_cell b b' i :
  same_frame b b' -> is_Some (slot (board b) i) -> is_Some (slot (board b') i).
Proof. intros (_ & _ & E & _). rewrite !slot_bounds. by rewrite E. Qed.

Lemma frame_pacman b b' i :
  same_frame b b' -> is_Some (slot (pacmans b) i) -> is_Some (slot (pacmans b') i).
Proof. intros (_ & _ & _ & E & _). rewrite !slot_bounds. by rewrite E. Qed.

Lemma store_turns_left_is_Some pac c p v :
  is_Some (load_command pac c p) -> is_Some (store_turns_left pac c p v).
Proof.
  destruct p as [|k]; simpl; [done|]. intros [cmd H]. rewrite H. simpl.
  unfold store. by rewrite H.
Qed.

Lemma step_tail_defined b b1 idx old new p (r : Z) (c : command_t) :
  same_frame b b1 ->
  is_Some (slot (board b) old) -> is_Some (slot (board b) new) ->
  is_Some (slot (pacmans b) idx) ->
  is_Some (b2 ← put_content b1 old " "; b3 ← put_content b2 new "C";
           b4 ← put_pacman b3 idx p; Some (r, b4, c)).
Proof.
  intros F1 Hold Hnew Hp.
  destruct (put_content_is_Some b1 old " " (frame_cell _ _ _ F1 Hold)) as [b2 E2].
  rewrite E2. simpl.
  pose proof (put_content_same_frame _ _ _ _ E2) as F2.
  destruct (put_content_is_Some b2 new "C") as [b3 E3]; [eauto using frame_cell|].
  rewrite E3. simpl.
  pose proof (put_content_same_frame _ _ _ _ E3) as F3.
  destruct (put_pacman_is_Some b3 idx p) as [b4 ->]; [|done].
  eauto using frame_pacman.
Qed.

(** On a well-formed stage every array access of [move_pacman] is in
    bounds. *)
Lemma move_pacman_defined b idx c ptr rnd :
  well_formed b -> inside b idx -> valid_ptr b idx ptr -> 0 <= rnd ->
  is_Some (move_pacman b idx c ptr rnd).
Proof.
  intros Hwf (pac & Hpac & Hin) Hptr Hrnd. unfold move_pacman.
  assert (Hp : is_Some (slot (pacmans b) idx)) by eauto.
  destruct (idx <? 0); [done|]. rewrite Hpac. simpl.
  destruct (alive pac =? 0); [done|].
  destruct (0 <? waiting pac).
  { destruct (put_pacman_is_Some b idx (set_waiting (isub (waiting pac) 1) pac) Hp)
      as [b1 ->]. done. }
  set (pac0 := set_waiting (passo pac) pac).
  assert (Hcmd : is_Some (load_command pac0 c ptr)).
  { destruct ptr as [|k]; simpl; [done|].
    destruct Hptr as (pac' & cmd & Hp' & Hk). rewrite Hpac in Hp'.
    injection Hp' as <-. by rewrite Hk. }
  destruct Hcmd as [cmd Hcmd]. rewrite Hcmd. simpl.
  assert (Hd : is_Some (if Ascii.eqb (toupper (command cmd)) "R"
                        then slot directions (Z.rem rnd 4)
                        else Some (toupper (command cmd)))).
  { destruct (Ascii.eqb _ _); [|done]. apply slot_is_Some.
    pose proof (Z.rem_bound_pos rnd 4). simpl. lia. }
  destruct Hd as [direction ->]. simpl.
  destruct (switch_direction _ _ _) as [new_x new_y| |].
  - set (pac1 := set_current_move _ pac0).
    destruct (is_valid_position b new_x new_y) eqn:Ev; simpl.
    2:{ by destruct (put_pacman_is_Some b idx pac1 Hp) as [b1 ->]. }
    pose proof (index_in_grid _ _ _ Hwf Ev) as Hnew.
    pose proof (index_in_grid _ _ _ Hwf Hin) as Hold.
    destruct Hnew as [new_cell Hnew]. rewrite Hnew. simpl.
    assert (Hnew' : is_Some (slot (board b) (get_board_index b new_x new_y))) by eauto.
    change (pos_x pac1) with (pos_x pac). change (pos_y pac1) with (pos_y pac).
    destruct (has_portal new_cell =? 0); simpl.
    2:{ destruct (put_content_is_Some b _ " " Hold) as [b1 E1]. rewrite E1. simpl.
        pose proof (put_content_same_frame _ _ _ _ E1) as F1.
        destruct (put_content_is_Some b1 _ "C" (frame_cell _ _ _ F1 Hnew')) as [b2 E2].
        rewrite E2. simpl.
        pose proof (put_content_same_frame _ _ _ _ E2) as F2.
        destruct (put_pacman_is_Some b2 idx (set_pos new_x new_y pac1)) as [b3 ->];
          [|done].
        eauto using frame_pacman. }
    destruct (Ascii.eqb (content new_cell) "W" || Ascii.eqb (content new_cell) "X").
    { by destruct (put_pacman_is_Some b idx pac1 Hp) as [b1 ->]. }
    destruct (Ascii.eqb (content new_cell) "M").
    { destruct (put_pacman_is_Some b idx pac1 Hp) as [b1 E1]. rewrite E1. simpl.
      pose proof (put_pacman_same_frame _ _ _ _ E1) as F1.
      pose proof (put_pacman_frame _ _ _ _ E1) as (_ & Hw1 & _ & Hs1).
      unfold kill_pacman. rewrite Hs1. simpl.
      change (pos_x pac1) with (pos_x pac). change (pos_y pac1) with (pos_y pac).
      rewrite Hw1. fold (get_board_index b (pos_x pac) (pos_y pac)).
      destruct (put_content_is_Some b1 _ " " (frame_cell _ _ _ F1 Hold)) as [b2 E2].
      rewrite E2. simpl.
      pose proof (put_content_same_frame _ _ _ _ E2) as F2.
      destruct (put_pacman_is_Some b2 idx (set_alive 0 pac1)) as [b3 ->]; [|done].
      eauto using frame_pacman. }
    destruct (has_dot new_cell =? 0); simpl.
    + apply (step_tail_defined b b); auto using same_frame_refl.
    + unfold store. rewrite Hnew. simpl.
      apply (step_tail_defined b); auto.
      apply same_frame_dot. by apply slot_Some in Hnew as [_ ?].
  - assert (Ht : forall p v, current_move p = current_move p ->
                 moves p = moves pac0 ->
                 is_Some ('(pac1, c0) ← store_turns_left p c ptr v;
                          b' ← put_pacman b idx pac1; Some (VALID_MOVE, b', c0))).
    { intros p v _ Hm.
      destruct (store_turns_left_is_Some p c ptr v) as [[pac1 c0] ->].
      - destruct ptr; simpl in *; [done|]. rewrite Hm. eauto.
      - simpl. by destruct (put_pacman_is_Some b idx pac1 Hp) as [b1 ->]. }
    destruct (turns_left cmd =? 1); by apply Ht.
  - by destruct (put_pacman_is_Some b idx pac0 Hp) as [b1 ->].
Qed.

(** Totality together with the effects. *)
Lemma move_pacman_total b idx c ptr rnd pac :
  well_formed b -> slot (pacmans b) idx = Some pac ->
  is_valid_position b (pos_x pac) (pos_y pac) = true ->
  valid_ptr b idx ptr -> 0 <= rnd ->
  exists r b' c' pac',
    move_pacman b idx c ptr rnd = Some (r, b', c') /\
    move_effects b idx pac r b' pac' /\
    well_formed b' /\ is_valid_position b' (pos_x pac') (pos_y pac') = true.
Proof.
  intros Hwf Hpac Hin Hptr Hrnd.
  destruct (move_pacman_defined b idx c ptr rnd Hwf) as [[[r b'] c'] E]; [by exists pac|done..|].
  destruct (move_pacman_effects _ _ _ _ _ _ _ _ _ Hpac E) as [pac' Heff].
  exists r, b', c', pac'. split; [done|]. split; [done|].
  destruct Heff. split; [by eapply well_formed_frame|].
  rewrite (is_valid_position_frame b b') by done.
  destruct (decide ((pos_x pac', pos_y pac') = (pos_x pac, pos_y pac))) as [Eq|Hne].
  - injection Eq as -> ->. done.
  - by apply eff_moved0.
Qed.

Lemma step_tail_result b1 old new idx p (r : Z) (c : command_t) res :
  (b2 ← put_content b1 old " "; b3 ← put_content b2 new "C";
   b4 ← put_pacman b3 idx p; Some (r, b4, c)) = Some res ->
  exists b4, res = (r, b4, c) /\ slot (pacmans b4) idx = Some p /\
    content <$> slot (board b4) new = Some "C"%char.
Proof.
  destruct (put_content b1 old " ") as [b2|] eqn:E2; [|done]. simpl.
  destruct (put_content b2 new "C") as [b3|] eqn:E3; [|done]. simpl.
  destruct (put_pacman b3 idx p) as [b4|] eqn:E4; [|done]. simpl.
  intros [= <-]. exists b4. split; [done|].
  apply put_pacman_frame in E4 as (-> & _ & _ & ->). split; [done|].
  apply put_content_Some in E3 as (cl & Hcl & ->). simpl.
  pose proof (slot_lt _ _ _ Hcl) as Hlt. apply slot_Some in Hcl as [? Hcl].
  assert (Hs : slot (<[Z.to_nat new := set_content "C" cl]> (board b2)) new
               = Some (set_content "C" cl)).
  { apply slot_Some. split; [done|]. apply list_lookup_insert_eq. lia. }
  by rewrite Hs.
Qed.

Lemma step_tail b b1 idx old new p (r : Z) (c : command_t) :
  same_frame b b1 ->
  is_Some (slot (board b) old) -> is_Some (slot (board b) new) ->
  is_Some (slot (pacmans b) idx) ->
  exists b4,
    (b2 ← put_content b1 old " "; b3 ← put_content b2 new "C";
     b4 ← put_pacman b3 idx p; Some (r, b4, c)) = Some (r, b4, c) /\
    slot (pacmans b4) idx = Some p /\
    content <$> slot (board b4) new = Some "C"%char.
Proof.
  intros F Hold Hnew Hp.
  destruct (step_tail_defined b b1 idx old new p r c F Hold Hnew Hp) as [res H].
  destruct (step_tail_result _ _ _ _ _ _ _ _ H) as (b4 & -> & ? & ?). eauto.
Qed.

(** A step in one of the four directions onto a free cell of the grid
    that is not the portal. *)
Lemma move_pacman_free_step b idx c rnd pac x' y' dest :
  well_formed b -> slot (pacmans b) idx = Some pac ->
  is_valid_position b (pos_x pac) (pos_y pac) = true ->
  alive pac <> 0 -> waiting pac <= 0 ->
  switch_direction (toupper (command c)) (pos_x pac) (pos_y pac) = DirStep x' y' ->
  is_valid_position b x' y' = true ->
  slot (board b) (get_board_index b x' y') = Some dest ->
  has_portal dest = 0 ->
  content dest <> "W"%char -> content dest <> "X"%char -> content dest <> "M"%char ->
  exists b' pac',
    move_pacman b idx c PtrLocal rnd = Some (VALID_MOVE, b', c) /\
    slot (pacmans b') idx = Some pac' /\
    pos_x pac' = x' /\ pos_y pac' = y' /\
    next_user_move pac' = next_user_move pac /\
    content <$> slot (board b') (get_board_index b x' y') = Some "C"%char.
Proof.
  intros Hwf Hpac Hin Halive Hwait Hsw Hv Hdest Hportal HW HX HM.
  pose proof (slot_lt _ _ _ Hpac) as Hidx.
  assert (HnotR : Ascii.eqb (toupper (command c)) "R" = false).
  { destruct (Ascii.eqb_spec (toupper (command c)) "R") as [E|]; [|done].
    rewrite E in Hsw. discriminate. }
  pose proof (index_in_grid _ _ _ Hwf Hin) as Hold.
  assert (Hnew : is_Some (slot (board b) (get_board_index b x' y'))) by eauto.
  assert (Hp : is_Some (slot (pacmans b) idx)) by eauto.
  unfold move_pacman.
  destruct (Z.ltb_spec idx 0); [lia|]. rewrite Hpac. simpl.
  destruct (Z.eqb_spec (alive pac) 0); [done|].
  destruct (Z.ltb_spec 0 (waiting pac)); [lia|]. simpl.
  rewrite HnotR. simpl. rewrite Hsw, Hv. simpl. rewrite Hdest. simpl.
  rewrite Hportal. simpl.
  destruct (Ascii.eqb_spec (content dest) "W"); [done|].
  destruct (Ascii.eqb_spec (content dest) "X"); [done|].
  destruct (Ascii.eqb_spec (content dest) "M"); [done|]. simpl.
  destruct (has_dot dest =? 0); simpl.
  - edestruct (step_tail b b idx) as (b4 & -> & Hp4 & Hc4);
      [apply same_frame_refl|exact Hold|exact Hnew|exact Hp|].
    eexists _, _. split; [done|]. split; [exact Hp4|]. done.
  - unfold store. rewrite Hdest. simpl.
    edestruct (step_tail b
                 (set_board (<[Z.to_nat (get_board_index b x' y')
                              := set_has_dot 0 dest]> (board b)) b) idx)
      as (b4 & -> & Hp4 & Hc4); [|exact Hold|exact Hnew|exact Hp|].
    { apply same_frame_dot. by apply slot_Some in Hdest as [_ ?]. }
    eexists _, _. split; [done|]. split; [exact Hp4|]. done.
Qed.

(** While [waiting] is positive a call only counts it down. *)
Lemma move_pacman_waiting b idx c ptr rnd pac :
  slot (pacmans b) idx = Some pac -> alive pac <> 0 -> 0 < waiting pac ->
  move_pacman b idx c ptr rnd
  = Some (VALID_MOVE,
          set_pacmans (<[Z.to_nat idx := set_waiting (isub (waiting pac) 1) pac]>
                         (pacmans b)) b, c).
Proof.
  intros Hpac Halive Hwait. pose proof (slot_lt _ _ _ Hpac).
  unfold move_pacman. destruct (Z.ltb_spec idx 0); [lia|]. rewrite Hpac. simpl.
  destruct (Z.eqb_spec (alive pac) 0); [done|].
  destruct (Z.ltb_spec 0 (waiting pac)); [|lia].
  by erewrite put_pacman_defined.
Qed.
End BoardMore.

Module BoardTheorems.
Import CInt CArray Board CIntFacts BoardFacts BoardShape BoardMore.
Local Open Scope Z_scope.

(** X4.  Memory safety of [move_pacman].  On a stage whose grid has
    [width * height] cells (a number that fits an [int]), with pacman
    [idx] standing on the grid, a command pointer into its [moves] (or to
    the caller's local) and a non-negative [rand()], every array access
    of [move_pacman] is in bounds: the call returns, and the stage it
    leaves satisfies the same conditions, so the next call is safe too. *)
Theorem move_pacman_safe b idx c ptr rnd :
  well_formed b -> inside b idx -> valid_ptr b idx ptr -> 0 <= rnd ->
  exists r b' c',
    move_pacman b idx c ptr rnd = Some (r, b', c') /\
    well_formed b' /\ inside b' idx /\ valid_ptr b' idx ptr.
Proof.
  intros Hwf (pac & Hpac & Hin) Hptr Hrnd.
  destruct (move_pacman_total b idx c ptr rnd pac Hwf Hpac Hin Hptr Hrnd)
    as (r & b' & c' & pac' & E & Heff & Hwf' & Hin').
  exists r, b', c'. split; [done|]. split; [done|].
  destruct Heff. split; [by exists pac'|].
  destruct ptr as [|k]; [done|]. simpl in *.
  destruct Hptr as (pac0 & cmd & Hp0 & Hk). rewrite Hpac in Hp0. injection Hp0 as <-.
  destruct eff_config0 as (_ & _ & _ & Hlen).
  assert (Hs : is_Some (slot (moves pac') k)).
  { apply slot_bounds. rewrite Hlen. by eapply slot_lt. }
  destruct Hs as [cmd' Hs]. eauto.
Qed.

Lemma move_pacman_safe_witness :
  exists r b' c',
    move_pacman (demo_board " ") 0 demo_right PtrLocal 0 = Some (r, b', c') /\
    well_formed b' /\ inside b' 0 /\ valid_ptr b' 0 PtrLocal.
Proof.
  apply move_pacman_safe.
  - split; vm_compute; [discriminate|reflexivity].
  - exists (demo_pacman " "). split; reflexivity.
  - exact I.
  - lia.
Defined.

(** X5.  What the value returned by [move_pacman] tells the caller: it
    is one of the four result codes; it is [DEAD_PACMAN] exactly when
    the pacman is dead after the call, and a call that returns something
    else found the pacman alive and leaves [alive] as it was; it is
    [REACHED_PORTAL] exactly when the pacman has moved onto a cell whose
    portal flag is set, and [level_finished] is set by that outcome and
    by no other. *)
Theorem move_pacman_result b idx c ptr rnd r b' c' pac pac' :
  move_pacman b idx c ptr rnd = Some (r, b', c') ->
  slot (pacmans b) idx = Some pac ->
  slot (pacmans b') idx = Some pac' ->
  r ∈ move_results /\
  (r = DEAD_PACMAN <-> alive pac' = 0) /\
  (r <> DEAD_PACMAN -> alive pac <> 0 /\ alive pac' = alive pac) /\
  (r = REACHED_PORTAL <->
   (pos_x pac', pos_y pac') <> (pos_x pac, pos_y pac) /\
   exists dest,
     slot (board b) (get_board_index b (pos_x pac') (pos_y pac')) = Some dest /\
     has_portal dest <> 0) /\
  level_finished b' = (if r =? REACHED_PORTAL then 1 else level_finished b).
Proof.
  intros E Hpac Hpac'.
  destruct (move_pacman_effects _ _ _ _ _ _ _ _ _ Hpac E) as [pac1 Heff].
  destruct Heff. assert (pac1 = pac') as -> by congruence.
  split; [done|]. split; [|split; [|split; [|done]]].
  - split; [done|]. intros Hdead.
    destruct (decide (r = DEAD_PACMAN)) as [|Hne]; [done|].
    specialize (eff_was_alive0 Hne). specialize (eff_alive0 Hne). congruence.
  - auto.
  - split.
    + intros ->. split; [auto|].
      destruct eff_moved0 as (_ & dest & Hd & [[? _]|(_ & ? & _)]); eauto; done.
    + intros (Hmoved & dest & Hd & Hportal).
      destruct (eff_moved0 Hmoved) as (_ & dest' & Hd' & [[_ ?]|(Hp & _)]); [done|].
      congruence.
Qed.

Lemma move_pacman_result_witness :
  exists b' c' pac',
    move_pacman (demo_board " ") 0 demo_right PtrLocal 0 = Some (VALID_MOVE, b', c') /\
    slot (pacmans b') 0 = Some pac' /\
    alive pac' = alive (demo_pacman " ") /\ level_finished b' = 0.
Proof.
  eexists _, _, _. split; [reflexivity|]. split; [reflexivity|].
  pose proof (move_pacman_result (demo_board " ") 0 demo_right PtrLocal 0
                _ _ _ (demo_pacman " ") _ eq_refl eq_refl eq_refl)
    as (_ & _ & Halive & _ & Hfin).
  split; [|exact Hfin]. apply Halive. discriminate.
Defined.

(** X6.  A call of [move_pacman] that returns [INVALID_MOVE] (unknown
    key, step off the grid or into a wall) is invisible on the stage:
    no cell of the grid changes, the pacman keeps its position, its
    score and its life, and [level_finished] is as before. *)
Theorem move_pacman_invalid_noop b idx c ptr rnd b' c' pac pac' :
  move_pacman b idx c ptr rnd = Some (INVALID_MOVE, b', c') ->
  slot (pacmans b) idx = Some pac ->
  slot (pacmans b') idx = Some pac' ->
  board b' = board b /\ level_finished b' = level_finished b /\
  pos_x pac' = pos_x pac /\ pos_y pac' = pos_y pac /\
  points pac' = points pac /\ alive pac' = alive pac.
Proof.
  intros E Hpac Hpac'.
  destruct (move_pacman_effects _ _ _ _ _ _ _ _ _ Hpac E) as [pac1 Heff].
  destruct Heff. assert (pac1 = pac') as -> by congruence.
  destruct (eff_invalid0 eq_refl) as (? & ? & ? & ?).
  repeat split; try done. by apply eff_alive0.
Qed.

Lemma move_pacman_invalid_noop_witness :
  exists b' c' pac',
    move_pacman (demo_board " ") 0 Game.blank_command PtrLocal 0 = Some (INVALID_MOVE, b', c') /\
    slot (pacmans b') 0 = Some pac' /\
    board b' = board (demo_board " ") /\ (pos_x pac', pos_y pac') = (1, 1).
Proof.
  eexists _, _, _. split; [reflexivity|]. split; [reflexivity|].
  pose proof (move_pacman_invalid_noop (demo_board " ") 0 Game.blank_command PtrLocal 0
                _ _ (demo_pacman " ") _ eq_refl eq_refl eq_refl)
    as (Hb & _ & Hx & Hy & _).
  split; [exact Hb|]. by rewrite Hx, Hy.
Defined.

(** X7.  The footprint of one call of [move_pacman]: the dimensions of
    the grid, the portal flags, [shutdown], [tempo] and the number of
    ghosts are untouched, every other pacman is untouched, and the only
    cells of the grid that can differ are the one the pacman stood on
    and the one it stands on afterwards. *)
Theorem move_pacman_footprint b idx c ptr rnd r b' c' pac pac' :
  move_pacman b idx c ptr rnd = Some (r, b', c') ->
  slot (pacmans b) idx = Some pac ->
  slot (pacmans b') idx = Some pac' ->
  same_frame b b' /\
  (forall j : nat, j <> Z.to_nat idx -> pacmans b' !! j = pacmans b !! j) /\
  (forall j : nat, board b' !! j <> board b !! j ->
     j = Z.to_nat (get_board_index b (pos_x pac) (pos_y pac)) \/
     j = Z.to_nat (get_board_index b (pos_x pac') (pos_y pac'))).
Proof.
  intros E Hpac Hpac'.
  destruct (move_pacman_effects _ _ _ _ _ _ _ _ _ Hpac E) as [pac1 Heff].
  destruct Heff. assert (pac1 = pac') as -> by congruence. done.
Qed.

Lemma move_pacman_footprint_witness :
  exists r b' c',
    move_pacman (demo_board " ") 0 demo_right PtrLocal 0 = Some (r, b', c') /\
    same_frame (demo_board " ") b' /\
    board b' !! 0%nat = board (demo_board " ") !! 0%nat.
Proof.
  eexists _, _, _. split; [reflexivity|].
  pose proof (move_pacman_footprint (demo_board " ") 0 demo_right PtrLocal 0
                _ _ _ (demo_pacman " ") _ eq_refl eq_refl eq_refl)
    as (Hf & _ & Hcells).
  split; [exact Hf|]. reflexivity.
Defined.
End BoardTheorems.

Module GameMore.
Import CInt CArray Protocol Board Game CIntFacts BoardFacts GameFacts.
Import BoardShape BoardMore GameShape.
Local Open Scope Z_scope.

Lemma script_Some b x :
  script b = Some x <->
  exists pac, slot (pacmans b) 0 = Some pac /\
    x = (current_move pac, n_moves pac, length (moves pac)).
Proof.
  unfold script. destruct (slot (pacmans b) 0) as [pac|]; simpl; split.
  - intros [= <-]. eauto.
  - intros (? & [= <-] & ->). done.
  - done.
  - by intros (? & ? & _).
Qed.

(** Writing pacman 0 back with the same position keeps the stage in shape. *)
Lemma put_pacman_shape b p pac b' :
  slot (pacmans b) 0 = Some pac ->
  put_pacman b 0 p = Some b' ->
  pos_x p = pos_x pac -> pos_y p = pos_y pac ->
  (well_formed b -> well_formed b') /\ (inside b 0 -> inside b' 0) /\
  slot (pacmans b') 0 = Some p /\ shutdown b' = shutdown b.
Proof.
  intros Hpac E Hx Hy.
  pose proof (put_pacman_same_frame _ _ _ _ E) as F.
  pose proof (put_pacman_frame _ _ _ _ E) as (_ & _ & _ & Hs).
  split; [intros; by eapply well_formed_frame|]. split; [|split; [done|]].
  - intros (pac0 & Hp0 & Hin). exists p. split; [done|].
    rewrite (is_valid_position_frame b b') by done. rewrite Hx, Hy. congruence.
  - by destruct F as (_ & _ & _ & _ & ? & _).
Qed.

(** What the listener does with a message is a bystander's section. *)
Lemma listener_section_bystander n move : bystander (listener_section n move).
Proof.
  intros b Hwf Hin. unfold listener_section.
  destruct Hin as (pac & Hpac & Hv).
  destruct (listener_handle_confined n move b pac Hpac)
    as (b' & log & ctl & -> & _ & _ & _ & Hcases).
  destruct Hcases as [->|[->|Hw]].
  - split; [done|]. split; [by exists pac|]. done.
  - split; [done|]. split; [by exists pac|]. split; [done|]. simpl. done.
  - unfold write_mailbox in Hw. rewrite Hpac in Hw. simpl in Hw.
    destruct (put_pacman_shape b _ pac b' Hpac Hw eq_refl eq_refl)
      as (Hwf' & Hin' & Hs & Hsh).
    split; [auto|]. split; [apply Hin'; by exists pac|]. split.
    + unfold script. by rewrite Hs, Hpac.
    + by rewrite Hsh.
Qed.

Lemma valid_ptr_length b b' pac pac' play :
  slot (pacmans b) 0 = Some pac -> slot (pacmans b') 0 = Some pac' ->
  length (moves pac') = length (moves pac) ->
  valid_ptr b 0 play -> valid_ptr b' 0 play.
Proof.
  intros Hp Hp' Hlen. destruct play as [|k]; [done|]. simpl.
  intros (pac0 & cmd & Hp0 & Hk). rewrite Hp in Hp0. injection Hp0 as <-.
  assert (Hs : is_Some (slot (moves pac') k)).
  { apply slot_bounds. rewrite Hlen. by eapply slot_lt. }
  destruct Hs as [cmd' Hs]. eauto.
Qed.

Lemma script_step_refl pc b pac :
  slot (pacmans b) 0 = Some pac -> script_step pc b b.
Proof.
  intros H. exists pac, pac. repeat split; try done. destruct pc; try done. by left.
Qed.

(** One atomic section of [pacman_thread] on a stage in shape. *)
Lemma pacman_step_total rnd pc b :
  0 <= rnd -> pc_shape pc b ->
  exists pc' b',
    pacman_step rnd pc b = Some (pc', b') /\
    well_formed b' /\ inside b' 0 /\ shutdown b' = shutdown b /\
    pc_next pc b pc' /\ script_step pc b b' /\
    match pc' with
    | PcMove _ play => valid_ptr b' 0 play
    | _ => True
    end.
Proof.
  intros Hrnd (Hwf & Hin & Hpc). pose proof Hin as (pac & Hpac & Hv).
  destruct pc as [| |c play|r|v why]; simpl.
  - rewrite Hpac. simpl. destruct (alive pac =? 0).
    + eexists _, _. split; [done|]. split_and!; try done; [right; eauto|].
      by eapply script_step_refl.
    + eexists _, _. split; [done|]. split_and!; try done; [by left|].
      by eapply script_step_refl.
  - destruct Hpc as (pac0 & Hp0 & Hcm & Hn). rewrite Hpac in Hp0. injection Hp0 as <-.
    destruct (Ascii.eqb_spec (next_user_move pac) " ") as [He|Hne].
    + rewrite (choose_command_empty b pac Hpac He). simpl.
      eexists _, _. split; [done|]. split_and!; try done; [eauto| |].
      * by eapply script_step_refl.
      * destruct (Z.ltb_spec 0 (n_moves pac)); [|done]. simpl.
        pose proof (Z.rem_bound_pos (current_move pac) (n_moves pac)).
        assert (Hs : is_Some (slot (moves pac)
                                (Z.rem (current_move pac) (n_moves pac)))).
        { apply slot_bounds. lia. }
        destruct Hs as [cmd Hs]. eauto.
    + rewrite (choose_command_pending b pac Hpac Hne). simpl.
      set (b' := set_pacmans _ b).
      assert (E : put_pacman b 0 (set_next_user_move NO_MOVE pac) = Some b')
        by (by erewrite put_pacman_defined).
      destruct (put_pacman_shape b _ pac b' Hpac E eq_refl eq_refl)
        as (Hwf' & Hin' & Hs & Hsh).
      eexists _, _. split; [done|]. split_and!; auto; [eauto| |done].
      exists pac, (set_next_user_move NO_MOVE pac). by split_and!.
  - destruct (move_pacman_total b 0 c play rnd pac Hwf Hpac Hv Hpc Hrnd)
      as (r & b' & c' & pac' & E & Heff & Hwf' & Hv').
    rewrite E. simpl. destruct Heff.
    assert (Hstep : script_step (PcMove c play) b b').
    { exists pac, pac'. destruct eff_config0 as (_ & ? & _ & ?). by split_and!. }
    assert (Hsh : shutdown b' = shutdown b)
      by (by destruct eff_frame0 as (_ & _ & _ & _ & ? & _)).
    assert (Hin' : inside b' 0) by (by exists pac').
    destruct (r =? REACHED_PORTAL); [|destruct (r =? DEAD_PACMAN)];
      eexists _, _; (split; [done|]); split_and!; try done; [right| right |left];
      eauto.
  - destruct (shutdown b =? 0) eqn:Esh; eexists _, _; (split; [done|]);
      split_and!; try done; unfold pc_next; rewrite ?Esh; eauto;
      by eapply script_step_refl.
  - eexists _, _. split; [done|]. split_and!; try done. by eapply script_step_refl.
Qed.

Lemma script_ok_step pc b b' :
  script_ok b -> script_step pc b b' ->
  match pc with PcMove _ _ => False | _ => True end ->
  script_ok b'.
Proof.
  intros (pac0 & Hp0 & Hcm & Hn) (pac & pac' & Hp & Hp' & En & El & Hc) Hpc.
  rewrite Hp in Hp0. injection Hp0 as <-. exists pac'. split; [done|].
  destruct pc; try done; split; lia.
Qed.

Lemma script_room_step n pc b b' :
  script_room (n + 1) b -> 0 <= n -> script_step pc b b' -> script_room n b'.
Proof.
  intros (pac0 & Hp0 & Hcm & Hr & Hn) Hn0 (pac & pac' & Hp & Hp' & En & El & Hc).
  rewrite Hp in Hp0. injection Hp0 as <-. exists pac'. split; [done|].
  assert (Hstep : current_move pac' = current_move pac \/
                  current_move pac' = current_move pac + 1).
  { destruct pc; try (by left). destruct Hc as [?|Hc]; [by left|right].
    rewrite Hc. apply wrap32_id. unfold in_int, INT_MIN, INT_MAX in *. lia. }
  split_and!; lia.
Qed.

Lemma script_room_ok n b : 0 <= n -> script_room n b -> script_ok b.
Proof. intros _ (pac & ? & ? & _ & ?). by exists pac. Qed.

Lemma bystander_script b b' :
  script b' = script b ->
  (forall n, script_room n b -> script_room n b') /\
  (script_ok b -> script_ok b') /\
  (forall play, valid_ptr b 0 play -> valid_ptr b' 0 play).
Proof.
  intros E. split_and!.
  - intros n (pac & Hp & ? & ? & ?).
    assert (Hs : script b = Some (current_move pac, n_moves pac, length (moves pac)))
      by (apply script_Some; eauto).
    rewrite <- E in Hs. apply script_Some in Hs as (pac' & Hp' & [= ? ? ?]).
    exists pac'. split_and!; [done|lia..].
  - intros (pac & Hp & ? & ?).
    assert (Hs : script b = Some (current_move pac, n_moves pac, length (moves pac)))
      by (apply script_Some; eauto).
    rewrite <- E in Hs. apply script_Some in Hs as (pac' & Hp' & [= ? ? ?]).
    exists pac'. split_and!; [done|lia..].
  - intros [|k]; [done|]. intros (pac & cmd & Hp & Hk).
    assert (Hs : script b = Some (current_move pac, n_moves pac, length (moves pac)))
      by (apply script_Some; eauto).
    rewrite <- E in Hs. apply script_Some in Hs as (pac' & Hp' & [= ? ? Hl]).
    by eapply (valid_ptr_length b b' pac pac'); [..|exists pac, cmd].
Qed.
End GameMore.

Module GameTheorems.
Import CInt CArray Protocol Board Game CIntFacts BoardFacts GameFacts.
Import BoardShape BoardMore GameShape GameMore.
Local Open Scope Z_scope.

(** X8.  [pacman_thread] stays inside its arrays.  Take a stage whose
    grid has [width * height] cells with pacman 0 standing on it, a
    script that [moves] can hold ([n_moves] at most its length) with a
    counter that is not negative, and any interleaving with sections of
    other threads that keep the grid and the pacman's cell in place and
    leave the script alone (the listener's are such sections).  As long
    as the counter cannot pass [INT_MAX] within the schedule, every
    section of the thread finds what it indexes: the run is defined, and
    the stage is still in shape after it. *)
Theorem pacman_thread_in_bounds sched b :
  Forall fair sched -> well_formed b -> inside b 0 ->
  script_room (Z.of_nat (pacman_turns sched)) b ->
  exists pc' b',
    pacman_thread sched PcTop b = Some (pc', b') /\ well_formed b' /\ inside b' 0.
Proof.
  intros Hfair Hwf Hin Hroom.
  cut (forall pc b,
         Forall fair sched -> well_formed b -> inside b 0 ->
         script_room (Z.of_nat (pacman_turns sched)) b ->
         match pc with PcMove _ play => valid_ptr b 0 play | _ => True end ->
         exists pc' b',
           pacman_thread sched pc b = Some (pc', b') /\
           well_formed b' /\ inside b' 0).
  { intros Hgen. by apply Hgen. }
  clear.
  induction sched as [|[f|rnd] sched IH]; intros pc b Hfair Hwf Hin Hroom Hptr.
  - simpl. eauto.
  - apply Forall_cons in Hfair as [Hf Hfair]. simpl in *.
    destruct (Hf b Hwf Hin) as (Hwf' & Hin' & Hscript & _).
    destruct (bystander_script b (f b) Hscript) as (Hr & _ & Hp).
    apply IH; auto. destruct pc; auto.
  - apply Forall_cons in Hfair as [Hrnd Hfair]. simpl in Hrnd.
    cbn [pacman_turns] in Hroom. rewrite Nat2Z.inj_succ, <- Z.add_1_r in Hroom.
    assert (Hshape : pc_shape pc b).
    { split; [done|]. split; [done|].
      destruct pc; try done; eapply script_room_ok; try exact Hroom; lia. }
    destruct (pacman_step_total rnd pc b Hrnd Hshape)
      as (pc' & b' & E & Hwf' & Hin' & _ & _ & Hstep & Hptr').
    cbn [pacman_thread]. rewrite E. simpl.
    apply IH; auto. eapply script_room_step; [exact Hroom|lia|exact Hstep].
Qed.

Lemma pacman_thread_in_bounds_witness :
  exists pc' b',
    pacman_thread
      [Pacman 0; Other (listener_section 2 (move_msg "D")); Pacman 1; Pacman 2;
       Pacman 3; Pacman 0]
      PcTop (demo_board " ") = Some (pc', b') /\
    well_formed b' /\ inside b' 0.
Proof.
  apply pacman_thread_in_bounds.
  - repeat first [apply Forall_nil | apply Forall_cons; split]; simpl; try lia;
      apply listener_section_bystander.
  - split; vm_compute; [discriminate|reflexivity].
  - exists (demo_pacman " "). split; reflexivity.
  - exists (demo_pacman " "). split; [reflexivity|]. vm_compute.
    repeat split; discriminate.
Defined.

(** X9.  Once [shutdown] is set, [pacman_thread] returns after at most
    one more call of [move_pacman]: under any interleaving with sections
    of other threads that keep the stage in shape and do not clear the
    flag, four atomic sections of the thread (the check of [alive], the
    choice of the command, the move, the check of the flag) are enough
    for it to have returned, and the flag is still set. *)
Theorem pacman_thread_stops sched b :
  Forall fair sched -> well_formed b -> inside b 0 -> script_ok b ->
  shutdown b <> 0 -> (4 <= pacman_turns sched)%nat ->
  exists v why b',
    pacman_thread sched PcTop b = Some (PcDone v why, b') /\ shutdown b' <> 0.
Proof.
  intros Hfair Hwf Hin Hok Hdown Hturns.
  cut (forall pc b,
         Forall fair sched -> pc_shape pc b -> shutdown b <> 0 ->
         (sections_left pc <= pacman_turns sched)%nat ->
         exists v why b',
           pacman_thread sched pc b = Some (PcDone v why, b') /\ shutdown b' <> 0).
  { intros Hgen. by apply Hgen. }
  clear.
  induction sched as [|[f|rnd] sched IH]; intros pc b Hfair Hshape Hdown Hleft.
  - destruct pc; simpl in Hleft; try lia. simpl. eauto.
  - apply Forall_cons in Hfair as [Hf Hfair]. simpl in *.
    destruct Hshape as (Hwf & Hin & Hpc).
    destruct (Hf b Hwf Hin) as (Hwf' & Hin' & Hscript & Hsh).
    destruct (bystander_script b (f b) Hscript) as (_ & Hok & Hp).
    apply IH; auto. split; [done|]. split; [done|]. destruct pc; auto.
  - apply Forall_cons in Hfair as [Hrnd Hfair]. simpl in Hrnd.
    destruct (pacman_step_total rnd pc b Hrnd Hshape)
      as (pc' & b' & E & Hwf' & Hin' & Hsh & Hnext & Hstep & Hptr').
    cbn [pacman_thread]. rewrite E. simpl.
    destruct Hshape as (Hwf & Hin & Hpc). cbn [pacman_turns] in Hleft.
    apply IH; auto.
    + split; [done|]. split; [done|].
      destruct pc; simpl in Hnext.
      * destruct Hnext as [->|(? & ? & ->)]; [|done].
        by eapply script_ok_step.
      * by destruct Hnext as (? & ? & ->).
      * by destruct Hnext as [(? & ->)|(? & ? & ->)].
      * destruct (Z.eqb_spec (shutdown b) 0); [done|].
        by destruct Hnext as (? & ? & ->).
      * by subst.
    + congruence.
    + destruct pc; simpl in Hnext, Hleft |- *.
      * destruct Hnext as [->|(? & ? & ->)]; simpl; lia.
      * destruct Hnext as (? & ? & ->). simpl. lia.
      * destruct Hnext as [(? & ->)|(? & ? & ->)]; simpl; lia.
      * destruct (Z.eqb_spec (shutdown b) 0); [done|].
        destruct Hnext as (? & ? & ->). simpl. lia.
      * subst. simpl. lia.
Qed.

Lemma pacman_thread_stops_witness :
  exists v why b',
    pacman_thread
      [Pacman 0; Other (listener_section 2 (move_msg "D")); Pacman 1; Pacman 2;
       Pacman 3]
      PcTop (set_shutdown 1 (demo_board " ")) = Some (PcDone v why, b') /\
    shutdown b' <> 0.
Proof.
  apply pacman_thread_stops.
  - repeat first [apply Forall_nil | apply Forall_cons; split]; simpl; try lia;
      apply listener_section_bystander.
  - split; vm_compute; [discriminate|reflexivity].
  - exists (demo_pacman " "). split; reflexivity.
  - exists (demo_pacman " "). split; [reflexivity|]. vm_compute.
    split; discriminate.
  - simpl. lia.
  - simpl. lia.
Defined.

(** X10.  A key that arrives while the pacman waits out its [passo] is
    lost.  With [waiting > 0] and a key in the mailbox, the thread's
    next turn takes the key out of the mailbox and calls [move_pacman],
    which only counts [waiting] down and returns [VALID_MOVE]: the grid
    is untouched and the pacman is as before but for the emptied mailbox
    and the count, so the key is played neither now nor later. *)
Theorem key_lost_while_waiting b pac rnd1 rnd2 :
  slot (pacmans b) 0 = Some pac ->
  alive pac <> 0 -> 0 < waiting pac -> next_user_move pac <> NO_MOVE ->
  exists b',
    pacman_thread [Pacman rnd1; Pacman rnd2] PcChoose b
      = Some (PcCheck VALID_MOVE, b') /\
    board b' = board b /\
    slot (pacmans b') 0
      = Some (set_waiting (isub (waiting pac) 1) (set_next_user_move NO_MOVE pac)).
Proof.
  intros Hpac Halive Hwait Hkey.
  cbn [pacman_thread pacman_step].
  rewrite (choose_command_pending b pac Hpac Hkey). simpl.
  set (b1 := set_pacmans _ b).
  assert (Hp1 : slot (pacmans b1) 0 = Some (set_next_user_move NO_MOVE pac)).
  { by eapply lookup_put. }
  rewrite (move_pacman_waiting b1 0 _ _ _ _ Hp1) by done.
  eexists. split; [done|]. split; [done|].
  subst b1. simpl. rewrite list_insert_insert_eq. by eapply lookup_put.
Qed.

Lemma key_lost_while_waiting_witness :
  exists b',
    pacman_thread [Pacman 0; Pacman 0] PcChoose (demo_waiting "D")
      = Some (PcCheck VALID_MOVE, b') /\
    board b' = board (demo_waiting "D") /\
    (next_user_move <$> slot (pacmans b') 0) = Some NO_MOVE.
Proof.
  destruct (key_lost_while_waiting (demo_waiting "D") _ 0 0 eq_refl)
    as (b' & E & Hb & Hp); [discriminate|reflexivity|discriminate|].
  exists b'. split; [exact E|]. split; [exact Hb|]. by rewrite Hp.
Defined.

(** X11.  From the key to the step.  When the listener has read a move
    message with key [k] (one of w, a, s, d in either case) and the
    pacman is alive, not waiting, and the neighbouring cell in that
    direction lies on the grid and holds neither wall, ghost nor portal,
    the thread's next turn moves the pacman onto that cell: the message
    is stored, [move_pacman] returns [VALID_MOVE], the pacman's position
    is the neighbour, the cell shows ['C'] and the mailbox is empty
    again. *)
Theorem key_press_moves_pacman b pac k x' y' dest rnd1 rnd2 :
  well_formed b -> slot (pacmans b) 0 = Some pac ->
  is_valid_position b (pos_x pac) (pos_y pac) = true ->
  alive pac <> 0 -> waiting pac <= 0 -> k <> NO_MOVE ->
  switch_direction (toupper k) (pos_x pac) (pos_y pac) = DirStep x' y' ->
  is_valid_position b x' y' = true ->
  slot (board b) (get_board_index b x' y') = Some dest ->
  has_portal dest = 0 ->
  content dest <> "W"%char -> content dest <> "X"%char -> content dest <> "M"%char ->
  exists b1 b2 pac2,
    listener_handle sizeof_move_req_t (move_msg k) b = Some (b1, [], LoopContinue) /\
    pacman_thread [Pacman rnd1; Pacman rnd2] PcChoose b1
      = Some (PcCheck VALID_MOVE, b2) /\
    slot (pacmans b2) 0 = Some pac2 /\
    pos_x pac2 = x' /\ pos_y pac2 = y' /\ next_user_move pac2 = NO_MOVE /\
    content <$> slot (board b2) (get_board_index b x' y') = Some "C"%char.
Proof.
  intros Hwf Hpac Hin Halive Hwait Hk Hsw Hv Hdest Hportal HW HX HM.
  rewrite listener_handle_move. unfold write_mailbox. rewrite Hpac. simpl.
  erewrite put_pacman_defined by exact Hpac. simpl.
  set (b1 := set_pacmans _ b). exists b1.
  assert (Hp1 : slot (pacmans b1) 0 = Some (set_next_user_move k pac))
    by (by eapply lookup_put).
  cbn [pacman_thread pacman_step].
  rewrite (choose_command_pending b1 _ Hp1) by done. simpl.
  set (b2 := set_pacmans _ b1).
  set (pac1 := set_next_user_move NO_MOVE (set_next_user_move k pac)).
  assert (Hp2 : slot (pacmans b2) 0 = Some pac1) by exact (lookup_put b1 0 _ _ Hp1).
  assert (F : same_frame b b2).
  { eapply same_frame_trans; apply same_frame_pacmans. }
  assert (Hwf2 : well_formed b2) by (by eapply well_formed_frame).
  assert (Hidx : forall x y, get_board_index b2 x y = get_board_index b x y) by done.
  assert (Hin2 : is_valid_position b2 (pos_x pac1) (pos_y pac1) = true)
    by (by rewrite (is_valid_position_frame b b2)).
  assert (Hv2 : is_valid_position b2 x' y' = true)
    by (by rewrite (is_valid_position_frame b b2)).
  destruct (move_pacman_free_step b2 0
              {| command := k; turns := 0; turns_left := 0 |} rnd2 pac1 x' y' dest
              Hwf2 Hp2 Hin2 Halive Hwait Hsw Hv2 Hdest Hportal HW HX HM)
    as (b3 & pac3 & E & Hp3 & Hx & Hy & Hm & Hc).
  rewrite E. simpl. exists b3, pac3. by split_and!.
Qed.

Lemma key_press_moves_pacman_witness :
  exists b1 b2 pac2,
    listener_handle sizeof_move_req_t (move_msg "d") (demo_board " ")
      = Some (b1, [], LoopContinue) /\
    pacman_thread [Pacman 0; Pacman 0] PcChoose b1 = Some (PcCheck VALID_MOVE, b2) /\
    slot (pacmans b2) 0 = Some pac2 /\ (pos_x pac2, pos_y pac2) = (2, 1).
Proof.
  destruct (key_press_moves_pacman (demo_board " ") (demo_pacman " ") "d" 2 1
              (cell " " 1 0) 0 0)
    as (b1 & b2 & pac2 & E1 & E2 & Hp & Hx & Hy & _);
    try reflexivity; try discriminate.
  - split; vm_compute; [discriminate|reflexivity].
  - exists b1, b2, pac2. split; [exact E1|]. split; [exact E2|].
    split; [exact Hp|]. by rewrite Hx, Hy.
Defined.
End GameTheorems.

Module UpdateFacts.
Import CInt CArray Protocol Board Update CIntFacts BoardShape.
Local Open Scope Z_scope.

Lemma wrap16_id z : in_int16 z -> wrap16 z = z.
Proof. unfold in_int16, wrap16. intros H. rewrite Z.mod_small; lia. Qed.

Lemma wrap16_range z : in_int16 (wrap16 z).
Proof.
  unfold in_int16, wrap16. pose proof (Z.mod_pos_bound (z + 32768) 65536). lia.
Qed.

(** The loop of the server over a prefix of the grid. *)
Lemma send_cells_spec cells : forall n i,
  0 <= i -> (Z.to_nat i + n <= length cells)%nat ->
  send_cells cells i n = Some (visual <$> take n (drop (Z.to_nat i) cells)).
Proof.
  induction n as [|n IH]; intros i Hi Hlen; [done|].
  simpl. destruct (slot_is_Some cells i) as [c Hc]; [lia|]. rewrite Hc. simpl.
  rewrite IH by lia. simpl. apply slot_Some in Hc as [_ Hc].
  replace (Z.to_nat (i + 1)) with (S (Z.to_nat i)) by lia.
  rewrite (drop_S _ _ _ Hc). done.
Qed.

Lemma recv_cells_spec data : forall n i,
  0 <= i -> (Z.to_nat i + n <= length data)%nat ->
  recv_cells data i n = Some (decode_cell <$> take n (drop (Z.to_nat i) data)).
Proof.
  induction n as [|n IH]; intros i Hi Hlen; [done|].
  simpl. destruct (slot_is_Some data i) as [c Hc]; [lia|]. rewrite Hc. simpl.
  rewrite IH by lia. simpl. apply slot_Some in Hc as [_ Hc].
  replace (Z.to_nat (i + 1)) with (S (Z.to_nat i)) by lia.
  rewrite (drop_S _ _ _ Hc). done.
Qed.

(** The loop of the client runs out of written bytes. *)
Lemma recv_cells_short data : forall n i,
  0 <= i -> (Z.to_nat i <= length data < Z.to_nat i + n)%nat ->
  recv_cells data i n = None.
Proof.
  induction n as [|n IH]; intros i Hi Hlen; [lia|].
  simpl. destruct (slot data i) as [c|] eqn:Hc; [|done]. simpl.
  apply slot_lt in Hc. rewrite IH; [done|lia|lia].
Qed.

(** Drawing the decoded byte gives what drawing the cell itself gives. *)
Lemma draw_decode_visual c :
  content c <> Ascii.zero -> draw_cell (decode_cell (visual c)) = draw_cell c.
Proof.
  intros Hc. unfold visual, decode_cell, draw_cell.
  destruct c as [ch dot portal]. simpl in *.
  destruct (Ascii.eqb_spec ch "X") as [->|]; [done|].
  destruct (Ascii.eqb_spec ch "W") as [->|]; [done|]. simpl.
  destruct (Ascii.eqb_spec ch " ") as [->|]; simpl.
  { destruct (portal =? 0); simpl; [|done]. by destruct (dot =? 0). }
  destruct (Ascii.eqb_spec ch Ascii.zero) as [->|]; [done|]. simpl.
  destruct (Ascii.eqb_spec ch ".") as [->|]; [done|].
  destruct (Ascii.eqb_spec ch "@") as [->|]; [done|]. simpl.
  destruct (Ascii.eqb_spec ch " "); [done|]. simpl.
  destruct (Ascii.eqb_spec ch "X"); [done|].
  destruct (Ascii.eqb_spec ch "W"); [done|]. done.
Qed.
End UpdateFacts.

Module UpdateTheorems.
Import CInt CArray Protocol Board Update CIntFacts BoardShape UpdateFacts.
Local Open Scope Z_scope.

(** X12.  The client draws the stage.  For a stage of at most 2400
    cells whose cells hold no NUL content (as [load_level] leaves them),
    the update the server sends decodes on the client into a grid of the
    same dimensions, and what [draw_board] puts on the screen for each
    cell of that grid is what it would put for the server's own cell:
    sending a cell as one byte and decoding it loses nothing that is
    drawn. *)
Theorem client_draws_the_stage b :
  well_formed b -> 0 < width b -> 0 < height b ->
  width b * height b <= MAX_BOARD_SIZE ->
  is_Some (slot (pacmans b) 0) ->
  Forall (fun c => content c <> Ascii.zero) (board b) ->
  exists msg v,
    server_send_update b = Some msg /\ client_update msg = Some v /\
    view_width v = width b /\ view_height v = height b /\
    length (view_cells v) = length (board b) /\
    draw_cell <$> view_cells v = draw_cell <$> board b.
Proof.
  intros [Hsz Hlen] Hw Hh Hmax [pac Hpac] Hnul. unfold MAX_BOARD_SIZE in Hmax.
  assert (Hprod : imul (width b) (height b) = width b * height b).
  { apply wrap32_id. unfold in_int, INT_MIN, INT_MAX. nia. }
  assert (Hw16 : wrap16 (width b) = width b).
  { apply wrap16_id. unfold in_int16. nia. }
  assert (Hh16 : wrap16 (height b) = height b).
  { apply wrap16_id. unfold in_int16. nia. }
  unfold server_send_update. rewrite Hpac. simpl. rewrite Hprod.
  destruct (Z.ltb_spec MAX_BOARD_SIZE (width b * height b));
    [unfold MAX_BOARD_SIZE in *; lia|].
  rewrite send_cells_spec by lia. simpl.
  rewrite drop_0, take_ge by lia.
  eexists _, _. split; [done|]. unfold client_update. simpl.
  rewrite Hw16, Hh16, Hprod.
  rewrite recv_cells_spec by (rewrite ?length_fmap; lia). simpl.
  rewrite drop_0, take_ge by (rewrite length_fmap; lia).
  split; [done|]. simpl. split_and!; try done.
  - by rewrite !length_fmap.
  - rewrite <- !list_fmap_compose. apply Forall_fmap_ext_1.
    eapply Forall_impl; [exact Hnul|]. intros c Hc. by apply draw_decode_visual.
Qed.

Lemma client_draws_the_stage_witness :
  exists msg v,
    server_send_update (demo_board " ") = Some msg /\
    client_update msg = Some v /\
    view_width v = 4 /\ view_height v = 3 /\
    length (view_cells v) = 12%nat /\
    draw_cell <$> view_cells v = draw_cell <$> board (demo_board " ").
Proof.
  apply (client_draws_the_stage (demo_board " ")).
  - split; vm_compute; [discriminate|reflexivity].
  - reflexivity.
  - reflexivity.
  - vm_compute. discriminate.
  - by eexists.
  - repeat constructor; discriminate.
Defined.

(** X13.  The status the client shows.  The score travels in an
    [int16_t] field: the score drawn is the pacman's [points] reduced
    modulo 2^16, so it is the true score exactly when that lies between
    -32768 and 32767.  The number of lives drawn is 1 for a live pacman
    and 0 for a dead one, and the closing line is the win line when
    [level_finished] is set, else the game-over line when the pacman is
    dead, else the controls. *)
Theorem client_status b msg v pac :
  server_send_update b = Some msg -> client_update msg = Some v ->
  slot (pacmans b) 0 = Some pac ->
  status_line v = (wrap16 (points pac), if alive pac =? 0 then 0 else 1) /\
  (fst (status_line v) = points pac <-> in_int16 (points pac)) /\
  view_mode v =
    (if negb (level_finished b =? 0) then DRAW_WIN
     else if alive pac =? 0 then DRAW_GAME_OVER else DRAW_MENU).
Proof.
  unfold server_send_update, client_update. intros Hs Hc Hpac.
  rewrite Hpac in Hs. simpl in Hs.
  destruct (send_cells _ _ _) as [data|]; [|done]. simpl in Hs.
  injection Hs as <-. simpl in Hc.
  destruct (recv_cells _ _ _) as [cells|]; [|done]. simpl in Hc.
  injection Hc as <-. unfold status_line. simpl. split_and!.
  - by destruct (alive pac =? 0).
  - split; [intros <-; apply wrap16_range | apply wrap16_id].
  - destruct (level_finished b =? 0); [|done]. simpl. by destruct (alive pac =? 0).
Qed.

Lemma client_status_witness :
  exists msg v,
    server_send_update (demo_board " ") = Some msg /\
    client_update msg = Some v /\
    status_line v = (0, 1) /\ view_mode v = DRAW_MENU.
Proof.
  eexists _, _. split; [reflexivity|]. split; [reflexivity|].
  pose proof (client_status (demo_board " ") _ _ (demo_pacman " ")
                eq_refl eq_refl eq_refl) as (Hs & _ & Hm).
  split; [exact Hs|exact Hm].
Defined.

(** X14.  A stage of more than 2400 cells overruns the message.  The
    server sends the first 2400 cells only, but the client loops over
    [width * height] bytes of [board_data]: it reads bytes the server
    has not written, from index 2400 on past the end of the array. *)
Theorem oversized_stage_overruns_message b :
  well_formed b -> 0 < width b <= 32767 -> 0 < height b <= 32767 ->
  MAX_BOARD_SIZE < width b * height b ->
  is_Some (slot (pacmans b) 0) ->
  exists msg,
    server_send_update b = Some msg /\
    Z.of_nat (length (board_data msg)) = MAX_BOARD_SIZE /\
    client_update msg = None.
Proof.
  intros [Hsz Hlen] Hw Hh Hmax [pac Hpac]. unfold MAX_BOARD_SIZE in *.
  assert (Hprod : imul (width b) (height b) = width b * height b).
  { apply wrap32_id. unfold in_int, INT_MIN, INT_MAX in *. nia. }
  assert (Hw16 : wrap16 (width b) = width b) by (apply wrap16_id; unfold in_int16; lia).
  assert (Hh16 : wrap16 (height b) = height b) by (apply wrap16_id; unfold in_int16; lia).
  unfold server_send_update. rewrite Hpac. simpl. rewrite Hprod.
  destruct (Z.ltb_spec MAX_BOARD_SIZE (width b * height b));
    [|unfold MAX_BOARD_SIZE in *; lia].
  rewrite send_cells_spec by (unfold MAX_BOARD_SIZE; lia).
  remember (visual <$> take (Z.to_nat MAX_BOARD_SIZE) (drop (Z.to_nat 0) (board b)))
    as data eqn:Hdata.
  assert (Hl : length data = 2400%nat).
  { rewrite Hdata, length_fmap, length_take, length_drop.
    unfold MAX_BOARD_SIZE. lia. }
  simpl. eexists. split; [done|]. simpl.
  split; [rewrite Hl; done|].
  unfold client_update. simpl. rewrite Hw16, Hh16, Hprod.
  rewrite recv_cells_short; [done|lia|]. rewrite Hl. lia.
Qed.

Lemma oversized_stage_overruns_message_witness :
  exists msg,
    server_send_update demo_large = Some msg /\
    Z.of_nat (length (board_data msg)) = MAX_BOARD_SIZE /\
    client_update msg = None.
Proof.
  apply (oversized_stage_overruns_message demo_large).
  - split; vm_compute; [discriminate|reflexivity].
  - split; vm_compute; [reflexivity|discriminate].
  - split; vm_compute; [reflexivity|discriminate].
  - reflexivity.
  - by eexists.
Defined.
End UpdateTheorems.

Module RegistryFacts.
Import CInt CArray Scores Registry CIntFacts.
Local Open Scope Z_scope.

(** The search takes the first entry that is not active. *)
Lemma claim_spec id sb : forall n i res idx,
  0 <= i -> claim n i id sb = Some (res, idx) ->
  (idx = -1 /\ res = sb /\
   forall j, i <= j < i + Z.of_nat n ->
     exists e, sb !! Z.to_nat j = Some e /\ active e <> 0) \/
  (i <= idx < i + Z.of_nat n /\
   (exists e, sb !! Z.to_nat idx = Some e /\ active e = 0) /\
   res = <[Z.to_nat idx := {| client_id := id; score := 0; active := 1 |}]> sb /\
   forall j, i <= j < idx -> exists e, sb !! Z.to_nat j = Some e /\ active e <> 0).
Proof.
  induction n as [|n IH]; intros i res idx Hi H; simpl in H.
  - injection H as <- <-. left. split; [done|]. split; [done|]. lia.
  - destruct (slot sb i) as [e|] eqn:He; [|done]. simpl in H.
    apply slot_Some in He as [_ He].
    destruct (Z.eqb_spec (active e) 0) as [Ha|Ha].
    + destruct (store sb i _) as [sb'|] eqn:Hs; [|done]. simpl in H.
      injection H as <- <-. apply store_Some in Hs as [_ ->].
      right. split; [lia|]. split; [eauto|]. split; [done|]. lia.
    + apply IH in H; [|lia].
      assert (Hhere : forall j, i <= j < i + 1 ->
                exists e, sb !! Z.to_nat j = Some e /\ active e <> 0).
      { intros j Hj. assert (j = i) as -> by lia. eauto. }
      destruct H as [(-> & -> & Hall)|(Hr & He' & -> & Hall)].
      * left. split; [done|]. split; [done|]. intros j Hj.
        destruct (decide (j = i)) as [->|]; [eauto|]. apply Hall. lia.
      * right. split; [lia|]. split; [done|]. split; [done|]. intros j Hj.
        destruct (decide (j = i)) as [->|]; [eauto|]. apply Hall. lia.
Qed.

Lemma claim_defined id sb : forall n i,
  0 <= i -> i + Z.of_nat n <= Z.of_nat (length sb) ->
  is_Some (claim n i id sb).
Proof.
  induction n as [|n IH]; intros i Hi Hlen; simpl; [done|].
  destruct (slot_is_Some sb i) as [e He]; [lia|]. rewrite He. simpl.
  destruct (active e =? 0).
  - unfold store. rewrite He. done.
  - apply IH; lia.
Qed.

(** Pigeonhole: [i] slots with pairwise different owners among the
    workers other than [w0] leave [i] below the number of workers. *)
Lemma owners_bound (P : nat -> nat -> Prop) (N w0 : nat) : forall i : nat,
  (forall j, (j < i)%nat -> exists w, (w < N)%nat /\ w <> w0 /\ P w j) ->
  (forall w j j', P w j -> P w j' -> j = j') ->
  (w0 < N)%nat -> (i < N)%nat.
Proof.
  intros i Hown Hfun Hw0.
  assert (Hl : exists l : list nat,
    length l = i /\ NoDup l /\
    forall w, w ∈ l -> (w < N)%nat /\ w <> w0 /\ exists j, (j < i)%nat /\ P w j).
  { clear Hw0. induction i as [|i IH].
    - exists []. split; [done|]. split; [constructor|]. by intros w ?%elem_of_nil.
    - destruct IH as (l & Hlen & Hnd & Hin); [intros j Hj; apply Hown; lia|].
      destruct (Hown i) as (w & HwN & Hw0 & HP); [lia|].
      exists (w :: l). split; [simpl; lia|]. split.
      + constructor; [|done]. intros (_ & _ & j & Hj & HP')%Hin.
        specialize (Hfun _ _ _ HP HP'). lia.
      + intros w' [->|Hw']%elem_of_cons; [eauto 10|].
        destruct (Hin _ Hw') as (? & ? & j & ? & ?). split_and!; try done.
        exists j. split; [lia|done]. }
  destruct Hl as (l & Hlen & Hnd & Hin).
  assert (Hnd' : NoDup (w0 :: l)).
  { constructor; [|done]. intros (_ & ? & _)%Hin. done. }
  assert (Hsub : w0 :: l ⊆ seq 0 N).
  { intros w [->|Hw]%elem_of_cons; apply elem_of_seq; [lia|].
    destruct (Hin _ Hw). lia. }
  pose proof (submseteq_length _ _ (NoDup_submseteq _ _ Hnd' (fun x => Hsub x))) as Hle.
  simpl in Hle. rewrite length_seq in Hle. lia.
Qed.

Lemma pinv_init n : pool_inv (pool_init n).
Proof.
  split; unfold pool_init, registry_init;
    cbn [reg workers scoreboard next_client_id].
  - by rewrite length_replicate.
  - lia.
  - intros w id idx st [? _]%lookup_replicate. done.
  - intros w w' id id' idx idx' st st' _ [? _]%lookup_replicate. done.
  - intros i e [-> _]%lookup_replicate. done.
  - intros i Hi. apply lookup_replicate. split; [done|lia].
  - intros _ w id idx st [? _]%lookup_replicate. done.
Qed.

Lemma owns_fun s w j j' : owns s w j -> owns s w j' -> j = j'.
Proof. intros (id & st & H) (id' & st' & H'). rewrite H in H'. simplify_eq. lia. Qed.

(** Two sessions never hold the same entry. *)
Lemma pinv_slots s w w' id id' idx idx' st st' :
  pool_inv s -> w <> w' ->
  workers s !! w = Some (Playing id idx st) ->
  workers s !! w' = Some (Playing id' idx' st') ->
  0 <= idx -> idx <> idx'.
Proof.
  intros Hinv Hne Hw Hw' Hidx ->.
  destruct (pinv_own s Hinv _ _ _ _ Hw) as [_ [?|(_ & e & He & Hid & _)]]; [lia|].
  destruct (pinv_own s Hinv _ _ _ _ Hw') as [_ [?|(_ & e' & He' & Hid' & _)]]; [lia|].
  rewrite He in He'. injection He' as <-.
  apply (pinv_ids s Hinv _ _ _ _ _ _ _ _ Hne Hw Hw'). congruence.
Qed.

(** While worker [w] is idle, the active entries below [k] show that
    [k] is below the number of workers. *)
Lemma active_prefix_bound s w (k : nat) :
  pool_inv s -> workers s !! w = Some Idle ->
  (forall j, 0 <= j < Z.of_nat k ->
     exists e, scoreboard (reg s) !! Z.to_nat j = Some e /\ active e <> 0) ->
  (k < length (workers s))%nat.
Proof.
  intros Hinv Hw Hall.
  apply (owners_bound (owns s) (length (workers s)) w).
  - intros j Hj. destruct (Hall (Z.of_nat j)) as (e & He & Ha); [lia|].
    rewrite Nat2Z.id in He.
    destruct (pinv_active s Hinv _ _ He Ha) as [w' Hown]. exists w'.
    pose proof Hown as (id & st & Hw'). split; [by eapply lookup_lt_Some|].
    split; [|done]. intros ->. congruence.
  - apply owns_fun.
  - by eapply lookup_lt_Some.
Qed.

Lemma pinv_register s w s' :
  pool_inv s -> step (Register w) s = Some s' -> pool_inv s'.
Proof.
  intros Hinv. simpl. destruct (workers s !! w) as [[|]|] eqn:Hw; try done.
  unfold register. destruct (Z.ltb_spec (next_client_id (reg s)) INT_MAX); [|done].
  destruct (claim _ _ _ _) as [[sb idx]|] eqn:Hc; [|done]. simpl.
  intros [= <-]. apply claim_spec in Hc; [|lia].
  pose proof (pinv_next s Hinv) as Hnext.
  set (N := length (workers s)).
  assert (Hold : forall w1 id1 idx1 st1,
             w1 <> w -> workers s !! w1 = Some (Playing id1 idx1 st1) ->
             <[w := Playing (next_client_id (reg s)) idx 0]> (workers s) !! w1
             = Some (Playing id1 idx1 st1)).
  { intros. by rewrite list_lookup_insert_ne. }
  assert (Hnew : forall w1 id1 idx1 st1,
             <[w := Playing (next_client_id (reg s)) idx 0]> (workers s) !! w1
             = Some (Playing id1 idx1 st1) ->
             (w1 = w /\ id1 = next_client_id (reg s) /\ idx1 = idx /\ st1 = 0) \/
             (w1 <> w /\ workers s !! w1 = Some (Playing id1 idx1 st1))).
  { intros w1 id1 idx1 st1 [(-> & [= <- <- <-] & _)|[? ?]]%list_lookup_insert_Some; auto. }
  destruct Hc as [(-> & -> & Hall)|(Hr & (e0 & He0 & Ha0) & -> & Hall)].
  - (* no entry free *)
    assert (Hbound : (Z.to_nat MAX_SCOREBOARD < N)%nat).
    { apply (active_prefix_bound s w); [done|done|]. intros j Hj. apply Hall. lia. }
    split; simpl; rewrite ?length_insert.
    + apply Hinv.
    + lia.
    + intros w1 id1 idx1 st1 [(-> & -> & -> & ->)|[Hne H1]]%Hnew.
      * split; [lia|]. by left.
      * destruct (pinv_own s Hinv _ _ _ _ H1) as [? ?]. split; [lia|done].
    + intros w1 w2 id1 id2 idx1 idx2 st1 st2 Hne
        [(-> & -> & -> & ->)|[Hne1 H1]]%Hnew [(-> & -> & -> & ->)|[Hne2 H2]]%Hnew.
      * done.
      * destruct (pinv_own s Hinv _ _ _ _ H2). lia.
      * destruct (pinv_own s Hinv _ _ _ _ H1). lia.
      * by eapply (pinv_ids s Hinv w1 w2).
    + intros i e He Ha. destruct (pinv_active s Hinv _ _ He Ha) as (w1 & id1 & st1 & H1).
      exists w1, id1, st1. apply Hold; [|done]. intros ->. congruence.
    + apply Hinv.
    + fold N. lia.
  - (* entry [idx] is taken *)
    assert (Hbound : (Z.to_nat idx < N)%nat).
    { apply (active_prefix_bound s w); [done|done|]. intros j Hj. apply Hall. lia. }
    assert (Hother : forall w1 id1 idx1 st1,
               workers s !! w1 = Some (Playing id1 idx1 st1) -> 0 <= idx1 ->
               Z.to_nat idx1 <> Z.to_nat idx).
    { intros w1 id1 idx1 st1 H1 Hpos E.
      destruct (pinv_own s Hinv _ _ _ _ H1) as [_ [?|(_ & e & He & _ & Ha & _)]]; [lia|].
      rewrite E, He0 in He. by injection He as <-. }
    split; simpl; rewrite ?length_insert.
    + apply Hinv.
    + lia.
    + intros w1 id1 idx1 st1 [(-> & -> & -> & ->)|[Hne H1]]%Hnew.
      * split; [lia|]. right. split; [fold N; lia|]. eexists. split.
        { apply list_lookup_insert_eq. by eapply lookup_lt_Some. }
        done.
      * destruct (pinv_own s Hinv _ _ _ _ H1) as [? [?|(? & e & He & ?)]];
          (split; [lia|]); [by left|]. right. split; [done|]. exists e.
        split; [|done]. rewrite list_lookup_insert_ne; [done|].
        intros E. by eapply (Hother w1); [exact H1|lia|].
    + intros w1 w2 id1 id2 idx1 idx2 st1 st2 Hne
        [(-> & -> & -> & ->)|[Hne1 H1]]%Hnew [(-> & -> & -> & ->)|[Hne2 H2]]%Hnew.
      * done.
      * destruct (pinv_own s Hinv _ _ _ _ H2). lia.
      * destruct (pinv_own s Hinv _ _ _ _ H1). lia.
      * by eapply (pinv_ids s Hinv w1 w2).
    + intros i e He Ha. destruct (decide (i = Z.to_nat idx)) as [->|Hi].
      * exists w, (next_client_id (reg s)), 0. rewrite Z2Nat.id by lia.
        apply list_lookup_insert_eq. by eapply lookup_lt_Some.
      * rewrite list_lookup_insert_ne in He by done.
        destruct (pinv_active s Hinv _ _ He Ha) as (w1 & id1 & st1 & H1).
        exists w1, id1, st1. apply Hold; [|done]. intros ->. congruence.
    + intros i Hi. rewrite list_lookup_insert_ne by (fold N in Hi; lia).
      by apply Hinv.
    + intros HN w1 id1 idx1 st1 [(-> & -> & -> & ->)|[Hne H1]]%Hnew; [lia|].
      by eapply (pinv_found s Hinv).
Qed.

Lemma set_entry_Some sb idx (f : score_entry_t -> score_entry_t) :
  0 <= idx ->
  forall sb',
  (e ← slot sb idx; sb1 ← store sb idx (f e); Some sb1) = Some sb' ->
  exists e, sb !! Z.to_nat idx = Some e /\ sb' = <[Z.to_nat idx := f e]> sb.
Proof.
  intros Hidx sb'. destruct (slot sb idx) as [e|] eqn:He; [|done]. simpl.
  destruct (store sb idx (f e)) as [sb1|] eqn:Hs; [|done]. simpl. intros [= <-].
  apply store_Some in Hs as [_ ->]. apply slot_Some in He as [_ He]. eauto.
Qed.

Lemma pinv_update s w pts s' :
  pool_inv s -> step (Update w pts) s = Some s' -> pool_inv s'.
Proof.
  intros Hinv. simpl.
  destruct (workers s !! w) as [[|id idx st]|] eqn:Hw; try done.
  destruct (set_score idx pts (reg s)) as [r|] eqn:Hr; [|done]. simpl.
  intros [= <-].
  assert (Hnew : forall w1 id1 idx1 st1,
             <[w := Playing id idx pts]> (workers s) !! w1
             = Some (Playing id1 idx1 st1) ->
             (w1 = w /\ id1 = id /\ idx1 = idx /\ st1 = pts) \/
             (w1 <> w /\ workers s !! w1 = Some (Playing id1 idx1 st1))).
  { intros w1 id1 idx1 st1 [(-> & [= <- <- <-] & _)|[? ?]]%list_lookup_insert_Some; auto. }
  assert (Hback : forall w1 id1 idx1 st1,
             <[w := Playing id idx pts]> (workers s) !! w1
             = Some (Playing id1 idx1 st1) ->
             exists st0, workers s !! w1 = Some (Playing id1 idx1 st0)).
  { intros w1 id1 idx1 st1 [(-> & -> & -> & ->)|[_ ?]]%Hnew; eauto. }
  assert (Hfwd : forall w1 i, owns s w1 i ->
             owns {| reg := r; workers := <[w := Playing id idx pts]> (workers s) |} w1 i).
  { intros w1 i (id1 & st1 & H1). unfold owns. simpl.
    destruct (decide (w1 = w)) as [->|Hne].
    - rewrite Hw in H1. injection H1 as E1 E2 E3. exists id, pts.
      rewrite <- E2. apply list_lookup_insert_eq. by eapply lookup_lt_Some.
    - exists id1, st1. by rewrite list_lookup_insert_ne. }
  pose proof (pinv_own s Hinv _ _ _ _ Hw) as [Hid Hmine].
  unfold set_score in Hr. destruct (Z.leb_spec 0 idx) as [Hpos|Hneg].
  - (* the entry is written *)
    assert (Hr' : (e ← slot (scoreboard (reg s)) idx;
                   sb1 ← store (scoreboard (reg s)) idx
                          {| client_id := client_id e; score := pts;
                             active := active e |};
                   Some sb1) = Some (scoreboard r) /\
                  next_client_id r = next_client_id (reg s)).
    { destruct (slot _ idx) as [e|]; [|done]. simpl in *.
      destruct (store _ idx _) as [sb1|]; [|done]. simpl in *.
      by injection Hr as <-. }
    destruct Hr' as [Hsb Hn].
    apply (set_entry_Some _ _
             (fun e => {| client_id := client_id e; score := pts; active := active e |}))
      in Hsb as (e & He & Hsb); [|done].
    destruct Hmine as [?|(Hlt & e' & He' & Hcid & Hact & Hsc)]; [lia|].
    rewrite He in He'. injection He' as <-.
    split; simpl; rewrite ?length_insert, ?Hn, ?Hsb, ?length_insert.
    + apply Hinv.
    + apply Hinv.
    + intros w1 id1 idx1 st1 [(-> & -> & -> & ->)|[Hne H1]]%Hnew.
      * split; [done|]. right. split; [done|]. eexists. split.
        { apply list_lookup_insert_eq. by eapply lookup_lt_Some. }
        done.
      * destruct (pinv_own s Hinv _ _ _ _ H1) as [? [?|(? & e1 & He1 & ?)]];
          (split; [done|]); [by left|]. right. split; [done|]. exists e1.
        split; [|done]. rewrite list_lookup_insert_ne; [done|].
        intros E. apply (pinv_slots s w w1 id id1 idx idx1 st st1); auto. lia.
    + intros w1 w2 id1 id2 idx1 idx2 st1 st2 Hne [st1' H1]%Hback [st2' H2]%Hback.
      by eapply (pinv_ids s Hinv w1 w2).
    + intros i e1 He1 Ha.
      destruct (decide (i = Z.to_nat idx)) as [->|Hi].
      * exists w. apply Hfwd. exists id, st. by rewrite Z2Nat.id.
      * rewrite list_lookup_insert_ne in He1 by done.
        destruct (pinv_active s Hinv _ _ He1 Ha) as [w1 Hown].
        exists w1. by apply Hfwd.
    + intros i Hi. destruct (decide (i = Z.to_nat idx)) as [->|Hne]; [lia|].
      rewrite list_lookup_insert_ne by done. by apply Hinv.
    + intros HN w1 id1 idx1 st1 [st0 H1]%Hback. by eapply (pinv_found s Hinv).
  - (* no entry: nothing is written *)
    injection Hr as <-. destruct Hmine as [->|[? _]]; [|lia].
    split; simpl; rewrite ?length_insert.
    + apply Hinv.
    + apply Hinv.
    + intros w1 id1 idx1 st1 [(-> & -> & -> & ->)|[Hne H1]]%Hnew.
      * split; [done|]. by left.
      * by eapply (pinv_own s Hinv).
    + intros w1 w2 id1 id2 idx1 idx2 st1 st2 Hne [st1' H1]%Hback [st2' H2]%Hback.
      by eapply (pinv_ids s Hinv w1 w2).
    + intros i e1 He1 Ha. destruct (pinv_active s Hinv _ _ He1 Ha) as [w1 Hown].
      exists w1. by apply Hfwd.
    + apply Hinv.
    + intros HN w1 id1 idx1 st1 [st0 H1]%Hback. by eapply (pinv_found s Hinv).
Qed.

Lemma pinv_finalize s w pts s' :
  pool_inv s -> step (Finalize w pts) s = Some s' -> pool_inv s'.
Proof.
  intros Hinv. simpl.
  destruct (workers s !! w) as [[|id idx st]|] eqn:Hw; try done.
  destruct (finalize idx pts (reg s)) as [r|] eqn:Hr; [|done]. simpl.
  intros [= <-].
  assert (Hnew : forall w1 id1 idx1 st1,
             <[w := Idle]> (workers s) !! w1 = Some (Playing id1 idx1 st1) ->
             w1 <> w /\ workers s !! w1 = Some (Playing id1 idx1 st1)).
  { intros w1 id1 idx1 st1 [(-> & ? & _)|[? ?]]%list_lookup_insert_Some; [done|auto]. }
  assert (Hfwd : forall w1 i, w1 <> w -> owns s w1 i ->
             owns {| reg := r; workers := <[w := Idle]> (workers s) |} w1 i).
  { intros w1 i Hne (id1 & st1 & H1). exists id1, st1. simpl.
    by rewrite list_lookup_insert_ne. }
  pose proof (pinv_own s Hinv _ _ _ _ Hw) as [Hid Hmine].
  unfold finalize in Hr. destruct (Z.leb_spec 0 idx) as [Hpos|Hneg].
  - assert (Hr' : (e ← slot (scoreboard (reg s)) idx;
                   sb1 ← store (scoreboard (reg s)) idx
                          {| client_id := client_id e; score := pts; active := 0 |};
                   Some sb1) = Some (scoreboard r) /\
                  next_client_id r = next_client_id (reg s)).
    { destruct (slot _ idx) as [e|]; [|done]. simpl in *.
      destruct (store _ idx _) as [sb1|]; [|done]. simpl in *.
      by injection Hr as <-. }
    destruct Hr' as [Hsb Hn].
    apply (set_entry_Some _ _
             (fun e => {| client_id := client_id e; score := pts; active := 0 |}))
      in Hsb as (e & He & Hsb); [|done].
    split; simpl; rewrite ?length_insert, ?Hn, ?Hsb, ?length_insert.
    + apply Hinv.
    + apply Hinv.
    + intros w1 id1 idx1 st1 [Hne H1]%Hnew.
      destruct (pinv_own s Hinv _ _ _ _ H1) as [? [?|(? & e1 & He1 & ?)]];
        (split; [done|]); [by left|]. right. split; [done|]. exists e1.
      split; [|done]. rewrite list_lookup_insert_ne; [done|].
      intros E. apply (pinv_slots s w w1 id id1 idx idx1 st st1); auto. lia.
    + intros w1 w2 id1 id2 idx1 idx2 st1 st2 Hne [_ H1]%Hnew [_ H2]%Hnew.
      by eapply (pinv_ids s Hinv w1 w2).
    + intros i e1 He1 Ha. destruct (decide (i = Z.to_nat idx)) as [->|Hi].
      * rewrite list_lookup_insert_eq in He1 by (by eapply lookup_lt_Some).
        by injection He1 as <-.
      * rewrite list_lookup_insert_ne in He1 by done.
        destruct (pinv_active s Hinv _ _ He1 Ha) as [w1 Hown].
        exists w1. apply Hfwd; [|done]. intros ->.
        destruct Hown as (id1 & st1 & H1). rewrite Hw in H1. injection H1 as _ E _.
        lia.
    + intros i Hi. destruct Hmine as [?|[? _]]; [lia|].
      rewrite list_lookup_insert_ne by lia. by apply Hinv.
    + intros HN w1 id1 idx1 st1 [_ H1]%Hnew. by eapply (pinv_found s Hinv).
  - injection Hr as <-.
    split; simpl; rewrite ?length_insert.
    + apply Hinv.
    + apply Hinv.
    + intros w1 id1 idx1 st1 [Hne H1]%Hnew. by eapply (pinv_own s Hinv).
    + intros w1 w2 id1 id2 idx1 idx2 st1 st2 Hne [_ H1]%Hnew [_ H2]%Hnew.
      by eapply (pinv_ids s Hinv w1 w2).
    + intros i e1 He1 Ha. destruct (pinv_active s Hinv _ _ He1 Ha) as [w1 Hown].
      exists w1. apply Hfwd; [|done]. intros ->.
      destruct Hown as (id1 & st1 & H1). rewrite Hw in H1. injection H1 as _ E _.
      lia.
    + apply Hinv.
    + intros HN w1 id1 idx1 st1 [_ H1]%Hnew. by eapply (pinv_found s Hinv).
Qed.

Lemma pinv_step l s s' : pool_inv s -> step l s = Some s' -> pool_inv s'.
Proof.
  destruct l; eauto using pinv_register, pinv_update, pinv_finalize.
Qed.

Lemma pinv_run ls : forall s s', pool_inv s -> run ls s = Some s' -> pool_inv s'.
Proof.
  induction ls as [|l ls IH]; simpl; intros s s' Hinv H.
  - by injection H as <-.
  - destruct (step l s) as [s1|] eqn:E; [|done]. simpl in H.
    eapply IH; [|exact H]. by eapply pinv_step.
Qed.

Lemma pool_reachable_inv n s : reachable n s -> pool_inv s /\ length (workers s) = n.
Proof.
  intros [ls H]. split; [eapply pinv_run; [apply pinv_init|exact H]|].
  assert (Hlen : forall ls s s', run ls s = Some s' ->
                   length (workers s') = length (workers s)).
  { clear. induction ls as [|l ls IH]; simpl; intros s s' H.
    - by injection H as <-.
    - destruct (step l s) as [s1|] eqn:E; [|done]. simpl in H.
      rewrite (IH _ _ H). destruct l; simpl in E;
        destruct (workers s !! w) as [[|]|]; try done.
      + destruct (register _) as [[[? ?] ?]|]; [|done]. simpl in E.
        injection E as <-. simpl. by rewrite length_insert.
      + destruct (set_score _ _ _); [|done]. simpl in E.
        injection E as <-. simpl. by rewrite length_insert.
      + destruct (finalize _ _ _); [|done]. simpl in E.
        injection E as <-. simpl. by rewrite length_insert. }
  rewrite (Hlen _ _ _ H). simpl. by rewrite length_replicate.
Qed.
End RegistryFacts.

Module RegistryTheorems.
Import CInt CArray Scores Registry CIntFacts ScoresFacts RegistryFacts.
Local Open Scope Z_scope.

(** X15.  Each session has its own entry of the score board.  In every
    state the pool of workers can reach, a worker in a session that was
    given an entry finds it active, carrying its client number and the
    score it stored last, and no other session has that client number or
    that entry: a worker's updates never touch another client's score. *)
Theorem scoreboard_entry_owned max_games s w id idx st :
  reachable max_games s ->
  workers s !! w = Some (Playing id idx st) -> 0 <= idx ->
  (exists e, slot (scoreboard (reg s)) idx = Some e /\
     client_id e = id /\ active e <> 0 /\ score e = st) /\
  forall w' id' idx' st',
    w' <> w -> workers s !! w' = Some (Playing id' idx' st') ->
    id' <> id /\ idx' <> idx.
Proof.
  intros [Hinv _]%pool_reachable_inv Hw Hidx. split.
  - destruct (pinv_own s Hinv _ _ _ _ Hw) as [_ [?|(_ & e & He & ?)]]; [lia|].
    exists e. split; [|done]. by apply slot_Some.
  - intros w' id' idx' st' Hne Hw'. split.
    + by eapply (pinv_ids s Hinv w' w).
    + intros E. by eapply (pinv_slots s w w' id id' idx idx' st st'); eauto.
Qed.

Lemma scoreboard_entry_owned_witness :
  exists s,
    run [Register 0; Register 1; Update 1 30] (pool_init 2) = Some s /\
    (exists e, slot (scoreboard (reg s)) 1 = Some e /\
       client_id e = 2 /\ active e <> 0 /\ score e = 30) /\
    forall w' id' idx' st',
      w' <> 1%nat -> workers s !! w' = Some (Playing id' idx' st') ->
      id' <> 2 /\ idx' <> 1.
Proof.
  eexists. split; [vm_compute; reflexivity|].
  apply (scoreboard_entry_owned 2 _ 1 2 1 30).
  - exists [Register 0; Register 1; Update 1 30]. vm_compute. reflexivity.
  - reflexivity.
  - lia.
Defined.

(** X16.  With at most a hundred workers, registration never fails:
    whenever an idle worker registers a client (and the client counter
    has not reached [INT_MAX]) the search finds an entry that is not
    active, and its index is below the number of workers. *)
Theorem registration_finds_entry max_games s w :
  (max_games <= 100)%nat -> reachable max_games s ->
  workers s !! w = Some Idle -> next_client_id (reg s) < INT_MAX ->
  exists s' idx,
    step (Register w) s = Some s' /\
    workers s' !! w = Some (Playing (next_client_id (reg s)) idx 0) /\
    0 <= idx < Z.of_nat max_games.
Proof.
  intros Hmax [Hinv Hlen]%pool_reachable_inv Hw Hnext.
  assert (Hstep : exists s', step (Register w) s = Some s').
  { simpl. rewrite Hw. unfold register.
    destruct (Z.ltb_spec (next_client_id (reg s)) INT_MAX); [|lia].
    destruct (claim_defined (next_client_id (reg s)) (scoreboard (reg s))
                (Z.to_nat MAX_SCOREBOARD) 0) as [[sb idx] ->]; [lia| |by eexists].
    rewrite (pinv_len s Hinv). lia. }
  destruct Hstep as [s' Hs']. pose proof (pinv_step _ _ _ Hinv Hs') as Hinv'.
  assert (Hw' : exists idx,
            workers s' !! w = Some (Playing (next_client_id (reg s)) idx 0) /\
            length (workers s') = length (workers s)).
  { simpl in Hs'. rewrite Hw in Hs'. unfold register in Hs'.
    destruct (next_client_id (reg s) <? INT_MAX); [|done].
    destruct (claim _ _ _ _) as [[sb idx]|]; [|done]. simpl in Hs'.
    injection Hs' as <-. exists idx. simpl. rewrite length_insert. split; [|done].
    apply list_lookup_insert_eq. by eapply lookup_lt_Some. }
  destruct Hw' as (idx & Hw' & Hlen').
  exists s', idx. split; [done|]. split; [done|].
  assert (Hne : idx <> -1).
  { eapply (pinv_found s' Hinv'); [|exact Hw']. unfold MAX_SCOREBOARD. lia. }
  destruct (pinv_own s' Hinv' _ _ _ _ Hw') as [_ [?|[? _]]]; [done|lia].
Qed.

Lemma registration_finds_entry_witness :
  exists s' idx,
    step (Register 1) (pool_init 2) = Some s' /\
    workers s' !! 1%nat = Some (Playing 1 idx 0) /\ 0 <= idx < 2.
Proof.
  apply (registration_finds_entry 2 (pool_init 2) 1).
  - lia.
  - by exists [].
  - reflexivity.
  - reflexivity.
Defined.

Lemma filter_length_perm {A} (f : A -> bool) (l l' : list A) :
  l ≡ₚ l' -> length (List.filter f l) = length (List.filter f l').
Proof.
  induction 1 as [|x l l' _ IH|x y l|l1 l2 l3 _ IH1 _ IH2]; simpl.
  - done.
  - destruct (f x); simpl; by rewrite IH.
  - by destruct (f x), (f y).
  - by rewrite IH1.
Qed.

Lemma filter_length_le {A} (f : A -> bool) (l : list A) :
  (length (List.filter f l) <= length l)%nat.
Proof. induction l as [|x l IH]; simpl; [done|]. destruct (f x); simpl; lia. Qed.

(** X17.  The score board remembers no more clients than there are
    workers.  Registration takes the lowest entry that is not active, so
    the entries from index [max_games] on are never written, a finished
    client's score lasts only until its entry is taken again, and the
    report of the top five lists at most [max_games] clients. *)
Theorem report_lists_at_most_max_games qsort max_games s :
  qsort_contract qsort -> reachable max_games s ->
  (forall i, (max_games <= i < 100)%nat ->
     scoreboard (reg s) !! i = Some zero_entry) /\
  (length (listed (report qsort (scoreboard (reg s)))) <= max_games)%nat.
Proof.
  intros Hq [Hinv Hlen]%pool_reachable_inv.
  assert (Hrest : forall i, (max_games <= i < 100)%nat ->
            scoreboard (reg s) !! i = Some zero_entry).
  { intros i Hi. apply (pinv_rest s Hinv). rewrite Hlen. unfold MAX_SCOREBOARD. lia. }
  split; [done|].
  set (sb := scoreboard (reg s)) in *.
  rewrite listed_report, report_loop_listed by lia.
  rewrite length_take.
  set (sorted := qsort compare_scores sb).
  assert (H1 : (length (List.filter qualifies (take (Z.to_nat (MAX_SCOREBOARD - 0)) sorted))
                <= length (List.filter qualifies sorted))%nat).
  { rewrite <- (take_drop (Z.to_nat (MAX_SCOREBOARD - 0)) sorted) at 2.
    rewrite List.filter_app, length_app. lia. }
  assert (H2 : length (List.filter qualifies sorted)
               = length (List.filter qualifies sb)).
  { apply filter_length_perm. apply Hq. }
  assert (H3 : (length (List.filter qualifies sb) <= max_games)%nat).
  { rewrite <- (take_drop max_games sb), List.filter_app, length_app.
    assert (Hz : List.filter qualifies (drop max_games sb) = []).
    { assert (Hall : Forall (fun e => e = zero_entry) (drop max_games sb)).
      { apply Forall_lookup. intros i e He. rewrite lookup_drop in He.
        assert (Hi : (max_games + i < 100)%nat).
        { apply lookup_lt_Some in He. pose proof (pinv_len s Hinv) as Hl.
          fold sb in Hl. unfold MAX_SCOREBOARD in Hl. lia. }
        rewrite Hrest in He by lia. by injection He as <-. }
      induction Hall as [|e l -> _ IH]; [done|]. simpl. exact IH. }
    rewrite Hz. simpl.
    pose proof (filter_length_le qualifies (take max_games sb)).
    rewrite length_take in *. lia. }
  lia.
Qed.

Lemma report_lists_at_most_max_games_witness :
  exists s,
    demo_pool = Some s /\
    (length (listed (report insertion_sort (scoreboard (reg s)))) <= 2)%nat.
Proof.
  eexists. split; [reflexivity|].
  apply (report_lists_at_most_max_games insertion_sort 2).
  - apply insertion_sort_contract.
  - exists demo_labels. vm_compute. reflexivity.
Defined.

(** X18.  A finished score is overwritten by the next client.  When an
    idle worker registers a client, the entry it takes is the first one
    that is not active, whatever that entry holds: if it is the entry of
    a finished game, its client number and score are replaced by the new
    client's number and 0, and nothing else on the score board changes. *)
Theorem registration_overwrites_finished max_games s w (i : nat) e :
  reachable max_games s -> workers s !! w = Some Idle ->
  next_client_id (reg s) < INT_MAX ->
  scoreboard (reg s) !! i = Some e -> active e = 0 ->
  (forall j e', (j < i)%nat -> scoreboard (reg s) !! j = Some e' -> active e' <> 0) ->
  exists s',
    step (Register w) s = Some s' /\
    workers s' !! w = Some (Playing (next_client_id (reg s)) (Z.of_nat i) 0) /\
    scoreboard (reg s')
    = <[i := {| client_id := next_client_id (reg s); score := 0; active := 1 |}]>
        (scoreboard (reg s)).
Proof.
  intros [Hinv Hlen]%pool_reachable_inv Hw Hnext He Ha Hbelow.
  simpl. rewrite Hw. unfold register.
  destruct (Z.ltb_spec (next_client_id (reg s)) INT_MAX); [|lia].
  destruct (claim_defined (next_client_id (reg s)) (scoreboard (reg s))
              (Z.to_nat MAX_SCOREBOARD) 0) as [[sb idx] Hc]; [lia| |].
  { rewrite (pinv_len s Hinv). lia. }
  rewrite Hc. simpl. eexists. split; [done|]. simpl.
  pose proof (lookup_lt_Some _ _ _ He) as Hi. rewrite (pinv_len s Hinv) in Hi.
  unfold MAX_SCOREBOARD in Hi.
  apply claim_spec in Hc; [|lia].
  assert (Hidx : idx = Z.of_nat i).
  { destruct Hc as [(_ & _ & Hall)|(Hr & (e0 & He0 & Ha0) & _ & Hall)].
    - destruct (Hall (Z.of_nat i)) as (e1 & He1 & Ha1);
        [unfold MAX_SCOREBOARD; lia|].
      rewrite Nat2Z.id, He in He1. by injection He1 as <-.
    - destruct (Z.lt_trichotomy idx (Z.of_nat i)) as [Hlt|[?|Hgt]]; [|done|].
      + exfalso. apply (Hbelow (Z.to_nat idx) e0); [lia|done|done].
      + destruct (Hall (Z.of_nat i)) as (e1 & He1 & Ha1); [lia|].
        rewrite Nat2Z.id, He in He1. by injection He1 as <-. }
  subst idx. split.
  - apply list_lookup_insert_eq. by eapply lookup_lt_Some.
  - destruct Hc as [(? & _)|(_ & _ & -> & _)]; [lia|]. by rewrite Nat2Z.id.
Qed.

Lemma registration_overwrites_finished_witness :
  exists s s',
    run [Register 0; Update 0 50; Finalize 0 50] (pool_init 2) = Some s /\
    scoreboard (reg s) !! 0%nat = Some (entry 1 50 0) /\
    step (Register 1) s = Some s' /\
    scoreboard (reg s') !! 0%nat = Some (entry 2 0 1).
Proof.
  eexists. 
  destruct (registration_overwrites_finished 2
              {| reg := {| scoreboard := <[0%nat := entry 1 50 0]>
                                           (replicate 100 zero_entry);
                           next_client_id := 2 |};
                 workers := [Idle; Idle] |} 1 0 (entry 1 50 0))
    as (s' & Hs' & _ & Hsb).
  - exists [Register 0; Update 0 50; Finalize 0 50]. vm_compute. reflexivity.
  - reflexivity.
  - reflexivity.
  - reflexivity.
  - reflexivity.
  - intros j e' Hj. lia.
  - exists s'. split; [vm_compute; reflexivity|]. split; [reflexivity|].
    split; [exact Hs'|]. rewrite Hsb. reflexivity.
Defined.
End RegistryTheorems.

Module LevelsMore.
Import CInt Board Levels LevelsFacts.
Local Open Scope Z_scope.

Lemma prefix_true_iff (n h : string) :
  String.prefix n h = true <-> exists post, h = (n ++ post)%string.
Proof.
  revert h. induction n as [|c n IH]; intros h; simpl.
  - split; [intros _; by exists h|intros _; by destruct h].
  - destruct h as [|c' h]; simpl; [split; [done|by intros [? ?]]|].
    destruct (ascii_dec c c') as [->|Hne].
    + rewrite IH. split; intros [post E]; exists post; congruence.
    + split; [done|]. intros [post E]. congruence.
Qed.

Lemma strstr_true_iff (h n : string) :
  strstr h n = true <-> exists pre post, h = (pre ++ n ++ post)%string.
Proof.
  induction h as [|c h IH]; cbn [strstr].
  - rewrite orb_false_r, prefix_true_iff. split.
    + intros [post E]. by exists EmptyString, post.
    + intros (pre & post & E). destruct pre; [eauto|discriminate].
  - rewrite orb_true_iff, prefix_true_iff, IH. split.
    + intros [[post E]|(pre & post & E)].
      * by exists EmptyString, post.
      * exists (String c pre), post. simpl. by rewrite E.
    + intros (pre & post & E). destruct pre as [|c' pre]; simpl in E.
      * left. eauto.
      * right. exists pre, post. congruence.
Qed.

(** X19.  Which directory entries count as stage files: exactly those
    whose name contains [".lvl"] or [".txt"] somewhere, not only as its
    ending (so a name such as [notes.txt.bak] is taken for a stage). *)
Theorem level_name_is_substring_match d_name :
  is_level_name d_name = true <->
  exists pre post,
    d_name = (pre ++ ".lvl" ++ post)%string \/
    d_name = (pre ++ ".txt" ++ post)%string.
Proof.
  unfold is_level_name. rewrite orb_true_iff, !strstr_true_iff. split.
  - intros [(pre & post & E)|(pre & post & E)]; exists pre, post; auto.
  - intros (pre & post & [E|E]); [left|right]; eauto.
Qed.

(** X20.  How a session walks through its stages.  Every stage played
    was loaded without error; a stage is followed by the next one only
    if [run_game_logic] returned [NEXT_LEVEL] for it; and when the
    session ends before the last stage file, either the stage played
    last returned something else, or the next file failed to load (and
    no later file is tried). *)
Theorem run_levels_until stage files :
  let played := run_levels stage 0 files NEXT_LEVEL in
  (forall i f, played !! i = Some f ->
     files !! i = Some f /\ fst (stage i f) = 0) /\
  (forall i f, played !! i = Some f -> (S i < length played)%nat ->
     snd (stage i f) = NEXT_LEVEL) /\
  ((length played < length files)%nat ->
   (exists f, files !! length played = Some f /\ fst (stage (length played) f) <> 0) \/
   (exists i f, length played = S i /\ played !! i = Some f /\
      snd (stage i f) <> NEXT_LEVEL)).
Proof.
  cut (forall files k r,
    let played := run_levels stage k files r in
    (forall i f, played !! i = Some f ->
       files !! i = Some f /\ fst (stage (k + i)%nat f) = 0) /\
    (forall i f, played !! i = Some f -> (S i < length played)%nat ->
       snd (stage (k + i)%nat f) = NEXT_LEVEL) /\
    (r = NEXT_LEVEL -> (length played < length files)%nat ->
     (exists f, files !! length played = Some f /\
        fst (stage (k + length played)%nat f) <> 0) \/
     (exists i f, length played = S i /\ played !! i = Some f /\
        snd (stage (k + i)%nat f) <> NEXT_LEVEL))).
  { intros Hgen. destruct (Hgen files 0%nat NEXT_LEVEL) as (H1 & H2 & H3).
    split; [exact H1|]. split; [exact H2|]. by apply H3. }
  clear files. induction files as [|f rest IH]; intros k r played.
  - subst played. simpl. split_and!; try done. simpl. lia.
  - subst played. simpl.
    destruct (Z.eqb_spec r NEXT_LEVEL) as [Hr|Hr].
    2:{ split_and!; try done. }
    destruct (stage k f) as [load_status result] eqn:Es.
    destruct (Z.eqb_spec load_status 0) as [Hl|Hl].
    2:{ split_and!; try done. intros _ _. left. exists f. simpl.
        rewrite Nat.add_0_r, Es. done. }
    destruct (IH (S k) result) as (H1 & H2 & H3). split_and!.
    + intros [|i] f'; simpl.
      * intros [= <-]. rewrite Nat.add_0_r, Es. done.
      * intros Hi. destruct (H1 _ _ Hi) as [? ?].
        by replace (k + S i)%nat with (S k + i)%nat by lia.
    + intros [|i] f'; simpl.
      * intros [= <-] Hlen. rewrite Nat.add_0_r, Es. simpl.
        destruct rest as [|f2 rest]; [simpl in Hlen; lia|]. simpl in Hlen.
        destruct (Z.eqb_spec result NEXT_LEVEL); [done|]. simpl in Hlen. lia.
      * intros Hi Hlen.
        replace (k + S i)%nat with (S k + i)%nat by lia. apply H2; [done|lia].
    + intros _ Hlen. simpl in Hlen.
      destruct (Z.eqb_spec result NEXT_LEVEL) as [Hres|Hres].
      * destruct H3 as [(f' & Hf' & Hs)|(i & f' & Hi & Hp & Hs)]; [done|lia| |].
        -- left. exists f'. simpl. split; [done|].
           by replace (k + S (length (run_levels stage (S k) rest result)))%nat
             with (S k + length (run_levels stage (S k) rest result))%nat by lia.
        -- right. exists (S i), f'. simpl. split; [lia|]. split; [done|].
           by replace (k + S i)%nat with (S k + i)%nat by lia.
      * right. exists 0%nat, f. simpl.
        assert (Hnil : run_levels stage (S k) rest result = []).
        { destruct rest; simpl; [done|].
          by destruct (Z.eqb_spec result NEXT_LEVEL). }
        rewrite Hnil. simpl. split; [done|]. split; [done|].
        rewrite Nat.add_0_r, Es. done.
Qed.
End LevelsMore.

Module ParseFacts.
Import CInt Parse.
Local Open Scope Z_scope.

(** A plain line is read up to its newline. *)
Lemma read_line_raw_plain max_len l : forall buffer rest,
  Z.of_nat (length buffer + length l) < max_len - 1 ->
  (NL ∉ l) -> (CR ∉ l) ->
  read_line_raw (l ++ NL :: rest) max_len buffer = (buffer ++ l, rest).
Proof.
  induction l as [|c l IH]; intros buffer rest Hlen Hnl Hcr; simpl.
  - destruct (Z.ltb_spec (Z.of_nat (length buffer)) (max_len - 1)); [|lia].
    by rewrite app_nil_r.
  - simpl in Hlen.
    destruct (Z.ltb_spec (Z.of_nat (length buffer)) (max_len - 1)); [|lia].
    apply not_elem_of_cons in Hnl as [Hnl1 Hnl], Hcr as [Hcr1 Hcr].
    destruct (Ascii.eqb_spec c NL); [done|].
    destruct (Ascii.eqb_spec c CR); [done|].
    rewrite IH; [by rewrite <- app_assoc|rewrite length_app; simpl; lia|done|done].
Qed.

(** What is read is taken from the input. *)
Lemma read_line_raw_consumes max_len input : forall buffer line rest,
  read_line_raw input max_len buffer = (line, rest) ->
  (length rest + (length line - length buffer) <= length input)%nat /\
  (length buffer <= length line)%nat.
Proof.
  induction input as [|c input IH]; intros buffer line rest; simpl.
  - intros [= <- <-]. simpl. lia.
  - destruct (Z.of_nat (length buffer) <? max_len - 1).
    + destruct (Ascii.eqb c NL); [intros [= <- <-]; simpl; lia|].
      destruct (Ascii.eqb c CR).
      * intros H%IH. lia.
      * intros H%IH. rewrite length_app in H. simpl in H. lia.
    + intros [= <- <-]. simpl. lia.
Qed.

(** More fuel than bytes is enough, and then the amount does not matter. *)
Lemma read_effective_loop_fuel max_len : forall fuel input fuel',
  (length input < fuel)%nat -> (length input < fuel')%nat ->
  is_Some (read_effective_loop fuel input max_len) /\
  read_effective_loop fuel input max_len = read_effective_loop fuel' input max_len.
Proof.
  induction fuel as [|fuel IH]; intros input fuel' Hf Hf'; [lia|].
  destruct fuel' as [|fuel']; [lia|]. simpl.
  destruct (read_line_raw input max_len []) as [line rest] eqn:E.
  apply read_line_raw_consumes in E as [E _]. simpl in E.
  destruct (Z.ltb_spec 0 (Z.of_nat (length line))); [|done].
  destruct (is_comment_or_empty line); simpl; [|done].
  apply IH; lia.
Qed.

Lemma read_effective_line_unfold input max_len :
  read_effective_line input max_len
  = let '(buffer, rest) := read_line_raw input max_len [] in
    if 0 <? Z.of_nat (length buffer) then
      if negb (is_comment_or_empty buffer) then
        Some (Z.of_nat (length buffer), buffer, rest)
      else read_effective_line rest max_len
    else Some (Z.of_nat (length buffer), buffer, rest).
Proof.
  unfold read_effective_line at 1. cbn [read_effective_loop].
  destruct (read_line_raw input max_len []) as [line rest] eqn:E.
  apply read_line_raw_consumes in E as [E _]. simpl in E.
  destruct (Z.ltb_spec 0 (Z.of_nat (length line))); [|done].
  destruct (is_comment_or_empty line); simpl; [|done].
  unfold read_effective_line. apply read_effective_loop_fuel; lia.
Qed.

(** Comment lines and blank (but not empty) lines are stepped over. *)
Lemma read_effective_line_skips max_len skipped input :
  Forall (fun l => plain_line max_len l /\ l <> [] /\ is_comment_or_empty l = true)
    skipped ->
  read_effective_line (file_text skipped ++ input) max_len
  = read_effective_line input max_len.
Proof.
  induction 1 as [|l skipped ((Hlen & Hnl & Hcr) & Hne & Hc) _ IH]; [done|].
  unfold file_text. simpl. rewrite <- !app_assoc. simpl.
  rewrite read_effective_line_unfold.
  rewrite read_line_raw_plain by (simpl; try lia; done). simpl.
  destruct (Z.ltb_spec 0 (Z.of_nat (length l))).
  - rewrite Hc. simpl. exact IH.
  - destruct l; [done|simpl in *; lia].
Qed.

(** X21.  [read_effective_line] steps over comment lines and lines of
    blanks, and returns the first line that is neither, with its length;
    but it returns 0 both at the end of the file and at the first empty
    line, leaving what follows the empty line unread: to a caller that
    loops while the result is positive, an empty line ends the file.  It
    returns for every input. *)
Theorem read_effective_line_spec max_len skipped :
  1 < max_len ->
  Forall (fun l => plain_line max_len l /\ l <> [] /\ is_comment_or_empty l = true)
    skipped ->
  (forall l rest,
     plain_line max_len l -> is_comment_or_empty l = false ->
     read_effective_line (file_text skipped ++ l ++ NL :: rest) max_len
     = Some (Z.of_nat (length l), l, rest)) /\
  (forall rest,
     read_effective_line (file_text skipped ++ NL :: rest) max_len
     = Some (0, [], rest)) /\
  read_effective_line (file_text skipped) max_len = Some (0, [], []) /\
  (forall input, is_Some (read_effective_line input max_len)).
Proof.
  intros Hmax Hskip. split_and!.
  - intros l rest (Hlen & Hnl & Hcr) Hc.
    rewrite read_effective_line_skips by done.
    rewrite read_effective_line_unfold.
    rewrite read_line_raw_plain by (simpl; try lia; done). simpl.
    rewrite Hc. simpl. destruct (Z.ltb_spec 0 (Z.of_nat (length l))); done.
  - intros rest. rewrite read_effective_line_skips by done.
    rewrite read_effective_line_unfold.
    change (NL :: rest) with ([] ++ NL :: rest).
    rewrite read_line_raw_plain; [done|simpl; lia|apply not_elem_of_nil..].
  - rewrite <- (app_nil_r (file_text skipped)).
    by rewrite read_effective_line_skips.
  - intros input. unfold read_effective_line.
    apply (read_effective_loop_fuel max_len _ input (S (length input))); lia.
Qed.

Lemma read_effective_line_spec_witness :
  read_effective_line demo_file 1024 = Some (0, [], list_ascii_of_string "DIM 3 4" ++ [NL]).
Proof.
  assert (Hskip :
    Forall (fun l => plain_line 1024 l /\ l <> [] /\ is_comment_or_empty l = true)
      [list_ascii_of_string "# stage one"]).
  { constructor; [|constructor]. split; [|split; [discriminate|reflexivity]].
    split; [simpl; lia|]. split; intros H; vm_compute in H;
      repeat (apply elem_of_cons in H as [H|H]; [discriminate|]);
      by apply elem_of_nil in H. }
  exact (proj1 (proj2 (read_effective_line_spec 1024 _ ltac:(lia) Hskip)) _).
Defined.
End ParseFacts.

Module PlacementFacts.
Import CInt CArray Board Placement CIntFacts BoardFacts BoardShape BoardMore.
Local Open Scope Z_scope.

Lemma is_playable_cell_defined b x y :
  well_formed b -> is_Some (is_playable_cell b x y).
Proof.
  intros Hwf. unfold is_playable_cell.
  destruct (is_valid_position b x y) eqn:Ev; simpl; [|done].
  destruct (index_in_grid _ _ _ Hwf Ev) as [c ->]. simpl.
  destruct (_ || _); [done|]. by destruct (negb _).
Qed.

Lemma is_playable_cell_valid b x y :
  is_playable_cell b x y = Some true -> is_valid_position b x y = true.
Proof.
  unfold is_playable_cell. by destruct (is_valid_position b x y).
Qed.

(** Playability looks at the grid and its dimensions only. *)
Lemma is_playable_cell_ext b b' x y :
  board b' = board b -> width b' = width b -> height b' = height b ->
  is_playable_cell b' x y = is_playable_cell b x y.
Proof.
  intros Eb Ew Eh. unfold is_playable_cell, is_valid_position, get_board_index.
  by rewrite Eb, Ew, Eh.
Qed.

(** The scan of a row returns its leftmost playable cell from [col] on. *)
Lemma find_in_row_spec b row : forall n col,
  well_formed b ->
  exists r, find_in_row b row col n = Some r /\
    match r with
    | Some (x, y) =>
        y = row /\ col <= x < col + Z.of_nat n /\
        is_playable_cell b x y = Some true /\
        forall x', col <= x' < x -> is_playable_cell b x' row = Some false
    | None =>
        forall x, col <= x < col + Z.of_nat n -> is_playable_cell b x row = Some false
    end.
Proof.
  induction n as [|n IH]; intros col Hwf; simpl.
  - exists None. split; [done|]. lia.
  - destruct (is_playable_cell_defined b col row Hwf) as [[|] Hp]; rewrite Hp; simpl.
    + exists (Some (col, row)). split; [done|]. split; [done|].
      split; [lia|]. split; [done|]. lia.
    + destruct (IH (col + 1) Hwf) as (r & -> & Hr). exists r. split; [done|].
      destruct r as [[x y]|].
      * destruct Hr as (-> & Hx & Hplay & Hleft). split; [done|]. split; [lia|].
        split; [done|]. intros x' Hx'.
        destruct (decide (x' = col)) as [->|]; [done|]. apply Hleft. lia.
      * intros x Hx. destruct (decide (x = col)) as [->|]; [done|]. apply Hr. lia.
Qed.

(** The scan of the rows returns the first playable cell in row-major
    order. *)
Lemma find_in_rows_spec b : forall m row,
  well_formed b ->
  exists r, find_in_rows b row m = Some r /\
    match r with
    | Some (x, y) =>
        is_playable_cell b x y = Some true /\
        forall x' y', 0 <= x' < width b -> row <= y' -> before x' y' x y ->
          is_playable_cell b x' y' = Some false
    | None =>
        forall x y, 0 <= x < width b -> row <= y < row + Z.of_nat m ->
          is_playable_cell b x y = Some false
    end.
Proof.
  induction m as [|m IH]; intros row Hwf; simpl.
  - exists None. split; [done|]. lia.
  - destruct (find_in_row_spec b row (Z.to_nat (width b)) 0 Hwf) as (r0 & -> & Hr0).
    simpl. destruct r0 as [[x y]|].
    + exists (Some (x, y)). split; [done|].
      destruct Hr0 as (-> & Hx & Hplay & Hleft). split; [done|].
      intros x' y' Hx' Hy' [Hlt|[-> Hlt]]; [lia|]. apply Hleft. lia.
    + destruct (IH (row + 1) Hwf) as (r & -> & Hr). exists r. split; [done|].
      destruct r as [[x y]|].
      * destruct Hr as [Hplay Hfirst]. split; [done|].
        intros x' y' Hx' Hy' Hb.
        destruct (decide (y' = row)) as [->|]; [apply Hr0; lia|].
        apply Hfirst; [done|lia|done].
      * intros x y Hx Hy.
        destruct (decide (y = row)) as [->|]; [apply Hr0; lia|]. apply Hr; lia.
Qed.

Lemma set_pos_same pac : set_pos (pos_x pac) (pos_y pac) pac = pac.
Proof. by destruct pac. Qed.

Lemma set_pacmans_same b : set_pacmans (pacmans b) b = b.
Proof. by destruct b. Qed.

(** The last step of the placement: the mark on the pacman's cell. *)
Lemma mark_pacman b b1 x y :
  well_formed b -> is_playable_cell b x y = Some true ->
  board b1 = board b -> width b1 = width b -> height b1 = height b ->
  exists cl,
    slot (board b) (get_board_index b x y) = Some cl /\
    (is_playable_cell b1 x y ≫= fun p1 : bool =>
     if p1 then put_content b1 (iadd (imul y (width b1)) x) "C" else Some b1)
    = Some (set_board
              (<[Z.to_nat (get_board_index b x y) := set_content "C" cl]> (board b))
              b1).
Proof.
  intros Hwf Hplay Eb Ew Eh.
  rewrite (is_playable_cell_ext b b1) by done. rewrite Hplay. simpl.
  pose proof (is_playable_cell_valid _ _ _ Hplay) as Hv.
  destruct (index_in_grid _ _ _ Hwf Hv) as [cl Hcl]. exists cl. split; [done|].
  rewrite Ew. fold (get_board_index b x y).
  assert (Hcl1 : slot (board b1) (get_board_index b x y) = Some cl) by (by rewrite Eb).
  rewrite (put_content_defined _ _ _ _ Hcl1). by rewrite Eb.
Qed.

(** X22.  [load_level] puts the pacman on the grid.  On a stage whose
    grid has [width * height] cells, the placement returns.  Unless no
    cell of the grid is playable (then nothing at all is changed), the
    stage afterwards is the stage before with two assignments and no
    other change: pacman 0 has the position [(x, y)], every other field
    of it and every other pacman as before; the cell [(x, y)] has the
    content ['C'], its dot and portal flags and every other cell as
    before.  The cell [(x, y)] is on the grid and was playable (no
    wall, no agent, no portal); it is the pacman's own cell when that
    was playable, and otherwise the first playable cell in row-major
    order. *)
Theorem place_pacman_spec b pac :
  well_formed b -> slot (pacmans b) 0 = Some pac ->
  exists b',
    place_pacman b = Some b' /\ same_frame b b' /\ well_formed b' /\
    ((exists x y cl,
        is_valid_position b x y = true /\
        is_playable_cell b x y = Some true /\
        slot (board b) (get_board_index b x y) = Some cl /\
        b' = set_board
               (<[Z.to_nat (get_board_index b x y) := set_content "C" cl]> (board b))
               (set_pacmans (<[0%nat := set_pos x y pac]> (pacmans b)) b) /\
        slot (pacmans b') 0 = Some (set_pos x y pac) /\
        slot (board b') (get_board_index b' x y) = Some (set_content "C" cl) /\
        (is_playable_cell b (pos_x pac) (pos_y pac) = Some true ->
         x = pos_x pac /\ y = pos_y pac) /\
        (is_playable_cell b (pos_x pac) (pos_y pac) = Some false ->
         forall x' y',
           is_valid_position b x' y' = true -> y' < y \/ (y' = y /\ x' < x) ->
           is_playable_cell b x' y' = Some false)) \/
     (no_playable_cell b /\ b' = b)).
Proof.
  intros Hwf Hpac. unfold place_pacman. rewrite Hpac. simpl.
  pose proof (slot_lt _ _ _ Hpac) as Hlen.
  assert (Hdone : forall x y cl,
    is_playable_cell b x y = Some true ->
    slot (board b) (get_board_index b x y) = Some cl ->
    let b' := set_board
                (<[Z.to_nat (get_board_index b x y) := set_content "C" cl]> (board b))
                (set_pacmans (<[0%nat := set_pos x y pac]> (pacmans b)) b) in
    same_frame b b' /\ well_formed b' /\
    is_valid_position b x y = true /\
    slot (pacmans b') 0 = Some (set_pos x y pac) /\
    slot (board b') (get_board_index b' x y) = Some (set_content "C" cl)).
  { intros x y cl Hplay Hcl b'.
    pose proof (is_playable_cell_valid _ _ _ Hplay) as Hv.
    pose proof (slot_lt _ _ _ Hcl) as Hlt. apply slot_Some in Hcl as [Hi Hcl].
    assert (F : same_frame b b').
    { eapply same_frame_trans; [apply (same_frame_pacmans b 0 (set_pos x y pac))|].
      by apply (same_frame_content (set_pacmans _ b)). }
    split; [done|]. split; [by eapply well_formed_frame|]. split; [done|].
    split.
    - apply (lookup_put b 0 _ _ Hpac).
    - apply slot_Some. split; [done|]. apply list_lookup_insert_eq. lia. }
  destruct (is_playable_cell_defined b (pos_x pac) (pos_y pac) Hwf) as [[|] Hp];
    rewrite Hp; simpl.
  - destruct (mark_pacman b b (pos_x pac) (pos_y pac) Hwf Hp) as (cl & Hcl & Hm);
      [done..|].
    eexists. split; [exact Hm|].
    assert (Eb : set_board
                   (<[Z.to_nat (get_board_index b (pos_x pac) (pos_y pac))
                      := set_content "C" cl]> (board b)) b
                 = set_board
                     (<[Z.to_nat (get_board_index b (pos_x pac) (pos_y pac))
                        := set_content "C" cl]> (board b))
                     (set_pacmans
                        (<[0%nat := set_pos (pos_x pac) (pos_y pac) pac]> (pacmans b)) b)).
    { assert (H0 : pacmans b !! 0%nat = Some pac)
        by (apply slot_Some in Hpac as [_ H0]; exact H0).
      by rewrite set_pos_same, (list_insert_id _ _ _ H0), set_pacmans_same. }
    rewrite Eb.
    destruct (Hdone _ _ _ Hp Hcl) as (F & Hwf' & Hv & Hp' & Hc').
    split; [done|]. split; [done|]. left.
    exists (pos_x pac), (pos_y pac), cl. split_and!; done.
  - unfold find_first_playable_cell.
    destruct (find_in_rows_spec b (Z.to_nat (height b)) 0 Hwf) as (r & -> & Hr).
    simpl. destruct r as [[fx fy]|].
    + destruct Hr as [Hplay Hfirst].
      rewrite (put_pacman_defined _ _ _ _ Hpac).
      destruct (mark_pacman b
                  (set_pacmans (<[Z.to_nat 0 := set_pos fx fy pac]> (pacmans b)) b)
                  fx fy Hwf Hplay) as (cl & Hcl & Hm); [done..|].
      eexists. split; [exact Hm|].
      destruct (Hdone _ _ _ Hplay Hcl) as (F & Hwf' & Hv & Hp' & Hc').
      split; [done|]. split; [done|]. left.
      exists fx, fy, cl. split_and!; try done.
      intros _ x' y' Hv' Hb. unfold is_valid_position in Hv'.
      apply Hfirst; [lia|lia|done].
    + simpl. rewrite Hp. simpl. exists b. split; [done|].
      split; [apply same_frame_refl|]. split; [done|]. right. split; [|done].
      intros x y Hv. unfold is_valid_position in Hv. apply Hr; lia.
Qed.

Lemma demo_placed_reached : place_pacman demo_unplaced = Some demo_placed.
Proof. vm_compute. reflexivity. Qed.

Lemma place_pacman_spec_witness :
  place_pacman demo_unplaced = Some demo_placed /\
  same_frame demo_unplaced demo_placed /\
  exists cl,
    slot (board demo_unplaced) 5 = Some cl /\
    demo_placed
    = set_board (<[5%nat := set_content "C" cl]> (board demo_unplaced))
        (set_pacmans [set_pos 1 1 (demo_pacman " ")] demo_unplaced).
Proof.
  split; [exact demo_placed_reached|].
  destruct (place_pacman_spec demo_unplaced (set_pos (-1) (-1) (demo_pacman " ")))
    as (b' & E & F & _ & _).
  - split; vm_compute; [discriminate|reflexivity].
  - reflexivity.
  - rewrite demo_placed_reached in E. injection E as <-.
    split; [exact F|]. eexists. split; reflexivity.
Defined.
End PlacementFacts.

Module LoadFacts.
Import CInt CArray Protocol Board Game Load CIntFacts BoardFacts GameFacts.
Local Open Scope Z_scope.

Lemma loaded_pacman_fields accumulated_points ms n p x y :
  let pac := loaded_pacman accumulated_points ms n p x y in
  next_user_move pac = NUL /\ alive pac = 1 /\ waiting pac = 0 /\
  current_move pac = 0 /\ points pac = accumulated_points /\
  n_moves pac = n /\ moves pac = ms /\ passo pac = p /\
  pos_x pac = x /\ pos_y pac = y.
Proof. by repeat split. Qed.

(** A command that is no direction is refused without a look at the
    grid. *)
Lemma move_pacman_nul b pac c rnd :
  slot (pacmans b) 0 = Some pac -> alive pac <> 0 -> waiting pac <= 0 ->
  command c = NUL ->
  move_pacman b 0 c PtrLocal rnd
  = Some (INVALID_MOVE,
          set_pacmans (<[0%nat := set_waiting (passo pac) pac]> (pacmans b)) b, c).
Proof.
  intros Hpac Ha Hw Hc. unfold move_pacman.
  change (0 <? 0) with false. cbv iota. rewrite Hpac. cbn [mbind option_bind].
  destruct (Z.eqb_spec (alive pac) 0); [done|].
  destruct (Z.ltb_spec 0 (waiting pac)); [lia|].
  cbn [load_command mbind option_bind]. rewrite Hc.
  change (toupper NUL) with NUL. cbn [Ascii.eqb Bool.eqb NUL Ascii.zero].
  cbn [mbind option_bind]. unfold switch_direction. cbn [Ascii.eqb Bool.eqb].
  unfold put_pacman, store. by rewrite Hpac.
Qed.

(** C5, at the input where the code departs from the claim: the first
    cycle of the pacman thread on a freshly loaded stage, with no key
    pressed yet.  [load_level] fills the pacman with zeros and assigns
    neither [' '] nor anything else to [next_user_move], so the
    mailbox holds NUL, which the test of line 237 takes for a pending
    command: whatever the script, the command chosen is NUL through
    the local [c], no entry of the script is consulted, the mailbox is
    reset to [' '], [move_pacman] returns [INVALID_MOVE] without
    touching the grid or the script counter, and the thread is at its
    flag test with that result.  With [' '] in the mailbox the same
    stage would have played the script's entry. *)
Theorem first_cycle_skips_script b accumulated_points ms n p x y rnd :
  slot (pacmans b) 0 = Some (loaded_pacman accumulated_points ms n p x y) ->
  exists c b1 b2 pac2,
    choose_command b = Some (c, PtrLocal, b1) /\
    c = {| command := NUL; turns := 0; turns_left := 0 |} /\
    move_pacman b1 0 c PtrLocal rnd = Some (INVALID_MOVE, b2, c) /\
    pacman_thread [Pacman rnd; Pacman rnd; Pacman rnd] PcTop b
    = Some (PcCheck INVALID_MOVE, b2) /\
    board b2 = board b /\
    slot (pacmans b2) 0 = Some pac2 /\
    next_user_move pac2 = NO_MOVE /\ current_move pac2 = 0 /\
    moves pac2 = ms /\ (pos_x pac2, pos_y pac2) = (x, y) /\
    points pac2 = accumulated_points /\
    (0 < n ->
     forall b0,
       write_mailbox NO_MOVE b = Some b0 ->
       choose_command b0 = Some (blank_command, PtrMove 0, b0)).
Proof.
  intros Hpac. pose proof (slot_lt _ _ _ Hpac) as Hlen.
  set (pac := loaded_pacman accumulated_points ms n p x y) in *.
  set (c := {| command := NUL; turns := 0; turns_left := 0 |}).
  set (pac1 := set_next_user_move " " pac).
  set (b1 := set_pacmans (<[0%nat := pac1]> (pacmans b)) b).
  set (pac2 := set_waiting p pac1).
  set (b2 := set_pacmans (<[0%nat := pac2]> (pacmans b1)) b1).
  assert (Hchoose : choose_command b = Some (c, PtrLocal, b1)).
  { unfold choose_command. rewrite Hpac. simpl.
    unfold put_pacman, store. by rewrite Hpac. }
  assert (Hpac1 : slot (pacmans b1) 0 = Some pac1).
  { apply slot_Some. split; [lia|]. apply list_lookup_insert_eq. lia. }
  assert (Hmove : move_pacman b1 0 c PtrLocal rnd = Some (INVALID_MOVE, b2, c)).
  { by rewrite (move_pacman_nul b1 pac1 c rnd Hpac1). }
  exists c, b1, b2, pac2. split; [exact Hchoose|]. split; [done|].
  split; [exact Hmove|]. split.
  { simpl. rewrite Hpac. simpl. rewrite Hchoose. simpl. by rewrite Hmove. }
  split; [done|]. split.
  { apply slot_Some. split; [lia|]. apply list_lookup_insert_eq.
    simpl. rewrite length_insert. lia. }
  split; [done|]. split; [done|]. split; [done|]. split; [done|]. split; [done|].
  intros Hn b0 (pac0 & Hs0 & ->)%write_mailbox_Some.
  rewrite Hpac in Hs0. injection Hs0 as <-.
  rewrite (choose_command_empty _ (set_next_user_move NO_MOVE pac)).
  - simpl. destruct (Z.ltb_spec 0 n); [|lia]. by rewrite Z.rem_0_l by lia.
  - apply slot_Some. split; [lia|]. apply list_lookup_insert_eq. lia.
  - done.
Qed.

Lemma first_cycle_skips_script_witness :
  exists b2,
    pacman_thread [Pacman 0; Pacman 0; Pacman 0] PcTop demo_loaded
    = Some (PcCheck INVALID_MOVE, b2) /\
    board b2 = board demo_loaded.
Proof.
  destruct (first_cycle_skips_script demo_loaded 0
              [{| command := "A"; turns := 1; turns_left := 1 |}] 1 0 1 1 0 eq_refl)
    as (c & b1 & b2 & pac2 & _ & _ & _ & Hrun & Hgrid & _).
  exists b2. split; [exact Hrun | exact Hgrid].
Defined.
End LoadFacts.

Module GhostFacts.
Import CInt CArray Board Ghost CIntFacts BoardFacts BoardShape BoardMore GhostShape.
Local Open Scope Z_scope.

Lemma spared_refl l : Forall2 spared_or_killed l l.
Proof. apply Forall2_same_length_lookup. split; [done|]. intros i x y ? ?. left. congruence. Qed.

Lemma ghost_effects_refl b : ghost_effects b b.
Proof. split; try done. apply spared_refl. Qed.

Lemma spared_trans p1 p2 p3 :
  spared_or_killed p1 p2 -> spared_or_killed p2 p3 -> spared_or_killed p1 p3.
Proof.
  intros [->|[Ha ->]] [->|[Ha' ->]]; [by left|by right|by right|simpl in Ha'; done].
Qed.

Lemma ghost_effects_trans b1 b2 b3 :
  ghost_effects b1 b2 -> ghost_effects b2 b3 -> ghost_effects b1 b3.
Proof.
  intros [F1 C1 L1 D1 P1] [F2 C2 L2 D2 P2]. split; try congruence.
  - by eapply same_frame_trans.
  - apply Forall2_same_length_lookup. apply Forall2_same_length_lookup in P1 as [E1 P1].
    apply Forall2_same_length_lookup in P2 as [E2 P2]. split; [congruence|].
    intros i x z Hx Hz.
    destruct (lookup_lt_is_Some_2 (pacmans b2) i) as [y Hy].
    { rewrite <- E1. by eapply lookup_lt_Some. }
    eapply spared_trans; eauto.
Qed.

Lemma put_content_effects b i ch b' :
  put_content b i ch = Some b' -> ghost_effects b b'.
Proof.
  intros H. pose proof (put_content_same_frame _ _ _ _ H) as F.
  pose proof (put_content_frame _ _ _ _ H) as (Hp & _ & _ & Hd & _).
  apply put_content_Some in H as (c & _ & ->).
  split; try done. simpl. apply spared_refl.
Qed.

(** Killing pacman [p] where it stands. *)
Lemma kill_effects b p pac b1 b2 :
  slot (pacmans b) p = Some pac -> alive pac <> 0 ->
  put_pacman b p (set_alive 0 pac) = Some b1 ->
  kill_pacman b1 p = Some b2 ->
  ghost_effects b b2 /\
  pacmans b2 = <[Z.to_nat p := set_alive 0 pac]> (pacmans b).
Proof.
  intros Hpac Halive E1 E2.
  pose proof (put_pacman_same_frame _ _ _ _ E1) as F1.
  pose proof (put_pacman_frame _ _ _ _ E1) as (Hb1 & Hw1 & _ & Hs1).
  apply put_pacman_Some in E1 as [Hp ->].
  unfold kill_pacman in E2. rewrite Hs1 in E2. simpl in E2.
  destruct (put_content _ _ _) as [b1'|] eqn:Ec; [|done]. simpl in E2.
  pose proof (put_content_effects _ _ _ _ Ec) as [F2 C2 L2 D2 P2].
  pose proof (put_content_frame _ _ _ _ Ec) as (Hp2 & _).
  pose proof (put_pacman_same_frame _ _ _ _ E2) as F3.
  apply put_pacman_Some in E2 as [_ ->]. simpl in *.
  assert (Hps : <[Z.to_nat p := set_alive 0 pac]> (pacmans b1')
                = <[Z.to_nat p := set_alive 0 pac]> (pacmans b)).
  { rewrite Hp2. simpl. by rewrite list_insert_insert_eq. }
  split; [|exact Hps]. split; simpl.
  - eauto using same_frame_trans.
  - by rewrite C2.
  - by rewrite L2.
  - unfold dots in *. simpl. by rewrite D2.
  - change (set_alive 0 (set_alive 0 pac)) with (set_alive 0 pac). rewrite Hps.
    apply Forall2_same_length_lookup. split; [by rewrite length_insert|].
    intros i x y Hx Hy. destruct (decide (i = Z.to_nat p)) as [->|Hne].
    + rewrite list_lookup_insert_eq in Hy by (by eapply lookup_lt_Some).
      apply slot_Some in Hpac as [_ Hpac]. right. split; congruence.
    + rewrite list_lookup_insert_ne in Hy by done. left. congruence.
Qed.

(** [find_and_kill_pacman] kills one live pacman standing on the
    cell, or does nothing. *)
Lemma find_and_kill_loop_inv b x y : forall n p r b',
  find_and_kill_loop b x y p n = Some (r, b') ->
  (r = VALID_MOVE /\ b' = b) \/
  (r = DEAD_PACMAN /\ ghost_effects b b' /\
   exists q pac,
     slot (pacmans b) q = Some pac /\ pos_x pac = x /\ pos_y pac = y /\
     alive pac <> 0 /\
     pacmans b' = <[Z.to_nat q := set_alive 0 pac]> (pacmans b)).
Proof.
  induction n as [|n IH]; intros p r b'; simpl.
  - intros [= <- <-]. by left.
  - destruct (slot (pacmans b) p) as [pac|] eqn:Hpac; [|done]. simpl.
    destruct (Z.eqb_spec (pos_x pac) x) as [Hx|]; simpl; [|apply IH].
    destruct (Z.eqb_spec (pos_y pac) y) as [Hy|]; simpl; [|apply IH].
    destruct (Z.eqb_spec (alive pac) 0) as [|Ha]; simpl; [apply IH|].
    destruct (put_pacman b p _) as [b1|] eqn:E1; [|done]. simpl.
    destruct (kill_pacman b1 p) as [b2|] eqn:E2; [|done]. simpl.
    intros [= <- <-]. right. split; [done|].
    destruct (kill_effects _ _ _ _ _ Hpac Ha E1 E2) as [He Hps].
    split; [done|]. exists p, pac. done.
Qed.

Lemma find_and_kill_effects b x y r b' :
  find_and_kill_pacman b x y = Some (r, b') ->
  ghost_effects b b' /\ (r = VALID_MOVE \/ r = DEAD_PACMAN).
Proof.
  intros [[-> ->]|(-> & He & _)]%find_and_kill_loop_inv.
  - split; [apply ghost_effects_refl|by left].
  - split; [done|by right].
Qed.

Lemma find_and_kill_outcome b x y r b' :
  find_and_kill_pacman b x y = Some (r, b') ->
  ghost_effects b b' /\ kill_outcome b x y r b' /\ r ∈ ghost_results.
Proof.
  intros [[-> ->]|(-> & He & Hk)]%find_and_kill_loop_inv.
  - split; [apply ghost_effects_refl|]. split; [by left|]. unfold ghost_results. in_list.
  - split; [done|]. split; [by right|]. unfold ghost_results. in_list.
Qed.

Lemma kill_outcome_none b x y r : r <> DEAD_PACMAN -> kill_outcome b x y r b.
Proof. intros. by left. Qed.

(** Later changes of contents keep the outcome. *)
Lemma kill_outcome_content b x y r b1 b2 :
  kill_outcome b x y r b1 -> pacmans b2 = pacmans b1 -> kill_outcome b x y r b2.
Proof.
  intros [[? E]|(-> & q & pac & ? & ? & ? & ? & E)] E2.
  - left. split; [done|congruence].
  - right. split; [done|]. exists q, pac. split_and!; try done. congruence.
Qed.

Ltac results := unfold ghost_results; in_list.

(** A charge: what the scan and the kill can do. *)
Lemma charged_direction_effects b g d r nx ny b' :
  move_ghost_charged_direction b g d = Some (r, nx, ny, b') ->
  ghost_effects b b' /\ kill_outcome b nx ny r b' /\ r ∈ ghost_results /\
  (r = INVALID_MOVE -> b' = b).
Proof.
  assert (Hstay : forall r0 (x0 y0 : Z), r0 = VALID_MOVE \/ r0 = INVALID_MOVE ->
            Some (r0, x0, y0, b) = Some (r, nx, ny, b') ->
            ghost_effects b b' /\ kill_outcome b nx ny r b' /\ r ∈ ghost_results /\
            (r = INVALID_MOVE -> b' = b)).
  { intros r0 x0 y0 Hr [= <- <- <- <-]. split; [apply ghost_effects_refl|].
    split; [left; split; [|done]; destruct Hr as [-> | ->]; discriminate|].
    split; [|done]. destruct Hr as [-> | ->]; results. }
  assert (Hkill : forall x0 y0,
            ('(res, b0) ← find_and_kill_pacman b x0 y0; Some (res, x0, y0, b0))
            = Some (r, nx, ny, b') ->
            ghost_effects b b' /\ kill_outcome b nx ny r b' /\ r ∈ ghost_results /\
            (r = INVALID_MOVE -> b' = b)).
  { intros x0 y0. destruct (find_and_kill_pacman b x0 y0) as [[res b0]|] eqn:E; [|done].
    simpl. intros [= <- <- <- <-].
    destruct (find_and_kill_outcome _ _ _ _ _ E) as (? & ? & ?). split_and!; try done.
    apply find_and_kill_loop_inv in E as [[-> ->]|(-> & _)]; done. }
  unfold move_ghost_charged_direction.
  destruct (Ascii.eqb d "W").
  { destruct (g_pos_y g =? 0); [apply Hstay; auto|].
    destruct (scan _ _ _ _ _ _) as [[i|i|]|]; simpl; [| |apply Hstay; auto|done].
    - apply Hstay; auto.
    - apply Hkill. }
  destruct (Ascii.eqb d "S").
  { destruct (g_pos_y g =? _); [apply Hstay; auto|].
    destruct (scan _ _ _ _ _ _) as [[i|i|]|]; simpl; [| |apply Hstay; auto|done].
    - apply Hstay; auto.
    - apply Hkill. }
  destruct (Ascii.eqb d "A").
  { destruct (g_pos_x g =? 0); [apply Hstay; auto|].
    destruct (scan _ _ _ _ _ _) as [[i|i|]|]; simpl; [| |apply Hstay; auto|done].
    - apply Hstay; auto.
    - apply Hkill. }
  destruct (Ascii.eqb d "D").
  { destruct (g_pos_x g =? _); [apply Hstay; auto|].
    destruct (scan _ _ _ _ _ _) as [[i|i|]|]; simpl; [| |apply Hstay; auto|done].
    - apply Hstay; auto.
    - apply Hkill. }
  apply Hstay; auto.
Qed.

Lemma store_length {A} (l l' : list A) i v :
  store l i v = Some l' -> length l' = length l.
Proof. intros [_ ->]%store_Some. by rewrite length_insert. Qed.

Lemma store_lookup {A} (l l' : list A) i v :
  store l i v = Some l' -> slot l' i = Some v.
Proof.
  intros [Hi ->]%store_Some. apply slot_Some. split; [lia|].
  apply list_lookup_insert_eq. lia.
Qed.

(** After the move the board shows the ghost where the ghost is. *)
Lemma ghost_lands b0 b1 b2 b3 gs gs' idx g old x y r :
  ghost_effects b0 b1 -> kill_outcome b0 x y r b1 ->
  put_content b1 old " " = Some b2 ->
  store gs idx (set_g_pos x y g) = Some gs' ->
  put_content b2 (get_board_index b1 x y) "M" = Some b3 ->
  ghost_effects b0 b3 /\ kill_outcome b0 x y r b3 /\ length gs' = length gs /\
  (exists g', slot gs' idx = Some g' /\ g_pos_x g' = x /\ g_pos_y g' = y /\
     content <$> slot (board b3) (get_board_index b3 x y) = Some "M"%char).
Proof.
  intros He Hk E2 Es E3.
  pose proof (put_content_effects _ _ _ _ E2) as He2.
  pose proof (put_content_effects _ _ _ _ E3) as He3.
  pose proof (put_content_frame _ _ _ _ E2) as (Hp2 & Hw2 & _).
  pose proof (put_content_frame _ _ _ _ E3) as (Hp3 & Hw3 & _).
  split; [eauto using ghost_effects_trans|].
  split; [eapply kill_outcome_content; [exact Hk|congruence]|].
  split; [by eapply store_length|].
  exists (set_g_pos x y g). split; [by eapply store_lookup|]. split; [done|].
  split; [done|].
  assert (Hi : get_board_index b3 x y = get_board_index b1 x y).
  { unfold get_board_index. congruence. }
  rewrite Hi. apply put_content_Some in E3 as (c & Hc & ->). simpl.
  pose proof (slot_lt _ _ _ Hc) as Hlt. apply slot_Some in Hc as [? Hc].
  assert (Hs : slot (<[Z.to_nat (get_board_index b1 x y) := set_content "M" c]> (board b2))
                 (get_board_index b1 x y) = Some (set_content "M" c)).
  { apply slot_Some. split; [done|]. apply list_lookup_insert_eq. lia. }
  by rewrite Hs.
Qed.

(** From the outcome of the kill and the landing to the record. *)
Lemma ghost_move_landed b0 b3 gs gs' idx x y r :
  ghost_effects b0 b3 -> kill_outcome b0 x y r b3 -> r ∈ ghost_results ->
  r <> INVALID_MOVE -> length gs' = length gs ->
  (exists g', slot gs' idx = Some g' /\ g_pos_x g' = x /\ g_pos_y g' = y /\
     content <$> slot (board b3) (get_board_index b3 x y) = Some "M"%char) ->
  ghost_move b0 gs idx r b3 gs'.
Proof.
  intros He Hk Hr Hni Hlen (g' & Hg' & Hx & Hy & Hc). split; try done.
  - by destruct Hk as [[_ ?]|[? _]].
  - intros ->. destruct Hk as [[? _]|(_ & q & pac & Hq & <- & <- & Ha & Hps)]; [done|].
    exists q, pac, g'. done.
Qed.

Lemma ghost_move_stay b gs gs' idx r :
  r = VALID_MOVE \/ r = INVALID_MOVE -> length gs' = length gs ->
  ghost_move b gs idx r b gs'.
Proof.
  intros Hr Hlen. split; try done.
  - apply ghost_effects_refl.
  - destruct Hr as [-> | ->]; results.
  - intros ->. destruct Hr; discriminate.
Qed.

Lemma move_ghost_charged_effects b gs idx d r b' gs' :
  move_ghost_charged b gs idx d = Some (r, b', gs') ->
  ghost_move b gs idx r b' gs'.
Proof.
  unfold move_ghost_charged.
  destruct (slot gs idx) as [g|]; [|done]. simpl.
  destruct (store gs idx _) as [gs1|] eqn:Es1; [|done]. simpl.
  destruct (move_ghost_charged_direction _ _ _) as [[[[res nx] ny] b1]|] eqn:Ed; [|done].
  simpl. apply charged_direction_effects in Ed as (He & Hk & Hr & Hinv).
  pose proof (store_length _ _ _ _ Es1) as L1.
  destruct (Z.eqb_spec res INVALID_MOVE) as [->|Hni].
  - intros [= <- <- <-]. rewrite (Hinv eq_refl). apply ghost_move_stay; auto.
  - destruct (put_content b1 _ _) as [b2|] eqn:E2; [|done]. simpl.
    destruct (store gs1 idx _) as [gs2|] eqn:Es2; [|done]. simpl.
    destruct (put_content b2 _ _) as [b3|] eqn:E3; [|done]. simpl.
    intros [= <- <- <-].
    destruct (ghost_lands _ _ _ _ _ _ _ _ _ _ _ _ He Hk E2 Es2 E3)
      as (He3 & Hk3 & Hl3 & Hg3).
    exact (ghost_move_landed _ _ _ _ _ nx ny _ He3 Hk3 Hr Hni (eq_trans Hl3 L1) Hg3).
Qed.

(** Everything [move_ghost] does, read off its branches. *)
Lemma move_ghost_effects b gs idx c ptr rnd r b' gs' c' :
  move_ghost b gs idx c ptr rnd = Some (r, b', gs', c') ->
  ghost_move b gs idx r b' gs'.
Proof.
  unfold move_ghost.
  destruct (slot gs idx) as [g|]; [|done]. simpl.
  destruct (0 <? g_waiting g).
  { destruct (store gs idx _) as [gs1|] eqn:Es; [|done]. simpl.
    intros [= <- <- <- <-]. apply ghost_move_stay; [by left|by eapply store_length]. }
  destruct (load_g_command _ _ _) as [cmd|]; [|done]. simpl.
  destruct (if Ascii.eqb (command cmd) "R" then _ else _) as [direction|]; [|done].
  simpl. destruct (ghost_switch _ _ _) as [nx ny| | |].
  - destruct (store gs idx _) as [gs1|] eqn:Es1; [|done]. simpl.
    pose proof (store_length _ _ _ _ Es1) as L1.
    destruct (charged g =? 0); simpl.
    2:{ destruct (move_ghost_charged _ _ _ _) as [[[res b1] gs2]|] eqn:Ec; [|done].
        simpl. intros [= <- <- <- <-].
        apply move_ghost_charged_effects in Ec as [? ? ? ? ? ?].
        split; try done. congruence. }
    destruct (is_valid_position b nx ny); simpl.
    2:{ intros [= <- <- <- <-]. apply ghost_move_stay; [by right|done]. }
    destruct (slot (board b) _) as [new_cell|]; [|done]. simpl.
    destruct (_ || _).
    { intros [= <- <- <- <-]. apply ghost_move_stay; [by right|done]. }
    match goal with
    | |- (?m ≫= _) = _ -> _ => destruct m as [[res b1]|] eqn:Ek; [|done]
    end.
    simpl.
    assert (Hk : ghost_effects b b1 /\ kill_outcome b nx ny res b1 /\
                 res ∈ ghost_results /\ res <> INVALID_MOVE).
    { destruct (Ascii.eqb (content new_cell) "C").
      - pose proof Ek as (? & ? & ?)%find_and_kill_outcome. split_and!; try done.
        apply find_and_kill_loop_inv in Ek as [[-> _]|[-> _]]; done.
      - injection Ek as <- <-. split; [apply ghost_effects_refl|].
        split; [by left|]. split; [results|done]. }
    destruct Hk as (He & Hk & Hr & Hni).
    destruct (put_content b1 _ _) as [b2|] eqn:E2; [|done]. simpl.
    destruct (store gs1 idx _) as [gs2|] eqn:Es2; [|done]. simpl.
    destruct (put_content b2 _ _) as [b3|] eqn:E3; [|done]. simpl.
    intros [= <- <- <- <-].
    assert (Hidx : get_board_index b nx ny = get_board_index b1 nx ny).
    { unfold get_board_index. by destruct He as [(-> & _) _ _ _ _]. }
    rewrite Hidx in E3.
    destruct (ghost_lands _ _ _ _ _ _ _ _ _ _ _ _ He Hk E2 Es2 E3)
      as (He3 & Hk3 & Hl3 & Hg3).
    exact (ghost_move_landed _ _ _ _ _ nx ny _ He3 Hk3 Hr Hni (eq_trans Hl3 L1) Hg3).
  - destruct (store gs idx _) as [gs1|] eqn:Es; [|done]. simpl.
    intros [= <- <- <- <-]. apply ghost_move_stay; [by left|by eapply store_length].
  - match goal with
    | |- (?m ≫= _) = _ -> _ => destruct m as [[g1 c1]|]; [|done]
    end.
    simpl. destruct (store gs idx _) as [gs1|] eqn:Es; [|done]. simpl.
    intros [= <- <- <- <-]. apply ghost_move_stay; [by left|by eapply store_length].
  - destruct (store gs idx _) as [gs1|] eqn:Es; [|done]. simpl.
    intros [= <- <- <- <-]. apply ghost_move_stay; [by right|by eapply store_length].
Qed.

Lemma valid_coordinates b x y :
  well_formed b -> is_valid_position b x y = true ->
  0 <= x < width b /\ 0 <= y < height b /\ width b <= INT_MAX /\ height b <= INT_MAX.
Proof.
  intros [Hsz _] Hv. unfold is_valid_position in Hv.
  apply andb_true_iff in Hv as [[?%Z.leb_le ?%Z.ltb_lt]%andb_true_iff
                                 [?%Z.leb_le ?%Z.ltb_lt]%andb_true_iff].
  unfold INT_MAX in *. split_and!; try done; nia.
Qed.

Lemma valid_position_intro b x y :
  0 <= x < width b -> 0 <= y < height b -> is_valid_position b x y = true.
Proof.
  intros Hx Hy. unfold is_valid_position.
  apply andb_true_iff. split; apply andb_true_iff; split;
    first [apply Z.leb_le | apply Z.ltb_lt]; lia.
Qed.

Lemma find_and_kill_loop_defined b x y : forall n p,
  well_formed b -> is_valid_position b x y = true ->
  0 <= p -> p + Z.of_nat n <= Z.of_nat (length (pacmans b)) ->
  is_Some (find_and_kill_loop b x y p n).
Proof.
  induction n as [|n IH]; intros p Hwf Hv Hp Hlen; simpl; [done|].
  destruct (slot_is_Some (pacmans b) p) as [pac Hpac]; [lia|]. rewrite Hpac. simpl.
  destruct (Z.eqb_spec (pos_x pac) x) as [Hx|]; simpl; [|apply IH; auto; lia].
  destruct (Z.eqb_spec (pos_y pac) y) as [Hy|]; simpl; [|apply IH; auto; lia].
  destruct (alive pac =? 0); simpl; [apply IH; auto; lia|].
  rewrite (put_pacman_defined _ _ _ _ Hpac). simpl.
  set (b1 := set_pacmans _ b).
  assert (Hp1 : slot (pacmans b1) p = Some (set_alive 0 pac)) by (by eapply lookup_put).
  unfold kill_pacman. rewrite Hp1. simpl.
  fold (get_board_index b1 (pos_x pac) (pos_y pac)).
  assert (Hwf1 : well_formed b1).
  { eapply well_formed_frame; [exact Hwf|apply same_frame_pacmans]. }
  destruct (index_in_grid b1 (pos_x pac) (pos_y pac) Hwf1) as [c Hc].
  { subst x y. exact Hv. }
  rewrite (put_content_defined _ _ _ _ Hc). simpl.
  erewrite put_pacman_defined; [done|]. exact Hp1.
Qed.

Lemma find_and_kill_defined b x y :
  well_formed b -> pacmans_counted b -> is_valid_position b x y = true ->
  is_Some (find_and_kill_pacman b x y).
Proof.
  intros Hwf Hc Hv. apply find_and_kill_loop_defined; auto; [lia|].
  unfold pacmans_counted in Hc. lia.
Qed.

(** A scan over cells of the grid returns, and what it finds lies
    among the cells scanned. *)
Lemma scan_spec b (vertical : bool) fixed step : forall n i,
  well_formed b -> step = 1 \/ step = -1 ->
  (forall j, 0 <= j < Z.of_nat n ->
     if vertical then is_valid_position b fixed (i + j * step) = true
     else is_valid_position b (i + j * step) fixed = true) ->
  exists r, scan b vertical fixed i step n = Some r /\
    match r with
    | Hit k | Prey k => exists j, 0 <= j < Z.of_nat n /\ k = i + j * step
    | Free => True
    end.
Proof.
  induction n as [|n IH]; intros i Hwf Hstep Hall; simpl.
  - by exists Free.
  - assert (H0 := Hall 0 ltac:(lia)). rewrite Z.mul_0_l, Z.add_0_r in H0.
    assert (Hc : is_Some (slot (board b)
                   (if vertical then get_board_index b fixed i
                    else get_board_index b i fixed))).
    { destruct vertical; by apply index_in_grid. }
    destruct Hc as [c ->]. simpl.
    destruct (_ || _).
    { exists (Hit i). split; [done|]. exists 0. lia. }
    destruct (Ascii.eqb (content c) "C").
    { exists (Prey i). split; [done|]. exists 0. lia. }
    assert (Hi : iadd i step = i + step).
    { apply wrap32_id. unfold in_int, INT_MIN.
      destruct vertical; apply (valid_coordinates _ _ _ Hwf) in H0; lia. }
    rewrite Hi.
    destruct (IH (i + step) Hwf Hstep) as (r & -> & Hr).
    { intros j Hj. specialize (Hall (j + 1) ltac:(lia)).
      by replace (i + step + j * step) with (i + (j + 1) * step) by lia. }
    exists r. split; [done|]. destruct r as [k|k|]; [| |done];
      destruct Hr as (j & Hj & ->); exists (j + 1); split; lia.
Qed.

(** A charge from a cell of the grid ends on a cell of the grid. *)
Lemma charged_direction_defined b g d :
  well_formed b -> pacmans_counted b ->
  is_valid_position b (g_pos_x g) (g_pos_y g) = true ->
  exists r nx ny b',
    move_ghost_charged_direction b g d = Some (r, nx, ny, b') /\
    is_valid_position b nx ny = true.
Proof.
  intros Hwf Hcount Hv.
  pose proof (valid_coordinates _ _ _ Hwf Hv) as (Hx & Hy & Hw & Hh).
  unfold INT_MAX in *.
  assert (Hkill : forall x0 y0, is_valid_position b x0 y0 = true ->
            exists r nx ny b',
              ('(res, b0) ← find_and_kill_pacman b x0 y0; Some (res, x0, y0, b0))
              = Some (r, nx, ny, b') /\ is_valid_position b nx ny = true).
  { intros x0 y0 Hv0.
    destruct (find_and_kill_defined b x0 y0 Hwf Hcount Hv0) as [[res b0] ->].
    simpl. eauto 10. }
  assert (Hsub : forall z, 0 <= z <= 2147483647 -> isub z 1 = z - 1).
  { intros z Hz. apply wrap32_id. unfold in_int, INT_MIN, INT_MAX. lia. }
  assert (Hadd : forall z, 0 <= z < 2147483647 -> iadd z 1 = z + 1).
  { intros z Hz. apply wrap32_id. unfold in_int, INT_MIN, INT_MAX. lia. }
  unfold move_ghost_charged_direction.
  set (x := g_pos_x g) in *. set (y := g_pos_y g) in *.
  destruct (Ascii.eqb d "W").
  { destruct (Z.eqb_spec y 0); [eauto 10|]. rewrite Hsub by lia.
    destruct (scan_spec b true x (-1) (Z.to_nat y) (y - 1) Hwf) as (r & -> & Hr);
      [by right| |].
    { intros j Hj. apply valid_position_intro; lia. }
    simpl. destruct r as [k|k|].
    - destruct Hr as (j & Hj & ->). rewrite Hadd by lia.
      eexists _, _, _, _. split; [done|]. apply valid_position_intro; lia.
    - destruct Hr as (j & Hj & ->). apply Hkill. apply valid_position_intro; lia.
    - eexists _, _, _, _. split; [done|]. apply valid_position_intro; lia. }
  destruct (Ascii.eqb d "S").
  { rewrite Hsub by lia. destruct (Z.eqb_spec y (height b - 1)); [eauto 10|].
    rewrite Hadd by lia.
    destruct (scan_spec b true x 1 (Z.to_nat (height b - (y + 1))) (y + 1) Hwf)
      as (r & -> & Hr); [by left| |].
    { intros j Hj. apply valid_position_intro; lia. }
    simpl. destruct r as [k|k|].
    - destruct Hr as (j & Hj & ->). rewrite Hsub by lia.
      eexists _, _, _, _. split; [done|]. apply valid_position_intro; lia.
    - destruct Hr as (j & Hj & ->). apply Hkill. apply valid_position_intro; lia.
    - eexists _, _, _, _. split; [done|]. apply valid_position_intro; lia. }
  destruct (Ascii.eqb d "A").
  { destruct (Z.eqb_spec x 0); [eauto 10|]. rewrite Hsub by lia.
    destruct (scan_spec b false y (-1) (Z.to_nat x) (x - 1) Hwf) as (r & -> & Hr);
      [by right| |].
    { intros j Hj. apply valid_position_intro; lia. }
    simpl. destruct r as [k|k|].
    - destruct Hr as (j & Hj & ->). rewrite Hadd by lia.
      eexists _, _, _, _. split; [done|]. apply valid_position_intro; lia.
    - destruct Hr as (j & Hj & ->). apply Hkill. apply valid_position_intro; lia.
    - eexists _, _, _, _. split; [done|]. apply valid_position_intro; lia. }
  destruct (Ascii.eqb d "D").
  { rewrite Hsub by lia. destruct (Z.eqb_spec x (width b - 1)); [eauto 10|].
    rewrite Hadd by lia.
    destruct (scan_spec b false y 1 (Z.to_nat (width b - (x + 1))) (x + 1) Hwf)
      as (r & -> & Hr); [by left| |].
    { intros j Hj. apply valid_position_intro; lia. }
    simpl. destruct r as [k|k|].
    - destruct Hr as (j & Hj & ->). rewrite Hsub by lia.
      eexists _, _, _, _. split; [done|]. apply valid_position_intro; lia.
    - destruct Hr as (j & Hj & ->). apply Hkill. apply valid_position_intro; lia.
    - eexists _, _, _, _. split; [done|]. apply valid_position_intro; lia. }
  eauto 10.
Qed.

Lemma store_defined {A} (l : list A) i v x :
  slot l i = Some x -> store l i v = Some (<[Z.to_nat i := v]> l).
Proof. intros H. unfold store. by rewrite H. Qed.

Lemma slot_insert {A} (l : list A) i v x :
  slot l i = Some x -> slot (<[Z.to_nat i := v]> l) i = Some v.
Proof.
  intros H. pose proof (slot_lt _ _ _ H). apply slot_Some. split; [lia|].
  apply list_lookup_insert_eq. lia.
Qed.

(** The two writes that move the ghost's mark. *)
Lemma ghost_marks_defined b b1 old new :
  same_frame b b1 ->
  is_Some (slot (board b) old) -> is_Some (slot (board b) new) ->
  exists b2 b3,
    put_content b1 old " " = Some b2 /\ put_content b2 new "M" = Some b3.
Proof.
  intros F Hold Hnew.
  destruct (put_content_is_Some b1 old " " (frame_cell _ _ _ F Hold)) as [b2 E2].
  pose proof (put_content_same_frame _ _ _ _ E2) as F2.
  destruct (put_content_is_Some b2 new "M") as [b3 E3]; [eauto using frame_cell|].
  eauto.
Qed.

Lemma move_ghost_charged_total b gs idx d g :
  well_formed b -> pacmans_counted b -> slot gs idx = Some g ->
  is_valid_position b (g_pos_x g) (g_pos_y g) = true ->
  exists r b' gs' g',
    move_ghost_charged b gs idx d = Some (r, b', gs') /\
    slot gs' idx = Some g' /\ g_moves g' = g_moves g /\
    is_valid_position b (g_pos_x g') (g_pos_y g') = true.
Proof.
  intros Hwf Hcount Hg Hv. unfold move_ghost_charged. rewrite Hg. simpl.
  rewrite (store_defined _ _ _ _ Hg). simpl.
  set (gs1 := <[Z.to_nat idx := set_charged 0 g]> gs).
  assert (Hg1 : slot gs1 idx = Some (set_charged 0 g)) by (by eapply slot_insert).
  destruct (charged_direction_defined b (set_charged 0 g) d Hwf Hcount Hv)
    as (r & nx & ny & b1 & Ed & Hv1).
  rewrite Ed. simpl.
  destruct (Z.eqb_spec r INVALID_MOVE).
  { eexists _, _, _, _. split; [done|]. split; [exact Hg1|]. done. }
  pose proof Ed as ([F _ _ _ _] & _)%charged_direction_effects.
  assert (Hidx : forall u v, get_board_index b1 u v = get_board_index b u v).
  { intros. unfold get_board_index. by destruct F as (-> & _). }
  rewrite !Hidx.
  destruct (ghost_marks_defined b b1
              (get_board_index b (g_pos_x g) (g_pos_y g))
              (get_board_index b nx ny) F) as (b2 & b3 & E2 & E3);
    [by apply index_in_grid..|].
  change (g_pos_x (set_charged 0 g)) with (g_pos_x g).
  change (g_pos_y (set_charged 0 g)) with (g_pos_y g).
  rewrite E2. simpl. rewrite (store_defined _ _ _ _ Hg1). simpl. rewrite E3. simpl.
  eexists _, _, _, _. split; [done|]. split; [by eapply slot_insert|]. done.
Qed.

Lemma store_g_turns_left_total g c ptr v :
  is_Some (load_g_command g c ptr) ->
  exists g' c',
    store_g_turns_left g c ptr v = Some (g', c') /\
    g_pos_x g' = g_pos_x g /\ g_pos_y g' = g_pos_y g /\
    length (g_moves g') = length (g_moves g).
Proof.
  destruct ptr as [|k]; simpl; [eauto 10|]. intros [cmd H]. rewrite H. simpl.
  rewrite (store_defined _ _ _ _ H). simpl. eexists _, _. split; [done|].
  simpl. by rewrite length_insert.
Qed.

(** On a well-formed stage every array access of [move_ghost] is in
    bounds, and the ghost stays on the grid. *)
Lemma move_ghost_total b gs idx c ptr rnd g :
  well_formed b -> pacmans_counted b -> slot gs idx = Some g ->
  is_valid_position b (g_pos_x g) (g_pos_y g) = true ->
  ghost_ptr gs idx ptr -> 0 <= rnd ->
  exists r b' gs' c' g',
    move_ghost b gs idx c ptr rnd = Some (r, b', gs', c') /\
    slot gs' idx = Some g' /\ length (g_moves g') = length (g_moves g) /\
    is_valid_position b (g_pos_x g') (g_pos_y g') = true.
Proof.
  intros Hwf Hcount Hg Hv Hptr Hrnd. unfold move_ghost. rewrite Hg. simpl.
  assert (Hst : forall g1, exists gs1,
            store gs idx g1 = Some gs1 /\ slot gs1 idx = Some g1).
  { intros g1. rewrite (store_defined _ _ _ _ Hg). eexists. split; [done|].
    by eapply slot_insert. }
  destruct (0 <? g_waiting g).
  { destruct (Hst (set_g_waiting (isub (g_waiting g) 1) g)) as (gs1 & -> & Hg1).
    simpl. eexists _, _, _, _, _. split; [done|]. split; [exact Hg1|]. done. }
  set (g0 := set_g_waiting (g_passo g) g).
  assert (Hcmd : is_Some (load_g_command g0 c ptr)).
  { destruct ptr as [|k]; simpl; [done|].
    destruct Hptr as (g' & cmd & Hg' & Hk). rewrite Hg in Hg'.
    injection Hg' as <-. by rewrite Hk. }
  pose proof Hcmd as [cmd Hc]. rewrite Hc. simpl.
  assert (Hd : is_Some (if Ascii.eqb (command cmd) "R"
                        then slot directions (Z.rem rnd 4)
                        else Some (command cmd))).
  { destruct (Ascii.eqb _ _); [|done]. apply slot_is_Some.
    pose proof (Z.rem_bound_pos rnd 4). simpl. lia. }
  destruct Hd as [direction ->]. simpl.
  destruct (ghost_switch _ _ _) as [nx ny| | |].
  - set (g1 := set_g_current_move _ g0).
    destruct (Hst g1) as (gs1 & -> & Hg1). simpl.
    destruct (charged g =? 0); simpl.
    2:{ destruct (move_ghost_charged_total b gs1 idx direction g1 Hwf Hcount Hg1 Hv)
          as (r & b' & gs' & g' & -> & Hg' & Hm & Hv').
        simpl. eexists _, _, _, _, _. split; [done|]. split; [exact Hg'|].
        split; [by rewrite Hm|done]. }
    destruct (is_valid_position b nx ny) eqn:Ev; simpl.
    2:{ eexists _, _, _, _, _. split; [done|]. split; [exact Hg1|]. done. }
    destruct (index_in_grid _ _ _ Hwf Ev) as [new_cell Hnew]. rewrite Hnew. simpl.
    destruct (_ || _).
    { eexists _, _, _, _, _. split; [done|]. split; [exact Hg1|]. done. }
    assert (Hk : exists res b1,
      (if Ascii.eqb (content new_cell) "C" then find_and_kill_pacman b nx ny
       else Some (VALID_MOVE, b)) = Some (res, b1) /\ same_frame b b1).
    { destruct (Ascii.eqb (content new_cell) "C").
      - destruct (find_and_kill_defined b nx ny Hwf Hcount Ev) as [[res b1] E].
        exists res, b1. split; [done|].
        by apply find_and_kill_effects in E as [[? _ _ _ _] _].
      - eexists _, _. split; [done|]. apply same_frame_refl. }
    destruct Hk as (res & b1 & -> & F). simpl.
    destruct (ghost_marks_defined b b1
                (get_board_index b (g_pos_x g) (g_pos_y g))
                (get_board_index b nx ny) F) as (b2 & b3 & E2 & E3);
      [by apply index_in_grid|eauto|].
    change (g_pos_x g1) with (g_pos_x g). change (g_pos_y g1) with (g_pos_y g).
    rewrite E2. simpl. rewrite (store_defined _ _ _ _ Hg1). simpl. rewrite E3. simpl.
    eexists _, _, _, _, _. split; [done|]. split; [by eapply slot_insert|]. done.
  - match goal with
    | |- context [store gs idx ?x] => destruct (Hst x) as (gs1 & -> & Hg1)
    end.
    simpl. eexists _, _, _, _, _. split; [done|]. split; [exact Hg1|]. done.
  - assert (Ht : forall g1 v,
        g_pos_x g1 = g_pos_x g -> g_pos_y g1 = g_pos_y g ->
        g_moves g1 = g_moves g ->
        exists r b' gs' c' g',
          ('(ghost, c0) ← store_g_turns_left g1 c ptr v;
           ghosts ← store gs idx ghost; Some (VALID_MOVE, b, ghosts, c0))
          = Some (r, b', gs', c') /\
          slot gs' idx = Some g' /\ length (g_moves g') = length (g_moves g) /\
          is_valid_position b (g_pos_x g') (g_pos_y g') = true).
    { intros g1 v Hx Hy Hm.
      destruct (store_g_turns_left_total g1 c ptr v) as (g' & c' & -> & Hx' & Hy' & Hl).
      - destruct ptr; simpl in *; [done|]. by rewrite Hm.
      - simpl. destruct (Hst g') as (gs1 & -> & Hg1). simpl.
        eexists _, _, _, _, _. split; [done|]. split; [exact Hg1|].
        split; [by rewrite Hl, Hm|]. by rewrite Hx', Hy', Hx, Hy. }
    destruct (turns_left cmd =? 1); by apply Ht.
  - destruct (Hst g0) as (gs1 & -> & Hg1).
    simpl. eexists _, _, _, _, _. split; [done|]. split; [exact Hg1|]. done.
Qed.
End GhostFacts.

Module GhostTheorems.
Import CInt CArray Protocol Board Game Ghost CIntFacts BoardFacts GameFacts.
Import BoardShape BoardMore GameShape GameMore GhostShape GhostFacts.
Local Open Scope Z_scope.

(** X23.  Memory safety of [move_ghost].  On a stage whose grid has
    [width * height] cells, with [n_pacmans] no more than the pacmans
    there are, the ghost standing on the grid, a command pointer into
    its [moves] (or to the caller's local) and a non-negative [rand()],
    every array access of [move_ghost] is in bounds, also through the
    scan of a charge and the kill of a pacman: the call returns, and
    the stage it leaves satisfies the same conditions again. *)
Theorem move_ghost_safe b gs idx c ptr rnd :
  well_formed b -> pacmans_counted b ->
  ghost_inside b gs idx -> ghost_ptr gs idx ptr -> 0 <= rnd ->
  exists r b' gs' c',
    move_ghost b gs idx c ptr rnd = Some (r, b', gs', c') /\
    well_formed b' /\ pacmans_counted b' /\
    ghost_inside b' gs' idx /\ ghost_ptr gs' idx ptr.
Proof.
  intros Hwf Hcount (g & Hg & Hv) Hptr Hrnd.
  destruct (move_ghost_total b gs idx c ptr rnd g Hwf Hcount Hg Hv Hptr Hrnd)
    as (r & b' & gs' & c' & g' & E & Hg' & Hlen & Hv').
  exists r, b', gs', c'. split; [done|].
  destruct (move_ghost_effects _ _ _ _ _ _ _ _ _ _ E) as [[F Hn _ _ Hps] _ _ _ _ _].
  split; [by eapply well_formed_frame|]. split.
  { unfold pacmans_counted in *. rewrite Hn.
    by rewrite <- (Forall2_length _ _ _ Hps). }
  split.
  { exists g'. split; [done|]. by rewrite (is_valid_position_frame b b'). }
  destruct ptr as [|k]; [done|]. simpl in *.
  destruct Hptr as (g0 & cmd & Hg0 & Hk). rewrite Hg in Hg0. injection Hg0 as <-.
  assert (Hs : is_Some (slot (g_moves g') k)).
  { apply slot_bounds. rewrite Hlen. by eapply slot_lt. }
  destruct Hs as [cmd' Hs]. eauto.
Qed.

Lemma move_ghost_safe_witness :
  exists r b' gs' c',
    move_ghost (demo_board " ") [demo_ghost] 0 random_move (PtrMove 0) 0
    = Some (r, b', gs', c') /\
    well_formed b' /\ pacmans_counted b' /\
    ghost_inside b' gs' 0 /\ ghost_ptr gs' 0 (PtrMove 0).
Proof.
  apply move_ghost_safe.
  - split; vm_compute; [discriminate|reflexivity].
  - vm_compute. discriminate.
  - exists demo_ghost. split; reflexivity.
  - eexists _, _. split; reflexivity.
  - lia.
Defined.

(** X24.  What a call of [move_ghost] can do to the stage.  It returns
    [VALID_MOVE], [INVALID_MOVE] or [DEAD_PACMAN]; it never changes the
    dimensions, the portal flags, the dot flags, [level_finished] or
    [shutdown], nor any pacman's position, points or script; with
    [INVALID_MOVE] the board is untouched; unless it returns
    [DEAD_PACMAN] every pacman is as before; and when it returns
    [DEAD_PACMAN], exactly one pacman that was alive has been marked
    dead, the ghost stands on that pacman's cell, and the cell shows
    the ghost. *)
Theorem move_ghost_outcome b gs idx c ptr rnd r b' gs' c' :
  move_ghost b gs idx c ptr rnd = Some (r, b', gs', c') ->
  r ∈ ghost_results /\
  same_frame b b' /\ dots b' = dots b /\ level_finished b' = level_finished b /\
  Forall2 spared_or_killed (pacmans b) (pacmans b') /\
  (r = INVALID_MOVE -> b' = b) /\
  (r <> DEAD_PACMAN -> pacmans b' = pacmans b) /\
  (r = DEAD_PACMAN ->
   exists q pac g',
     slot (pacmans b) q = Some pac /\ alive pac <> 0 /\
     pacmans b' = <[Z.to_nat q := set_alive 0 pac]> (pacmans b) /\
     slot gs' idx = Some g' /\
     g_pos_x g' = pos_x pac /\ g_pos_y g' = pos_y pac /\
     content <$> slot (board b') (get_board_index b' (pos_x pac) (pos_y pac))
     = Some "M"%char).
Proof.
  intros E. destruct (move_ghost_effects _ _ _ _ _ _ _ _ _ _ E)
    as [[F Hn Hl Hd Hps] Hr Hlen Hinv Hsp Hk].
  split_and!; done.
Qed.

Lemma move_ghost_outcome_witness :
  exists b' gs' c' g',
    move_ghost (demo_board " ") [demo_ghost] 0 random_move (PtrMove 0) 0
    = Some (DEAD_PACMAN, b', gs', c') /\
    pacmans b' = [set_alive 0 (demo_pacman " ")] /\
    slot gs' 0 = Some g' /\ (g_pos_x g', g_pos_y g') = (1, 1) /\
    dots b' = dots (demo_board " ").
Proof.
  eexists _, _, _, _. split; [vm_compute; reflexivity|].
  split; [reflexivity|]. split; [reflexivity|]. split; [reflexivity|].
  refine (proj1 (proj2 (proj2 (move_ghost_outcome (demo_board " ") [demo_ghost] 0
                                 random_move (PtrMove 0) 0 _ _ _ _ _)))).
  vm_compute. reflexivity.
Defined.

(** X25.  A ghost's turn is a bystander's section for the pacman
    thread: whatever the ghost does in [ghost_thread]'s call of
    [move_ghost], the grid keeps its shape, pacman 0 keeps its cell and
    its script, and [shutdown] is not cleared.  So the guarantees for
    [pacman_thread] under fair schedules hold with ghosts moving in
    between. *)
Theorem ghost_turn_is_bystander gs idx rnd : bystander (ghost_section gs idx rnd).
Proof.
  intros b Hwf (pac & Hpac & Hv). unfold ghost_section.
  destruct (ghost_turn b gs idx rnd) as [[[[r b'] gs'] c']|] eqn:E.
  2:{ split; [done|]. split; [by exists pac|]. done. }
  assert (Hm : ghost_move b gs idx r b' gs').
  { unfold ghost_turn in E. destruct (slot gs idx) as [g|]; [|done]. simpl in E.
    destruct (0 <? g_n_moves g); by eapply move_ghost_effects. }
  destruct Hm as [[F Hn Hl Hd Hps] _ _ _ _ _].
  assert (Hp' : exists pac', slot (pacmans b') 0 = Some pac' /\
                  spared_or_killed pac pac').
  { apply slot_Some in Hpac as [_ Hpac].
    destruct (Forall2_lookup_l _ _ _ _ _ Hps Hpac) as (pac' & Hp' & Hs).
    exists pac'. split; [by apply slot_Some|done]. }
  destruct Hp' as (pac' & Hp' & Hs).
  assert (Hsame : pos_x pac' = pos_x pac /\ pos_y pac' = pos_y pac /\
                  current_move pac' = current_move pac /\
                  n_moves pac' = n_moves pac /\ moves pac' = moves pac).
  { by destruct Hs as [->|[_ ->]]. }
  destruct Hsame as (Hx & Hy & Hcm & Hnm & Hmv).
  split; [by eapply well_formed_frame|]. split.
  - exists pac'. split; [done|].
    by rewrite (is_valid_position_frame b b'), Hx, Hy.
  - split.
    + unfold script. rewrite Hp', Hpac. simpl. by rewrite Hcm, Hnm, Hmv.
    + destruct F as (_ & _ & _ & _ & -> & _). done.
Qed.

Lemma ghost_turn_is_bystander_witness :
  well_formed (ghost_section [demo_ghost] 0 0 (demo_board " ")) /\
  inside (ghost_section [demo_ghost] 0 0 (demo_board " ")) 0 /\
  script (ghost_section [demo_ghost] 0 0 (demo_board " ")) = script (demo_board " ").
Proof.
  destruct (ghost_turn_is_bystander [demo_ghost] 0 0 (demo_board " "))
    as (Hwf & Hin & Hs & _).
  - split; vm_compute; [discriminate|reflexivity].
  - exists (demo_pacman " "). split; reflexivity.
  - done.
Defined.

(** X26.  A ghost's kill ends the stage.  When [move_ghost] returns
    [DEAD_PACMAN] on a stage with one pacman, the pacman thread returns
    within three of its atomic sections from wherever it stands in its
    loop, and the value it returns is [LOAD_BACKUP] - or [QUIT_GAME], if
    it was about to check [shutdown] and found it set. *)
Theorem ghost_kill_ends_stage b gs idx c ptr rnd b1 gs1 c1 pc r1 r2 r3 :
  move_ghost b gs idx c ptr rnd = Some (DEAD_PACMAN, b1, gs1, c1) ->
  length (pacmans b) = 1%nat ->
  (forall v why, pc <> PcDone v why) ->
  exists v why b2,
    pacman_thread [Pacman r1; Pacman r2; Pacman r3] pc b1
    = Some (PcDone v why, b2) /\
    (v = LOAD_BACKUP \/
     v = QUIT_GAME /\ shutdown b1 <> 0 /\ exists r, pc = PcCheck r).
Proof.
  intros E Hone Hpc.
  destruct (move_ghost_effects _ _ _ _ _ _ _ _ _ _ E) as [_ _ _ _ _ Hk].
  destruct (Hk eq_refl) as (q & pac & g' & Hq & Ha & Hps & _).
  assert (Hq0 : Z.to_nat q = 0%nat).
  { apply slot_lt in Hq. lia. }
  assert (Hdead : exists pac1, slot (pacmans b1) 0 = Some pac1 /\ alive pac1 = 0).
  { exists (set_alive 0 pac). split; [|done]. rewrite Hps, Hq0.
    apply slot_Some. split; [done|]. apply list_lookup_insert_eq. lia. }
  clear - Hdead Hpc.
  assert (Htop : forall b, (exists pac1, slot (pacmans b) 0 = Some pac1 /\ alive pac1 = 0) ->
            pacman_step r1 PcTop b = Some (PcDone LOAD_BACKUP DeadAtTop, b)).
  { intros b0 (pac1 & Hp & Ha). simpl. rewrite Hp. simpl. by rewrite Ha. }
  assert (Htop' : forall r b, (exists pac1, slot (pacmans b) 0 = Some pac1 /\ alive pac1 = 0) ->
            pacman_step r PcTop b = Some (PcDone LOAD_BACKUP DeadAtTop, b)).
  { intros r b0 (pac1 & Hp & Ha). simpl. rewrite Hp. simpl. by rewrite Ha. }
  assert (Hmove : forall r cc play b,
            (exists pac1, slot (pacmans b) 0 = Some pac1 /\ alive pac1 = 0) ->
            pacman_step r (PcMove cc play) b
            = Some (PcDone LOAD_BACKUP (AfterMove DEAD_PACMAN), b)).
  { intros r cc play b0 (pac1 & Hp & Ha). simpl. unfold move_pacman. simpl.
    rewrite Hp. simpl. by rewrite Ha. }
  assert (Hchoose : forall r b,
            (exists pac1, slot (pacmans b) 0 = Some pac1 /\ alive pac1 = 0) ->
            exists cc play b',
              pacman_step r PcChoose b = Some (PcMove cc play, b') /\
              (exists pac1, slot (pacmans b') 0 = Some pac1 /\ alive pac1 = 0)).
  { intros r b0 (pac1 & Hp & Ha). simpl.
    destruct (Ascii.eqb_spec (next_user_move pac1) " ") as [He|Hne].
    - rewrite (choose_command_empty b0 pac1 Hp He). simpl. eauto 10.
    - rewrite (choose_command_pending b0 pac1 Hp Hne). simpl.
      eexists _, _, _. split; [done|].
      exists (set_next_user_move NO_MOVE pac1). split; [|done].
      by eapply lookup_put. }
  assert (Hcons : forall r sched pc0 b0 pc' b',
            pacman_step r pc0 b0 = Some (pc', b') ->
            pacman_thread (Pacman r :: sched) pc0 b0 = pacman_thread sched pc' b').
  { intros r sched pc0 b0 pc' b' H. cbn [pacman_thread]. by rewrite H. }
  destruct pc as [| |cc play|r|v why].
  - rewrite (Hcons _ _ _ _ _ _ (Htop' r1 b1 Hdead)). eauto 10.
  - destruct (Hchoose r1 b1 Hdead) as (cc & play & b' & Hc & Hdead').
    rewrite (Hcons _ _ _ _ _ _ Hc), (Hcons _ _ _ _ _ _ (Hmove r2 cc play b' Hdead')).
    eauto 10.
  - rewrite (Hcons _ _ _ _ _ _ (Hmove r1 cc play b1 Hdead)). eauto 10.
  - destruct (Z.eqb_spec (shutdown b1) 0) as [Hs|Hs].
    + assert (Hc : pacman_step r1 (PcCheck r) b1 = Some (PcTop, b1)).
      { simpl. by rewrite Hs. }
      rewrite (Hcons _ _ _ _ _ _ Hc), (Hcons _ _ _ _ _ _ (Htop' r2 b1 Hdead)).
      eauto 10.
    + assert (Hc : pacman_step r1 (PcCheck r) b1
                   = Some (PcDone QUIT_GAME (FlagAfterMove r), b1)).
      { simpl. by destruct (Z.eqb_spec (shutdown b1) 0). }
      rewrite (Hcons _ _ _ _ _ _ Hc). eexists _, _, _. split; [done|]. right. eauto.
  - by destruct (Hpc v why).
Qed.

Lemma ghost_kill_ends_stage_witness :
  exists b1 gs1 c1,
    move_ghost (demo_board " ") [demo_ghost] 0 random_move (PtrMove 0) 0
    = Some (DEAD_PACMAN, b1, gs1, c1) /\
    exists why b2,
      pacman_thread [Pacman 0; Pacman 0; Pacman 0] PcChoose b1
      = Some (PcDone LOAD_BACKUP why, b2).
Proof.
  assert (E : exists b1 gs1 c1,
            move_ghost (demo_board " ") [demo_ghost] 0 random_move (PtrMove 0) 0
            = Some (DEAD_PACMAN, b1, gs1, c1)).
  { eexists _, _, _. vm_compute. reflexivity. }
  destruct E as (b1 & gs1 & c1 & E). exists b1, gs1, c1. split; [exact E|].
  destruct (ghost_kill_ends_stage _ _ _ _ _ _ _ _ _ PcChoose 0 0 0 E eq_refl)
    as (v & why & b2 & Ht & [->|(_ & _ & r & Hr)]); [done|eauto|discriminate].
Defined.
End GhostTheorems.

Module RunnerFacts.
Import CInt CArray Protocol Board Game Update Ghost Runner RunnerShape.
Import CIntFacts BoardFacts BoardShape BoardMore GhostShape GhostFacts.
Local Open Scope Z_scope.

Lemma run_stage_app s1 s2 s :
  run_stage (s1 ++ s2) s = run_stage s1 s ≫= run_stage s2.
Proof.
  revert s. induction s1 as [|t s1 IH]; intros s; simpl; [done|].
  destruct (stage_step t s); simpl; [apply IH|done].
Qed.

Lemma run_stage_snoc sched t s :
  run_stage (sched ++ [t]) s = run_stage sched s ≫= stage_step t.
Proof.
  rewrite run_stage_app. destruct (run_stage sched s) as [s1|]; simpl; [|done].
  by destruct (stage_step t s1).
Qed.

(** *** What the sections leave of the board *)

Lemma choose_command_flag b c play b' :
  choose_command b = Some (c, play, b') ->
  shutdown b' = shutdown b /\ n_ghosts b' = n_ghosts b.
Proof.
  unfold choose_command. destruct (slot (pacmans b) 0) as [pac|]; [|done]. simpl.
  destruct (negb _).
  - destruct (put_pacman b 0 _) as [b1|] eqn:E; [|done]. simpl. intros [= <- <- <-].
    by apply put_pacman_Some in E as [_ ->].
  - destruct (0 <? n_moves pac); by intros [= <- <- <-].
Qed.

Lemma move_pacman_flag b c play rnd r b' c' :
  move_pacman b 0 c play rnd = Some (r, b', c') ->
  shutdown b' = shutdown b /\ n_ghosts b' = n_ghosts b.
Proof.
  intros H. destruct (slot (pacmans b) 0) as [pac|] eqn:Hpac.
  - destruct (move_pacman_effects _ _ _ _ _ _ _ _ _ Hpac H) as [pac' [F]].
    by destruct F as (_ & _ & _ & _ & ? & _ & ? & _).
  - unfold move_pacman in H. simpl in H. by rewrite Hpac in H.
Qed.

Lemma pacman_step_flag rnd pc b pc' b' :
  pacman_step rnd pc b = Some (pc', b') ->
  shutdown b' = shutdown b /\ n_ghosts b' = n_ghosts b.
Proof.
  destruct pc as [| |c play|r|v why]; simpl.
  - destruct (slot (pacmans b) 0) as [pac|]; [|done]. simpl.
    destruct (alive pac =? 0); by intros [= <- <-].
  - destruct (choose_command b) as [[[c play] b1]|] eqn:E; [|done]. simpl.
    intros [= <- <-]. by eapply choose_command_flag.
  - destruct (move_pacman b 0 c play rnd) as [[[r b1] c1]|] eqn:E; [|done]. simpl.
    apply move_pacman_flag in E.
    destruct (r =? REACHED_PORTAL); [by intros [= <- <-]|].
    destruct (r =? DEAD_PACMAN); by intros [= <- <-].
  - destruct (shutdown b =? 0); by intros [= <- <-].
  - by intros [= <- <-].
Qed.

Lemma pacman_step_done rnd retval why b :
  pacman_step rnd (PcDone retval why) b = Some (PcDone retval why, b).
Proof. reflexivity. Qed.

Lemma listener_handle_flag n move b b' log ctl :
  listener_handle n move b = Some (b', log, ctl) ->
  n_ghosts b' = n_ghosts b /\ (shutdown b' = shutdown b \/ shutdown b' = 1).
Proof.
  unfold listener_handle.
  destruct (n <=? 0); [destruct (n =? 0); intros [= <- <- <-]; auto|].
  destruct (n <? sizeof_move_req_t); [intros [= <- <- <-]; auto|].
  destruct (op_code move =? OP_MOVE).
  - unfold write_mailbox. destruct (slot (pacmans b) 0) as [pac|]; [|done]. simpl.
    destruct (put_pacman b 0 _) as [b1|] eqn:E; [|done]. simpl. intros [= <- <- <-].
    apply put_pacman_Some in E as [_ ->]. auto.
  - destruct (op_code move =? OP_DISCONNECT); intros [= <- <- <-]; auto.
Qed.

Lemma ghost_turn_flag b gs i rnd r b' gs' c' :
  ghost_turn b gs i rnd = Some (r, b', gs', c') ->
  shutdown b' = shutdown b /\ n_ghosts b' = n_ghosts b.
Proof.
  unfold ghost_turn. destruct (slot gs i) as [g|]; [|done]. simpl.
  destruct (0 <? g_n_moves g); intros H; apply move_ghost_effects in H;
    destruct H as [[F _ _ _ _] _ _ _ _ _];
    by destruct F as (_ & _ & _ & _ & ? & _ & ? & _).
Qed.

(** *** The threads' sections and the runner *)

Lemma stage_le_refl s : stage_le s s.
Proof. by split. Qed.

Lemma step_pacman_le rnd s s' : step_pacman rnd s = Some s' -> stage_le s s'.
Proof.
  unfold step_pacman. destruct (s_pacman s) as [pc|] eqn:Ep.
  2:{ intros [= <-]. apply stage_le_refl. }
  destruct (pacman_step rnd pc (s_board s)) as [[pc' b']|] eqn:E; [|done]. simpl.
  intros [= <-]. pose proof (pacman_step_flag _ _ _ _ _ E) as [Hf Hn].
  split; simpl; try done.
  - congruence.
  - congruence.
  - intros retval why Hd. rewrite Ep in Hd. injection Hd as ->.
    rewrite pacman_step_done in E. congruence.
Qed.

Lemma step_listener_le n move s s' : step_listener n move s = Some s' -> stage_le s s'.
Proof.
  unfold step_listener. destruct (s_listener s) as [[| | |]|] eqn:El.
  - intros [= <-]. split; simpl; try done; congruence.
  - intros [= <-]. split; simpl; try done; congruence.
  - destruct (listener_handle n move (s_board s)) as [[[b' log] ctl]|] eqn:E; [|done].
    simpl. intros [= <-]. apply listener_handle_flag in E as [Hn Hf].
    split; simpl; try done; [|congruence]. intros H1. destruct Hf; congruence.
  - intros [= <-]. apply stage_le_refl.
  - intros [= <-]. apply stage_le_refl.
Qed.

Lemma send_update_le s s' : send_update s = Some s' -> stage_le s s'.
Proof.
  unfold send_update. destruct (s_notif_fd s =? -1); [intros [= <-]; apply stage_le_refl|].
  destruct (server_send_update (s_board s)); [|done]. simpl. intros [= <-]. by split.
Qed.

Lemma step_update_le s s' : step_update s = Some s' -> stage_le s s'.
Proof.
  unfold step_update. destruct (s_update s) as [[| |]|] eqn:Eu.
  - destruct (send_update s) as [s1|] eqn:E; [|done]. simpl. intros [= <-].
    apply send_update_le in E as [? ? ? ? ? ? ? ? ? ? ?].
    split; simpl; try done. congruence.
  - destruct (negb _).
    + intros [= <-]. split; simpl; done.
    + apply send_update_le.
  - intros [= <-]. apply stage_le_refl.
  - intros [= <-]. apply stage_le_refl.
Qed.

Lemma store_keeps_done (ts ts' : list ghost_pc) i v j :
  slot ts i <> Some GDone -> store ts i v = Some ts' ->
  slot ts j = Some GDone -> slot ts' j = Some GDone.
Proof.
  intros Hi [Hr ->]%store_Some Hj. apply slot_Some in Hj as [Hj0 Hj].
  apply slot_Some. split; [done|].
  destruct (decide (Z.to_nat i = Z.to_nat j)) as [E|Hne].
  - exfalso. apply Hi. apply slot_Some. split; [lia|]. by rewrite E.
  - by rewrite list_lookup_insert_ne.
Qed.

Lemma step_ghost_le i rnd s s' : step_ghost i rnd s = Some s' -> stage_le s s'.
Proof.
  unfold step_ghost. destruct (slot (s_ghost_threads s) i) as [[| |]|] eqn:Et.
  - destruct (store _ _ _) as [ts|] eqn:Es; [|done]. simpl. intros [= <-].
    split; simpl; try done.
    + apply store_Some in Es as [_ ->]. by rewrite length_insert.
    + intros j. eapply store_keeps_done; [|exact Es]. by rewrite Et.
  - destruct (ghost_turn _ _ _ _) as [[[[r b'] gs'] c']|] eqn:E; [|done]. simpl.
    destruct (store _ _ _) as [ts|] eqn:Es; [|done]. simpl. intros [= <-].
    apply ghost_turn_flag in E as [Hf Hn].
    split; simpl; try done.
    + congruence.
    + apply store_Some in Es as [_ ->]. by rewrite length_insert.
    + intros j. eapply store_keeps_done; [|exact Es]. by rewrite Et.
  - intros [= <-]. apply stage_le_refl.
  - intros [= <-]. apply stage_le_refl.
Qed.

Lemma runner_inv_le game_board s s' :
  runner_inv game_board s -> stage_le s s' -> runner_inv game_board s'.
Proof.
  intros [Hn Hc Hp Hcr Hpd Hf Hl Hu Hj] [Er Ec _ En Lf Lp Lpd Ll Lu Lt Lg].
  split; rewrite ?Er.
  - congruence.
  - congruence.
  - auto.
  - rewrite Lt. destruct (s_runner s); simpl in *; try done.
    all: try (apply length_zero_iff_nil; rewrite Lt; by rewrite Hcr).
  - intros H. destruct (Hpd H) as (v & why & E). exists v, why. auto.
  - auto.
  - unfold finished in *. auto.
  - unfold finished in *. auto.
  - destruct (s_runner s); try done.
    + destruct Hj as (? & ? & Hj). split; [done|]. split; [done|].
      intros j Hj'. apply Lg. by apply Hj.
    + destruct Hj as [Hj [why E]]. split; [|eauto].
      intros j Hj'. apply Lg. by apply Hj.
Qed.

Lemma ghost_calls_S f k :
  ghost_calls f (S k) = ghost_calls f k ++ [f (GhostThread (Z.of_nat k))].
Proof. unfold ghost_calls. by rewrite seq_S, fmap_app. Qed.

Lemma runner_inv_init game_board ghosts notif_fd req_fd :
  runner_inv game_board (stage_init game_board ghosts notif_fd req_fd).
Proof. split; simpl; try done; lia. Qed.

Ltac runner_goal Hp Hpd Hf Hl Hu :=
  simpl; try done; try lia;
  try (rewrite <- ?app_assoc; simpl; rewrite ?app_nil_r; done);
  try (intros ?;
       first [ lia | apply Hp; lia | apply Hpd; lia | apply Hf; lia
             | apply Hl; lia | apply Hu; lia | by eauto ]).

Lemma step_runner_inv game_board s s' :
  runner_inv game_board s -> step_runner s = Some s' -> runner_inv game_board s'.
Proof.
  intros Hinv. pose proof Hinv as [Hn Hc Hp Hcr Hpd Hf Hl Hu Hj]. unfold step_runner.
  destruct (s_runner s) as [| | | |i| | | | |i|r] eqn:Er; simpl in *.
  - intros [= <-]. split; simpl; rewrite ?Hc; runner_goal Hp Hpd Hf Hl Hu.
  - intros [= <-]. split; simpl; rewrite ?Hc; runner_goal Hp Hpd Hf Hl Hu.
  - intros [= <-]. split; simpl; rewrite ?Hc; runner_goal Hp Hpd Hf Hl Hu.
  - intros [= <-]. split; simpl; rewrite ?Hc; runner_goal Hp Hpd Hf Hl Hu.
    rewrite Hcr. simpl. lia.
  - rewrite Hn. destruct Hcr as (Hi & Hle & Hlen).
    destruct (Z.ltb_spec i (n_ghosts game_board)) as [Hlt|Hge]; intros [= <-].
    + split; simpl; rewrite ?Hc; runner_goal Hp Hpd Hf Hl Hu.
      * replace (Z.to_nat (i + 1)) with (S (Z.to_nat i)) by lia.
        rewrite ghost_calls_S, Z2Nat.id by done. by rewrite <- ?app_assoc.
      * rewrite length_app. simpl. lia.
    + assert (En : Z.to_nat i = Z.to_nat (n_ghosts game_board)) by lia.
      split; simpl; rewrite ?Hc; runner_goal Hp Hpd Hf Hl Hu. by rewrite En.
  - destruct (s_pacman s) as [[| | | |v why]|] eqn:Ep; intros [= <-]; try exact Hinv.
    split; simpl; rewrite ?Hc; runner_goal Hp Hpd Hf Hl Hu.
  - intros [= <-]. split; simpl; rewrite ?Hc; runner_goal Hp Hpd Hf Hl Hu.
  - destruct (s_listener s) as [[| | |]|] eqn:El; intros [= <-]; try exact Hinv.
    split; simpl; rewrite ?Hc; runner_goal Hp Hpd Hf Hl Hu.
  - destruct (s_update s) as [[| |]|] eqn:Eu; intros [= <-]; try exact Hinv.
    split; simpl; rewrite ?Hc; runner_goal Hp Hpd Hf Hl Hu.
    split; [lia|]. split; [lia|]. intros j Hj'. lia.
  - rewrite Hn. destruct Hj as (Hi & Hle & Hdone).
    destruct (Z.ltb_spec i (n_ghosts game_board)) as [Hlt|Hge].
    + destruct (slot (s_ghost_threads s) i) as [[| |]|] eqn:Et; simpl;
        intros [= <-]; try exact Hinv.
      split; simpl; rewrite ?Hc; runner_goal Hp Hpd Hf Hl Hu.
      * replace (Z.to_nat (i + 1)) with (S (Z.to_nat i)) by lia.
        rewrite ghost_calls_S, Z2Nat.id by done. by rewrite <- ?app_assoc.
      * split; [lia|]. split; [lia|]. intros j Hj.
        destruct (decide (j = i)) as [->|]; [done|]. apply Hdone. lia.
    + assert (En : Z.to_nat i = Z.to_nat (n_ghosts game_board)) by lia.
      destruct (s_pacman s) as [[| | | |v why]|] eqn:Ep; intros [= <-].
      split; simpl; rewrite ?Hc; runner_goal Hp Hpd Hf Hl Hu.
      * by rewrite En.
      * split; [|eauto]. intros j Hj. apply Hdone. lia.
  - intros [= <-]. exact Hinv.
Qed.

Lemma stage_step_inv game_board t s s' :
  runner_inv game_board s -> stage_step t s = Some s' -> runner_inv game_board s'.
Proof.
  intros Hinv. destruct t as [|rnd|n move| |i rnd]; simpl.
  - by apply step_runner_inv.
  - intros H%step_pacman_le. by eapply runner_inv_le.
  - intros H%step_listener_le. by eapply runner_inv_le.
  - intros H%step_update_le. by eapply runner_inv_le.
  - intros H%step_ghost_le. by eapply runner_inv_le.
Qed.

Lemma run_stage_inv game_board sched : forall s s',
  runner_inv game_board s -> run_stage sched s = Some s' -> runner_inv game_board s'.
Proof.
  induction sched as [|t sched IH]; simpl; intros s s' Hinv.
  - by intros [= <-].
  - destruct (stage_step t s) as [s1|] eqn:E; [|done]. simpl.
    apply IH. by eapply stage_step_inv.
Qed.

(** The history of calls only grows. *)
Ltac runner_case :=
  let H := fresh in
  simpl; intros H; try discriminate H; injection H as <-; simpl.

Lemma stage_step_calls t s s' :
  stage_step t s = Some s' -> s_calls s `prefix_of` s_calls s'.
Proof.
  destruct t as [|rnd|n move| |i rnd]; simpl.
  - unfold step_runner.
    destruct (s_runner s) as [| | | |i| | | | |i|r]; simpl.
    + runner_case. by apply prefix_app_r.
    + runner_case. by apply prefix_app_r.
    + runner_case. by apply prefix_app_r.
    + runner_case. by apply prefix_app_r.
    + destruct (i <? _); runner_case; [by apply prefix_app_r|done].
    + destruct (s_pacman s) as [[]|]; runner_case; try done. by apply prefix_app_r.
    + runner_case. by apply prefix_app_r.
    + destruct (s_listener s) as [[]|]; runner_case; try done. by apply prefix_app_r.
    + destruct (s_update s) as [[]|]; runner_case; try done. by apply prefix_app_r.
    + destruct (i <? _).
      * destruct (slot (s_ghost_threads s) i) as [[]|]; runner_case; try done.
        by apply prefix_app_r.
      * destruct (s_pacman s) as [[]|]; runner_case; done.
    + runner_case. done.
  - intros [_ -> _ _ _ _ _ _ _ _ _]%step_pacman_le. done.
  - intros [_ -> _ _ _ _ _ _ _ _ _]%step_listener_le. done.
  - intros [_ -> _ _ _ _ _ _ _ _ _]%step_update_le. done.
  - intros [_ -> _ _ _ _ _ _ _ _ _]%step_ghost_le. done.
Qed.

Lemma run_stage_calls sched : forall s s',
  run_stage sched s = Some s' -> s_calls s `prefix_of` s_calls s'.
Proof.
  induction sched as [|t sched IH]; simpl; intros s s'.
  - by intros [= <-].
  - destruct (stage_step t s) as [s1|] eqn:E; [|done]. simpl. intros H.
    etrans; [by eapply stage_step_calls | by apply IH].
Qed.

(** Once the pacman thread has returned, nothing changes its exit
    value. *)
Lemma stage_step_pacman_done game_board t s s' retval why :
  runner_inv game_board s -> stage_step t s = Some s' ->
  s_pacman s = Some (PcDone retval why) ->
  s_pacman s' = Some (PcDone retval why).
Proof.
  intros Hinv H Hp. destruct t as [|rnd|n move| |i rnd]; simpl in H.
  - pose proof (ri_pacman_none _ _ Hinv) as Hnone. revert H. unfold step_runner.
    destruct (s_runner s) as [| | | |i| | | | |i|r]; simpl in *;
      try (rewrite Hnone in Hp by lia; discriminate Hp).
    + runner_case. done.
    + destruct (i <? _); runner_case; done.
    + rewrite Hp. runner_case. done.
    + runner_case. done.
    + destruct (s_listener s) as [[]|]; runner_case; done.
    + destruct (s_update s) as [[]|]; runner_case; done.
    + destruct (i <? _).
      * destruct (slot (s_ghost_threads s) i) as [[]|]; runner_case; done.
      * rewrite Hp. runner_case. done.
    + runner_case. done.
  - apply step_pacman_le in H. by apply (le_pacman_done _ _ H).
  - apply step_listener_le in H. by apply (le_pacman_done _ _ H).
  - apply step_update_le in H. by apply (le_pacman_done _ _ H).
  - apply step_ghost_le in H. by apply (le_pacman_done _ _ H).
Qed.

(** *** The pacman thread's sections in a run *)

Lemma snoc_split {A} (l : list A) x before y after :
  l ++ [x] = before ++ y :: after ->
  (after = [] /\ before = l /\ y = x) \/
  (exists after', after = after' ++ [x] /\ l = before ++ y :: after').
Proof.
  destruct after as [|z after _] using rev_ind.
  - intros [-> ->]%app_inj_tail. by left.
  - rewrite app_comm_cons, app_assoc. intros [-> ->]%app_inj_tail. right. eauto.
Qed.

Lemma pacman_ran_mono sched t s0 pc b rnd :
  pacman_ran sched s0 pc b rnd -> pacman_ran (sched ++ [t]) s0 pc b rnd.
Proof.
  intros (before & after & s1 & -> & H). exists before, (after ++ [t]), s1.
  split; [|done]. by rewrite <- app_assoc.
Qed.

Lemma pacman_ran_last sched s0 s1 pc rnd :
  run_stage sched s0 = Some s1 -> s_pacman s1 = Some pc ->
  pacman_ran (sched ++ [OfPacman rnd]) s0 pc (s_board s1) rnd.
Proof. intros Hr Hp. by exists sched, [], s1. Qed.

Lemma pacman_ran_snoc sched t s0 pc b rnd :
  pacman_ran (sched ++ [t]) s0 pc b rnd ->
  pacman_ran sched s0 pc b rnd \/
  (t = OfPacman rnd /\
   exists s1, run_stage sched s0 = Some s1 /\ s_pacman s1 = Some pc /\ s_board s1 = b).
Proof.
  intros (before & after & s1 & E & Hr & Hp & Hb).
  apply snoc_split in E as [(-> & -> & <-)|(after' & -> & ->)].
  - right. eauto.
  - left. by exists before, after', s1.
Qed.

Lemma move_returned_mono sched t s0 r :
  move_returned sched s0 r -> move_returned (sched ++ [t]) s0 r.
Proof.
  intros (c & play & b & rnd & b' & c' & H & E).
  exists c, play, b, rnd, b', c'. split; [by apply pacman_ran_mono|done].
Qed.

Lemma found_dead_mono sched t s0 :
  found_dead sched s0 -> found_dead (sched ++ [t]) s0.
Proof.
  intros (b & rnd & pac & H & E). exists b, rnd, pac.
  split; [by apply pacman_ran_mono|done].
Qed.

Lemma found_flag_mono sched t s0 r :
  found_flag sched s0 r -> found_flag (sched ++ [t]) s0 r.
Proof.
  intros (b & rnd & H & E). exists b, rnd. split; [by apply pacman_ran_mono|done].
Qed.

Lemma exit_story_mono sched t s0 retval :
  exit_story sched s0 retval -> exit_story (sched ++ [t]) s0 retval.
Proof.
  intros [[? ?]|[[? [?|?]]|[? (r & ? & ? & ? & ?)]]].
  - left. auto using move_returned_mono.
  - right. left. auto using move_returned_mono.
  - right. left. auto using found_dead_mono.
  - right. right. split; [done|]. exists r.
    auto using move_returned_mono, found_flag_mono.
Qed.

Lemma pacman_story_mono sched t s0 s s' :
  s_pacman s' = s_pacman s ->
  pacman_story sched s0 s -> pacman_story (sched ++ [t]) s0 s'.
Proof.
  unfold pacman_story. intros ->. destruct (s_pacman s) as [[| | |r|v why]|]; try done.
  - intros (? & ? & ?). auto using move_returned_mono.
  - apply exit_story_mono.
Qed.

(** A turn of another thread leaves the pacman thread where it is, or
    creates it. *)
Lemma stage_step_pacman_other t s s' :
  stage_step t s = Some s' -> (forall rnd, t <> OfPacman rnd) ->
  s_pacman s' = s_pacman s \/ s_pacman s' = Some PcTop.
Proof.
  intros H Ht. destruct t as [|rnd|n move| |i rnd]; simpl in H.
  - revert H. unfold step_runner.
    destruct (s_runner s) as [| | | |i| | | | |i|r]; simpl.
    + runner_case. by left.
    + runner_case. by left.
    + runner_case. by right.
    + runner_case. by left.
    + destruct (i <? _); runner_case; by left.
    + destruct (s_pacman s) as [[]|] eqn:?; runner_case; by left.
    + runner_case. by left.
    + destruct (s_listener s) as [[]|]; runner_case; by left.
    + destruct (s_update s) as [[]|]; runner_case; by left.
    + destruct (i <? _).
      * destruct (slot (s_ghost_threads s) i) as [[]|]; runner_case; by left.
      * destruct (s_pacman s) as [[]|] eqn:?; runner_case; by left.
    + runner_case. by left.
  - by destruct (Ht rnd).
  - left. revert H. unfold step_listener.
    destruct (s_listener s) as [[]|]; try (by runner_case).
    destruct (listener_handle _ _ _) as [[[? ?] ?]|]; by runner_case.
  - left. revert H. unfold step_update, send_update.
    destruct (s_update s) as [[]|]; try (by runner_case).
    + destruct (s_notif_fd s =? -1); [by runner_case|].
      destruct (server_send_update _); by runner_case.
    + destruct (negb _); [by runner_case|].
      destruct (s_notif_fd s =? -1); [by runner_case|].
      destruct (server_send_update _); by runner_case.
  - left. revert H. unfold step_ghost.
    destruct (slot (s_ghost_threads s) i) as [[]|]; try (by runner_case).
    + destruct (store _ _ _); by runner_case.
    + destruct (ghost_turn _ _ _ _) as [[[[? ?] ?] ?]|]; [|by runner_case]. simpl.
      destruct (store _ _ _); by runner_case.
Qed.

Lemma pacman_story_step sched t s0 s s' :
  run_stage sched s0 = Some s -> stage_step t s = Some s' ->
  pacman_story sched s0 s -> pacman_story (sched ++ [t]) s0 s'.
Proof.
  intros Hr Hs IH.
  assert (Hcase : (exists rnd, t = OfPacman rnd) \/ forall rnd, t <> OfPacman rnd)
    by (destruct t; eauto).
  destruct Hcase as [[rnd ->]|Hother].
  2:{ destruct (stage_step_pacman_other _ _ _ Hs Hother) as [E|E].
      - by apply (pacman_story_mono _ _ _ s).
      - unfold pacman_story. by rewrite E. }
  simpl in Hs. unfold step_pacman in Hs.
  destruct (s_pacman s) as [pc|] eqn:Ep.
  2:{ injection Hs as <-. unfold pacman_story. by rewrite Ep. }
  pose proof (pacman_ran_last sched s0 s pc rnd Hr Ep) as Hlast.
  destruct (pacman_step rnd pc (s_board s)) as [[pc' b']|] eqn:E; [|done].
  simpl in Hs. injection Hs as <-. unfold pacman_story in *. rewrite Ep in IH. simpl.
  destruct pc as [| |c play|r|v why]; simpl in E.
  - destruct (slot (pacmans (s_board s)) 0) as [pac|] eqn:Hpac; [|done]. simpl in E.
    destruct (Z.eqb_spec (alive pac) 0) as [Ha|_]; injection E as <- <-; [|done].
    right. left. split; [done|]. right. by exists (s_board s), rnd, pac.
  - destruct (choose_command (s_board s)) as [[[c play] b1]|]; [|done].
    by injection E as <- <-.
  - destruct (move_pacman (s_board s) 0 c play rnd) as [[[r b1] c1]|] eqn:Em; [|done].
    simpl in E.
    assert (Hm : move_returned (sched ++ [OfPacman rnd]) s0 r).
    { by exists c, play, (s_board s), rnd, b1, c1. }
    destruct (Z.eqb_spec r REACHED_PORTAL) as [->|Hp].
    { injection E as <- <-. by left. }
    destruct (Z.eqb_spec r DEAD_PACMAN) as [->|Hd].
    { injection E as <- <-. right. left. split; [done|]. by left. }
    by injection E as <- <-.
  - destruct IH as (Hp & Hd & Hm).
    destruct (Z.eqb_spec (shutdown (s_board s)) 0) as [Hz|Hnz]; injection E as <- <-;
      [done|].
    right. right. split; [done|]. exists r. split; [done|]. split; [done|].
    split; [by apply move_returned_mono|]. by exists (s_board s), rnd.
  - injection E as <- <-. by apply exit_story_mono.
Qed.

Lemma run_stage_story sched : forall s0 s,
  s_pacman s0 = None -> run_stage sched s0 = Some s -> pacman_story sched s0 s.
Proof.
  induction sched as [|t sched IH] using rev_ind; intros s0 s H0.
  - simpl. intros [= <-]. unfold pacman_story. by rewrite H0.
  - rewrite run_stage_snoc. destruct (run_stage sched s0) as [s1|] eqn:E; [|done].
    simpl. intros Hs. eapply pacman_story_step; eauto.
Qed.

(** A section that left the loop decides the thread's exit value for
    good. *)
Lemma pacman_exit_kept game_board sched : forall s0 s pc b rnd retval why b',
  runner_inv game_board s0 ->
  run_stage sched s0 = Some s ->
  pacman_ran sched s0 pc b rnd ->
  pacman_step rnd pc b = Some (PcDone retval why, b') ->
  s_pacman s = Some (PcDone retval why).
Proof.
  induction sched as [|t sched IH] using rev_ind;
    intros s0 s pc b rnd retval why b' Hinv Hr Hran Hstep.
  - destruct Hran as (before & after & ? & E & _). by destruct before.
  - rewrite run_stage_snoc in Hr.
    destruct (run_stage sched s0) as [s1|] eqn:E; [|done]. simpl in Hr.
    apply pacman_ran_snoc in Hran as [Hran|(-> & s1' & E' & Hp & Hb)].
    + eapply stage_step_pacman_done; [by eapply run_stage_inv|exact Hr|].
      by eapply IH.
    + rewrite E in E'. injection E' as <-. simpl in Hr. unfold step_pacman in Hr.
      rewrite Hp, Hb, Hstep in Hr. simpl in Hr. by injection Hr as <-.
Qed.

(** *** The history of calls *)

Lemma ghost_calls_elem f n e :
  e ∈ ghost_calls f n <-> exists k, (k < n)%nat /\ e = f (GhostThread (Z.of_nat k)).
Proof.
  unfold ghost_calls. rewrite list_elem_of_fmap. split.
  - intros (k & -> & Hk%elem_of_seq). exists k. split; [lia|done].
  - intros (k & Hk & ->). exists k. split; [done|]. apply elem_of_seq. lia.
Qed.

Ltac calls_elems H :=
  unfold first_calls in H;
  repeat first [ rewrite elem_of_app in H | rewrite elem_of_cons in H
               | rewrite elem_of_nil in H | rewrite ghost_calls_elem in H ];
  repeat match type of H with
         | _ \/ _ => destruct H as [H|H]
         | False => destruct H
         | exists _, _ => destruct H as [? H]
         | _ /\ _ => destruct H as [? H]
         end;
  try discriminate H.

Lemma calls_at_join n pc t :
  Join t ∈ calls_at n pc ->
  match t with
  | PacmanThread => (6 <= phase pc)%nat
  | ListenerThread => (8 <= phase pc)%nat
  | UpdateThread => (9 <= phase pc)%nat
  | GhostThread j =>
      (exists i k, pc = RJoinGhost i /\ (k < Z.to_nat i)%nat /\ j = Z.of_nat k) \/
      (exists r k, pc = RReturned r /\ (k < n)%nat /\ j = Z.of_nat k)
  end.
Proof.
  intros H. destruct pc; simpl in *; calls_elems H; injection H as ->; try lia.
  - left. eauto.
  - right. eauto.
Qed.

Lemma calls_at_set n pc : SetShutdown ∈ calls_at n pc -> (7 <= phase pc)%nat.
Proof.
  intros H. destruct pc; simpl in *; calls_elems H; lia.
Qed.

Lemma calls_at_joined n pc :
  (6 <= phase pc)%nat -> Join PacmanThread ∈ calls_at n pc.
Proof.
  intros H. destruct pc; simpl in *; try lia; unfold first_calls;
    repeat first [rewrite elem_of_app | rewrite elem_of_cons]; tauto.
Qed.

Lemma calls_at_flagged n pc :
  (7 <= phase pc)%nat -> SetShutdown ∈ calls_at n pc.
Proof.
  intros H. destruct pc; simpl in *; try lia; unfold first_calls;
    repeat first [rewrite elem_of_app | rewrite elem_of_cons]; tauto.
Qed.

Lemma pacman_step_portal rnd c play b b' c' :
  move_pacman b 0 c play rnd = Some (REACHED_PORTAL, b', c') ->
  pacman_step rnd (PcMove c play) b
  = Some (PcDone NEXT_LEVEL (AfterMove REACHED_PORTAL), b').
Proof. simpl. by intros ->. Qed.

Lemma pacman_step_dead rnd c play b b' c' :
  move_pacman b 0 c play rnd = Some (DEAD_PACMAN, b', c') ->
  pacman_step rnd (PcMove c play) b
  = Some (PcDone LOAD_BACKUP (AfterMove DEAD_PACMAN), b').
Proof. simpl. by intros ->. Qed.

Lemma pacman_step_found_dead rnd b pacman :
  slot (pacmans b) 0 = Some pacman -> alive pacman = 0 ->
  pacman_step rnd PcTop b = Some (PcDone LOAD_BACKUP DeadAtTop, b).
Proof. simpl. intros -> Ha. simpl. by rewrite Ha. Qed.

Lemma pacman_step_flagged rnd r b :
  shutdown b <> 0 ->
  pacman_step rnd (PcCheck r) b = Some (PcDone QUIT_GAME (FlagAfterMove r), b).
Proof. simpl. intros H. by destruct (Z.eqb_spec (shutdown b) 0). Qed.

Section Run.
Variables (sched : list turn) (game_board : board_t) (ghosts : list ghost_t).
Variables (notif_fd req_fd : Z) (s : stage).
Let s0 := stage_init game_board ghosts notif_fd req_fd.
Hypothesis Hrun : run_stage sched s0 = Some s.

Lemma run_inv : runner_inv game_board s.
Proof. eapply run_stage_inv; [apply runner_inv_init|exact Hrun]. Qed.

Lemma portal_exits :
  move_returned sched s0 REACHED_PORTAL ->
  exists why, s_pacman s = Some (PcDone NEXT_LEVEL why).
Proof.
  intros (c & play & b & rnd & b' & c' & Hran & Hm). eexists.
  eapply pacman_exit_kept; [apply runner_inv_init|exact Hrun|exact Hran|].
  by eapply pacman_step_portal.
Qed.

Lemma death_exits :
  move_returned sched s0 DEAD_PACMAN \/ found_dead sched s0 ->
  exists why, s_pacman s = Some (PcDone LOAD_BACKUP why).
Proof.
  intros [(c & play & b & rnd & b' & c' & Hran & Hm)|(b & rnd & pac & Hran & Hp & Ha)];
    eexists;
    (eapply pacman_exit_kept; [apply runner_inv_init|exact Hrun|exact Hran|]).
  - by eapply pacman_step_dead.
  - by eapply pacman_step_found_dead.
Qed.

Lemma flag_exits r :
  found_flag sched s0 r -> exists why, s_pacman s = Some (PcDone QUIT_GAME why).
Proof.
  intros (b & rnd & Hran & Hf). eexists.
  eapply pacman_exit_kept; [apply runner_inv_init|exact Hrun|exact Hran|].
  by apply pacman_step_flagged.
Qed.

Lemma exit_value_story retval why :
  s_pacman s = Some (PcDone retval why) -> exit_story sched s0 retval.
Proof.
  intros Hp. pose proof (run_stage_story sched s0 s eq_refl Hrun) as H.
  unfold pacman_story in H. by rewrite Hp in H.
Qed.
End Run.

(** C3.  [run_game_logic] with its threads, under every interleaving
    of their atomic sections.  The value the call returns is the exit
    value of the pacman thread, read after the join: [NEXT_LEVEL]
    exactly when a [move_pacman] of the run returned [REACHED_PORTAL],
    [LOAD_BACKUP] exactly when one returned [DEAD_PACMAN] or the thread
    found its pacman dead at the top of the loop, [QUIT_GAME] exactly
    when the thread found [shutdown] set after a move with another
    result; the thread has left its loop only on one of these events,
    and after another result with [shutdown] clear it is back at the
    top of the loop.  The runner's calls: a join has returned only
    when its thread had finished; when the runner has set [shutdown]
    the pacman thread is joined and the flag is 1; the listener, the
    broadcaster and the ghosts are joined only after that; the history
    of calls only grows.  When the call has returned, [shutdown] is 1,
    every thread has finished, and the calls were: clear the flag,
    create the broadcaster, the pacman thread, the listener and one
    thread per ghost, join the pacman thread, set the flag, join the
    listener, the broadcaster and each ghost thread. *)
Theorem run_game_logic_outcome sched game_board ghosts notif_fd req_fd ret s :
  run_game_logic sched game_board ghosts notif_fd req_fd = Some (ret, s) ->
  let s0 := stage_init game_board ghosts notif_fd req_fd in
  let n := Z.to_nat (n_ghosts game_board) in
  (forall retval why,
     s_pacman s = Some (PcDone retval why) ->
     (retval = NEXT_LEVEL <-> move_returned sched s0 REACHED_PORTAL) /\
     (retval = LOAD_BACKUP <->
      move_returned sched s0 DEAD_PACMAN \/ found_dead sched s0) /\
     (retval = QUIT_GAME <->
      exists r, r <> REACHED_PORTAL /\ r <> DEAD_PACMAN /\
                move_returned sched s0 r /\ found_flag sched s0 r)) /\
  ((exists retval why, s_pacman s = Some (PcDone retval why)) <->
   move_returned sched s0 REACHED_PORTAL \/ move_returned sched s0 DEAD_PACMAN \/
   found_dead sched s0 \/ exists r, found_flag sched s0 r) /\
  (forall before after s1 rnd r,
     sched = before ++ OfPacman rnd :: after ->
     run_stage before s0 = Some s1 ->
     s_pacman s1 = Some (PcCheck r) -> shutdown (s_board s1) = 0 ->
     exists s2,
       run_stage (before ++ [OfPacman rnd]) s0 = Some s2 /\
       s_pacman s2 = Some PcTop /\ s_board s2 = s_board s1) /\
  (Join PacmanThread ∈ s_calls s ->
   exists retval why, s_pacman s = Some (PcDone retval why)) /\
  (Join ListenerThread ∈ s_calls s -> s_listener s = Some LDone) /\
  (Join UpdateThread ∈ s_calls s -> s_update s = Some UDone) /\
  (forall i, Join (GhostThread i) ∈ s_calls s ->
     slot (s_ghost_threads s) i = Some GDone) /\
  (SetShutdown ∈ s_calls s ->
   Join PacmanThread ∈ s_calls s /\ shutdown (s_board s) = 1) /\
  (forall t, Join t ∈ s_calls s -> t <> PacmanThread -> SetShutdown ∈ s_calls s) /\
  (forall before after s1,
     sched = before ++ after -> run_stage before s0 = Some s1 ->
     s_calls s1 `prefix_of` s_calls s) /\
  (forall result,
     ret = Some result ->
     (exists why, s_pacman s = Some (PcDone result why)) /\
     (result = NEXT_LEVEL <-> move_returned sched s0 REACHED_PORTAL) /\
     (result = LOAD_BACKUP <->
      move_returned sched s0 DEAD_PACMAN \/ found_dead sched s0) /\
     (result = QUIT_GAME <->
      exists r, r <> REACHED_PORTAL /\ r <> DEAD_PACMAN /\
                move_returned sched s0 r /\ found_flag sched s0 r) /\
     shutdown (s_board s) = 1 /\
     s_listener s = Some LDone /\ s_update s = Some UDone /\
     (forall i, 0 <= i < n_ghosts game_board ->
        slot (s_ghost_threads s) i = Some GDone) /\
     s_calls s =
       [ClearShutdown; Create UpdateThread; Create PacmanThread;
        Create ListenerThread]
       ++ ((fun k : nat => Create (GhostThread (Z.of_nat k))) <$> seq 0 n)
       ++ [Join PacmanThread; SetShutdown; Join ListenerThread; Join UpdateThread]
       ++ ((fun k : nat => Join (GhostThread (Z.of_nat k))) <$> seq 0 n)).
Proof.
  intros Hrun s0 n. unfold run_game_logic in Hrun. fold s0 in Hrun.
  destruct (run_stage sched s0) as [s'|] eqn:Hrun'; [|done]. simpl in Hrun.
  injection Hrun as <- ->. rename Hrun' into Hrun.
  pose proof (run_inv _ _ _ _ _ _ Hrun) as Hinv.
  pose proof Hinv as [Hn Hc Hp Hcr Hpd Hf Hl Hu Hj].
  assert (Hone : forall retval why,
    s_pacman s = Some (PcDone retval why) ->
    (retval = NEXT_LEVEL <-> move_returned sched s0 REACHED_PORTAL) /\
    (retval = LOAD_BACKUP <->
     move_returned sched s0 DEAD_PACMAN \/ found_dead sched s0) /\
    (retval = QUIT_GAME <->
     exists r, r <> REACHED_PORTAL /\ r <> DEAD_PACMAN /\
               move_returned sched s0 r /\ found_flag sched s0 r)).
  { intros retval why Hdone.
    pose proof (exit_value_story _ _ _ _ _ _ Hrun _ _ Hdone) as Hstory.
    split; [|split]; split.
    - intros ->. destruct Hstory as [[_ ?]|[[[=] _]|[[=] _]]]. done.
    - intros H. destruct (portal_exits _ _ _ _ _ _ Hrun H) as [why' E]. congruence.
    - intros ->. destruct Hstory as [[[=] _]|[[_ ?]|[[=] _]]]. done.
    - intros H. destruct (death_exits _ _ _ _ _ _ Hrun H) as [why' E]. congruence.
    - intros ->. destruct Hstory as [[[=] _]|[[[=] _]|[_ ?]]]. done.
    - intros (r & _ & _ & _ & H).
      destruct (flag_exits _ _ _ _ _ _ Hrun r H) as [why' E]. congruence. }
  assert (Hjoin : forall t, Join t ∈ s_calls s -> finished t s).
  { intros t Ht. rewrite Hc in Ht. apply calls_at_join in Ht.
    destruct t as [| | |j]; simpl; [by apply Hu|by apply Hpd|by apply Hl|].
    destruct Ht as [(i & k & E & Hk & ->)|(r & k & E & Hk & ->)]; rewrite E in Hj.
    - destruct Hj as (_ & _ & Hj). apply Hj. lia.
    - destruct Hj as [Hj _]. apply Hj. lia. }
  split; [exact Hone|].
  split; [|split; [|split; [|split; [|split; [|split; [|split; [|split; [|split]]]]]]]].
  - split.
    + intros (retval & why & Hdone).
      destruct (exit_value_story _ _ _ _ _ _ Hrun _ _ Hdone)
        as [[_ ?]|[[_ [?|?]]|[_ (r & _ & _ & _ & ?)]]]; eauto 6.
    + intros [H|[H|[H|[r H]]]].
      * destruct (portal_exits _ _ _ _ _ _ Hrun H) as [why E]. by eexists _, _.
      * destruct (death_exits _ _ _ _ _ _ Hrun (or_introl H)) as [why E].
        by eexists _, _.
      * destruct (death_exits _ _ _ _ _ _ Hrun (or_intror H)) as [why E].
        by eexists _, _.
      * destruct (flag_exits _ _ _ _ _ _ Hrun r H) as [why E]. by eexists _, _.
  - intros before after s1 rnd r -> Hr1 Hp1 Hz.
    rewrite run_stage_snoc, Hr1. simpl. unfold step_pacman. rewrite Hp1. simpl.
    rewrite Hz. simpl. eauto.
  - exact (Hjoin PacmanThread).
  - exact (Hjoin ListenerThread).
  - exact (Hjoin UpdateThread).
  - intros i. exact (Hjoin (GhostThread i)).
  - intros Hs. rewrite Hc in Hs. apply calls_at_set in Hs.
    split; [rewrite Hc; apply calls_at_joined; lia | by apply Hf].
  - intros t Ht Hne. rewrite Hc in Ht. apply calls_at_join in Ht.
    rewrite Hc. apply calls_at_flagged.
    destruct t as [| | |j]; try lia; [done|].
    destruct Ht as [(i & k & -> & _)|(r & k & -> & _)]; simpl; lia.
  - intros before after s1 -> Hr1. rewrite run_stage_app, Hr1 in Hrun. simpl in Hrun.
    by eapply run_stage_calls.
  - intros result Er. unfold returned in Er.
    destruct (s_runner s) eqn:Er'; try discriminate Er. injection Er as ->.
    simpl in *. destruct Hj as [Hj [why E]].
    split; [eauto|]. destruct (Hone _ _ E) as (H1 & H2 & H3).
    split; [exact H1|]. split; [exact H2|]. split; [exact H3|].
    split; [apply Hf; lia|]. split; [apply Hl; lia|].
    split; [apply Hu; lia|]. split; [exact Hj|]. exact Hc.
Qed.

Lemma demo_returned_reached :
  run_game_logic demo_stage_sched (demo_board NO_MOVE) [demo_ghost] 3 4
  = Some (Some NEXT_LEVEL, demo_returned).
Proof. vm_compute. reflexivity. Qed.

Lemma run_game_logic_outcome_witness :
  run_game_logic demo_stage_sched (demo_board NO_MOVE) [demo_ghost] 3 4
  = Some (Some NEXT_LEVEL, demo_returned) /\
  move_returned demo_stage_sched
    (stage_init (demo_board NO_MOVE) [demo_ghost] 3 4) REACHED_PORTAL /\
  shutdown (s_board demo_returned) = 1 /\
  s_calls demo_returned
  = [ClearShutdown; Create UpdateThread; Create PacmanThread;
     Create ListenerThread; Create (GhostThread 0);
     Join PacmanThread; SetShutdown; Join ListenerThread; Join UpdateThread;
     Join (GhostThread 0)].
Proof.
  split; [exact demo_returned_reached|].
  destruct (run_game_logic_outcome _ _ _ _ _ _ _ demo_returned_reached)
    as (_ & _ & _ & _ & _ & _ & _ & _ & _ & _ & Hret).
  destruct (Hret NEXT_LEVEL eq_refl)
    as (_ & Hportal & _ & _ & Hflag & _ & _ & _ & Hcalls).
  split; [exact (proj1 Hportal eq_refl)|].
  split; [exact Hflag | exact Hcalls].
Defined.

(** A turn of another thread leaves the listener where it is. *)
Lemma stage_step_listener_other t s s' :
  stage_step t s = Some s' -> (forall n move, t <> OfListener n move) ->
  s_runner s <> RCreateListener ->
  s_listener s' = s_listener s.
Proof.
  intros H Ht Hr. destruct t as [|rnd|n move| |i rnd]; simpl in H.
  - revert H. unfold step_runner.
    destruct (s_runner s) as [| | | |i| | | | |i|r]; simpl; try done.
    + by runner_case.
    + by runner_case.
    + by runner_case.
    + destruct (i <? _); by runner_case.
    + destruct (s_pacman s) as [[]|]; by runner_case.
    + by runner_case.
    + destruct (s_listener s) as [[]|] eqn:?; by runner_case.
    + destruct (s_update s) as [[]|]; by runner_case.
    + destruct (i <? _).
      * destruct (slot (s_ghost_threads s) i) as [[]|]; by runner_case.
      * destruct (s_pacman s) as [[]|]; by runner_case.
    + by runner_case.
  - revert H. unfold step_pacman. destruct (s_pacman s); [|by runner_case].
    destruct (pacman_step _ _ _) as [[? ?]|]; by runner_case.
  - by destruct (Ht n move).
  - revert H. unfold step_update, send_update.
    destruct (s_update s) as [[]|]; try (by runner_case).
    + destruct (s_notif_fd s =? -1); [by runner_case|].
      destruct (server_send_update _); by runner_case.
    + destruct (negb _); [by runner_case|].
      destruct (s_notif_fd s =? -1); [by runner_case|].
      destruct (server_send_update _); by runner_case.
  - revert H. unfold step_ghost.
    destruct (slot (s_ghost_threads s) i) as [[]|]; try (by runner_case).
    + destruct (store _ _ _); by runner_case.
    + destruct (ghost_turn _ _ _ _) as [[[[? ?] ?] ?]|]; [|by runner_case]. simpl.
      destruct (store _ _ _); by runner_case.
Qed.

(** [run_game_logic] does not return while the listener sits in its
    [read]: whatever the other threads do, the runner stays in
    [pthread_join(listener_tid)] until that [read] returns. *)
Lemma join_listener_waits sched : forall s s',
  s_runner s = RJoinListener -> s_listener s = Some LRead ->
  (forall n move, OfListener n move ∉ sched) ->
  run_stage sched s = Some s' ->
  s_runner s' = RJoinListener /\ s_listener s' = Some LRead /\ returned s' = None.
Proof.
  induction sched as [|t sched IH]; simpl; intros s s' Hr Hl Hno.
  - intros [= <-]. unfold returned. by rewrite Hr.
  - destruct (stage_step t s) as [s1|] eqn:E; [|done]. simpl.
    assert (Ht : forall n move, t <> OfListener n move).
    { intros n move ->. apply (Hno n move). apply elem_of_cons. by left. }
    assert (Hl1 : s_listener s1 = Some LRead).
    { rewrite (stage_step_listener_other _ _ _ E Ht); [done|]. by rewrite Hr. }
    assert (Hr1 : s_runner s1 = RJoinListener).
    { destruct t as [|rnd|n move| |i rnd]; simpl in E.
      - unfold step_runner in E. rewrite Hr, Hl in E. by injection E as <-.
      - apply step_pacman_le in E as [-> _ _ _ _ _ _ _ _ _ _]. done.
      - by destruct (Ht n move).
      - apply step_update_le in E as [-> _ _ _ _ _ _ _ _ _ _]. done.
      - apply step_ghost_le in E as [-> _ _ _ _ _ _ _ _ _ _]. done. }
    apply IH; [done|done|]. intros n move Hin. apply (Hno n move).
    apply elem_of_cons. by right.
Qed.
End RunnerFacts.
